(** * fog-gt: coalition formation among fog providers

    A shallow embedding of the combinatorics utilities, the
    coalition-formation engine, the simulation driver and the reader of
    scenario files of fog-gt, with the properties of the specification
    that concern them.

    Conventions.
    - [std::size_t] sizes and indices of vectors are [nat]; every
      subtraction on them in the embedded code is guarded (by a constructor
      assertion or by a loop condition), which is recalled where it occurs.
    - The value of a [boost::dynamic_bitset<>] and coalition identifiers are
      [N]; truncation to the width of the bitset and the wrap-around of
      [unsigned long] are written out.
    - [RealT] is [double] in the program.  Finite values are rationals and
      arithmetic on them is exact (rounding is not modelled); the special
      values are constructors of [real_t].
    - A member function that throws returns [None] or an [outcome] with the
      exception in it. *)

From Stdlib Require Import ZArith NArith QArith Qabs Lia Lqa ZifyNat List Bool.
From stdpp Require Import gmap list strings.
Import ListNotations.

Local Open Scope nat_scope.

(** ** Loops *)

(** [for (i = lo; i < hi; ++i) s = body(i, s);] *)
Definition for_range {S : Type} (lo hi : nat) (body : nat -> S -> S) (s : S) : S :=
  fold_left (fun s i => body i s) (seq lo (hi - lo)) s.

(** [v[i]] on a [std::vector<std::size_t>]. *)
Definition vget (v : list nat) (i : nat) : nat := nth i v 0.

(** [v[i] = x]. *)
Definition vset (v : list nat) (i x : nat) : list nat := <[i := x]> v.

(** [for (j = a; j < b; ++j) v[j] = f(j);] *)
Definition fill (a b : nat) (f : nat -> nat) (v : list nat) : list nat :=
  for_range a b (fun j v => vset v j (f j)) v.

(** ** Exceptions *)

Inductive exception :=
  | invalid_argument
  | overflow_error
  | underflow_error
  | out_of_range
  | runtime_error.

(** The result of a call: a value, an exception that leaves the call, or a
    loop of the model that ran out of fuel. *)
Inductive outcome (A : Type) :=
  | Ok (a : A)
  | Throws (e : exception)
  | OutOfFuel.

Arguments Ok {A} a.
Arguments Throws {A} e.
Arguments OutOfFuel {A}.

Definition bind {A B : Type} (c : outcome A) (k : A -> outcome B) : outcome B :=
  match c with
  | Ok a => k a
  | Throws e => Throws e
  | OutOfFuel => OutOfFuel
  end.

Notation "'let*' x ':=' c 'in' k" := (bind c (fun x => k))
  (at level 10, x pattern, c at level 100, k at level 200).

(** An optional result whose absence raises [e]. *)
Definition or_throw {A : Type} (e : exception) (o : option A) : outcome A :=
  match o with
  | Some a => Ok a
  | None => Throws e
  end.

(** ** dcs/algorithm/partition.hpp *)

Module Partition.

(** *** [lexicographic_partition] *)

Record lexicographic_partition := mk_partition {
  n_ : nat;
  kappa_ : list nat;
  M_ : list nat;
  has_prev_ : bool;
  has_next_ : bool
}.

(** The constructor; [None] is the [std::invalid_argument] of [n == 0]. *)
Definition make (n : nat) (first : bool) : option lexicographic_partition :=
  if n =? 0 then None
  else
    let zero := repeat 0 n in
    let '(kappa, M) :=
      if first then (zero, zero)
      else for_range 1 n (fun i '(k, m) => (vset k i i, vset m i i)) (zero, zero) in
    Some (mk_partition n kappa M false true).

Definition num_elements (p : lexicographic_partition) : nat := n_ p.

Definition num_subsets (p : lexicographic_partition) : nat :=
  vget (M_ p) (n_ p - 1) + 1.

(** The inner loop of [operator++]:
    [for (j = i + 1; j < n_; ++j) { kappa_[j] = 0; M_[j] = new_max; }] *)
Definition reset_tail (n i new_max : nat) (km : list nat * list nat)
  : list nat * list nat :=
  for_range (i + 1) n (fun j '(k, m) => (vset k j 0, vset m j new_max)) km.

(** The outer loop of [operator++], [for (i = n_-1; i > 0; --i)], entered at
    index [i]; [None] when it ends without reaching [break]. *)
Fixpoint incr_scan (n i : nat) (kappa M : list nat)
  : option (list nat * list nat) :=
  match i with
  | 0 => None
  | S i' =>
      if vget kappa i <=? vget M i' then
        let kappa1 := vset kappa i (vget kappa i + 1) in
        let new_max := Nat.max (vget M i) (vget kappa1 i) in
        let M1 := vset M i new_max in
        Some (reset_tail n i new_max (kappa1, M1))
      else incr_scan n i' kappa M
  end.

(** [operator++]; [None] is the [std::overflow_error] of the assertion on
    [has_next_]. *)
Definition incr (p : lexicographic_partition) : option lexicographic_partition :=
  if has_next_ p then
    let n := n_ p in
    let hn := vget (M_ p) (n - 1) + 1 <? n in
    match incr_scan n (n - 1) (kappa_ p) (M_ p) with
    | Some (kappa, M) => Some (mk_partition n kappa M true hn)
    | None => Some (mk_partition n (kappa_ p) (M_ p) (has_prev_ p) hn)
    end
  else None.

Definition has_next (p : lexicographic_partition) : bool := has_next_ p.

(** The inner loop of [operator--]:
    [for (j = i + 1; j < n_; ++j) { new_max = m_i + j - i; kappa_[j] = new_max; M_[j] = new_max; }] *)
Definition climb_tail (n i m_i : nat) (km : list nat * list nat)
  : list nat * list nat :=
  for_range (i + 1) n
    (fun j '(k, m) => let new_max := m_i + j - i in (vset k j new_max, vset m j new_max))
    km.

Fixpoint decr_scan (n i : nat) (kappa M : list nat)
  : option (list nat * list nat) :=
  match i with
  | 0 => None
  | S i' =>
      if 0 <? vget kappa i then
        let kappa1 := vset kappa i (vget kappa i - 1) in
        let m_i := vget M i' in
        let M1 := vset M i m_i in
        Some (climb_tail n i m_i (kappa1, M1))
      else decr_scan n i' kappa M
  end.

(** [operator--]; [None] is the [std::underflow_error] of the assertion on
    [has_prev_]. *)
Definition decr (p : lexicographic_partition) : option lexicographic_partition :=
  if has_prev_ p then
    let n := n_ p in
    let hp := 1 <? vget (M_ p) (n - 1) + 1 in
    match decr_scan n (n - 1) (kappa_ p) (M_ p) with
    | Some (kappa, M) => Some (mk_partition n kappa M hp true)
    | None => Some (mk_partition n (kappa_ p) (M_ p) hp (has_next_ p))
    end
  else None.

Definition has_prev (p : lexicographic_partition) : bool := has_prev_ p.

(** [subs[kappa_[i]].push_back(v[i])] for [i = 0 .. n-1], on [subs] of
    [num_subsets] empty blocks. *)
Definition place {A : Type} (subs : list (list A)) (b : nat) (x : A) : list (list A) :=
  match subs !! b with
  | Some blk => <[b := blk ++ [x]]> subs
  | None => subs
  end.

Definition apply_rgs {A : Type} (nblocks : nat) (kappa : list nat) (v : list A)
  : list (list A) :=
  fold_left (fun subs '(b, x) => place subs b x) (combine kappa v) (repeat [] nblocks).

(** [operator()(v)]; [None] is the [std::invalid_argument] of a size
    mismatch. *)
Definition apply {A : Type} (p : lexicographic_partition) (v : list A)
  : option (list (list A)) :=
  if length v =? n_ p then Some (apply_rgs (num_subsets p) (kappa_ p) v) else None.

(** [next_partition(first, last, part)]: the blocks of the current
    partition, and the iterator advanced when it has a successor. *)
Definition next_partition {A : Type} (v : list A) (p : lexicographic_partition)
  : option (list (list A) * lexicographic_partition) :=
  match apply p v with
  | None => None
  | Some subs =>
      if has_next p then
        match incr p with
        | Some p' => Some (subs, p')
        | None => None
        end
      else Some (subs, p)
  end.

(** [while (part.has_next()) { yield next_partition(v, part); }], bounded by
    [fuel] iterations; [None] when the fuel runs out or a call throws. *)
Fixpoint enumerate {A : Type} (fuel : nat) (v : list A) (p : lexicographic_partition)
  : option (list (list (list A))) :=
  match fuel with
  | 0 => None
  | S fuel' =>
      if has_next p then
        match next_partition v p with
        | Some (subs, p') =>
            match enumerate fuel' v p' with
            | Some rest => Some (subs :: rest)
            | None => None
            end
        | None => None
        end
      else Some []
  end.

(** The states an iterator over [n] elements can be in: those the
    constructor builds, and those [operator++] and [operator--] lead to. *)
Inductive reachable (n : nat) : lexicographic_partition -> Prop :=
  | reachable_make first p : make n first = Some p -> reachable n p
  | reachable_incr p p' : reachable n p -> incr p = Some p' -> reachable n p'
  | reachable_decr p p' : reachable n p -> decr p = Some p' -> reachable n p'.

(** *** [lexicographic_k_partition]

    Subtractions on [std::size_t]: [k_ - 1] and [n_ - k_] are guarded by the
    constructor ([0 < k_ <= n_]); [k_ - new_max], [n_ - (k_ - new_max)] and
    [k_ - (n_ - j)] have ordered operands as long as [M_] stays below [k_],
    which holds of every yielded state (see [is_k_partition_of] in the
    enumeration theorem). *)

Record lexicographic_k_partition := mk_k_partition {
  kn_ : nat;
  kk_ : nat;
  kkappa_ : list nat;
  kM_ : list nat;
  khas_prev_ : bool;
  khas_next_ : bool
}.

(** The constructor; [None] is [std::invalid_argument]. *)
Definition kmake (n k : nat) (first : bool) : option lexicographic_k_partition :=
  if n =? 0 then None
  else if negb ((0 <? k) && (k <=? n)) then None
  else
    let zero := repeat 0 n in
    let '(kappa, M) :=
      if first then
        let offset := n - k in
        for_range (offset + 1) n
          (fun i '(kp, m) => (vset kp i (i - offset), vset m i (i - offset))) (zero, zero)
      else
        let '(kp, m) :=
          for_range 1 k (fun i '(kp, m) => (vset kp i i, vset m i i)) (zero, zero) in
        (for_range k n (fun i kp => vset kp i (k - 1)) kp,
         for_range k n (fun i m => vset m i (k - 1)) m) in
    Some (mk_k_partition n k kappa M false true).

Definition knum_subsets (p : lexicographic_k_partition) : nat := kk_ p.

(** The two inner loops of [operator++]. *)
Definition kreset_tail (n k i new_max : nat) (km : list nat * list nat)
  : list nat * list nat :=
  let km1 :=
    for_range (i + 1) (n - (k - new_max) + 1)
      (fun j '(kp, m) => (vset kp j 0, vset m j new_max)) km in
  for_range (n - (k - new_max) + 1) n
    (fun j '(kp, m) => (vset kp j (k - (n - j)), vset m j (k - (n - j)))) km1.

Fixpoint kincr_scan (n k i : nat) (kappa M : list nat)
  : option (list nat * list nat) :=
  match i with
  | 0 => None
  | S i' =>
      if (vget kappa i <? k - 1) && (vget kappa i <=? vget M i') then
        let kappa1 := vset kappa i (vget kappa i + 1) in
        let new_max := Nat.max (vget M i) (vget kappa1 i) in
        let M1 := vset M i new_max in
        Some (kreset_tail n k i new_max (kappa1, M1))
      else kincr_scan n k i' kappa M
  end.

(** [operator++]: [has_next_] is cleared first and set again when the loop
    reaches [break]. *)
Definition kincr (p : lexicographic_k_partition) : option lexicographic_k_partition :=
  if khas_next_ p then
    let n := kn_ p in
    let k := kk_ p in
    match kincr_scan n k (n - 1) (kkappa_ p) (kM_ p) with
    | Some (kappa, M) => Some (mk_k_partition n k kappa M true true)
    | None => Some (mk_k_partition n k (kkappa_ p) (kM_ p) (khas_prev_ p) false)
    end
  else None.

Definition khas_next (p : lexicographic_k_partition) : bool := khas_next_ p.

Definition kapply {A : Type} (p : lexicographic_k_partition) (v : list A)
  : option (list (list A)) :=
  if length v =? kn_ p then Some (apply_rgs (knum_subsets p) (kkappa_ p) v) else None.

Definition knext_partition {A : Type} (v : list A) (p : lexicographic_k_partition)
  : option (list (list A) * lexicographic_k_partition) :=
  match kapply p v with
  | None => None
  | Some subs =>
      if khas_next p then
        match kincr p with
        | Some p' => Some (subs, p')
        | None => None
        end
      else Some (subs, p)
  end.

Fixpoint kenumerate {A : Type} (fuel : nat) (v : list A) (p : lexicographic_k_partition)
  : option (list (list (list A))) :=
  match fuel with
  | 0 => None
  | S fuel' =>
      if khas_next p then
        match knext_partition v p with
        | Some (subs, p') =>
            match kenumerate fuel' v p' with
            | Some rest => Some (subs :: rest)
            | None => None
            end
        | None => None
        end
      else Some []
  end.

(** The partitions of [{0, .., n-1}] the iterator yields from its initial
    state within [fuel] iterations. *)
Definition all_partitions (fuel n : nat) : option (list (list (list nat))) :=
  match make n true with
  | Some p => enumerate fuel (seq 0 n) p
  | None => None
  end.

Definition all_k_partitions (fuel n k : nat) : option (list (list (list nat))) :=
  match kmake n k true with
  | Some p => kenumerate fuel (seq 0 n) p
  | None => None
  end.

(** The enumeration from the initial state ends and yields [ps]. *)
Definition yields (n : nat) (ps : list (list (list nat))) : Prop :=
  exists fuel, all_partitions fuel n = Some ps.

Definition k_yields (n k : nat) (ps : list (list (list nat))) : Prop :=
  exists fuel, all_k_partitions fuel n k = Some ps.

End Partition.

(** ** Counting set partitions *)

(** Stirling numbers of the second kind, by
    [S(n+1, k+1) = (k+1) * S(n, k+1) + S(n, k)]. *)
Fixpoint stirling2 (n k : nat) : nat :=
  match n, k with
  | 0, 0 => 1
  | 0, S _ => 0
  | S _, 0 => 0
  | S n', S k' => k * stirling2 n' k + stirling2 n' k'
  end.

(** Bell numbers, [B_n = S(n, 0) + ... + S(n, n)]. *)
Definition bell (n : nat) : nat :=
  fold_right Nat.add 0 (map (stirling2 n) (seq 0 (S n))).

(** [blocks] is a partition of [{0, .., n-1}]: no block is empty and the
    blocks together hold each of [0, .., n-1] once. *)
Definition is_partition_of (n : nat) (blocks : list (list nat)) : Prop :=
  Forall (fun b => b <> []) blocks /\ Permutation (concat blocks) (seq 0 n).

Definition is_k_partition_of (n k : nat) (blocks : list (list nat)) : Prop :=
  is_partition_of n blocks /\ length blocks = k.

(** [x] and [y] are in one block. *)
Definition same_block (blocks : list (list nat)) (x y : nat) : Prop :=
  exists b, In b blocks /\ In x b /\ In y b.

(** Two lists of blocks are the same set partition when they put the same
    elements together: the order of the blocks and the order of the
    elements in a block do not count. *)
Definition same_partition (p q : list (list nat)) : Prop :=
  forall x y, same_block p x y <-> same_block q x y.

(** The lists of [ps] are pairwise distinct as set partitions. *)
Definition distinct_partitions (ps : list (list (list nat))) : Prop :=
  forall i j p q, ps !! i = Some p -> ps !! j = Some q -> same_partition p q -> i = j.

(** *** Executable checks used to settle the enumeration *)

Fixpoint nodupb (l : list nat) : bool :=
  match l with
  | [] => true
  | x :: t => negb (existsb (Nat.eqb x) t) && nodupb t
  end.

Definition is_partition_ofb (n : nat) (blocks : list (list nat)) : bool :=
  forallb (fun b => negb (length b =? 0)) blocks
  && nodupb (concat blocks)
  && (length (concat blocks) =? n)
  && forallb (fun x => x <? n) (concat blocks).

(** The index of the first block holding [x]. *)
Fixpoint block_index (blocks : list (list nat)) (x : nat) : nat :=
  match blocks with
  | [] => 0
  | b :: rest => if existsb (Nat.eqb x) b then 0 else S (block_index rest x)
  end.

(** A partition read as a number in base [n + 1], digit [i] being the index
    of the block of [i]. *)
Definition code (n : nat) (blocks : list (list nat)) : N :=
  fold_left (fun c i => (c * N.of_nat (S n) + N.of_nat (block_index blocks i))%N)
            (seq 0 n) 0%N.

Definition memb (x : nat) (b : list nat) : bool := existsb (Nat.eqb x) b.

Definition togetherb (blocks : list (list nat)) (x y : nat) : bool :=
  existsb (fun b => memb x b && memb y b) blocks.

(** The least element of [0, .., n-1] in the block of [x]. *)
Definition least_mate (n : nat) (blocks : list (list nat)) (x : nat) : nat :=
  match find (togetherb blocks x) (seq 0 n) with
  | Some y => y
  | None => n
  end.

(** A set partition read as a number in base [n + 1], digit [i] being the
    least element of the block of [i]: lists that are the same set
    partition have the same number. *)
Definition class_code (n : nat) (blocks : list (list nat)) : N :=
  fold_left (fun c m => (c * N.of_nat (S n) + N.of_nat m)%N)
            (map (least_mate n blocks) (seq 0 n)) 0%N.

Fixpoint increasing (l : list N) : bool :=
  match l with
  | a :: (b :: _) as t => (a <? b)%N && increasing t
  | _ => true
  end.

Definition enumeration_ok (n count : nat) (ps : list (list (list nat))) : bool :=
  (length ps =? count)
  && increasing (map (code n) ps)
  && increasing (map (class_code n) ps)
  && forallb (is_partition_ofb n) ps.

Definition k_enumeration_ok (n k : nat) (ps : list (list (list nat))) : bool :=
  enumeration_ok n (stirling2 n k) ps && forallb (fun blocks => length blocks =? k) ps.

Definition check_k_partitions (fuel n k : nat) : bool :=
  match Partition.all_k_partitions fuel n k with
  | Some ps => k_enumeration_ok n k ps
  | None => false
  end.

Definition check_partitions (fuel n : nat) : bool :=
  match Partition.all_partitions fuel n with
  | Some ps => enumeration_ok n (bell n) ps
  | None => false
  end
  && forallb (check_k_partitions fuel n) (seq 1 n).

(** ** dcs/algorithm/subset.hpp *)

Module Subset.

(** [unsigned long] is 64 bits wide. *)
Definition ulong (x : N) : N := (x mod 2 ^ 64)%N.

(** [boost::dynamic_bitset<>(n, value)]: the [n] low bits of the
    [unsigned long] [value].  A bitset built this way has no bit beyond the
    64th, so that its [to_ulong()] never throws and is the identity on the
    value. *)
Definition bitset (n : nat) (value : N) : N := (ulong value mod 2 ^ N.of_nat n)%N.

Fixpoint popcount_pos (p : positive) : nat :=
  match p with
  | xH => 1
  | xO q => popcount_pos q
  | xI q => S (popcount_pos q)
  end.

(** [bits_.count()] *)
Definition count (bits : N) : nat :=
  match bits with
  | N0 => 0
  | Npos p => popcount_pos p
  end.

Record lexicographic_subset := mk_subset {
  n_ : nat;
  empty_set_ : bool;
  bits_ : N;
  has_prev_ : bool;
  has_next_ : bool
}.

(** The value of the first subset: [empty_set_ ? 0 : 1]. *)
Definition lowest (empty_set : bool) : N := if empty_set then 0%N else 1%N.

(** The constructor; [None] is the [std::invalid_argument] of [n == 0]. *)
Definition make (n : nat) (empty_set : bool) : option lexicographic_subset :=
  if 0 <? n
  then Some (mk_subset n empty_set (bitset n (lowest empty_set)) false (0 <? n))
  else None.

Definition max_size (s : lexicographic_subset) : nat := n_ s.

Definition size (s : lexicographic_subset) : nat := count (bits_ s).

(** [operator++]; [None] is the [std::overflow_error] of the assertion on
    [has_next_]. *)
Definition incr (s : lexicographic_subset) : option lexicographic_subset :=
  if has_next_ s then
    let hn := count (bits_ s) <? n_ s in
    let bits := if hn then bitset (n_ s) (bits_ s + 1) else bits_ s in
    let hp := (lowest (empty_set_ s) <? bits)%N in
    Some (mk_subset (n_ s) (empty_set_ s) bits hp hn)
  else None.

Definition has_next (s : lexicographic_subset) : bool := has_next_ s.

(** [operator--]; [None] is the [std::underflow_error] of the assertion on
    [has_prev_].  [bits_.to_ulong() - 1] is evaluated only above
    [lowest], hence on a positive value. *)
Definition decr (s : lexicographic_subset) : option lexicographic_subset :=
  if has_prev_ s then
    let hp := (lowest (empty_set_ s) <? bits_ s)%N in
    let bits := if hp then bitset (n_ s) (bits_ s - 1) else bits_ s in
    let hn := (bits <? N.of_nat (n_ s))%N in
    Some (mk_subset (n_ s) (empty_set_ s) bits hp hn)
  else None.

Definition has_prev (s : lexicographic_subset) : bool := has_prev_ s.

(** The positions [find_first()], [find_next(pos)], ... of the set bits,
    in increasing order. *)
Definition positions (n : nat) (bits : N) : list nat :=
  List.filter (fun pos => N.testbit bits (N.of_nat pos)) (seq 0 n).

(** [operator()(v)]: the elements of [v] at the set positions; [None] is the
    [std::invalid_argument] of a size mismatch. *)
Definition apply {A : Type} (s : lexicographic_subset) (v : list A) : option (list A) :=
  if length v =? n_ s
  then Some (omap (fun pos => v !! pos) (positions (n_ s) (bits_ s)))
  else None.

(** [next_subset(first, last, subset)]: the current subset, and the iterator
    advanced.  The advance is unconditional. *)
Definition next_subset {A : Type} (v : list A) (s : lexicographic_subset)
  : option (list A * lexicographic_subset) :=
  match apply s v with
  | None => None
  | Some subs =>
      match incr s with
      | Some s' => Some (subs, s')
      | None => None
      end
  end.

(** The states an iterator over [n] elements can be in: the one the
    constructor builds, and those [operator++] and [operator--] lead to. *)
Inductive reachable (n : nat) (empty_set : bool) : lexicographic_subset -> Prop :=
  | reachable_make s : make n empty_set = Some s -> reachable n empty_set s
  | reachable_incr s s' :
      reachable n empty_set s -> incr s = Some s' -> reachable n empty_set s'
  | reachable_decr s s' :
      reachable n empty_set s -> decr s = Some s' -> reachable n empty_set s'.

End Subset.
(** *** Restricted growth strings *)

Module PartitionInv.
Import Partition.

(** The integrity of the pair [kappa_], [M_]: [kappa_] is a restricted
    growth string and [M_[i]] is the maximum of [kappa_[0..i]]
    (what [integrity_check] tests, with the growth restriction). *)
Record wf (n : nat) (kappa M : list nat) : Prop := mk_wf {
  wf_pos : 1 <= n;
  wf_length_kappa : length kappa = n;
  wf_length_M : length M = n;
  wf_kappa_0 : vget kappa 0 = 0;
  wf_M_0 : vget M 0 = 0;
  wf_step : forall i, 1 <= i < n ->
    vget kappa i <= vget M (i - 1) + 1 /\
    vget M i = Nat.max (vget M (i - 1)) (vget kappa i)
}.

Definition wf_state (n : nat) (p : lexicographic_partition) : Prop :=
  n_ p = n /\ wf n (kappa_ p) (M_ p).

(** The body of the loop of [operator++] at the index where it breaks. *)
Definition incr_at (n i : nat) (kappa M : list nat) : list nat * list nat :=
  let kappa1 := vset kappa i (vget kappa i + 1) in
  let new_max := Nat.max (vget M i) (vget kappa1 i) in
  let M1 := vset M i new_max in
  reset_tail n i new_max (kappa1, M1).

(** The body of the loop of [operator--] at the index where it breaks. *)
Definition decr_at (n i : nat) (kappa M : list nat) : list nat * list nat :=
  let kappa1 := vset kappa i (vget kappa i - 1) in
  let m_i := vget M (i - 1) in
  let M1 := vset M i m_i in
  climb_tail n i m_i (kappa1, M1).

End PartitionInv.
(** ** dcs/math/detail/float.hpp, dcs/math/traits/float.hpp *)

Module Real.

(** [RealT]: a finite value, an infinity or a NaN.  Finite arithmetic is
    exact. *)
Inductive real_t :=
  | Fin (q : Q)
  | PosInf
  | NegInf
  | NaN.

Definition isnan (x : real_t) : bool := match x with NaN => true | _ => false end.
Definition isinf (x : real_t) : bool :=
  match x with PosInf | NegInf => true | _ => false end.
Definition isfinite (x : real_t) : bool := match x with Fin _ => true | _ => false end.

Definition Qltb (a b : Q) : bool := negb (Qle_bool b a).

(** [x <= y] *)
Definition rle (x y : real_t) : bool :=
  match x, y with
  | NaN, _ | _, NaN => false
  | NegInf, _ => true
  | _, PosInf => true
  | PosInf, _ => false
  | Fin _, NegInf => false
  | Fin a, Fin b => Qle_bool a b
  end.

(** [x < y] *)
Definition rlt (x y : real_t) : bool :=
  match x, y with
  | NaN, _ | _, NaN => false
  | NegInf, NegInf => false
  | NegInf, _ => true
  | PosInf, _ => false
  | Fin _, PosInf => true
  | Fin _, NegInf => false
  | Fin a, Fin b => Qltb a b
  end.

(** [x > y] *)
Definition rgt (x y : real_t) : bool := rlt y x.

Definition rneg (x : real_t) : real_t :=
  match x with
  | Fin a => Fin (- a)
  | PosInf => NegInf
  | NegInf => PosInf
  | NaN => NaN
  end.

Definition radd (x y : real_t) : real_t :=
  match x, y with
  | NaN, _ | _, NaN => NaN
  | PosInf, NegInf | NegInf, PosInf => NaN
  | PosInf, _ | _, PosInf => PosInf
  | NegInf, _ | _, NegInf => NegInf
  | Fin a, Fin b => Fin (a + b)
  end.

Definition rsub (x y : real_t) : real_t := radd x (rneg y).

(** The infinity with the sign of [a], or NaN for [a = 0]. *)
Definition inf_times (positive : bool) (a : Q) : real_t :=
  if Qltb 0 a then (if positive then PosInf else NegInf)
  else if Qltb a 0 then (if positive then NegInf else PosInf)
  else NaN.

Definition rmul (x y : real_t) : real_t :=
  match x, y with
  | NaN, _ | _, NaN => NaN
  | PosInf, PosInf | NegInf, NegInf => PosInf
  | PosInf, NegInf | NegInf, PosInf => NegInf
  | PosInf, Fin a | Fin a, PosInf => inf_times true a
  | NegInf, Fin a | Fin a, NegInf => inf_times false a
  | Fin a, Fin b => Fin (a * b)
  end.

(** [std::abs] *)
Definition rabs (x : real_t) : real_t :=
  match x with
  | Fin a => Fin (Qabs a)
  | PosInf | NegInf => PosInf
  | NaN => NaN
  end.

(** [std::max(a, b)] is [(a < b) ? b : a]. *)
Definition rmax (a b : real_t) : real_t := if rlt a b then b else a.

(** [detail::definitely_greater(x, y, tol)] *)
Definition definitely_greater_tol (x y tol : real_t) : bool :=
  if rle x y then false
  else if isnan x || isnan y then false
  else if isinf x && isfinite y then true
  else if isfinite x && isinf y then false
  else rgt (rsub x y) (rmul (rmax (rabs x) (rabs y)) tol).

(** [std::numeric_limits<double>::epsilon()], 2^-52. *)
Definition epsilon : Q := 1 # (2 ^ 52).

(** [float_traits<double>::tolerance], [100 * epsilon]. *)
Definition tolerance : real_t := Fin (100 * epsilon).

(** [float_traits<RealT>::definitely_greater(x, y)] *)
Definition definitely_greater (x y : real_t) : bool :=
  definitely_greater_tol x y tolerance.

(** [std::numeric_limits<double>::min()], the smallest positive normalized
    value, 2^-1022. *)
Definition numeric_limits_min : Q := 1 # (2 ^ 1022).

(** [std::numeric_limits<double>::infinity()] and [quiet_NaN()]. *)
Definition infinity : real_t := PosInf.
Definition quiet_NaN : real_t := NaN.

End Real.
(** ** gtpack/cooperative.hpp

    Modelled from the spec: gtpack is a library outside the repository; of
    it the program uses coalition identifiers, which the specification
    describes as "a canonical function of its sorted player set (so id
    equality ⇔ set equality)", the stored characteristic function, and the
    Shapley value and core queries, which stay parameters.  The identifier
    is the bit mask of the players, an [unsigned long]. *)

Module Gtpack.
Import Real.

(** [make_coalition_id(first, last)] *)
Definition make_coalition_id (players : list nat) : N :=
  fold_left (fun cid pid => N.lor cid (2 ^ N.of_nat pid)) players 0%N.

(** [game.coalition(cid).players()], in increasing order. *)
Definition coalition_players (cid : N) : list nat :=
  List.filter (fun pid => N.testbit cid (N.of_nat pid)) (seq 0 (N.to_nat (N.size cid))).

(** [cooperative_game<RealT>] over an enumerated characteristic function. *)
Record cooperative_game := mk_game {
  num_players : nat;
  values : gmap N real_t
}.

Definition new_game (n : nat) : cooperative_game := mk_game n ∅.

Definition players (g : cooperative_game) : list nat := seq 0 (num_players g).

(** [game.value(cid, v)] *)
Definition set_value (cid : N) (v : real_t) (g : cooperative_game) : cooperative_game :=
  mk_game (num_players g) (<[cid := v]> (values g)).

(** [game.value(cid)].  The program reads the value of a coalition only
    after it has set it; a value never set reads as NaN. *)
Definition value (g : cooperative_game) (cid : N) : real_t :=
  default NaN (values g !! cid).

(** [game.subgame(first, last)]: the game restricted to the given players. *)
Definition subgame : Type := cooperative_game * list nat.

End Gtpack.
(** ** dcs/fgt/vm_allocation.hpp, dcs/fgt/coalition_formation/commons.hpp *)

Module Coalition.
Import Real Gtpack.

Record vm_allocation_t := mk_vm_allocation {
  solved : bool;
  optimal : bool;
  objective_value : real_t;
  fn_vm_allocations : list (list bool);
  fn_power_states : list bool
}.

(** [vm_allocation_t()] *)
Definition new_vm_allocation : vm_allocation_t :=
  mk_vm_allocation false false quiet_NaN [] [].

Record coalition_info_t := mk_coalition_info {
  vm_allocation : vm_allocation_t;
  value : real_t;
  core_empty : bool;
  payoffs : gmap nat real_t;
  payoffs_in_core : bool;
  cid : N
}.

(** [coalition_info_t()]; [gtpack::empty_cid] is 0. *)
Definition new_coalition_info : coalition_info_t :=
  mk_coalition_info new_vm_allocation quiet_NaN true ∅ false 0%N.

Definition with_vm_allocation (a : vm_allocation_t) (c : coalition_info_t) :=
  mk_coalition_info a (value c) (core_empty c) (payoffs c) (payoffs_in_core c) (cid c).
Definition with_value (v : real_t) (c : coalition_info_t) :=
  mk_coalition_info (vm_allocation c) v (core_empty c) (payoffs c) (payoffs_in_core c) (cid c).
Definition with_core_empty (b : bool) (c : coalition_info_t) :=
  mk_coalition_info (vm_allocation c) (value c) b (payoffs c) (payoffs_in_core c) (cid c).
Definition with_payoffs (p : gmap nat real_t) (c : coalition_info_t) :=
  mk_coalition_info (vm_allocation c) (value c) (core_empty c) p (payoffs_in_core c) (cid c).
Definition with_payoffs_in_core (b : bool) (c : coalition_info_t) :=
  mk_coalition_info (vm_allocation c) (value c) (core_empty c) (payoffs c) b (cid c).

(** [visited_coalitions[cid].field = x]: [operator[]] of [std::map] inserts
    a default-constructed entry when the key is absent. *)
Definition update (cid : N) (f : coalition_info_t -> coalition_info_t)
    (visited : gmap N coalition_info_t) : gmap N coalition_info_t :=
  <[cid := f (default new_coalition_info (visited !! cid))]> visited.

(** [visited_coalitions.at(cid)] throws [std::out_of_range] on an absent
    key. *)
Definition at_cid (visited : gmap N coalition_info_t) (cid : N) : outcome coalition_info_t :=
  or_throw out_of_range (visited !! cid).

(** [info.payoffs.at(pid)] *)
Definition payoff_at (info : coalition_info_t) (pid : nat) : outcome real_t :=
  or_throw out_of_range (payoffs info !! pid).

(** [std::set<cid_type>::insert]: the elements in increasing order, each
    once. *)
Fixpoint set_insert (c : N) (s : list N) : list N :=
  match s with
  | [] => [c]
  | x :: rest =>
      if (c <? x)%N then c :: s
      else if (c =? x)%N then s
      else x :: set_insert c rest
  end.

(** [std::set<cid_type>(first, last)] *)
Definition set_of (l : list N) : list N := fold_left (fun s c => set_insert c s) l [].

Record partition_info_t := mk_partition_info {
  pvalue : real_t;
  coalitions : list N;
  ppayoffs : gmap nat real_t
}.

(** [partition_info_t()] *)
Definition new_partition_info : partition_info_t :=
  mk_partition_info (rneg infinity) [] ∅.

Record coalition_formation_info_t := mk_formation_info {
  formed : gmap N coalition_info_t;
  best_partitions : list partition_info_t
}.

End Coalition.
(** ** dcs/fgt/coalition_formation/nash_stable.hpp *)

Module NashStable.
Import Real Gtpack Coalition.

(** The test of a deviation of player [pid] from its coalition [cid1] to
    the coalition [cid2] (which holds [pid]):
    [visited.at(cid2).payoffs.count(pid) == 0
     || definitely_greater(visited.at(cid2).payoffs.at(pid),
                           visited.at(cid1).payoffs.at(pid))]. *)
Definition prefers (visited : gmap N coalition_info_t) (cid1 cid2 : N) (pid : nat)
  : outcome bool :=
  let* info2 := at_cid visited cid2 in
  match payoffs info2 !! pid with
  | None => Ok true
  | Some x =>
      let* info1 := at_cid visited cid1 in
      let* y := payoff_at info1 pid in
      Ok (definitely_greater x y)
  end.

(** [S_k ∪ {i}]: the identifier of the players of [cid2] with [pid]
    appended. *)
Definition augmented (cid2 : N) (pid : nat) : N :=
  make_coalition_id (coalition_players cid2 ++ [pid]).

(** The loop over the coalitions [cid2] of the partition, for player [pid]
    of [cid1]; the result is [nash_stable] at its end. *)
Fixpoint check_alternatives (visited : gmap N coalition_info_t) (cid1 : N) (pid : nat)
    (partition : list N) : outcome bool :=
  match partition with
  | [] => Ok true
  | cid2 :: rest =>
      if (cid1 =? cid2)%N then check_alternatives visited cid1 pid rest
      else
        let* unstable := prefers visited cid1 (augmented cid2 pid) pid in
        if unstable then Ok false
        else check_alternatives visited cid1 pid rest
  end.

(** The body of the loop over the players of [cid1]: the other coalitions
    of the partition, then the singleton. *)
Definition check_player (visited : gmap N coalition_info_t) (partition : list N)
    (cid1 : N) (pid : nat) : outcome bool :=
  let* nash_stable := check_alternatives visited cid1 pid partition in
  if nash_stable then
    let* unstable := prefers visited cid1 (make_coalition_id [pid]) pid in
    Ok (negb unstable)
  else Ok false.

(** [for (i = 0; i < np && nash_stable; ++i)] *)
Fixpoint check_players (visited : gmap N coalition_info_t) (partition : list N)
    (cid1 : N) (players : list nat) : outcome bool :=
  match players with
  | [] => Ok true
  | pid :: rest =>
      let* nash_stable := check_player visited partition cid1 pid in
      if nash_stable then check_players visited partition cid1 rest
      else Ok false
  end.

(** [for (; cid_first != cid_last && nash_stable; ++cid_first)] *)
Fixpoint check_coalitions (visited : gmap N coalition_info_t) (partition : list N)
    (cids : list N) : outcome bool :=
  match cids with
  | [] => Ok true
  | cid1 :: rest =>
      let* nash_stable :=
        check_players visited partition cid1 (coalition_players cid1) in
      if nash_stable then check_coalitions visited partition rest
      else Ok false
  end.

(** [check_nash_stability(game, visited_coalitions, cid_first, cid_last)] *)
Definition check_nash_stability (game : cooperative_game)
    (visited : gmap N coalition_info_t) (cids : list N) : outcome bool :=
  check_coalitions visited (set_of cids) cids.

(** The loop of [operator()] over the players of one block:
    [candidate_partition.payoffs[pid] = ...]. *)
Definition record_payoffs (info : coalition_info_t) (subset : list nat)
    (pp : gmap nat real_t) : gmap nat real_t :=
  fold_left
    (fun pp pid =>
       match payoffs info !! pid with
       | Some x => <[pid := x]> pp
       | None => <[pid := quiet_NaN]> pp
       end)
    subset pp.

(** The loop of [operator()] over the blocks of one partition. *)
Definition candidate (game : cooperative_game) (visited : gmap N coalition_info_t)
    (subsets : list (list nat)) : partition_info_t :=
  fold_left
    (fun cand subset =>
       let cid := make_coalition_id subset in
       match visited !! cid with
       | None => cand
       | Some info =>
           mk_partition_info
             (radd (pvalue cand) (Gtpack.value game cid))
             (set_insert cid (coalitions cand))
             (record_payoffs info subset (ppayoffs cand))
       end)
    subsets
    (mk_partition_info (Fin 0) [] ∅).

(** [while (partition.has_next())] of [operator()], bounded by [fuel]
    iterations. *)
Fixpoint select_loop (fuel : nat) (game : cooperative_game)
    (visited : gmap N coalition_info_t) (partition : Partition.lexicographic_partition)
    (best : list partition_info_t) : outcome (list partition_info_t) :=
  match fuel with
  | 0 => OutOfFuel
  | S fuel' =>
      if Partition.has_next partition then
        let* step :=
          or_throw overflow_error (Partition.next_partition (players game) partition) in
        let cand := candidate game visited (fst step) in
        let* nash_stable := check_nash_stability game visited (coalitions cand) in
        select_loop fuel' game visited (snd step)
          (if nash_stable then best ++ [cand] else best)
      else Ok best
  end.

(** [nash_stable_partition_selector_t::operator()(game, visited_coalitions)] *)
Definition select (fuel : nat) (game : cooperative_game)
    (visited : gmap N coalition_info_t) : outcome (list partition_info_t) :=
  let* partition :=
    or_throw invalid_argument (Partition.make (num_players game) true) in
  select_loop fuel game visited partition [].




End NashStable.
(** ** dcs/fgt/experiment.hpp: [experiment_t::analyze_coalitions] *)

Module Experiment.
Import Real Gtpack Coalition.

(** The members of [experiment_t] and of its scenario that the coalition
    analysis reads. *)
Record experiment_t := mk_experiment {
  num_fps : nat;
  fps_ : list nat;
  num_fns_ : nat;
  fn_fps_ : list nat;
  num_svcs_ : nat;
  svc_fps_ : list nat;
  svc_categories_ : list nat;
  fp_svc_revenues : list (list Q);
  fp_coalition_costs : list Q
}.

(** [scen_.fp_svc_revenues[fp][svc_cat]] *)
Definition svc_revenue (e : experiment_t) (fp svc_cat : nat) : Q :=
  nth svc_cat (nth fp (fp_svc_revenues e) []) 0%Q.

(** [scen_.fp_coalition_costs[fp]] *)
Definition coalition_cost (e : experiment_t) (fp : nat) : Q :=
  nth fp (fp_coalition_costs e) 0%Q.

(** The FNs of the members of a coalition, member by member. *)
Definition coal_fns_of (e : experiment_t) (coal_fps : list nat) : list nat :=
  flat_map
    (fun fp => List.filter (fun fn => vget (fn_fps_ e) fn =? fp) (seq 0 (num_fns_ e)))
    coal_fps.

(** The services of the members of a coalition, member by member. *)
Definition coal_svcs_of (e : experiment_t) (coal_fps : list nat) : list nat :=
  flat_map
    (fun fp => List.filter (fun svc => vget (svc_fps_ e) svc =? fp) (seq 0 (num_svcs_ e)))
    coal_fps.

(** The VMs of the services of the members of a coalition. *)
Definition coal_vms_of (e : experiment_t) (vm_svcs coal_fps : list nat) : list nat :=
  flat_map
    (fun fp =>
       flat_map
         (fun svc =>
            List.filter (fun vm => vget vm_svcs vm =? svc) (seq 0 (length vm_svcs)))
         (List.filter (fun svc => vget (svc_fps_ e) svc =? fp) (seq 0 (num_svcs_ e))))
    coal_fps.

(** What the enumeration of the coalitions builds. *)
Record analysis := mk_analysis {
  game : cooperative_game;
  visited_coalitions : gmap N coalition_info_t;
  fp_interval_alone_profits : list real_t
}.

Section Trigger.

(** The VM-placement optimizer, and the core and Shapley-value queries of
    gtpack, are outside the repository. *)
Variable opt_solver : list nat -> list nat -> vm_allocation_t.
Variable find_core_empty : subgame -> bool.
Variable shapley_value : subgame -> gmap nat real_t.
Variable belongs_to_core : subgame -> gmap nat real_t -> bool.

Variable e : experiment_t.
Variable vm_svcs : list nat.
Variable coalition_duration : Q.

(** [revenue = 0; for (auto svc : coal_svcs) revenue += ...] *)
Definition revenue_of (coal_svcs : list nat) : real_t :=
  fold_left
    (fun revenue svc =>
       radd revenue
         (Fin (svc_revenue e (vget (svc_fps_ e) svc) (vget (svc_categories_ e) svc))))
    coal_svcs (Fin 0).

(** [cost = vm_alloc.objective_value;
     if (coal_num_fps > 1) for each fp: cost -= fp_coalition_costs[fp]] *)
Definition cost_of (objective : real_t) (coal_fps : list nat) : real_t :=
  if 1 <? length coal_fps
  then fold_left (fun cost fp => rsub cost (Fin (coalition_cost e fp))) coal_fps objective
  else objective.

(** [(revenue - cost) * coalition_duration] *)
Definition profit_of (vm_alloc : vm_allocation_t) (coal_fps : list nat) : real_t :=
  rmul (rsub (revenue_of (coal_svcs_of e coal_fps))
             (cost_of (objective_value vm_alloc) coal_fps))
       (Fin coalition_duration).

(** The body of [while (subset.has_next())] for the coalition [coal_fps]. *)
Definition visit (coal_fps : list nat) (st : analysis) : analysis :=
  let cid := make_coalition_id coal_fps in
  let coal_num_fps := length coal_fps in
  let vm_alloc := opt_solver (coal_fns_of e coal_fps) (coal_vms_of e vm_svcs coal_fps) in
  let visited := update cid (with_vm_allocation vm_alloc) (visited_coalitions st) in
  if solved vm_alloc then
    let profit := profit_of vm_alloc coal_fps in
    let game := set_value cid profit (game st) in
    let visited := update cid (with_value profit) visited in
    let alone :=
      if coal_num_fps =? 1
      then <[vget coal_fps 0 := profit]> (fp_interval_alone_profits st)
      else fp_interval_alone_profits st in
    let sub : subgame := (game, coal_fps) in
    let visited :=
      if find_core_empty sub
      then update cid (with_payoffs_in_core false) (update cid (with_core_empty true) visited)
      else update cid (with_core_empty false) visited in
    let coal_payoffs := shapley_value sub in
    let visited := update cid (with_payoffs coal_payoffs) visited in
    let visited :=
      match visited !! cid with
      | Some info =>
          if negb (core_empty info)
          then update cid (with_payoffs_in_core (belongs_to_core sub coal_payoffs)) visited
          else visited
      | None => visited
      end in
    mk_analysis game visited alone
  else
    let visited :=
      update cid (with_payoffs_in_core false) (update cid (with_core_empty true) visited) in
    let game := set_value cid (rneg (Fin numeric_limits_min)) (game st) in
    mk_analysis game visited (fp_interval_alone_profits st).

(** [while (subset.has_next()) { coal_fps = next_subset(fps_, subset); ... }],
    bounded by [fuel] iterations. *)
Fixpoint coalitions_loop (fuel : nat) (subset : Subset.lexicographic_subset)
    (st : analysis) : outcome analysis :=
  match fuel with
  | 0 => OutOfFuel
  | S fuel' =>
      if Subset.has_next subset then
        let* step := or_throw overflow_error (Subset.next_subset (fps_ e) subset) in
        coalitions_loop fuel' (snd step) (visit (fst step) st)
      else Ok st
  end.

(** The state before the enumeration. *)
Definition initial_analysis : analysis :=
  mk_analysis (new_game (num_fps e)) ∅ (repeat quiet_NaN (num_fps e)).

(** The enumeration of the coalitions of a trigger. *)
Definition enumerate_coalitions (fuel : nat) : outcome analysis :=
  let* subset := or_throw invalid_argument (Subset.make (num_fps e) false) in
  coalitions_loop fuel subset initial_analysis.

(** [analyze_coalitions], up to the formed coalitions: the enumeration, then
    the selection of the Nash-stable partitions. *)
Definition analyze_coalitions (fuel : nat) : outcome coalition_formation_info_t :=
  let* st := enumerate_coalitions fuel in
  let* best := NashStable.select fuel (game st) (visited_coalitions st) in
  Ok (mk_formation_info (visited_coalitions st) best).

End Trigger.

(** The sum of a list of rationals. *)
Definition Qsum (l : list Q) : Q := fold_right Qplus 0%Q l.

(** [revenue = Σ_{s ∈ S} svc_revenue(fp(s), svc_cat(s))] *)
Definition revenue_spec (e : experiment_t) (coal_fps : list nat) : Q :=
  Qsum (map (fun svc => svc_revenue e (vget (svc_fps_ e) svc) (vget (svc_categories_ e) svc))
            (coal_svcs_of e coal_fps)).

(** [cost = optimizer_objective − (|S| > 1 ? Σ_{p ∈ S} coalition_cost(p) : 0)] *)
Definition cost_spec (e : experiment_t) (objective : Q) (coal_fps : list nat) : Q :=
  (objective - (if 1 <? length coal_fps
                then Qsum (map (coalition_cost e) coal_fps) else 0))%Q.

End Experiment.
(** ** dcs/fgt/simulator.hpp *)

Module Simulator.
Import Real.

(** The payloads of the events of [experiment_t] ([event_state_t] and its
    two subclasses). *)
Inductive event_state_t :=
  | no_state
  | arrival_burst_event_state (service : nat) (duration arrival_rate : Q)
  | coalition_formation_trigger_event_state (start_time stop_time : Q).

Record event_t := mk_event {
  fire_time : Q;
  tag : Z;
  p_state : event_state_t
}.

(** [event_comparator_t]: [e1->fire_time > e2->fire_time]. *)
Definition event_comparator (e1 e2 : event_t) : bool :=
  Qltb (fire_time e2) (fire_time e1).

(** *** [std::priority_queue] over [std::vector]

    The container adaptor keeps its vector a binary heap with
    [std::push_heap] and [std::pop_heap]; these are the algorithms of
    libstdc++ (bits/stl_heap.h), with [event_comparator] as [comp]. *)

Definition elt (c : list event_t) (i : nat) : event_t := nth i c (mk_event 0 0 no_state).

(** The loop of [std::__push_heap(first, holeIndex, topIndex, value, comp)]:
    [while (holeIndex > topIndex && comp(first + parent, value))].  The
    hole moves to its parent, hence [holeIndex] iterations at most. *)
Fixpoint push_heap_loop (fuel : nat) (c : list event_t) (holeIndex topIndex : nat)
    (value : event_t) : list event_t :=
  match fuel with
  | 0 => <[holeIndex := value]> c
  | S fuel' =>
      let parent := (holeIndex - 1) / 2 in
      if (topIndex <? holeIndex) && event_comparator (elt c parent) value
      then push_heap_loop fuel' (<[holeIndex := elt c parent]> c) parent topIndex value
      else <[holeIndex := value]> c
  end.

Definition __push_heap (c : list event_t) (holeIndex topIndex : nat) (value : event_t)
  : list event_t :=
  push_heap_loop holeIndex c holeIndex topIndex value.

(** [std::push_heap(first, last, comp)]: the last element is sifted up. *)
Definition push_heap (c : list event_t) : list event_t :=
  let n := length c in
  __push_heap c (n - 1) 0 (elt c (n - 1)).

(** The first loop of [std::__adjust_heap]:
    [while (secondChild < (len - 1) / 2)].  [holeIndex] and [secondChild]
    are equal at the head of the loop and are the one index [i] here; the
    hole moves to a child, hence [len] iterations at most. *)
Fixpoint adjust_heap_loop (fuel : nat) (c : list event_t) (i len : nat)
  : list event_t * nat :=
  match fuel with
  | 0 => (c, i)
  | S fuel' =>
      if i <? (len - 1) / 2 then
        let secondChild := 2 * (i + 1) in
        let secondChild :=
          if event_comparator (elt c secondChild) (elt c (secondChild - 1))
          then secondChild - 1 else secondChild in
        adjust_heap_loop fuel' (<[i := elt c secondChild]> c) secondChild len
      else (c, i)
  end.

(** [std::__adjust_heap(first, holeIndex, len, value, comp)]; it is called
    with [len >= 1]. *)
Definition __adjust_heap (c : list event_t) (holeIndex len : nat) (value : event_t)
  : list event_t :=
  let topIndex := holeIndex in
  let (c1, i) := adjust_heap_loop len c holeIndex len in
  let (c2, holeIndex2) :=
    if Nat.even len && (i =? (len - 2) / 2)
    then
      let secondChild := 2 * (i + 1) in
      (<[i := elt c1 (secondChild - 1)]> c1, secondChild - 1)
    else (c1, i) in
  __push_heap c2 holeIndex2 topIndex value.

(** [std::pop_heap(first, last, comp)]: with more than one element, the
    first is moved to the last place and the former last is placed from the
    root. *)
Definition pop_heap (c : list event_t) : list event_t :=
  if 1 <? length c then
    let last := length c - 1 in
    let value := elt c last in
    __adjust_heap (<[last := elt c 0]> c) 0 last value
  else c.

(** [priority_queue::push], [top] and [pop]. *)
Definition pq_push (x : event_t) (c : list event_t) : list event_t := push_heap (c ++ [x]).
Definition pq_top (c : list event_t) : event_t := elt c 0.
Definition pq_pop (c : list event_t) : list event_t := removelast (pop_heap c).

(** *** [simulator_t] *)

Record simulator_t := mk_simulator {
  max_rep_len_ : Q;
  max_num_rep_ : nat;
  num_rep_ : nat;
  sim_time_ : Q;
  done_ : bool;
  evt_queue_ : list event_t
}.

Definition with_queue (q : list event_t) (s : simulator_t) : simulator_t :=
  mk_simulator (max_rep_len_ s) (max_num_rep_ s) (num_rep_ s) (sim_time_ s) (done_ s) q.

Definition with_time (t : Q) (s : simulator_t) : simulator_t :=
  mk_simulator (max_rep_len_ s) (max_num_rep_ s) (num_rep_ s) t (done_ s) (evt_queue_ s).

(** [schedule_event(time, tag, p_state)] *)
Definition schedule_event (time : Q) (tag : Z) (p_state : event_state_t)
    (s : simulator_t) : simulator_t :=
  with_queue (pq_push (mk_event time tag p_state) (evt_queue_ s)) s.

Definition schedule_all (events : list event_t) (s : simulator_t) : simulator_t :=
  fold_left (fun s e => schedule_event (fire_time e) (tag e) (p_state e) s) events s.

(** The virtual members a subclass provides, over its own state [D].  A
    subclass reaches the event queue, which is private, through
    [schedule_event] only: a handler is given the simulated time and returns
    the events it schedules, in order. *)
Record subclass (D : Type) := mk_subclass {
  do_initialize_replication : D -> D * list event_t;
  do_check_end_of_replication : D -> bool;
  do_check_end_of_simulation : D -> bool;
  do_process_event : event_t -> Q -> D -> D * list event_t
}.

Arguments do_initialize_replication {D}.
Arguments do_check_end_of_replication {D}.
Arguments do_check_end_of_simulation {D}.
Arguments do_process_event {D}.

Section Driver.

Context {D : Type} (sub : subclass D).

(** [initialize_replication()] *)
Definition initialize_replication (s : simulator_t) (d : D) : simulator_t * D :=
  let s1 := mk_simulator (max_rep_len_ s) (max_num_rep_ s) (num_rep_ s + 1) 0
              (done_ s) [] in
  let (d', events) := do_initialize_replication sub d in
  (schedule_all events s1, d').

(** [check_end_of_replication()] *)
Definition check_end_of_replication (s : simulator_t) (d : D) : bool :=
  Qle_bool (max_rep_len_ s) (sim_time_ s)
  || (length (evt_queue_ s) =? 0)
  || do_check_end_of_replication sub d.

(** [check_end_of_simulation()] *)
Definition check_end_of_simulation (s : simulator_t) (d : D) : bool :=
  done_ s || (max_num_rep_ s <=? num_rep_ s) || do_check_end_of_simulation sub d.

(** [fire_event()]: the event fired, if any, and the state after its
    handler. *)
Definition fire_event (s : simulator_t) (d : D) : option event_t * simulator_t * D :=
  if 0 <? length (evt_queue_ s) then
    let p_event := pq_top (evt_queue_ s) in
    let s1 := with_time (fire_time p_event) (with_queue (pq_pop (evt_queue_ s)) s) in
    let (d', events) := do_process_event sub p_event (sim_time_ s1) d in
    (Some p_event, schedule_all events s1, d')
  else (None, s, d).

(** [while (!check_end_of_replication()) fire_event();], bounded by [fuel]
    iterations: the events fired, in order. *)
Fixpoint fire_events (fuel : nat) (s : simulator_t) (d : D) : list event_t :=
  match fuel with
  | 0 => []
  | S fuel' =>
      if check_end_of_replication s d then []
      else
        match fire_event s d with
        | (Some e, s', d') => e :: fire_events fuel' s' d'
        | (None, _, _) => []
        end
  end.

(** The events fired in the first [fuel] steps of a replication. *)
Definition replication (fuel : nat) (s : simulator_t) (d : D) : list event_t :=
  let (s', d') := initialize_replication s d in
  fire_events fuel s' d'.

End Driver.

(** [a] does not fire after [b]. *)
Definition le_ev (a b : event_t) : Prop := (fire_time a <= fire_time b)%Q.

(** The first [len] elements of [c] are a heap for [event_comparator]: no
    element fires before its parent. *)
Definition heap_upto (len : nat) (c : list event_t) : Prop :=
  forall i, 0 < i < len -> le_ev (elt c ((i - 1) / 2)) (elt c i).

Definition is_heap (c : list event_t) : Prop := heap_upto (length c) c.

(** The state of the sift-down of [std::__adjust_heap] with the hole at
    [h]: the heap holds away from the hole, and no child of the hole fires
    before the parent of the hole. *)
Definition sift_inv (len : nat) (c : list event_t) (h : nat) : Prop :=
  (forall j, 0 < j < len -> j <> h -> (j - 1) / 2 <> h ->
     le_ev (elt c ((j - 1) / 2)) (elt c j)) /\
  (0 < h -> forall j, 0 < j < len -> (j - 1) / 2 = h ->
     le_ev (elt c ((h - 1) / 2)) (elt c j)).

(** The event queue between two events: a heap whose events satisfy
    [good] and do not fire before the simulated time. *)
Definition queue_inv (good : event_t -> Prop) (s : simulator_t) : Prop :=
  is_heap (evt_queue_ s) /\
  forall e, In e (evt_queue_ s) -> good e /\ (sim_time_ s <= fire_time e)%Q.

(** Non-decreasing fire times along a list of events. *)
Definition time_ordered (events : list event_t) : Prop :=
  forall i j e1 e2, i < j -> events !! i = Some e1 -> events !! j = Some e2 ->
    (fire_time e1 <= fire_time e2)%Q.

End Simulator.
(** ** dcs/fgt/experiment.hpp: the simulation driver *)

Module Driver.
Import Simulator.

(** Modelled from the spec: dcs/fgt/statistics.hpp is not under src/.  Of a
    [ci_mean_estimator_t] the driver's stopping rule reads the answers of
    [done()] ("below relative-precision target") and [unstable()]
    ("refuses to tighten"). *)
Record ci_mean_estimator_t := mk_estimator {
  done : bool;
  unstable : bool
}.

(** [event_tag_t] *)
Definition arrival_burst_start_event : Z := 0.
Definition arrival_burst_stop_event : Z := 1.
Definition coalition_formation_trigger_event : Z := 2.

(** What the driver reads of the scenario and of the options. *)
Record config := mk_config {
  svc_categories_ : list nat;
  svc_workloads : list (list (Q * Q));
  coalition_formation_interval : Q
}.

(** The members of [experiment_t] the driver changes: the position
    [next_idx_] of the workload generator of each service category, and the
    estimators of the profits of each provider. *)
Record state := mk_state {
  wkl_next_idx : list nat;
  fp_coal_profit_ci_stats_ : list ci_mean_estimator_t;
  fp_alone_profit_ci_stats_ : list ci_mean_estimator_t
}.

Definition with_next_idx (idx : list nat) (d : state) : state :=
  mk_state idx (fp_coal_profit_ci_stats_ d) (fp_alone_profit_ci_stats_ d).

(** The call of the generator [wkl_gens_[svc_cat]]: the pair at [next_idx_], which advances
    modulo the number of steps ([multistep_workload_generator_t]). *)
Definition next_burst (cfg : config) (svc_cat : nat) (d : state) : (Q * Q) * state :=
  let steps := nth svc_cat (svc_workloads cfg) [] in
  let idx := vget (wkl_next_idx d) svc_cat in
  (nth idx steps (0, 0)%Q,
   with_next_idx (vset (wkl_next_idx d) svc_cat ((idx + 1) mod length steps)) d).

(** [check_stats(first, last)] *)
Fixpoint check_stats (stats : list ci_mean_estimator_t) : bool :=
  match stats with
  | [] => true
  | stat :: rest =>
      if negb (done stat) && negb (unstable stat) then false else check_stats rest
  end.

(** [do_check_end_of_simulation()]: the estimators of the coalition profits
    are checked; the check of those of the alone profits is commented
    out. *)
Definition do_check_end_of_simulation (d : state) : bool :=
  check_stats (fp_coal_profit_ci_stats_ d).

(** [do_check_end_of_replication()] *)
Definition do_check_end_of_replication (d : state) : bool := false.

(** The initial events of [do_initialize_replication()]: a burst start for
    each service at the simulated time, then the trigger. *)
Definition do_initialize_replication (cfg : config) (d : state) : state * list event_t :=
  let '(d', starts) :=
    fold_left
      (fun '(d, events) svc =>
         let svc_cat := vget (svc_categories_ cfg) svc in
         let '((duration, arrival_rate), d') := next_burst cfg svc_cat d in
         (d', events ++ [mk_event 0 arrival_burst_start_event
                           (arrival_burst_event_state svc duration arrival_rate)]))
      (seq 0 (length (svc_categories_ cfg))) (d, []) in
  let stop_time := (0 + coalition_formation_interval cfg)%Q in
  (d', starts ++ [mk_event stop_time coalition_formation_trigger_event
                    (coalition_formation_trigger_event_state 0 stop_time)]).

(** [do_process_event(p_event)], as far as the event queue goes: the
    analysis of the coalitions at a trigger is taken to return. *)
Definition do_process_event (cfg : config) (p_event : event_t) (now : Q) (d : state)
  : state * list event_t :=
  match p_state p_event with
  | arrival_burst_event_state svc duration arrival_rate =>
      if (tag p_event =? arrival_burst_start_event)%Z then
        (d, [mk_event (now + duration) arrival_burst_stop_event (p_state p_event)])
      else if (tag p_event =? arrival_burst_stop_event)%Z then
        let svc_cat := vget (svc_categories_ cfg) svc in
        let '((duration', arrival_rate'), d') := next_burst cfg svc_cat d in
        (d', [mk_event now arrival_burst_start_event
                (arrival_burst_event_state svc duration' arrival_rate')])
      else (d, [])
  | coalition_formation_trigger_event_state _ _ =>
      if (tag p_event =? coalition_formation_trigger_event)%Z then
        let stop_time := (now + coalition_formation_interval cfg)%Q in
        (d, [mk_event stop_time coalition_formation_trigger_event
               (coalition_formation_trigger_event_state now stop_time)])
      else (d, [])
  | no_state => (d, [])
  end.

(** [experiment_t] as a subclass of [simulator_t]. *)
Definition experiment (cfg : config) : subclass state :=
  mk_subclass state
    (do_initialize_replication cfg)
    do_check_end_of_replication
    do_check_end_of_simulation
    (do_process_event cfg).

(** The durations of the workloads and the formation interval are not
    negative. *)
Definition forward (cfg : config) : Prop :=
  (0 <= coalition_formation_interval cfg)%Q /\
  Forall (Forall (fun step => 0 <= fst step)%Q) (svc_workloads cfg).

(** The payload of an event carries no negative duration. *)
Definition good_event (e : event_t) : Prop :=
  match p_state e with
  | arrival_burst_event_state _ duration _ => (0 <= duration)%Q
  | _ => True
  end.

(** The service of a burst event. *)
Definition service_of (e : event_t) : option nat :=
  match p_state e with
  | arrival_burst_event_state svc _ _ => Some svc
  | _ => None
  end.

(** The stopping rule as the specification words it: every estimator of
    both kinds is done or unstable. *)
Definition all_estimators_settled (d : state) : Prop :=
  Forall (fun stat => done stat = true \/ unstable stat = true)
         (fp_coal_profit_ci_stats_ d ++ fp_alone_profit_ci_stats_ d).

(** The stopping rule on the estimators of the coalition profits alone. *)
Definition coal_estimators_settled (d : state) : Prop :=
  Forall (fun stat => done stat = true \/ unstable stat = true)
         (fp_coal_profit_ci_stats_ d).

(** Three services of one category, whose workload is a single step of
    10 units of time at 5 requests per unit; a trigger every 100 units. *)
Definition three_services : config := mk_config [0; 0; 0] [[(10, 5)%Q]] 100.

Definition fresh_state : state := mk_state [0] [] [].

Definition fresh_simulator : simulator_t := mk_simulator 1000 10 0 0 false [].

(** One provider after a replication: the estimator of its profit in
    coalition is done, the one of its profit alone is neither done nor
    unstable. *)
Definition alone_unsettled : state :=
  mk_state [0] [mk_estimator true false] [mk_estimator false false].

Definition first_replication_over : simulator_t := mk_simulator 1000 10 1 0 false [].

End Driver.

(** ** dcs/fgt/experiment.hpp: the scenario file *)

Module Scenario.

(** [scenario_t] *)
Record scenario_t := mk_scenario {
  num_fps : nat;
  num_fn_categories : nat;
  num_svc_categories : nat;
  num_vm_categories : nat;
  svc_max_delays : list Q;
  svc_vm_categories : list nat;
  svc_vm_service_rates : list Q;
  svc_workloads : list (list (Q * Q));
  fp_num_svcs : list (list nat);
  fp_num_fns : list (list nat);
  fp_electricity_costs : list Q;
  fp_coalition_costs : list Q;
  fp_svc_revenues : list (list Q);
  fp_svc_penalties : list (list Q);
  fp_fn_asleep_costs : list (list Q);
  fp_fn_awake_costs : list (list Q);
  fn_min_powers : list Q;
  fn_max_powers : list Q;
  vm_cpu_requirements : list (list Q);
  vm_ram_requirements : list (list Q)
}.

(** Assignments to the members. *)
Definition set_num_fps (x : nat) (s : scenario_t) : scenario_t :=
  mk_scenario x (num_fn_categories s) (num_svc_categories s)
    (num_vm_categories s) (svc_max_delays s) (svc_vm_categories s)
    (svc_vm_service_rates s) (svc_workloads s) (fp_num_svcs s) (fp_num_fns s)
    (fp_electricity_costs s) (fp_coalition_costs s) (fp_svc_revenues s)
    (fp_svc_penalties s) (fp_fn_asleep_costs s) (fp_fn_awake_costs s)
    (fn_min_powers s) (fn_max_powers s) (vm_cpu_requirements s)
    (vm_ram_requirements s).
Definition set_num_fn_categories (x : nat) (s : scenario_t) : scenario_t :=
  mk_scenario (num_fps s) x (num_svc_categories s) (num_vm_categories s)
    (svc_max_delays s) (svc_vm_categories s) (svc_vm_service_rates s)
    (svc_workloads s) (fp_num_svcs s) (fp_num_fns s) (fp_electricity_costs s)
    (fp_coalition_costs s) (fp_svc_revenues s) (fp_svc_penalties s)
    (fp_fn_asleep_costs s) (fp_fn_awake_costs s) (fn_min_powers s)
    (fn_max_powers s) (vm_cpu_requirements s) (vm_ram_requirements s).
Definition set_num_svc_categories (x : nat) (s : scenario_t) : scenario_t :=
  mk_scenario (num_fps s) (num_fn_categories s) x (num_vm_categories s)
    (svc_max_delays s) (svc_vm_categories s) (svc_vm_service_rates s)
    (svc_workloads s) (fp_num_svcs s) (fp_num_fns s) (fp_electricity_costs s)
    (fp_coalition_costs s) (fp_svc_revenues s) (fp_svc_penalties s)
    (fp_fn_asleep_costs s) (fp_fn_awake_costs s) (fn_min_powers s)
    (fn_max_powers s) (vm_cpu_requirements s) (vm_ram_requirements s).
Definition set_num_vm_categories (x : nat) (s : scenario_t) : scenario_t :=
  mk_scenario (num_fps s) (num_fn_categories s) (num_svc_categories s) x
    (svc_max_delays s) (svc_vm_categories s) (svc_vm_service_rates s)
    (svc_workloads s) (fp_num_svcs s) (fp_num_fns s) (fp_electricity_costs s)
    (fp_coalition_costs s) (fp_svc_revenues s) (fp_svc_penalties s)
    (fp_fn_asleep_costs s) (fp_fn_awake_costs s) (fn_min_powers s)
    (fn_max_powers s) (vm_cpu_requirements s) (vm_ram_requirements s).
Definition set_svc_max_delays (x : list Q) (s : scenario_t) : scenario_t :=
  mk_scenario (num_fps s) (num_fn_categories s) (num_svc_categories s)
    (num_vm_categories s) x (svc_vm_categories s) (svc_vm_service_rates s)
    (svc_workloads s) (fp_num_svcs s) (fp_num_fns s) (fp_electricity_costs s)
    (fp_coalition_costs s) (fp_svc_revenues s) (fp_svc_penalties s)
    (fp_fn_asleep_costs s) (fp_fn_awake_costs s) (fn_min_powers s)
    (fn_max_powers s) (vm_cpu_requirements s) (vm_ram_requirements s).
Definition set_svc_vm_categories (x : list nat) (s : scenario_t) : scenario_t :=
  mk_scenario (num_fps s) (num_fn_categories s) (num_svc_categories s)
    (num_vm_categories s) (svc_max_delays s) x (svc_vm_service_rates s)
    (svc_workloads s) (fp_num_svcs s) (fp_num_fns s) (fp_electricity_costs s)
    (fp_coalition_costs s) (fp_svc_revenues s) (fp_svc_penalties s)
    (fp_fn_asleep_costs s) (fp_fn_awake_costs s) (fn_min_powers s)
    (fn_max_powers s) (vm_cpu_requirements s) (vm_ram_requirements s).
Definition set_svc_vm_service_rates (x : list Q) (s : scenario_t) : scenario_t :=
  mk_scenario (num_fps s) (num_fn_categories s) (num_svc_categories s)
    (num_vm_categories s) (svc_max_delays s) (svc_vm_categories s) x
    (svc_workloads s) (fp_num_svcs s) (fp_num_fns s) (fp_electricity_costs s)
    (fp_coalition_costs s) (fp_svc_revenues s) (fp_svc_penalties s)
    (fp_fn_asleep_costs s) (fp_fn_awake_costs s) (fn_min_powers s)
    (fn_max_powers s) (vm_cpu_requirements s) (vm_ram_requirements s).
Definition set_svc_workloads (x : list (list (Q * Q))) (s : scenario_t) : scenario_t :=
  mk_scenario (num_fps s) (num_fn_categories s) (num_svc_categories s)
    (num_vm_categories s) (svc_max_delays s) (svc_vm_categories s)
    (svc_vm_service_rates s) x (fp_num_svcs s) (fp_num_fns s)
    (fp_electricity_costs s) (fp_coalition_costs s) (fp_svc_revenues s)
    (fp_svc_penalties s) (fp_fn_asleep_costs s) (fp_fn_awake_costs s)
    (fn_min_powers s) (fn_max_powers s) (vm_cpu_requirements s)
    (vm_ram_requirements s).
Definition set_fp_num_svcs (x : list (list nat)) (s : scenario_t) : scenario_t :=
  mk_scenario (num_fps s) (num_fn_categories s) (num_svc_categories s)
    (num_vm_categories s) (svc_max_delays s) (svc_vm_categories s)
    (svc_vm_service_rates s) (svc_workloads s) x (fp_num_fns s)
    (fp_electricity_costs s) (fp_coalition_costs s) (fp_svc_revenues s)
    (fp_svc_penalties s) (fp_fn_asleep_costs s) (fp_fn_awake_costs s)
    (fn_min_powers s) (fn_max_powers s) (vm_cpu_requirements s)
    (vm_ram_requirements s).
Definition set_fp_num_fns (x : list (list nat)) (s : scenario_t) : scenario_t :=
  mk_scenario (num_fps s) (num_fn_categories s) (num_svc_categories s)
    (num_vm_categories s) (svc_max_delays s) (svc_vm_categories s)
    (svc_vm_service_rates s) (svc_workloads s) (fp_num_svcs s) x
    (fp_electricity_costs s) (fp_coalition_costs s) (fp_svc_revenues s)
    (fp_svc_penalties s) (fp_fn_asleep_costs s) (fp_fn_awake_costs s)
    (fn_min_powers s) (fn_max_powers s) (vm_cpu_requirements s)
    (vm_ram_requirements s).
Definition set_fp_electricity_costs (x : list Q) (s : scenario_t) : scenario_t :=
  mk_scenario (num_fps s) (num_fn_categories s) (num_svc_categories s)
    (num_vm_categories s) (svc_max_delays s) (svc_vm_categories s)
    (svc_vm_service_rates s) (svc_workloads s) (fp_num_svcs s) (fp_num_fns s)
    x (fp_coalition_costs s) (fp_svc_revenues s) (fp_svc_penalties s)
    (fp_fn_asleep_costs s) (fp_fn_awake_costs s) (fn_min_powers s)
    (fn_max_powers s) (vm_cpu_requirements s) (vm_ram_requirements s).
Definition set_fp_coalition_costs (x : list Q) (s : scenario_t) : scenario_t :=
  mk_scenario (num_fps s) (num_fn_categories s) (num_svc_categories s)
    (num_vm_categories s) (svc_max_delays s) (svc_vm_categories s)
    (svc_vm_service_rates s) (svc_workloads s) (fp_num_svcs s) (fp_num_fns s)
    (fp_electricity_costs s) x (fp_svc_revenues s) (fp_svc_penalties s)
    (fp_fn_asleep_costs s) (fp_fn_awake_costs s) (fn_min_powers s)
    (fn_max_powers s) (vm_cpu_requirements s) (vm_ram_requirements s).
Definition set_fp_svc_revenues (x : list (list Q)) (s : scenario_t) : scenario_t :=
  mk_scenario (num_fps s) (num_fn_categories s) (num_svc_categories s)
    (num_vm_categories s) (svc_max_delays s) (svc_vm_categories s)
    (svc_vm_service_rates s) (svc_workloads s) (fp_num_svcs s) (fp_num_fns s)
    (fp_electricity_costs s) (fp_coalition_costs s) x (fp_svc_penalties s)
    (fp_fn_asleep_costs s) (fp_fn_awake_costs s) (fn_min_powers s)
    (fn_max_powers s) (vm_cpu_requirements s) (vm_ram_requirements s).
Definition set_fp_svc_penalties (x : list (list Q)) (s : scenario_t) : scenario_t :=
  mk_scenario (num_fps s) (num_fn_categories s) (num_svc_categories s)
    (num_vm_categories s) (svc_max_delays s) (svc_vm_categories s)
    (svc_vm_service_rates s) (svc_workloads s) (fp_num_svcs s) (fp_num_fns s)
    (fp_electricity_costs s) (fp_coalition_costs s) (fp_svc_revenues s) x
    (fp_fn_asleep_costs s) (fp_fn_awake_costs s) (fn_min_powers s)
    (fn_max_powers s) (vm_cpu_requirements s) (vm_ram_requirements s).
Definition set_fp_fn_asleep_costs (x : list (list Q)) (s : scenario_t) : scenario_t :=
  mk_scenario (num_fps s) (num_fn_categories s) (num_svc_categories s)
    (num_vm_categories s) (svc_max_delays s) (svc_vm_categories s)
    (svc_vm_service_rates s) (svc_workloads s) (fp_num_svcs s) (fp_num_fns s)
    (fp_electricity_costs s) (fp_coalition_costs s) (fp_svc_revenues s)
    (fp_svc_penalties s) x (fp_fn_awake_costs s) (fn_min_powers s)
    (fn_max_powers s) (vm_cpu_requirements s) (vm_ram_requirements s).
Definition set_fp_fn_awake_costs (x : list (list Q)) (s : scenario_t) : scenario_t :=
  mk_scenario (num_fps s) (num_fn_categories s) (num_svc_categories s)
    (num_vm_categories s) (svc_max_delays s) (svc_vm_categories s)
    (svc_vm_service_rates s) (svc_workloads s) (fp_num_svcs s) (fp_num_fns s)
    (fp_electricity_costs s) (fp_coalition_costs s) (fp_svc_revenues s)
    (fp_svc_penalties s) (fp_fn_asleep_costs s) x (fn_min_powers s)
    (fn_max_powers s) (vm_cpu_requirements s) (vm_ram_requirements s).
Definition set_fn_min_powers (x : list Q) (s : scenario_t) : scenario_t :=
  mk_scenario (num_fps s) (num_fn_categories s) (num_svc_categories s)
    (num_vm_categories s) (svc_max_delays s) (svc_vm_categories s)
    (svc_vm_service_rates s) (svc_workloads s) (fp_num_svcs s) (fp_num_fns s)
    (fp_electricity_costs s) (fp_coalition_costs s) (fp_svc_revenues s)
    (fp_svc_penalties s) (fp_fn_asleep_costs s) (fp_fn_awake_costs s) x
    (fn_max_powers s) (vm_cpu_requirements s) (vm_ram_requirements s).
Definition set_fn_max_powers (x : list Q) (s : scenario_t) : scenario_t :=
  mk_scenario (num_fps s) (num_fn_categories s) (num_svc_categories s)
    (num_vm_categories s) (svc_max_delays s) (svc_vm_categories s)
    (svc_vm_service_rates s) (svc_workloads s) (fp_num_svcs s) (fp_num_fns s)
    (fp_electricity_costs s) (fp_coalition_costs s) (fp_svc_revenues s)
    (fp_svc_penalties s) (fp_fn_asleep_costs s) (fp_fn_awake_costs s)
    (fn_min_powers s) x (vm_cpu_requirements s) (vm_ram_requirements s).
Definition set_vm_cpu_requirements (x : list (list Q)) (s : scenario_t) : scenario_t :=
  mk_scenario (num_fps s) (num_fn_categories s) (num_svc_categories s)
    (num_vm_categories s) (svc_max_delays s) (svc_vm_categories s)
    (svc_vm_service_rates s) (svc_workloads s) (fp_num_svcs s) (fp_num_fns s)
    (fp_electricity_costs s) (fp_coalition_costs s) (fp_svc_revenues s)
    (fp_svc_penalties s) (fp_fn_asleep_costs s) (fp_fn_awake_costs s)
    (fn_min_powers s) (fn_max_powers s) x (vm_ram_requirements s).
Definition set_vm_ram_requirements (x : list (list Q)) (s : scenario_t) : scenario_t :=
  mk_scenario (num_fps s) (num_fn_categories s) (num_svc_categories s)
    (num_vm_categories s) (svc_max_delays s) (svc_vm_categories s)
    (svc_vm_service_rates s) (svc_workloads s) (fp_num_svcs s) (fp_num_fns s)
    (fp_electricity_costs s) (fp_coalition_costs s) (fp_svc_revenues s)
    (fp_svc_penalties s) (fp_fn_asleep_costs s) (fp_fn_awake_costs s)
    (fn_min_powers s) (fn_max_powers s) (vm_cpu_requirements s) x.

(** The result of a call: a value, an exception that leaves the call, or
    an access [v[i]] past the end of a vector, whose behaviour is
    undefined. *)
Inductive parse (A : Type) :=
  | Parsed (a : A)
  | Raises (e : exception)
  | Undefined.

Arguments Parsed {A} a.
Arguments Raises {A} e.
Arguments Undefined {A}.

Definition and_then {A B : Type} (c : parse A) (k : A -> parse B) : parse B :=
  match c with
  | Parsed a => k a
  | Raises e => Raises e
  | Undefined => Undefined
  end.

Notation "'let+' x ':=' c 'in' k" := (and_then c (fun x => k))
  (at level 10, x pattern, c at level 100, k at level 200).

(** *** Lines and streams *)

(** What follows the first ['='] of a line, white space apart: brackets,
    numerals, and anything else.  A numeral with neither sign, point nor
    exponent is a [size_lit]. *)
Inductive token :=
  | lbracket
  | rbracket
  | size_lit (n : nat)
  | real_lit (q : Q)
  | junk.

(** A line, leading white space removed and in lower case: its text before
    the first ['='], and the tokens after it if there is one. *)
Record line := mk_line {
  head : string;
  body : option (list token)
}.

(** The [std::istringstream iss(line)] of a branch, once past the ['='].
    [rest] is what is left to read; [failbit] disables every later
    operation. *)
Record stream := mk_stream {
  rest : list token;
  failbit : bool
}.

Definition is_lbracket (t : token) : bool :=
  match t with lbracket => true | _ => false end.

Definition is_rbracket (t : token) : bool :=
  match t with rbracket => true | _ => false end.

(** [iss.ignore(max, delim)]: what follows the first [delim], if any. *)
Fixpoint ignore (delim : token -> bool) (ts : list token) : option (list token) :=
  match ts with
  | [] => None
  | t :: ts' => if delim t then Some ts' else ignore delim ts'
  end.

(** [iss.ignore(max, '='); DCS_ASSERT(iss.good(), throw runtime_error)] *)
Definition move_to_equals (l : line) : parse stream :=
  match body l with
  | Some ts => Parsed (mk_stream ts false)
  | None => Raises runtime_error
  end.

(** [iss.ignore(max, delim); DCS_ASSERT(iss.good(), throw runtime_error)]:
    the stream is not good when it has failed or when [delim] is not
    found before the end. *)
Definition move_to (delim : token -> bool) (iss : stream) : parse stream :=
  if failbit iss then Raises runtime_error
  else match ignore delim (rest iss) with
       | Some ts => Parsed (mk_stream ts false)
       | None => Raises runtime_error
       end.

(** [iss >> x]: on a stream that has failed or is at its end [x] is left
    as it is; a token that is no numeral of the type of [x] sets [x] to
    zero; both set [failbit]. *)
Definition extract {A : Type} (conv : token -> option A) (zero : A) (x : A) (iss : stream)
  : A * stream :=
  if failbit iss then (x, iss)
  else match rest iss with
       | [] => (x, mk_stream [] true)
       | t :: ts =>
           match conv t with
           | Some a => (a, mk_stream ts false)
           | None => (zero, mk_stream (t :: ts) true)
           end
       end.

(** The numerals of [std::size_t] and of [RealT].  For [std::size_t] these
    are the digit strings below [2^64]; a numeral with a sign, a point or
    an exponent, of which [operator>>] reads the digits it starts with,
    and a digit string from [2^64] on are outside what [as_size]
    describes. *)
Definition as_size (t : token) : option nat :=
  match t with size_lit n => Some n | _ => None end.

Definition as_real (t : token) : option Q :=
  match t with
  | size_lit n => Some (inject_Z (Z.of_nat n))
  | real_lit q => Some q
  | _ => None
  end.

(** [v.resize(n); for (i = 0; i < n; ++i) iss >> v[i];] *)
Definition read_vector {A : Type} (conv : token -> option A) (zero : A) (n : nat)
    (v : list A) (iss : stream) : list A * stream :=
  for_range 0 n
    (fun i '(v, iss) =>
       let '(x, iss') := extract conv zero (nth i v zero) iss in
       (<[i := x]> v, iss'))
    (resize n zero v, iss).

(** The loop over the rows of a table of vectors:
    [for (i = lo; i < rows; ++i)
       { move to '['; m[i].resize(cols); for (j ...) iss >> m[i][j];
         move to ']' }],
    the last step where [closing] holds.  [m[i]] past the end of [m] is
    undefined. *)
Fixpoint read_rows {A : Type} (conv : token -> option A) (zero : A) (closing : bool)
    (cols : nat) (indices : list nat) (m : list (list A)) (iss : stream)
  : parse (list (list A) * stream) :=
  match indices with
  | [] => Parsed (m, iss)
  | i :: indices' =>
      let+ iss1 := move_to is_lbracket iss in
      match m !! i with
      | None => Undefined
      | Some row =>
          let '(row', iss2) := read_vector conv zero cols row iss1 in
          let+ iss3 := if closing then move_to is_rbracket iss2 else Parsed iss2 in
          read_rows conv zero closing cols indices' (<[i := row']> m) iss3
      end
  end.

(** [m.resize(outer); for (i = 0; i < rows; ++i) ...] *)
Definition read_matrix {A : Type} (conv : token -> option A) (zero : A) (closing : bool)
    (outer rows cols : nat) (m : list (list A)) (iss : stream)
  : parse (list (list A) * stream) :=
  read_rows conv zero closing cols (seq 0 rows) (resize outer [] m) iss.

(** [iss.peek() != ']'] *)
Definition peek_is_rbracket (iss : stream) : bool :=
  negb (failbit iss) &&
  match rest iss with
  | t :: _ => is_rbracket t
  | [] => false
  end.

(** The steps of one workload:
    [while (iss.peek() != ']')
       { move to '['; iss >> duration; iss >> arr_rate;
         w.push_back(make_pair(duration, arr_rate)); move to ']' }].
    Each turn reads a token or throws; [fuel] is taken above the number of
    tokens. *)
Fixpoint read_steps (fuel : nat) (w : list (Q * Q)) (iss : stream)
  : parse (list (Q * Q) * stream) :=
  match fuel with
  | 0 => Parsed (w, iss)
  | S fuel' =>
      if peek_is_rbracket iss then Parsed (w, iss)
      else
        let+ iss1 := move_to is_lbracket iss in
        let '(duration, iss2) := extract as_real 0%Q 0%Q iss1 in
        let '(arr_rate, iss3) := extract as_real 0%Q 0%Q iss2 in
        let+ iss4 := move_to is_rbracket iss3 in
        read_steps fuel' (w ++ [(duration, arr_rate)]) iss4
  end.

(** The loop of [svc.workloads] over the service categories. *)
Fixpoint read_workloads (indices : list nat) (m : list (list (Q * Q))) (iss : stream)
  : parse (list (list (Q * Q)) * stream) :=
  match indices with
  | [] => Parsed (m, iss)
  | i :: indices' =>
      let+ iss1 := move_to is_lbracket iss in
      match m !! i with
      | None => Undefined
      | Some w =>
          let+ r := read_steps (S (length (rest iss1))) w iss1 in
          read_workloads indices' (<[i := r.1]> m) r.2
      end
  end.

(** *** make_scenario *)

(** [boost::istarts_with(line, key)]; no key holds an ['=']. *)
Definition istarts_with (l : line) (key : string) : bool := String.prefix key (head l).

(** [line.empty() || line.at(0) == '#'] *)
Definition skipped (l : line) : bool :=
  (String.eqb (head l) "" && match body l with None => true | Some _ => false end)
  || istarts_with l "#".

(** [key = <int>] *)
Definition read_count (l : line) (x : nat) : parse nat :=
  let+ iss := move_to_equals l in
  Parsed (extract as_size 0 x iss).1.

(** [key = [v1 v2 ...]] *)
Definition read_list {A : Type} (conv : token -> option A) (zero : A) (n : nat)
    (v : list A) (l : line) : parse (list A) :=
  let+ iss := move_to_equals l in
  let+ iss := move_to is_lbracket iss in
  Parsed (read_vector conv zero n v iss).1.

(** [key = [ [..] [..] ...]] *)
Definition read_table {A : Type} (conv : token -> option A) (zero : A) (closing : bool)
    (outer rows cols : nat) (m : list (list A)) (l : line) : parse (list (list A)) :=
  let+ iss := move_to_equals l in
  let+ iss := move_to is_lbracket iss in
  let+ r := read_matrix conv zero closing outer rows cols m iss in
  Parsed r.1.

(** The body of the loop over the lines: the branches in the order of the
    source.  The closing bracket of a row is not looked for in
    [fp.fn_asleep_costs] and [fp.fn_awake_costs]; the tables of the
    requirements of the virtual machines are resized to [num_fps] and
    filled over [num_vm_categories]. *)
Definition parse_line (s : scenario_t) (l : line) : parse scenario_t :=
  if skipped l then Parsed s
  else if istarts_with l "num_fps" then
    let+ x := read_count l (num_fps s) in Parsed (set_num_fps x s)
  else if istarts_with l "num_fn_categories" then
    let+ x := read_count l (num_fn_categories s) in Parsed (set_num_fn_categories x s)
  else if istarts_with l "num_svc_categories" then
    let+ x := read_count l (num_svc_categories s) in Parsed (set_num_svc_categories x s)
  else if istarts_with l "num_vm_categories" then
    let+ x := read_count l (num_vm_categories s) in Parsed (set_num_vm_categories x s)
  else if istarts_with l "svc.max_delays" then
    let+ v := read_list as_real 0%Q (num_svc_categories s) (svc_max_delays s) l in
    Parsed (set_svc_max_delays v s)
  else if istarts_with l "svc.vm_categories" then
    let+ v := read_list as_size 0 (num_svc_categories s) (svc_vm_categories s) l in
    Parsed (set_svc_vm_categories v s)
  else if istarts_with l "svc.vm_service_rates" then
    let+ v := read_list as_real 0%Q (num_svc_categories s) (svc_vm_service_rates s) l in
    Parsed (set_svc_vm_service_rates v s)
  else if istarts_with l "svc.workloads" then
    let+ iss := move_to_equals l in
    let+ iss := move_to is_lbracket iss in
    let+ r := read_workloads (seq 0 (num_svc_categories s))
                (resize (num_svc_categories s) [] (svc_workloads s)) iss in
    Parsed (set_svc_workloads r.1 s)
  else if istarts_with l "fp.num_svcs" then
    let+ m := read_table as_size 0 true (num_fps s) (num_fps s) (num_svc_categories s)
                (fp_num_svcs s) l in
    Parsed (set_fp_num_svcs m s)
  else if istarts_with l "fp.num_fns" then
    let+ m := read_table as_size 0 true (num_fps s) (num_fps s) (num_fn_categories s)
                (fp_num_fns s) l in
    Parsed (set_fp_num_fns m s)
  else if istarts_with l "fp.electricity_costs" then
    let+ v := read_list as_real 0%Q (num_fps s) (fp_electricity_costs s) l in
    Parsed (set_fp_electricity_costs v s)
  else if istarts_with l "fp.fn_asleep_costs" then
    let+ m := read_table as_real 0%Q false (num_fps s) (num_fps s) (num_fn_categories s)
                (fp_fn_asleep_costs s) l in
    Parsed (set_fp_fn_asleep_costs m s)
  else if istarts_with l "fp.fn_awake_costs" then
    let+ m := read_table as_real 0%Q false (num_fps s) (num_fps s) (num_fn_categories s)
                (fp_fn_awake_costs s) l in
    Parsed (set_fp_fn_awake_costs m s)
  else if istarts_with l "fp.coalition_costs" then
    let+ v := read_list as_real 0%Q (num_fps s) (fp_coalition_costs s) l in
    Parsed (set_fp_coalition_costs v s)
  else if istarts_with l "fp.svc_revenues" then
    let+ m := read_table as_real 0%Q true (num_fps s) (num_fps s) (num_svc_categories s)
                (fp_svc_revenues s) l in
    Parsed (set_fp_svc_revenues m s)
  else if istarts_with l "fp.svc_penalties" then
    let+ m := read_table as_real 0%Q true (num_fps s) (num_fps s) (num_svc_categories s)
                (fp_svc_penalties s) l in
    Parsed (set_fp_svc_penalties m s)
  else if istarts_with l "fn.min_powers" then
    let+ v := read_list as_real 0%Q (num_fn_categories s) (fn_min_powers s) l in
    Parsed (set_fn_min_powers v s)
  else if istarts_with l "fn.max_powers" then
    let+ v := read_list as_real 0%Q (num_fn_categories s) (fn_max_powers s) l in
    Parsed (set_fn_max_powers v s)
  else if istarts_with l "vm.cpu_requirements" then
    let+ m := read_table as_real 0%Q true (num_fps s) (num_vm_categories s)
                (num_fn_categories s) (vm_cpu_requirements s) l in
    Parsed (set_vm_cpu_requirements m s)
  else if istarts_with l "vm.ram_requirements" then
    let+ m := read_table as_real 0%Q true (num_fps s) (num_vm_categories s)
                (num_fn_categories s) (vm_ram_requirements s) l in
    Parsed (set_vm_ram_requirements m s)
  else Parsed s.

(** [for (std::string line; std::getline(ifs, line); ) ...] *)
Fixpoint parse_lines (lines : list line) (s : scenario_t) : parse scenario_t :=
  match lines with
  | [] => Parsed s
  | l :: lines' => let+ s' := parse_line s l in parse_lines lines' s'
  end.

(** [DCS_ASSERT(c, DCS_EXCEPTION_THROW(std::runtime_error, ...))] *)
Definition check (c : bool) : parse unit :=
  if c then Parsed tt else Raises runtime_error.

(** [for (i = 0; i < n; ++i) DCS_ASSERT(m[i].size() == cols, ...)], after
    the check that [m.size() == n]. *)
Definition check_rows {A : Type} (n cols : nat) (m : list (list A)) : parse unit :=
  check (forallb (fun i => length (nth i m []) =? cols) (seq 0 n)).

(** The post-parsing consistency checks. *)
Definition post_parse (s : scenario_t) : parse scenario_t :=
  let+ _ := check (0 <? num_fps s) in
  let+ _ := check (0 <? num_fn_categories s) in
  let+ _ := check (0 <? num_svc_categories s) in
  let+ _ := check (0 <? num_vm_categories s) in
  let+ _ := check (length (svc_max_delays s) =? num_svc_categories s) in
  let+ _ := check (length (svc_vm_categories s) =? num_svc_categories s) in
  let+ _ := check (length (fp_num_svcs s) =? num_fps s) in
  let+ _ := check_rows (num_fps s) (num_svc_categories s) (fp_num_svcs s) in
  let+ _ := check (length (fp_num_fns s) =? num_fps s) in
  let+ _ := check_rows (num_fps s) (num_fn_categories s) (fp_num_fns s) in
  let+ _ := check (length (fp_electricity_costs s) =? num_fps s) in
  let+ _ := check (length (fp_fn_asleep_costs s) =? num_fps s) in
  let+ _ := check_rows (num_fps s) (num_fn_categories s) (fp_fn_asleep_costs s) in
  let+ _ := check (length (fp_fn_awake_costs s) =? num_fps s) in
  let+ _ := check_rows (num_fps s) (num_fn_categories s) (fp_fn_awake_costs s) in
  let+ _ := check (length (fp_coalition_costs s) =? num_fps s) in
  let+ _ := check (length (fp_svc_revenues s) =? num_fps s) in
  let+ _ := check_rows (num_fps s) (num_svc_categories s) (fp_svc_revenues s) in
  let+ _ := check (length (fp_svc_penalties s) =? num_fps s) in
  let+ _ := check_rows (num_fps s) (num_svc_categories s) (fp_svc_penalties s) in
  let+ _ := check (length (fn_min_powers s) =? num_fn_categories s) in
  let+ _ := check (length (fn_max_powers s) =? num_fn_categories s) in
  Parsed s.

(** [scenario_t<RealT> s;]: the vectors are empty, the counts hold what the
    memory held. *)
Definition default_initialized (counts : nat * nat * nat * nat) : scenario_t :=
  mk_scenario counts.1.1.1 counts.1.1.2 counts.1.2 counts.2
    [] [] [] [] [] [] [] [] [] [] [] [] [] [] [] [].

(** [make_scenario(fname)]; [ifs] holds the lines of the file if it can be
    opened. *)
Definition make_scenario (fname : string) (ifs : option (list line))
    (counts : nat * nat * nat * nat) : parse scenario_t :=
  if String.eqb fname "" then Raises invalid_argument
  else match ifs with
       | None => Raises runtime_error
       | Some lines =>
           let+ s := parse_lines lines (default_initialized counts) in
           post_parse s
       end.

(** *** The declared shapes *)

Definition vector_shape {A : Type} (n : nat) (v : list A) : Prop := length v = n.

Definition table_shape {A : Type} (rows cols : nat) (m : list (list A)) : Prop :=
  length m = rows /\ Forall (fun row => length row = cols) m.

(** The shapes of the tables that the post-parsing checks cover. *)
Definition checked_shape (s : scenario_t) : Prop :=
  vector_shape (num_svc_categories s) (svc_max_delays s) /\
  vector_shape (num_svc_categories s) (svc_vm_categories s) /\
  table_shape (num_fps s) (num_svc_categories s) (fp_num_svcs s) /\
  table_shape (num_fps s) (num_fn_categories s) (fp_num_fns s) /\
  vector_shape (num_fps s) (fp_electricity_costs s) /\
  table_shape (num_fps s) (num_fn_categories s) (fp_fn_asleep_costs s) /\
  table_shape (num_fps s) (num_fn_categories s) (fp_fn_awake_costs s) /\
  vector_shape (num_fps s) (fp_coalition_costs s) /\
  table_shape (num_fps s) (num_svc_categories s) (fp_svc_revenues s) /\
  table_shape (num_fps s) (num_svc_categories s) (fp_svc_penalties s) /\
  vector_shape (num_fn_categories s) (fn_min_powers s) /\
  vector_shape (num_fn_categories s) (fn_max_powers s).

(** The shape of every table as the specification declares it. *)
Definition declared_shape (s : scenario_t) : Prop :=
  checked_shape s /\
  vector_shape (num_svc_categories s) (svc_vm_service_rates s) /\
  vector_shape (num_svc_categories s) (svc_workloads s) /\
  table_shape (num_vm_categories s) (num_fn_categories s) (vm_cpu_requirements s) /\
  table_shape (num_vm_categories s) (num_fn_categories s) (vm_ram_requirements s).

(** *** A scenario file *)

(** [[ [v] [v] ]] *)
Definition one_column (v : list token) : list token :=
  [lbracket] ++ concat (map (fun t => [lbracket; t; rbracket]) v) ++ [rbracket].

Definition tenth : Q := 1 # 10.

(** The lines of the tables, those of the virtual machines holding
    [vm_rows]. *)
Definition tables (vm_rows : list token) : list line :=
  [ mk_line "svc.max_delays " (Some [lbracket; size_lit 1; rbracket]);
    mk_line "svc.vm_categories " (Some [lbracket; size_lit 0; rbracket]);
    mk_line "svc.vm_service_rates " (Some [lbracket; size_lit 10; rbracket]);
    mk_line "svc.workloads "
      (Some [lbracket; lbracket; lbracket; size_lit 100; size_lit 5;
             rbracket; rbracket; rbracket]);
    mk_line "fp.num_svcs " (Some (one_column [size_lit 1; size_lit 1]));
    mk_line "fp.num_fns " (Some (one_column [size_lit 1; size_lit 1]));
    mk_line "fp.electricity_costs " (Some [lbracket; real_lit tenth; real_lit tenth; rbracket]);
    mk_line "fp.fn_asleep_costs " (Some (one_column [size_lit 0; size_lit 0]));
    mk_line "fp.fn_awake_costs " (Some (one_column [size_lit 0; size_lit 0]));
    mk_line "fp.coalition_costs " (Some [lbracket; size_lit 0; size_lit 0; rbracket]);
    mk_line "fp.svc_revenues " (Some (one_column [size_lit 1; size_lit 1]));
    mk_line "fp.svc_penalties " (Some (one_column [size_lit 1; size_lit 1]));
    mk_line "fn.min_powers " (Some [lbracket; real_lit tenth; rbracket]);
    mk_line "fn.max_powers " (Some [lbracket; real_lit (2 # 10); rbracket]);
    mk_line "vm.cpu_requirements " (Some vm_rows);
    mk_line "vm.ram_requirements " (Some vm_rows) ].

Definition counts_of (fps vm_categories : nat) : list line :=
  [ mk_line "num_fps " (Some [size_lit fps]);
    mk_line "num_fn_categories " (Some [size_lit 1]);
    mk_line "num_svc_categories " (Some [size_lit 1]);
    mk_line "num_vm_categories " (Some [size_lit vm_categories]) ].

(** Two providers, one category of nodes, of services and of virtual
    machines; every table written as declared:
<<
num_fps = 2
num_fn_categories = 1
num_svc_categories = 1
num_vm_categories = 1
svc.max_delays = [1]
svc.vm_categories = [0]
svc.vm_service_rates = [10]
svc.workloads = [[[100 5]]]
fp.num_svcs = [[1] [1]]
fp.num_fns = [[1] [1]]
fp.electricity_costs = [0.1 0.1]
fp.fn_asleep_costs = [[0] [0]]
fp.fn_awake_costs = [[0] [0]]
fp.coalition_costs = [0 0]
fp.svc_revenues = [[1] [1]]
fp.svc_penalties = [[1] [1]]
fn.min_powers = [0.1]
fn.max_powers = [0.2]
vm.cpu_requirements = [[0.5]]
vm.ram_requirements = [[0.5]]
>> *)
Definition two_fps_file : list line :=
  counts_of 2 1 ++ tables (one_column [real_lit (1 # 2)]).

(** The same file without the tables of the virtual machines. *)
Definition no_vm_tables_file : list line :=
  counts_of 2 1 ++ firstn 14 (tables []).

(** One provider and two categories of virtual machines:
<<
num_fps = 1
num_vm_categories = 2
vm.cpu_requirements = [[0.5] [0.5]]
vm.ram_requirements = [[0.5] [0.5]]
>>
    and the other lines of the file above. *)
Definition two_vm_categories_file : list line :=
  counts_of 1 2 ++ tables (one_column [real_lit (1 # 2); real_lit (1 # 2)]).

End Scenario.

(** ** dcs/math/detail/float.hpp, dcs/math/traits/float.hpp: the other
    comparisons *)

Module Float.
Import Real.

(** [x == y] *)
Definition req (x y : real_t) : bool :=
  match x, y with
  | Fin a, Fin b => Qeq_bool a b
  | PosInf, PosInf | NegInf, NegInf => true
  | _, _ => false
  end.

(** [std::min(a, b)] is [(b < a) ? b : a]. *)
Definition rmin (a b : real_t) : real_t := if rlt b a then b else a.

(** [detail::approximately_equal(x, y, tol)] *)
Definition approximately_equal_tol (x y tol : real_t) : bool :=
  if req x y then true
  else if isnan x || isnan y then false
  else if isinf x && isinf y then true
  else if (isinf x && isfinite y) || (isfinite x && isinf y) then false
  else rle (rabs (rsub x y)) (rmul (rmax (rabs x) (rabs y)) tol).

(** [detail::essentially_equal(x, y, tol)] *)
Definition essentially_equal_tol (x y tol : real_t) : bool :=
  if req x y then true
  else if isnan x || isnan y then false
  else if isinf x && isinf y then true
  else if (isinf x && isfinite y) || (isfinite x && isinf y) then false
  else rle (rabs (rsub x y)) (rmul (rmin (rabs x) (rabs y)) tol).

(** [detail::definitely_less(x, y, tol)]; [x >= y] is [y <= x]. *)
Definition definitely_less_tol (x y tol : real_t) : bool :=
  if rle y x then false
  else if isnan x || isnan y then false
  else if isinf x && isfinite y then false
  else if isfinite x && isinf y then true
  else rgt (rsub y x) (rmul (rmax (rabs x) (rabs y)) tol).

(** The members of [float_traits<RealT>] with a tolerance. *)
Definition approximately_less_equal_tol (x y tol : real_t) : bool :=
  definitely_less_tol x y tol || approximately_equal_tol x y tol.

Definition essentially_less_equal_tol (x y tol : real_t) : bool :=
  definitely_less_tol x y tol || essentially_equal_tol x y tol.

Definition approximately_greater_equal_tol (x y tol : real_t) : bool :=
  definitely_greater_tol x y tol || approximately_equal_tol x y tol.

Definition essentially_greater_equal_tol (x y tol : real_t) : bool :=
  definitely_greater_tol x y tol || essentially_equal_tol x y tol.

(** [float_traits<RealT>::definitely_min(x, y, tol)] and
    [definitely_max(x, y, tol)] *)
Definition definitely_min (x y tol : real_t) : real_t :=
  if definitely_less_tol x y tol then x else y.

Definition definitely_max (x y tol : real_t) : real_t :=
  if definitely_greater_tol x y tol then x else y.

(** The members with the default tolerance. *)
Definition approximately_equal (x y : real_t) : bool := approximately_equal_tol x y tolerance.
Definition essentially_equal (x y : real_t) : bool := essentially_equal_tol x y tolerance.
Definition definitely_less (x y : real_t) : bool := definitely_less_tol x y tolerance.

(** [std::numeric_limits<double>::max()], [(2 - 2^-52) * 2^1023]. *)
Definition double_max : Q := inject_Z ((2 ^ 53 - 1) * 2 ^ 971).

(** Equality of values, finite ones as rationals. *)
Definition same (x y : real_t) : Prop :=
  match x, y with
  | Fin a, Fin b => (a == b)%Q
  | PosInf, PosInf | NegInf, NegInf | NaN, NaN => True
  | _, _ => False
  end.

End Float.

(** ** dcs/algorithm/partition.hpp: the other members *)

Module PartitionOps.
Import Partition.

(** The loop of [integrity_check()]:
    [max = kappa_[0];
     for (i = 0; i < n_; ++i) { max = std::max(max, kappa_[i]); if (max != M_[i]) throw; }];
    [false] is the [std::domain_error]. *)
Definition integrity_loop (n : nat) (kappa M : list nat) : nat * bool :=
  for_range 0 n
    (fun i '(max, ok) =>
       let max' := Nat.max max (vget kappa i) in
       (max', ok && (max' =? vget M i)))
    (vget kappa 0, true).

(** [lexicographic_partition::integrity_check()] *)
Definition integrity_check (p : lexicographic_partition) : bool :=
  (integrity_loop (n_ p) (kappa_ p) (M_ p)).2.

(** [prev_partition(first, last, part)] *)
Definition prev_partition {A : Type} (v : list A) (p : lexicographic_partition)
  : option (list (list A) * lexicographic_partition) :=
  match apply p v with
  | None => None
  | Some subs =>
      if has_prev p then
        match decr p with
        | Some p' => Some (subs, p')
        | None => None
        end
      else Some (subs, p)
  end.

(** *** [lexicographic_k_partition] *)

(** [integrity_check()]: the check of [M_], then
    [num_subsets() != M_[n_-1] + 1]. *)
Definition kintegrity_check (p : lexicographic_k_partition) : bool :=
  (integrity_loop (kn_ p) (kkappa_ p) (kM_ p)).2
  && (knum_subsets p =? vget (kM_ p) (kn_ p - 1) + 1).

(** The two inner loops of [operator--]:
    [for (j = i + 1; j < i + (k_ - m_i); ++j) kappa_[j] = M_[j] = m_i + j - i;
     for (j = i + (k_ - m_i); j < n_; ++j) kappa_[j] = M_[j] = k_ - 1;] *)
Definition kclimb_tail (n k i m_i : nat) (km : list nat * list nat)
  : list nat * list nat :=
  let km1 :=
    for_range (i + 1) (i + (k - m_i))
      (fun j '(kp, m) => (vset kp j (m_i + j - i), vset m j (m_i + j - i))) km in
  for_range (i + (k - m_i)) n
    (fun j '(kp, m) => (vset kp j (k - 1), vset m j (k - 1))) km1.

(** The outer loop of [operator--], entered at index [i]. *)
Fixpoint kdecr_scan (n k i : nat) (kappa M : list nat)
  : option (list nat * list nat) :=
  match i with
  | 0 => None
  | S i' =>
      if (0 <? vget kappa i) && (k - vget M i' <=? n - i) then
        let kappa1 := vset kappa i (vget kappa i - 1) in
        let m_i := vget M i' in
        let M1 := vset M i m_i in
        Some (kclimb_tail n k i m_i (kappa1, M1))
      else kdecr_scan n k i' kappa M
  end.

(** [operator--]: [has_prev_] is cleared first and set again when the loop
    reaches [break]; [None] is the [std::underflow_error]. *)
Definition kdecr (p : lexicographic_k_partition) : option lexicographic_k_partition :=
  if khas_prev_ p then
    let n := kn_ p in
    let k := kk_ p in
    match kdecr_scan n k (n - 1) (kkappa_ p) (kM_ p) with
    | Some (kappa, M) => Some (mk_k_partition n k kappa M true true)
    | None => Some (mk_k_partition n k (kkappa_ p) (kM_ p) false (khas_next_ p))
    end
  else None.

Definition khas_prev (p : lexicographic_k_partition) : bool := khas_prev_ p.

(** The states an iterator over the partitions of [n] elements into [k]
    blocks can be in. *)
Inductive kreachable (n k : nat) : lexicographic_k_partition -> Prop :=
  | kreachable_make first p : kmake n k first = Some p -> kreachable n k p
  | kreachable_incr p p' : kreachable n k p -> kincr p = Some p' -> kreachable n k p'
  | kreachable_decr p p' : kreachable n k p -> kdecr p = Some p' -> kreachable n k p'.

(** The bodies of the loops of [operator++] and [operator--] at the index
    where they break. *)
Definition kincr_at (n k i : nat) (kappa M : list nat) : list nat * list nat :=
  let kappa1 := vset kappa i (vget kappa i + 1) in
  let new_max := Nat.max (vget M i) (vget kappa1 i) in
  let M1 := vset M i new_max in
  kreset_tail n k i new_max (kappa1, M1).

Definition kdecr_at (n k i : nat) (kappa M : list nat) : list nat * list nat :=
  let kappa1 := vset kappa i (vget kappa i - 1) in
  let m_i := vget M (i - 1) in
  let M1 := vset M i m_i in
  kclimb_tail n k i m_i (kappa1, M1).

(** The integrity of a state of the iterator over the partitions into [k]
    blocks. *)
Definition kwf (n k : nat) (kappa M : list nat) : Prop :=
  PartitionInv.wf n kappa M /\ 1 <= k <= n /\ vget M (n - 1) + 1 = k.

Definition kwf_state (n k : nat) (p : lexicographic_k_partition) : Prop :=
  kn_ p = n /\ kk_ p = k /\ kwf n k (kkappa_ p) (kM_ p).

(** *** Restricted growth strings in lexicographic order *)

(** The maximum of [c[0..i]]. *)
Definition prefix_max (c : list nat) (i : nat) : nat := list_max (firstn (S i) c).

(** [c] is a restricted growth string of length [n]: it starts at 0 and
    no element exceeds by more than one the maximum of those before it. *)
Definition rgs (n : nat) (c : list nat) : Prop :=
  length c = n /\ vget c 0 = 0 /\
  forall i, 1 <= i < n -> vget c i <= prefix_max c (i - 1) + 1.

(** [a] comes before [b] in lexicographic order. *)
Definition lex_lt (a b : list nat) : Prop :=
  exists d, d < length a /\ (forall j, j < d -> vget a j = vget b j) /\
    vget a d < vget b d.

(** A partition of the elements of [v] into [k] blocks. *)
Definition blocks_of {A : Type} (k : nat) (v : list A) (blocks : list (list A)) : Prop :=
  length blocks = k /\ Forall (fun b => b <> []) blocks /\ Permutation (concat blocks) v.

End PartitionOps.

(** ** dcs/algorithm/subset.hpp: the other members *)

Module SubsetOps.

(** [lexicographic_subset::count()]:
    [const std::size_t c = 1 << n_; return empty_set_ ? c : (c-1);].
    The shift is one of [int]; it is modelled where the result fits,
    below 31 bits. *)
Definition count (s : Subset.lexicographic_subset) : option N :=
  if Subset.n_ s <? 31 then
    let c := (2 ^ N.of_nat (Subset.n_ s))%N in
    Some (if Subset.empty_set_ s then c else (c - 1)%N)
  else None.

(** [operator()()]: the positions of the members. *)
Definition members (s : Subset.lexicographic_subset) : list nat :=
  Subset.positions (Subset.n_ s) (Subset.bits_ s).

(** [prev_subset(first, last, subset)]; the step back is unconditional. *)
Definition prev_subset {A : Type} (v : list A) (s : Subset.lexicographic_subset)
  : option (list A * Subset.lexicographic_subset) :=
  match Subset.apply s v with
  | None => None
  | Some subs =>
      match Subset.decr s with
      | Some s' => Some (subs, s')
      | None => None
      end
  end.

(** [while (subset.has_next()) { yield next_subset(first, last, subset); }],
    the loop of [analyze_coalitions] over the coalitions, bounded by [fuel]
    iterations; [None] when the fuel runs out or a call throws. *)
Fixpoint enumerate {A : Type} (fuel : nat) (v : list A) (s : Subset.lexicographic_subset)
  : option (list (list A)) :=
  match fuel with
  | 0 => None
  | S fuel' =>
      if Subset.has_next s then
        match Subset.next_subset v s with
        | Some (subs, s') =>
            match enumerate fuel' v s' with
            | Some rest => Some (subs :: rest)
            | None => None
            end
        | None => None
        end
      else Some []
  end.

(** The elements of [v] at the set positions of the bit mask [bits]. *)
Definition subset_at {A : Type} (v : list A) (bits : N) : list A :=
  omap (fun pos => v !! pos) (Subset.positions (length v) bits).

End SubsetOps.

(** ** dcs/fgt/simulator.hpp: [run()] *)

Module SimulatorRun.
Import Simulator.

(** [std::numeric_limits<std::size_t>::max()] *)
Definition size_max : nat := 2 ^ 64 - 1.

(** [simulator_t(replication_duration)] *)
Definition new_simulator (replication_duration : Q) : simulator_t :=
  mk_simulator replication_duration size_max 0 0 false [].

(** The setters [max_num_replications(value)] and
    [max_replication_duration(value)]. *)
Definition set_max_num_replications (value : nat) (s : simulator_t) : simulator_t :=
  mk_simulator (max_rep_len_ s) value (num_rep_ s) (sim_time_ s) (done_ s) (evt_queue_ s).

Definition set_max_replication_duration (value : Q) (s : simulator_t) : simulator_t :=
  mk_simulator value (max_num_rep_ s) (num_rep_ s) (sim_time_ s) (done_ s) (evt_queue_ s).

Definition set_done (b : bool) (s : simulator_t) : simulator_t :=
  mk_simulator (max_rep_len_ s) (max_num_rep_ s) (num_rep_ s) (sim_time_ s) b (evt_queue_ s).

(** What [experiment_t::do_initialize_simulation()] does to the simulator:
    [if (opts_.sim_max_num_replications > 0) max_num_replications(...);
     if (opts_.sim_max_replication_duration >= 0) max_replication_duration(...);] *)
Definition apply_options (sim_max_num_replications : nat)
    (sim_max_replication_duration : Q) (s : simulator_t) : simulator_t :=
  let s1 :=
    if 0 <? sim_max_num_replications
    then set_max_num_replications sim_max_num_replications s else s in
  if Qle_bool 0 sim_max_replication_duration
  then set_max_replication_duration sim_max_replication_duration s1 else s1.

(** What the scheduling of events leaves as it is. *)
Definition same_settings (s s' : simulator_t) : Prop :=
  max_rep_len_ s' = max_rep_len_ s /\ max_num_rep_ s' = max_num_rep_ s /\
  num_rep_ s' = num_rep_ s /\ done_ s' = done_ s.

Section Run.

Context {D : Type} (sub : subclass D).

(** The other virtual members: [do_initialize_simulation()] as the
    options it sets and its effect on the state of the subclass,
    [do_finalize_replication()] and [do_finalize_simulation()]. *)
Variable options : nat * Q.
Variable do_initialize_simulation : D -> D.
Variable do_finalize_replication : D -> D.
Variable do_finalize_simulation : D -> D.

(** [initialize_simulation()] *)
Definition initialize_simulation (s : simulator_t) (d : D) : simulator_t * D :=
  let s0 := mk_simulator (max_rep_len_ s) (max_num_rep_ s) 0 0 false (evt_queue_ s) in
  (apply_options options.1 options.2 s0, do_initialize_simulation d).

(** [finalize_simulation()] *)
Definition finalize_simulation (s : simulator_t) (d : D) : simulator_t * D :=
  (set_done true s, do_finalize_simulation d).

(** [while (!check_end_of_replication()) fire_event();], bounded by
    [fuel] events; [None] when the fuel runs out. *)
Fixpoint fire_loop (fuel : nat) (s : simulator_t) (d : D) : option (simulator_t * D) :=
  match fuel with
  | 0 => None
  | S fuel' =>
      if check_end_of_replication sub s d then Some (s, d)
      else
        let '(_, s', d') := fire_event sub s d in
        fire_loop fuel' s' d'
  end.

(** The loop of [run()]:
    [while (!check_end_of_simulation())
       { initialize_replication(); ...; finalize_replication(); }],
    bounded by [fuel] replications of at most [events] events each. *)
Fixpoint run_loop (events fuel : nat) (s : simulator_t) (d : D)
  : option (simulator_t * D) :=
  match fuel with
  | 0 => None
  | S fuel' =>
      if check_end_of_simulation sub s d then Some (s, d)
      else
        let (s1, d1) := initialize_replication sub s d in
        match fire_loop events s1 d1 with
        | Some (s2, d2) => run_loop events fuel' s2 (do_finalize_replication d2)
        | None => None
        end
  end.

(** [run()] *)
Definition run (events fuel : nat) (s : simulator_t) (d : D) : option (simulator_t * D) :=
  let (s0, d0) := initialize_simulation s d in
  match run_loop events fuel s0 d0 with
  | Some (s1, d1) => Some (finalize_simulation s1 d1)
  | None => None
  end.

End Run.

(** A run of the experiment of three services with one provider whose
    estimator of the profit in coalition stays neither done nor unstable:
    at most two replications of 20 units of time. *)
Definition unsettled : Driver.state :=
  Driver.mk_state [0] [Driver.mk_estimator false false] [].

Definition two_replications : option (simulator_t * Driver.state) :=
  run (Driver.experiment Driver.three_services) (2, 20%Q) id id id 100 5
    Driver.fresh_simulator unsettled.

End SimulatorRun.

(** ** dcs/fgt/workload.hpp *)

Module Workload.

(** [multistep_workload_generator_t] *)
Record multistep_workload_generator_t := mk_generator {
  durations_ : list Q;
  arr_rates_ : list Q;
  n_ : nat;
  next_idx_ : nat
}.

(** The constructor from two ranges; the sizes are not compared. *)
Definition make (durations arr_rates : list Q) : multistep_workload_generator_t :=
  mk_generator durations arr_rates (length durations) 0.

(** The constructor from two initializer lists; [None] is the
    [std::invalid_argument] of lists of different sizes. *)
Definition make_checked (durations arr_rates : list Q)
  : option multistep_workload_generator_t :=
  if length durations =? length arr_rates then Some (make durations arr_rates) else None.

(** [operator()(rng)]: the step at [next_idx_], which advances modulo
    [n_].  [None] is a read past the end of a vector, the only case in
    which [n_] can be zero. *)
Definition next (g : multistep_workload_generator_t)
  : option ((Q * Q) * multistep_workload_generator_t) :=
  match durations_ g !! next_idx_ g, arr_rates_ g !! next_idx_ g with
  | Some duration, Some arr_rate =>
      Some ((duration, arr_rate),
            mk_generator (durations_ g) (arr_rates_ g) (n_ g)
              ((next_idx_ g + 1) mod n_ g))
  | _, _ => None
  end.

(** [k] calls in a row. *)
Fixpoint calls (k : nat) (g : multistep_workload_generator_t)
  : option (list (Q * Q) * multistep_workload_generator_t) :=
  match k with
  | 0 => Some ([], g)
  | S k' =>
      match next g with
      | Some (step, g') =>
          match calls k' g' with
          | Some (steps, g'') => Some (step :: steps, g'')
          | None => None
          end
      | None => None
      end
  end.

End Workload.

(** ** dcs/fgt/experiment.hpp: [experiment_t::setup] *)

Module Setup.
Import Scenario.

(** The members of [experiment_t] that [setup] fills. *)
Record experiment_t := mk_experiment {
  fps_ : list nat;
  num_fns_ : nat;
  fn_fps_ : list nat;
  fn_categories_ : list nat;
  num_svcs_ : nat;
  svc_fps_ : list nat;
  svc_categories_ : list nat;
  wkl_gens_ : list Workload.multistep_workload_generator_t
}.

(** The state of the two nested loops that fill the vectors of the FNs
    (and of the services): owners, categories and total. *)
Definition units : Type := list nat * list nat * nat.

(** [for (i = 0; i < n; ++i) { owners.push_back(fp); categories.push_back(c); }
     total += n;] *)
Definition push_units (fp c n : nat) (u : units) : units :=
  (u.1.1 ++ repeat fp n, u.1.2 ++ repeat c n, u.2 + n).

(** [for (c = 0; c < num_categories; ++c) { n = table[fp][c]; ... }];
    [None] is a read past the end of [table] or of its row. *)
Fixpoint fill_categories (table : list (list nat)) (fp : nat) (categories : list nat)
    (u : units) : option units :=
  match categories with
  | [] => Some u
  | c :: rest =>
      match table !! fp with
      | Some row =>
          match row !! c with
          | Some n => fill_categories table fp rest (push_units fp c n u)
          | None => None
          end
      | None => None
      end
  end.

(** [for (fp = 0; fp < num_fps; ++fp) for (c = 0; ...) ...] *)
Fixpoint fill_units (table : list (list nat)) (num_categories : nat) (fps : list nat)
    (u : units) : option units :=
  match fps with
  | [] => Some u
  | fp :: rest =>
      match fill_categories table fp (seq 0 num_categories) u with
      | Some u' => fill_units table num_categories rest u'
      | None => None
      end
  end.

(** [wkl_gens_.resize(n); for (i = 0; i < n; ++i) wkl_gens_[i] = ...], the
    generator of category [i] built from the pairs of
    [svc_workloads[i]]. *)
Fixpoint make_generators (workloads : list (list (Q * Q))) (categories : list nat)
  : option (list Workload.multistep_workload_generator_t) :=
  match categories with
  | [] => Some []
  | i :: rest =>
      match workloads !! i with
      | Some steps =>
          match make_generators workloads rest with
          | Some gens => Some (Workload.make (map fst steps) (map snd steps) :: gens)
          | None => None
          end
      | None => None
      end
  end.

(** [setup(scenario, options, rng)], after [reset()]; [None] is a read
    past the end of a table of the scenario. *)
Definition setup (scen : scenario_t) : option experiment_t :=
  match fill_units (fp_num_fns scen) (num_fn_categories scen) (seq 0 (num_fps scen))
          ([], [], 0) with
  | Some (fn_fps, fn_categories, num_fns) =>
      match fill_units (fp_num_svcs scen) (num_svc_categories scen)
              (seq 0 (num_fps scen)) ([], [], 0) with
      | Some (svc_fps, svc_categories, num_svcs) =>
          match make_generators (svc_workloads scen) (seq 0 (num_svc_categories scen)) with
          | Some gens =>
              Some (mk_experiment (seq 0 (num_fps scen)) num_fns fn_fps fn_categories
                      num_svcs svc_fps svc_categories gens)
          | None => None
          end
      | None => None
      end
  | None => None
  end.

(** Owners and categories go in pairs, as many as the total. *)
Definition balanced (u : units) : Prop :=
  length u.1.1 = u.2 /\ length u.1.2 = u.2.

(** The units of owner [fp] and category [c] among those listed. *)
Definition count_units (owners categories : list nat) (fp c : nat) : nat :=
  length (List.filter (fun oc => (oc.1 =? fp) && (oc.2 =? c)) (combine owners categories)).

(** [table[fp][c]], 0 outside the table. *)
Definition declared (table : list (list nat)) (fp c : nat) : nat :=
  nth c (nth fp table []) 0.

(** The scenario of two providers that [make_scenario] reads from
    [two_fps_file]. *)
Definition two_fps_scenario : scenario_t :=
  mk_scenario 2 1 1 1 [1%Q] [0] [10%Q] [[(100%Q, 5%Q)]] [[1]; [1]] [[1]; [1]]
    [tenth; tenth] [0%Q; 0%Q] [[1%Q]; [1%Q]] [[1%Q]; [1%Q]] [[0%Q]; [0%Q]] [[0%Q]; [0%Q]]
    [tenth] [2 # 10] [[1 # 2]; []] [[1 # 2]; []].

(** The file [two_fps_file] without the line of [svc.workloads]. *)
Definition no_workloads_file : list line :=
  counts_of 2 1 ++ firstn 3 (tables []) ++ skipn 4 (tables (one_column [real_lit (1 # 2)])).

End Setup.

(** ** dcs/fgt/experiment.hpp: the bursts of a trigger interval *)

Module Bursts.
Import Real.

(** A burst: start time, stop time, arrival rate. *)
Definition burst : Type := Q * Q * Q.

Definition burst_start (b : burst) : Q := b.1.1.
Definition burst_stop (b : burst) : Q := b.1.2.
Definition arr_rate (b : burst) : Q := b.2.

(** The loop of [analyze_coalitions] over the bursts of a service,
    [while (b < rep_svc_wkl_bursts_[svc].size())], from the index [b] on:
    the argument is what the vector holds from [b], the result what it
    holds there after the loop, and [max_rate].  A burst that stopped
    before the interval is erased; one that starts in it is counted, and
    erased when it also stops in it; at the first one that starts after
    it the loop breaks. *)
Fixpoint scan (coal_form_start_time coal_form_stop_time : Q) (bursts : list burst)
    (max_rate : Q) : Q * list burst :=
  match bursts with
  | [] => (max_rate, [])
  | b :: rest =>
      if Qle_bool (burst_stop b) coal_form_start_time then
        scan coal_form_start_time coal_form_stop_time rest max_rate
      else if Qltb (burst_start b) coal_form_stop_time then
        let max_rate' := if Qltb max_rate (arr_rate b) then arr_rate b else max_rate in
        if Qltb (burst_stop b) coal_form_stop_time then
          scan coal_form_start_time coal_form_stop_time rest max_rate'
        else
          let (m, kept) := scan coal_form_start_time coal_form_stop_time rest max_rate' in
          (m, b :: kept)
      else (max_rate, bursts)
  end.

(** The bursts are in the order of their start times. *)
Definition chronological (bursts : list burst) : Prop :=
  forall i j b1 b2, i < j -> bursts !! i = Some b1 -> bursts !! j = Some b2 ->
    (burst_start b1 <= burst_start b2)%Q.

(** The burst overlaps the interval. *)
Definition overlaps (start stop : Q) (b : burst) : Prop :=
  (start < burst_stop b)%Q /\ (burst_start b < stop)%Q.

End Bursts.

(** ** dcs/fgt/experiment.hpp: the partition of a trigger *)

Module BestPartition.
Import Real Coalition.

(** [partition_info_t max_best_partition;
     for (auto const& best_partition : best_partitions)
       if (best_partition.value > max_best_partition.value)
         max_best_partition = best_partition;] *)
Definition max_best_partition (best_partitions : list partition_info_t)
  : partition_info_t :=
  fold_left
    (fun max_best best_partition =>
       if rgt (pvalue best_partition) (pvalue max_best) then best_partition else max_best)
    best_partitions new_partition_info.

End BestPartition.

(** ** dcs/fgt/experiment.hpp: the keys of a scenario file *)

Module ScenarioKeys.
Import Scenario.

(** The keys that the branches of [make_scenario] test, in their order. *)
Definition keys : list string :=
  [ "num_fps"; "num_fn_categories"; "num_svc_categories"; "num_vm_categories";
    "svc.max_delays"; "svc.vm_categories"; "svc.vm_service_rates"; "svc.workloads";
    "fp.num_svcs"; "fp.num_fns"; "fp.electricity_costs"; "fp.fn_asleep_costs";
    "fp.fn_awake_costs"; "fp.coalition_costs"; "fp.svc_revenues"; "fp.svc_penalties";
    "fn.min_powers"; "fn.max_powers"; "vm.cpu_requirements"; "vm.ram_requirements" ].

(** The line starts with one of the keys. *)
Definition known (l : line) : bool := existsb (istarts_with l) keys.

(** [key = [ t1 t2 ... ] ...] *)
Definition list_line (key : string) (ts after : list token) : line :=
  mk_line key (Some (lbracket :: ts ++ after)).

(** The next token, if any, is no numeral for [conv]. *)
Definition stops {A : Type} (conv : token -> option A) (after : list token) : Prop :=
  match after with
  | [] => True
  | t :: _ => conv t = None
  end.

(** The values are within the range of [double]: [operator>>] fails on a
    numeral beyond [std::numeric_limits<double>::max()]. *)
Definition in_double_range (vs : list Q) : bool :=
  forallb (fun q => Qle_bool (Qabs q) Float.double_max) vs.

(** [[ t1 t2 ... ]] *)
Definition row_tokens (ts : list token) : list token := lbracket :: ts ++ [rbracket].

(** [cols] numerals. *)
Definition complete_row {A : Type} (conv : token -> option A) (cols : nat)
    (ts : list token) : Prop :=
  length ts = cols /\ exists vs, map conv ts = map Some vs.

(** [key = [ [..] .. [..] [ t1 t2 ... ] ...]: the rows [before], then a row
    that starts with [ts]. *)
Definition table_line (key : string) (before : list (list token)) (ts after : list token)
  : line :=
  mk_line key (Some (lbracket :: concat (map row_tokens before) ++ lbracket :: ts ++ after)).

End ScenarioKeys.

(** ** dcs/fgt/MMc.hpp *)

Module MMc.
Import Real Float.

(** [x / y].  The quotient of finite values is exact, as the other
    operations on [real_t] are: one too large for a [double] is not
    turned into an infinity.  A finite zero is the positive zero: [a / 0]
    is the infinity of the sign of [a], and a NaN for [a = 0]; the
    negative zero of [double] has no counterpart.  The properties that
    depend on a quotient are stated where it fits in a [double] and the
    divisor is not zero. *)
Definition rdiv (x y : real_t) : real_t :=
  match x, y with
  | NaN, _ | _, NaN => NaN
  | PosInf, PosInf | PosInf, NegInf | NegInf, PosInf | NegInf, NegInf => NaN
  | PosInf, Fin b => if Qltb b 0 then NegInf else PosInf
  | NegInf, Fin b => if Qltb b 0 then PosInf else NegInf
  | Fin _, PosInf | Fin _, NegInf => Fin 0
  | Fin a, Fin b => if Qeq_bool b 0 then inf_times true a else Fin (a / b)
  end.

(** The conversion of an [int] that is not negative to [RealT]. *)
Definition of_int (c : nat) : real_t := Fin (inject_Z (Z.of_nat c)).

(** The members of [MMc<RealT>]. *)
Record MMc := mk_MMc {
  lambda : real_t;
  mu : real_t;
  d_max : real_t;
  prec : real_t;
  delay : list real_t
}.

(** [MMc(lambda, mu, delay_max, precision)] *)
Definition make (lambda mu delay_max precision : real_t) : MMc :=
  let delay_max :=
    if definitely_less_tol delay_max (rdiv (Fin 1) mu) precision
    then rdiv (Fin 1) mu else delay_max in
  mk_MMc lambda mu delay_max precision [].

(** [this->delay.push_back(x)] *)
Definition push_delay (x : real_t) (m : MMc) : MMc :=
  mk_MMc (lambda m) (mu m) (d_max m) (prec m) (delay m ++ [x]).

(** [Erlang(c, &ret)]: the pair that it leaves in [ret]. *)
Definition Erlang (m : MMc) (c : nat) : real_t * real_t :=
  let rho := rdiv (lambda m) (mu m) in
  if essentially_greater_equal_tol (rdiv rho (of_int c)) (Fin 1) (prec m)
  then (Fin 1, infinity)
  else
    let pb :=
      for_range 1 (c + 1)
        (fun j pb => rdiv (rmul rho pb) (radd (of_int j) (rmul pb rho))) (Fin 1) in
    let rho := rdiv rho (of_int c) in
    let first := rdiv pb (radd (rsub (Fin 1) rho) (rmul rho pb)) in
    (first,
     radd (rdiv first (rsub (rmul (of_int c) (mu m)) (lambda m))) (rdiv (Fin 1) (mu m))).

(** [recursiveErlang(c, a)] *)
Fixpoint recursiveErlang (c : nat) (a : real_t) : real_t :=
  match c with
  | 0 => Fin 1
  | S c' =>
      let e_last := recursiveErlang c' a in
      rdiv (rmul a e_last) (radd (of_int c) (rmul a e_last))
  end.

(** [solveErlangC(c, &ret)] *)
Definition solveErlangC (m : MMc) (c : nat) : real_t * real_t :=
  let rho := rdiv (lambda m) (mu m) in
  if essentially_greater_equal_tol (rdiv rho (of_int c)) (Fin 1) (prec m)
  then (Fin 1, infinity)
  else
    let pb := recursiveErlang c rho in
    let rho := rdiv rho (of_int c) in
    let first := rdiv pb (radd (rsub (Fin 1) rho) (rmul rho pb)) in
    (first,
     radd (rdiv first (rsub (rmul (of_int c) (mu m)) (lambda m))) (rdiv (Fin 1) (mu m))).

(** The loop of [computeQueueParameters], from the values of [delay] and
    [n]; [None] when it has not ended within [fuel] turns. *)
Fixpoint queue_loop (fuel : nat) (iterative : bool) (m : MMc) (delay : real_t) (n : nat)
  : option (nat * MMc) :=
  match fuel with
  | 0 => None
  | S fuel' =>
      if definitely_greater_tol delay (d_max m) (prec m) then
        let n := n + 1 in
        let tmp := if iterative then Erlang m n else solveErlangC m n in
        queue_loop fuel' iterative (push_delay tmp.2 m) tmp.2 n
      else Some (n, m)
  end.

(** [computeQueueParameters(iterative)]: the value returned and the
    object after the call. *)
Definition computeQueueParameters (fuel : nat) (iterative : bool) (m : MMc)
  : option (nat * MMc) :=
  queue_loop fuel iterative m infinity 0.

(** [getDelays(vec)]: the vector after the call, [None] where the
    assertion throws [std::logic_error]. *)
Definition getDelays (m : MMc) (vec : list real_t) : option (list real_t) :=
  if 0 <? length (delay m) then Some (vec ++ infinity :: delay m) else None.

(** [getDelay(c)] *)
Definition getDelay (m : MMc) (c : nat) : option real_t :=
  if 0 <? length (delay m) then
    if c =? 0 then Some infinity
    else
      let c := if length (delay m) <? c then length (delay m) else c in
      Some (nth (c - 1) (delay m) NaN)
  else None.

(** The delays predicted for 1, .., [n] servers. *)
Definition delays_upto (m : MMc) (n : nat) : list real_t :=
  map (fun c => (Erlang m c).2) (seq 1 n).

(** A queue of arrival rate 5 and service rate 2. *)
Definition busy : MMc := make (Fin 5) (Fin 2) (Fin (6 # 10)) tolerance.

End MMc.
(** ** Concrete scenarios *)

Module Examples.
Import Real Gtpack Coalition Experiment.

(** Two providers, each with one FN and one service of the single service
    category; a service brings 10 per unit of time and joining a coalition
    costs nothing. *)
Definition two_fps : experiment_t :=
  mk_experiment 2 [0; 1] 2 [0; 1] 2 [0; 1] [0; 0] [[10%Q]; [10%Q]] [0%Q; 0%Q].

(** One VM per service. *)
Definition two_vms : list nat := [0; 1].

(** An optimizer that places the VMs of a single provider at an objective
    of 1 and reports the pooled problem as not solved (the answer of
    [vm_allocation_t()]: [solved = false], objective NaN). *)
Definition grand_infeasible (coal_fns coal_vms : list nat) : vm_allocation_t :=
  if 1 <? length coal_fns
  then new_vm_allocation
  else mk_vm_allocation true true (Fin 1) [[true]] [true].

(** An optimizer that solves every placement at an objective of 1 per FN. *)
Definition all_feasible (coal_fns coal_vms : list nat) : vm_allocation_t :=
  mk_vm_allocation true true (Fin (inject_Z (Z.of_nat (length coal_fns)))) [] [].

(** The Shapley value of a game of one or two players:
    [φ_a = v({a})], and
    [φ_a = (v({a}) + v({a,b}) - v({b})) / 2]. *)
Definition shapley_two (sub : subgame) : gmap nat real_t :=
  let v := fun l => Gtpack.value (fst sub) (make_coalition_id l) in
  let half := Fin (1 # 2) in
  match snd sub with
  | [a] => {[a := v [a]]}
  | [a; b] =>
      <[a := rmul half (radd (v [a]) (rsub (v [a; b]) (v [b])))]>
        {[b := rmul half (radd (v [b]) (rsub (v [a; b]) (v [a])))]}
  | _ => ∅
  end.

(** The core queries are not consulted by the selection; any answer does. *)
Definition core_nonempty (sub : subgame) : bool := false.
Definition in_core (sub : subgame) (payoffs : gmap nat real_t) : bool := true.

(** The trigger of scenario "infeasible coalition", over an interval of
    100 units of time. *)
Definition infeasible_enumeration : outcome analysis :=
  enumerate_coalitions grand_infeasible core_nonempty shapley_two in_core
    two_fps two_vms 100 4.

Definition infeasible_trigger : outcome coalition_formation_info_t :=
  analyze_coalitions grand_infeasible core_nonempty shapley_two in_core
    two_fps two_vms 100 4.

(** The same providers with an optimizer that solves every coalition. *)
Definition feasible_analysis : analysis :=
  match enumerate_coalitions all_feasible core_nonempty shapley_two in_core
          two_fps two_vms 100 4 with
  | Ok st => st
  | _ => initial_analysis two_fps
  end.

Definition feasible_best : list partition_info_t :=
  match NashStable.select 4 (game feasible_analysis)
          (visited_coalitions feasible_analysis) with
  | Ok best => best
  | _ => []
  end.

End Examples.

(** * Properties *)

#[local] Set Warnings "-clear-no-such-hyp".

(** ** Vectors and counted loops *)

Section Vectors.

Lemma for_range_empty {S : Type} (lo hi : nat) (body : nat -> S -> S) (s : S) :
  hi <= lo -> for_range lo hi body s = s.
Proof.
  intros H. unfold for_range. by replace (hi - lo) with 0 by lia.
Qed.

Lemma for_range_snoc {S : Type} (lo hi : nat) (body : nat -> S -> S) (s : S) :
  lo <= hi -> for_range lo (hi + 1) body s = body hi (for_range lo hi body s).
Proof.
  intros H. unfold for_range.
  replace (hi + 1 - lo) with ((hi - lo) + 1) by lia.
  rewrite seq_app, fold_left_app. simpl.
  by replace (lo + (hi - lo)) with hi by lia.
Qed.

Lemma vget_vset (v : list nat) (i j x : nat) :
  vget (vset v i x) j = if decide (i = j /\ i < length v) then x else vget v j.
Proof.
  unfold vget, vset.
  destruct (decide (i = j /\ i < length v)) as [[-> Hlt]|Hn].
  - apply nth_lookup_Some. by apply list_lookup_insert_eq.
  - destruct (decide (i = j)) as [->|Hij].
    + rewrite list_insert_ge by lia. done.
    + rewrite !nth_lookup. by rewrite list_lookup_insert_ne.
Qed.

Lemma length_vset (v : list nat) (i x : nat) : length (vset v i x) = length v.
Proof. apply length_insert. Qed.

Lemma vec_ext (u v : list nat) :
  length u = length v -> (forall j, j < length u -> vget u j = vget v j) -> u = v.
Proof. intros Hl Hj. apply (nth_ext u v 0 0); auto. Qed.

Lemma fill_empty (a b : nat) (f : nat -> nat) (v : list nat) :
  b <= a -> fill a b f v = v.
Proof. intros H. unfold fill. by rewrite for_range_empty. Qed.

Lemma fill_snoc (a b : nat) (f : nat -> nat) (v : list nat) :
  a <= b -> fill a (S b) f v = vset (fill a b f v) b (f b).
Proof.
  intros H. unfold fill. replace (S b) with (b + 1) by lia.
  by rewrite for_range_snoc.
Qed.

Lemma for_range_pair (a b : nat) (f g : nat -> nat) (k m : list nat) :
  for_range a b (fun j '(k, m) => (vset k j (f j), vset m j (g j))) (k, m)
  = (fill a b f k, fill a b g m).
Proof.
  destruct (decide (a <= b)) as [Hab|Hab].
  - induction Hab as [|b Hab IH].
    + rewrite !fill_empty by lia. by rewrite for_range_empty.
    + rewrite !fill_snoc by lia. replace (S b) with (b + 1) by lia.
      rewrite for_range_snoc by lia. by rewrite IH.
  - rewrite !fill_empty by lia. by rewrite for_range_empty by lia.
Qed.

Lemma length_fill (a b : nat) (f : nat -> nat) (v : list nat) :
  length (fill a b f v) = length v.
Proof.
  destruct (decide (a <= b)) as [Hab|Hab].
  - induction Hab as [|b Hab IH].
    + by rewrite fill_empty.
    + rewrite fill_snoc by lia. by rewrite length_vset.
  - by rewrite fill_empty by lia.
Qed.

Lemma vget_fill (a b : nat) (f : nat -> nat) (v : list nat) (j : nat) :
  b <= length v ->
  vget (fill a b f v) j = if decide (a <= j < b) then f j else vget v j.
Proof.
  intros Hb.
  destruct (decide (a <= b)) as [Hab|Hab].
  - induction Hab as [|b Hab IH].
    + rewrite fill_empty by lia.
      destruct (decide (a <= j < a)); [lia|done].
    + rewrite fill_snoc by lia. rewrite vget_vset, length_fill.
      rewrite IH by lia.
      repeat case_decide; try lia; try done.
      by match goal with H : _ = j /\ _ |- _ => destruct H as [-> _] end.
  - rewrite fill_empty by lia.
    destruct (decide (a <= j < b)); [lia|done].
Qed.

End Vectors.

(** ** The lexicographic partition iterator *)

Module PartitionFacts.
Import Partition PartitionInv.

Lemma incr_scan_some (n i0 : nat) (kappa M : list nat) (r : list nat * list nat) :
  incr_scan n i0 kappa M = Some r ->
  exists i, 1 <= i <= i0 /\ vget kappa i <= vget M (i - 1) /\
    (forall j, i < j <= i0 -> vget M (j - 1) < vget kappa j) /\
    r = incr_at n i kappa M.
Proof.
  induction i0 as [|i' IH]; simpl; [discriminate|].
  destruct (vget kappa (S i') <=? vget M i') eqn:E.
  - intros [= <-]. exists (S i'). apply Nat.leb_le in E.
    replace (S i' - 1) with i' by lia.
    repeat split; try lia.
    all: try (unfold incr_at; by replace (S i' - 1) with i' by lia).
  - intros H. apply Nat.leb_gt in E.
    destruct (IH H) as (i & Hi & Hle & Hgt & ->).
    exists i. repeat split; try lia.
    intros j Hj. destruct (decide (j = S i')) as [->|].
    + by replace (S i' - 1) with i' by lia.
    + apply Hgt. lia.
Qed.

Lemma incr_scan_none (n i0 : nat) (kappa M : list nat) :
  incr_scan n i0 kappa M = None ->
  forall j, 1 <= j <= i0 -> vget M (j - 1) < vget kappa j.
Proof.
  induction i0 as [|i' IH]; simpl; [intros; lia|].
  destruct (vget kappa (S i') <=? vget M i') eqn:E; [discriminate|].
  intros H j Hj. apply Nat.leb_gt in E.
  destruct (decide (j = S i')) as [->|].
  - by replace (S i' - 1) with i' by lia.
  - apply IH; [done|lia].
Qed.

Lemma incr_scan_at (n i0 i : nat) (kappa M : list nat) :
  1 <= i <= i0 -> vget kappa i <= vget M (i - 1) ->
  (forall j, i < j <= i0 -> vget M (j - 1) < vget kappa j) ->
  incr_scan n i0 kappa M = Some (incr_at n i kappa M).
Proof.
  induction i0 as [|i' IH]; [lia|].
  intros Hi Hle Hgt. simpl.
  destruct (decide (i = S i')) as [->|Hne].
  - replace (S i' - 1) with i' in Hle by lia.
    apply Nat.leb_le in Hle. by rewrite Hle.
  - specialize (Hgt (S i')) as Hs. replace (S i' - 1) with i' in Hs by lia.
    assert ((vget kappa (S i') <=? vget M i') = false) as -> by (apply Nat.leb_gt; apply Hs; lia).
    apply IH; [lia|done|]. intros j Hj. apply Hgt. lia.
Qed.

Lemma decr_scan_some (n i0 : nat) (kappa M : list nat) (r : list nat * list nat) :
  decr_scan n i0 kappa M = Some r ->
  exists i, 1 <= i <= i0 /\ 0 < vget kappa i /\
    (forall j, i < j <= i0 -> vget kappa j = 0) /\
    r = decr_at n i kappa M.
Proof.
  induction i0 as [|i' IH]; simpl; [discriminate|].
  destruct (0 <? vget kappa (S i')) eqn:E.
  - intros [= <-]. exists (S i'). apply Nat.ltb_lt in E.
    repeat split; try lia.
    all: try (unfold decr_at; by replace (S i' - 1) with i' by lia).
  - intros H. apply Nat.ltb_ge in E.
    destruct (IH H) as (i & Hi & Hle & Hgt & ->).
    exists i. repeat split; try lia.
    intros j Hj. destruct (decide (j = S i')) as [->|]; [lia|].
    apply Hgt. lia.
Qed.

Lemma decr_scan_none (n i0 : nat) (kappa M : list nat) :
  decr_scan n i0 kappa M = None ->
  forall j, 1 <= j <= i0 -> vget kappa j = 0.
Proof.
  induction i0 as [|i' IH]; simpl; [intros; lia|].
  destruct (0 <? vget kappa (S i')) eqn:E; [discriminate|].
  intros H j Hj. apply Nat.ltb_ge in E.
  destruct (decide (j = S i')) as [->|]; [lia|].
  apply IH; [done|lia].
Qed.

Lemma decr_scan_at (n i0 i : nat) (kappa M : list nat) :
  1 <= i <= i0 -> 0 < vget kappa i ->
  (forall j, i < j <= i0 -> vget kappa j = 0) ->
  decr_scan n i0 kappa M = Some (decr_at n i kappa M).
Proof.
  induction i0 as [|i' IH]; [lia|].
  intros Hi Hpos Hz. simpl.
  destruct (decide (i = S i')) as [->|Hne].
  - apply Nat.ltb_lt in Hpos. rewrite Hpos.
    unfold decr_at. by replace (S i' - 1) with i' by lia.
  - assert ((0 <? vget kappa (S i')) = false) as ->.
    { apply Nat.ltb_ge. rewrite Hz; lia. }
    apply IH; [lia|done|]. intros j Hj. apply Hz. lia.
Qed.

(** The two vectors after the body of [operator++]. *)
Lemma incr_at_eq (n i : nat) (kappa M : list nat) :
  incr_at n i kappa M =
  (fill (i + 1) n (fun _ => 0) (vset kappa i (vget kappa i + 1)),
   fill (i + 1) n (fun _ => Nat.max (vget M i) (vget (vset kappa i (vget kappa i + 1)) i))
     (vset M i (Nat.max (vget M i) (vget (vset kappa i (vget kappa i + 1)) i)))).
Proof. unfold incr_at, reset_tail. by rewrite for_range_pair. Qed.

Lemma decr_at_eq (n i : nat) (kappa M : list nat) :
  decr_at n i kappa M =
  (fill (i + 1) n (fun j => vget M (i - 1) + j - i) (vset kappa i (vget kappa i - 1)),
   fill (i + 1) n (fun j => vget M (i - 1) + j - i) (vset M i (vget M (i - 1)))).
Proof. unfold decr_at, climb_tail. by rewrite for_range_pair. Qed.

(** Rewrites reads of updated vectors and splits on the index. *)
Ltac len_simpl := repeat (rewrite length_fill || rewrite length_vset).

Ltac vec_simpl :=
  repeat (len_simpl;
          (rewrite vget_fill by (len_simpl; lia)) || rewrite vget_vset);
  len_simpl; repeat case_decide; try lia.

Lemma vget_repeat_0 (n j : nat) : vget (repeat 0 n) j = 0.
Proof.
  unfold vget. revert j. induction n as [|n IH]; intros [|j]; simpl; auto.
Qed.

Lemma wf_M_le (n : nat) (kappa M : list nat) :
  wf n kappa M -> forall j, j < n -> vget M j <= j.
Proof.
  intros W j. induction j as [|j IH]; intros Hj.
  - rewrite (wf_M_0 _ _ _ W). lia.
  - destruct (wf_step _ _ _ W (S j)) as [Hk Hm]; [lia|].
    replace (S j - 1) with j in * by lia. specialize (IH ltac:(lia)). lia.
Qed.

Lemma incr_at_wf (n i : nat) (kappa M : list nat) :
  wf n kappa M -> 1 <= i < n -> vget kappa i <= vget M (i - 1) ->
  wf n (incr_at n i kappa M).1 (incr_at n i kappa M).2.
Proof.
  intros W Hi Hle. rewrite incr_at_eq. simpl.
  pose proof (wf_length_kappa _ _ _ W) as Lk.
  pose proof (wf_length_M _ _ _ W) as Lm.
  pose proof (wf_kappa_0 _ _ _ W) as K0.
  pose proof (wf_M_0 _ _ _ W) as M0.
  destruct (wf_step _ _ _ W i Hi) as [Hki Hmi].
  constructor.
  - lia.
  - by rewrite length_fill, length_vset.
  - by rewrite length_fill, length_vset.
  - vec_simpl.
  - vec_simpl.
  - intros j Hj. destruct (wf_step _ _ _ W j Hj) as [Hkj Hmj].
    vec_simpl.
    all: repeat match goal with
         | H : ?a = ?b /\ _ |- _ => destruct H as [? _]; subst
         end; try lia.
    all: try (replace (j - 1) with i in * by lia; lia).
Qed.

Lemma decr_at_wf (n i : nat) (kappa M : list nat) :
  wf n kappa M -> 1 <= i < n -> 0 < vget kappa i ->
  wf n (decr_at n i kappa M).1 (decr_at n i kappa M).2.
Proof.
  intros W Hi Hpos. rewrite decr_at_eq. simpl.
  pose proof (wf_length_kappa _ _ _ W) as Lk.
  pose proof (wf_length_M _ _ _ W) as Lm.
  pose proof (wf_kappa_0 _ _ _ W) as K0.
  pose proof (wf_M_0 _ _ _ W) as M0.
  destruct (wf_step _ _ _ W i Hi) as [Hki Hmi].
  constructor.
  - lia.
  - by rewrite length_fill, length_vset.
  - by rewrite length_fill, length_vset.
  - vec_simpl.
  - vec_simpl.
  - intros j Hj. destruct (wf_step _ _ _ W j Hj) as [Hkj Hmj].
    vec_simpl.
    all: repeat match goal with
         | H : ?a = ?b /\ _ |- _ => destruct H as [? _]; subst
         end; try lia.
    all: try (replace (j - 1) with i in * by lia; lia).
Qed.

Lemma make_wf (n : nat) (first : bool) (p : lexicographic_partition) :
  make n first = Some p -> wf_state n p.
Proof.
  unfold make. destruct (n =? 0) eqn:E; [discriminate|].
  apply Nat.eqb_neq in E.
  destruct first.
  - intros [= <-]. split; [done|]. simpl.
    constructor; rewrite ?repeat_length, ?vget_repeat_0; try lia.
    intros i Hi. rewrite !vget_repeat_0. lia.
  - rewrite (for_range_pair 1 n (fun i => i) (fun i => i)).
    intros [= <-]. split; [done|]. simpl.
    constructor; rewrite ?length_fill, ?repeat_length; try lia.
    + rewrite vget_fill by (rewrite repeat_length; lia).
      case_decide; [lia|apply vget_repeat_0].
    + rewrite vget_fill by (rewrite repeat_length; lia).
      case_decide; [lia|apply vget_repeat_0].
    + intros i Hi. rewrite !vget_fill by (rewrite repeat_length; lia).
      rewrite !vget_repeat_0. repeat case_decide; lia.
Qed.

Lemma incr_wf (n : nat) (p p' : lexicographic_partition) :
  wf_state n p -> incr p = Some p' -> wf_state n p'.
Proof.
  intros [Hn W]. unfold incr. destruct (has_next_ p); [|discriminate].
  rewrite Hn.
  destruct (incr_scan n (n - 1) (kappa_ p) (M_ p)) as [[k m]|] eqn:E.
  - intros [= <-]. split; [done|]. simpl.
    apply incr_scan_some in E as (i & Hi & Hle & _ & Hr).
    pose proof (incr_at_wf n i _ _ W ltac:(lia) Hle) as W'.
    rewrite <- Hr in W'. exact W'.
  - intros [= <-]. by split.
Qed.

Lemma decr_wf (n : nat) (p p' : lexicographic_partition) :
  wf_state n p -> decr p = Some p' -> wf_state n p'.
Proof.
  intros [Hn W]. unfold decr. destruct (has_prev_ p); [|discriminate].
  rewrite Hn.
  destruct (decr_scan n (n - 1) (kappa_ p) (M_ p)) as [[k m]|] eqn:E.
  - intros [= <-]. split; [done|]. simpl.
    apply decr_scan_some in E as (i & Hi & Hpos & _ & Hr).
    pose proof (decr_at_wf n i _ _ W ltac:(lia) Hpos) as W'.
    rewrite <- Hr in W'. exact W'.
  - intros [= <-]. by split.
Qed.

(** Every reachable state passes the integrity check. *)
Lemma reachable_wf (n : nat) (p : lexicographic_partition) :
  reachable n p -> wf_state n p.
Proof.
  induction 1 as [first p H|p p' _ IH H|p p' _ IH H].
  - by eapply make_wf.
  - by eapply incr_wf.
  - by eapply decr_wf.
Qed.

(** Where every entry right of [i] opens a new block, [M_] climbs by one
    per index. *)
Lemma wf_climb (n i : nat) (kappa M : list nat) :
  wf n kappa M ->
  (forall j, i < j <= n - 1 -> vget M (j - 1) < vget kappa j) ->
  forall d, i + d < n -> vget M (i + d) = vget M i + d.
Proof.
  intros W Hgt d. induction d as [|d IH]; intros Hd.
  - by rewrite !Nat.add_0_r.
  - destruct (wf_step _ _ _ W (i + S d)) as [Hk Hm]; [lia|].
    specialize (Hgt (i + S d) ltac:(lia)).
    replace (i + S d - 1) with (i + d) in * by lia.
    specialize (IH ltac:(lia)). lia.
Qed.

(** Where every entry right of [i] is zero, [M_] is constant. *)
Lemma wf_flat (n i : nat) (kappa M : list nat) :
  wf n kappa M ->
  (forall j, i < j <= n - 1 -> vget kappa j = 0) ->
  forall d, i + d < n -> vget M (i + d) = vget M i.
Proof.
  intros W Hz d. induction d as [|d IH]; intros Hd.
  - by rewrite !Nat.add_0_r.
  - destruct (wf_step _ _ _ W (i + S d)) as [Hk Hm]; [lia|].
    specialize (Hz (i + S d) ltac:(lia)).
    replace (i + S d - 1) with (i + d) in * by lia.
    specialize (IH ltac:(lia)). lia.
Qed.

(** A state that is not the last partition has an entry to increment. *)
Lemma not_last_scan (n : nat) (kappa M : list nat) :
  wf n kappa M -> vget M (n - 1) + 1 < n ->
  exists r, incr_scan n (n - 1) kappa M = Some r.
Proof.
  intros W Hlt.
  destruct (incr_scan n (n - 1) kappa M) as [r|] eqn:E; [by exists r|].
  pose proof (incr_scan_none _ _ _ _ E) as Hall.
  pose proof (wf_climb n 0 kappa M W ltac:(intros; apply Hall; lia) (n - 1)) as Hc.
  pose proof (wf_pos _ _ _ W). pose proof (wf_M_0 _ _ _ W).
  simpl in Hc. specialize (Hc ltac:(lia)). lia.
Qed.

(** A state that is not the first partition has an entry to decrement. *)
Lemma not_first_scan (n : nat) (kappa M : list nat) :
  wf n kappa M -> 1 < vget M (n - 1) + 1 ->
  exists r, decr_scan n (n - 1) kappa M = Some r.
Proof.
  intros W Hlt.
  destruct (decr_scan n (n - 1) kappa M) as [r|] eqn:E; [by exists r|].
  pose proof (decr_scan_none _ _ _ _ E) as Hall.
  pose proof (wf_flat n 0 kappa M W ltac:(intros; apply Hall; lia) (n - 1)) as Hc.
  pose proof (wf_pos _ _ _ W). pose proof (wf_M_0 _ _ _ W).
  simpl in Hc. specialize (Hc ltac:(lia)). lia.
Qed.

(** [operator--] undoes the body of [operator++]. *)
Lemma incr_decr_at (n i : nat) (kappa M : list nat) :
  wf n kappa M -> 1 <= i < n -> vget kappa i <= vget M (i - 1) ->
  (forall j, i < j <= n - 1 -> vget M (j - 1) < vget kappa j) ->
  decr_scan n (n - 1) (incr_at n i kappa M).1 (incr_at n i kappa M).2
  = Some (kappa, M).
Proof.
  intros W Hi Hle Hgt.
  pose proof (wf_length_kappa _ _ _ W) as Lk.
  pose proof (wf_length_M _ _ _ W) as Lm.
  destruct (wf_step _ _ _ W i Hi) as [Hki Hmi].
  rewrite (decr_scan_at n (n - 1) i).
  - f_equal. rewrite decr_at_eq, incr_at_eq. simpl.
    f_equal; apply vec_ext; len_simpl; try lia.
    + intros j Hj.
      assert (i < j -> vget M (j - 1) = vget M i + (j - 1 - i)) as Hc.
      { intros. rewrite <- (wf_climb n i kappa M W Hgt (j - 1 - i)) by lia.
        f_equal. lia. }
      assert (i < j -> vget kappa j = vget M (j - 1) + 1) as Hk.
      { intros. destruct (wf_step _ _ _ W j) as [? _]; [lia|].
        specialize (Hgt j ltac:(lia)). lia. }
      vec_simpl.
      all: repeat match goal with
           | H : ?a = ?b /\ _ |- _ => destruct H as [? _]; subst
           end; try lia.
    + intros j Hj.
      assert (i < j -> vget M j = vget M i + (j - i)) as Hc.
      { intros. rewrite <- (wf_climb n i kappa M W Hgt (j - i)) by lia.
        f_equal. lia. }
      vec_simpl.
      all: repeat match goal with
           | H : ?a = ?b /\ _ |- _ => destruct H as [? _]; subst
           end; try lia.
  - lia.
  - rewrite incr_at_eq. simpl. vec_simpl.
  - intros j Hj. rewrite incr_at_eq. simpl. vec_simpl.
Qed.

(** [operator++] undoes the body of [operator--]. *)
Lemma decr_incr_at (n i : nat) (kappa M : list nat) :
  wf n kappa M -> 1 <= i < n -> 0 < vget kappa i ->
  (forall j, i < j <= n - 1 -> vget kappa j = 0) ->
  incr_scan n (n - 1) (decr_at n i kappa M).1 (decr_at n i kappa M).2
  = Some (kappa, M).
Proof.
  intros W Hi Hpos Hz.
  pose proof (wf_length_kappa _ _ _ W) as Lk.
  pose proof (wf_length_M _ _ _ W) as Lm.
  destruct (wf_step _ _ _ W i Hi) as [Hki Hmi].
  rewrite (incr_scan_at n (n - 1) i).
  - f_equal. rewrite incr_at_eq, decr_at_eq. simpl.
    f_equal; apply vec_ext; len_simpl; try lia.
    + intros j Hj. specialize (Hz j).
      vec_simpl.
      all: repeat match goal with
           | H : ?a = ?b /\ _ |- _ => destruct H as [? _]; subst
           end; try lia.
    + intros j Hj.
      assert (i < j -> vget M j = vget M i) as Hc.
      { intros. rewrite <- (wf_flat n i kappa M W Hz (j - i)) by lia.
        f_equal. lia. }
      vec_simpl.
      all: repeat match goal with
           | H : ?a = ?b /\ _ |- _ => destruct H as [? _]; subst
           end; try lia.
  - lia.
  - rewrite decr_at_eq. simpl. vec_simpl.
  - intros j Hj. rewrite decr_at_eq. simpl. vec_simpl.
Qed.

(** From a state that is neither the first nor marked as such and not the
    last partition, [++] then [--] leads back. *)
Lemma incr_then_decr (n : nat) (p : lexicographic_partition) :
  wf_state n p -> has_next p = true -> has_prev p = true ->
  num_subsets p < n ->
  exists p', incr p = Some p' /\ decr p' = Some p.
Proof.
  intros [Hn W] Hnext Hprev Hlast.
  destruct p as [n0 kappa M hp hn]. simpl in *. subst n0 hp hn.
  unfold num_subsets in Hlast. simpl in Hlast.
  destruct (not_last_scan n kappa M W Hlast) as [r E].
  pose proof (incr_scan_some _ _ _ _ _ E) as (i & Hi & Hle & Hgt & Hr).
  pose proof (incr_decr_at n i kappa M W ltac:(lia) Hle Hgt) as Hback.
  pose proof (incr_at_wf n i kappa M W ltac:(lia) Hle) as W'.
  rewrite <- Hr in Hback, W'. destruct r as [k' m'].
  unfold incr. simpl. rewrite E.
  eexists. split; [reflexivity|].
  unfold decr. simpl in *. rewrite Hback.
  assert ((1 <? vget m' (n - 1) + 1) = true) as ->; [|done].
  apply Nat.ltb_lt.
  assert (Hm' : m' = (incr_at n i kappa M).2) by (by rewrite <- Hr).
  rewrite Hm', incr_at_eq. simpl.
  pose proof (wf_length_kappa _ _ _ W). pose proof (wf_length_M _ _ _ W).
  vec_simpl.
Qed.

(** From a state that is neither the last nor marked as such and not the
    first partition, [--] then [++] leads back. *)
Lemma decr_then_incr (n : nat) (p : lexicographic_partition) :
  wf_state n p -> has_next p = true -> has_prev p = true ->
  1 < num_subsets p ->
  exists p', decr p = Some p' /\ incr p' = Some p.
Proof.
  intros [Hn W] Hnext Hprev Hfirst.
  destruct p as [n0 kappa M hp hn]. simpl in *. subst n0 hp hn.
  unfold num_subsets in Hfirst. simpl in Hfirst.
  destruct (not_first_scan n kappa M W Hfirst) as [r E].
  pose proof (decr_scan_some _ _ _ _ _ E) as (i & Hi & Hpos & Hz & Hr).
  pose proof (decr_incr_at n i kappa M W ltac:(lia) Hpos Hz) as Hback.
  rewrite <- Hr in Hback. destruct r as [k' m'].
  unfold decr. simpl. rewrite E.
  eexists. split; [reflexivity|].
  unfold incr. simpl in *. rewrite Hback.
  assert ((vget m' (n - 1) + 1 <? n) = true) as ->; [|done].
  apply Nat.ltb_lt.
  assert (Hm' : m' = (decr_at n i kappa M).2) by (by rewrite <- Hr).
  rewrite Hm', decr_at_eq. simpl.
  pose proof (wf_length_kappa _ _ _ W). pose proof (wf_length_M _ _ _ W).
  pose proof (wf_M_le _ _ _ W (i - 1) ltac:(lia)).
  vec_simpl.
Qed.

End PartitionFacts.

(** ** The lexicographic subset iterator *)

Module SubsetFacts.
Import Subset.

Local Open Scope N_scope.

Lemma pow2_succ (n : nat) : 2 ^ N.of_nat (S n) = 2 * 2 ^ N.of_nat n.
Proof. rewrite Nat2N.inj_succ. apply N.pow_succ_r'. Qed.

Lemma pow2_pos (n : nat) : 0 < 2 ^ N.of_nat n.
Proof. apply N.neq_0_lt_0. by apply N.pow_nonzero. Qed.

(** The full set has [n] members. *)
Lemma count_full (n : nat) : count (2 ^ N.of_nat n - 1) = n.
Proof.
  induction n as [|n IH]; [done|].
  pose proof (pow2_pos n) as Hp.
  rewrite pow2_succ.
  destruct (2 ^ N.of_nat n - 1) as [|p] eqn:E.
  - replace (2 ^ N.of_nat n) with 1 by lia. simpl in *. by subst n.
  - replace (2 * 2 ^ N.of_nat n - 1) with (N.pos p~1) by lia.
    simpl in *. by rewrite IH.
Qed.

(** A set over [n] elements has at most [n] members, and exactly [n] only
    when it is the full set. *)
Lemma count_bound (n : nat) (b : N) :
  b < 2 ^ N.of_nat n ->
  (count b <= n)%nat /\ (count b = n -> b = 2 ^ N.of_nat n - 1).
Proof.
  revert b. induction n as [|n IH]; intros b Hb.
  - simpl in Hb. assert (b = 0) as -> by lia. by split.
  - rewrite pow2_succ in *.
    destruct b as [|[q|q|]]; simpl.
    + split; [lia|]. discriminate.
    + destruct (IH (N.pos q)) as [Hle Heq]; [lia|]. simpl in *.
      split; [lia|]. intros [= Hc]. specialize (Heq Hc). lia.
    + destruct (IH (N.pos q)) as [Hle Heq]; [lia|]. simpl in *.
      split; [lia|]. intros Hc. lia.
    + split; [lia|]. intros [= <-]. done.
Qed.

Lemma bitset_small (n : nat) (v : N) :
  (n <= 64)%nat -> v < 2 ^ N.of_nat n -> bitset n v = v.
Proof.
  intros Hn Hv. unfold bitset, ulong.
  assert (2 ^ N.of_nat n <= 2 ^ 64).
  { apply N.pow_le_mono_r; lia. }
  rewrite (N.mod_small v (2 ^ 64)) by lia.
  by apply N.mod_small.
Qed.

(** The invariant of the iterator over a ground set that fits an
    [unsigned long]. *)
Definition inv (n : nat) (empty_set : bool) (s : lexicographic_subset) : Prop :=
  n_ s = n /\ empty_set_ s = empty_set /\ (1 <= n)%nat /\
  lowest empty_set <= bits_ s < 2 ^ N.of_nat n.

Lemma lowest_small (n : nat) (e : bool) : (1 <= n)%nat -> lowest e < 2 ^ N.of_nat n.
Proof.
  intros Hn. destruct n as [|n]; [lia|]. rewrite pow2_succ.
  pose proof (pow2_pos n). destruct e; simpl; lia.
Qed.

Lemma make_inv (n : nat) (e : bool) (s : lexicographic_subset) :
  (n <= 64)%nat -> make n e = Some s -> inv n e s.
Proof.
  intros Hn. unfold make. destruct (0 <? n)%nat eqn:E; [|discriminate].
  apply Nat.ltb_lt in E. intros [= <-]. unfold inv. simpl.
  pose proof (lowest_small n e ltac:(lia)).
  rewrite bitset_small by (try lia). repeat split; try lia.
Qed.

Lemma incr_inv (n : nat) (e : bool) (s s' : lexicographic_subset) :
  (n <= 64)%nat -> inv n e s -> incr s = Some s' -> inv n e s'.
Proof.
  intros Hn (Hsn & He & Hn1 & Hlo & Hhi). unfold incr.
  destruct (has_next_ s); [|discriminate].
  intros [= <-]. unfold inv. simpl. rewrite Hsn, He.
  repeat split; try done.
  - destruct (count (bits_ s) <? n)%nat eqn:E; [|done].
    apply Nat.ltb_lt in E.
    destruct (count_bound n (bits_ s) Hhi) as [_ Hfull].
    destruct (decide (bits_ s = 2 ^ N.of_nat n - 1)) as [Heq|Hne].
    { rewrite Heq, count_full in E. lia. }
    rewrite bitset_small; lia.
  - destruct (count (bits_ s) <? n)%nat eqn:E; [|done].
    apply Nat.ltb_lt in E.
    destruct (decide (bits_ s = 2 ^ N.of_nat n - 1)) as [Heq|Hne].
    { rewrite Heq, count_full in E. lia. }
    rewrite bitset_small; lia.
Qed.

Lemma decr_inv (n : nat) (e : bool) (s s' : lexicographic_subset) :
  (n <= 64)%nat -> inv n e s -> decr s = Some s' -> inv n e s'.
Proof.
  intros Hn (Hsn & He & Hn1 & Hlo & Hhi). unfold decr.
  destruct (has_prev_ s); [|discriminate].
  intros [= <-]. unfold inv. simpl. rewrite Hsn, He.
  repeat split; try done.
  - destruct (lowest e <? bits_ s) eqn:E; [|done].
    apply N.ltb_lt in E. rewrite bitset_small; lia.
  - destruct (lowest e <? bits_ s) eqn:E; [|done].
    apply N.ltb_lt in E. rewrite bitset_small; lia.
Qed.

Lemma reachable_inv (n : nat) (e : bool) (s : lexicographic_subset) :
  (n <= 64)%nat -> reachable n e s -> inv n e s.
Proof.
  intros Hn. induction 1 as [s H|s s' _ IH H|s s' _ IH H].
  - by eapply make_inv.
  - by eapply incr_inv.
  - by eapply decr_inv.
Qed.

(** Below the full set, [++] then [--] restores the bit mask, and leaves
    [has_prev()] true. *)
Lemma subset_incr_then_decr (n : nat) (e : bool) (s : lexicographic_subset) :
  (n <= 64)%nat -> inv n e s -> has_next s = true -> (size s < n)%nat ->
  exists s' s'', incr s = Some s' /\ decr s' = Some s'' /\
    bits_ s'' = bits_ s /\ has_prev s'' = true.
Proof.
  intros Hn (Hsn & He & Hn1 & Hlo & Hhi) Hnext Hsize.
  unfold has_next in Hnext. unfold size in Hsize.
  unfold incr. rewrite Hnext, Hsn, He.
  assert ((count (bits_ s) <? n)%nat = true) as -> by (by apply Nat.ltb_lt).
  assert (bits_ s <> 2 ^ N.of_nat n - 1) as Hne.
  { intros Heq. rewrite Heq, count_full in Hsize. lia. }
  rewrite bitset_small by lia.
  assert ((lowest e <? bits_ s + 1) = true) as -> by (apply N.ltb_lt; lia).
  eexists. eexists. split; [reflexivity|].
  unfold decr. simpl.
  assert ((lowest e <? bits_ s + 1) = true) as -> by (apply N.ltb_lt; lia).
  split; [reflexivity|]. simpl.
  rewrite bitset_small by lia. split; [lia|done].
Qed.

(** Above the first subset, [--] steps the bit mask down by one; if
    [has_next()] holds after it, [++] then restores the bit mask with both
    flags true. *)
Lemma subset_decr_then_incr (n : nat) (e : bool) (s : lexicographic_subset) :
  (n <= 64)%nat -> inv n e s -> has_prev s = true -> lowest e < bits_ s ->
  exists s', decr s = Some s' /\ bits_ s' = bits_ s - 1 /\
    (has_next s' = true ->
     exists s'', incr s' = Some s'' /\ bits_ s'' = bits_ s /\
       has_prev s'' = true /\ has_next s'' = true).
Proof.
  intros Hn (Hsn & He & Hn1 & Hlo & Hhi) Hprev Hfirst.
  unfold has_prev in Hprev.
  unfold decr. rewrite Hprev, Hsn, He.
  assert ((lowest e <? bits_ s) = true) as -> by (by apply N.ltb_lt).
  rewrite bitset_small by lia.
  eexists. split; [reflexivity|]. simpl. split; [done|].
  intros Hnext. unfold incr. simpl. rewrite Hnext.
  assert ((count (bits_ s - 1) <? n)%nat = true) as ->.
  { apply Nat.ltb_lt.
    destruct (count_bound n (bits_ s - 1) ltac:(lia)) as [Hle Hfull].
    destruct (decide (count (bits_ s - 1) = n)) as [Heq|]; [|lia].
    specialize (Hfull Heq). lia. }
  replace (bits_ s - 1 + 1) with (bits_ s) by lia.
  rewrite bitset_small by lia.
  eexists. split; [reflexivity|]. simpl.
  split; [done|]. split; [|done]. by apply N.ltb_lt.
Qed.

End SubsetFacts.

(** ** The Nash-stable partition selector *)

Module NashStableFacts.
Import Real Gtpack Coalition NashStable.

Lemma bind_ok {A B : Type} (c : outcome A) (k : A -> outcome B) (b : B) :
  bind c k = Ok b -> exists a, c = Ok a /\ k a = Ok b.
Proof. destruct c as [a| |]; simpl; [|discriminate..]. intros H. by exists a. Qed.






Lemma elem_of_set_insert (c x : N) (s : list N) :
  x ∈ set_insert c s <-> x = c \/ x ∈ s.
Proof.
  induction s as [|y rest IH]; simpl.
  - rewrite list_elem_of_singleton. split; [by left|]. intros [?|H]; [done|].
    by apply elem_of_nil in H.
  - destruct (c <? y)%N; [by rewrite elem_of_cons|].
    destruct (c =? y)%N eqn:E.
    + apply N.eqb_eq in E. subst y. rewrite elem_of_cons. intuition (subst; auto).
    + rewrite !elem_of_cons, IH. tauto.
Qed.






End NashStableFacts.

(** ** The enumeration of the coalitions *)

Module EnumerationFacts.
Import Real Gtpack Coalition Experiment.

Local Open Scope N_scope.

Lemma testbit_fold_lor (l : list nat) (acc k : N) :
  N.testbit (fold_left (fun cid pid => N.lor cid (2 ^ N.of_nat pid)) l acc) k
  = N.testbit acc k || existsb (fun pid => N.of_nat pid =? k) l.
Proof.
  revert acc. induction l as [|p rest IH]; intros acc; simpl.
  - by rewrite orb_false_r.
  - rewrite IH, N.lor_spec, N.pow2_bits_eqb. by rewrite orb_assoc.
Qed.

Lemma testbit_make_coalition_id (l : list nat) (k : N) :
  N.testbit (make_coalition_id l) k = existsb (fun pid => N.of_nat pid =? k) l.
Proof. unfold make_coalition_id. by rewrite testbit_fold_lor. Qed.

Lemma testbit_above (n : nat) (b k : N) :
  b < 2 ^ N.of_nat n -> N.of_nat n <= k -> N.testbit b k = false.
Proof.
  intros Hb Hk. destruct (decide (b = 0)) as [->|Hne]; [apply N.bits_0|].
  apply N.bits_above_log2.
  assert (N.log2 b < N.of_nat n); [|lia].
  apply N.log2_lt_pow2; lia.
Qed.

(** The identifier of the players at the set positions of [b] is [b]. *)
Lemma make_coalition_id_positions (n : nat) (b : N) :
  b < 2 ^ N.of_nat n -> make_coalition_id (Subset.positions n b) = b.
Proof.
  intros Hb. apply N.bits_inj. intros k.
  rewrite testbit_make_coalition_id. unfold Subset.positions.
  destruct (N.testbit b k) eqn:Ek.
  - apply existsb_exists. exists (N.to_nat k).
    assert (k < N.of_nat n).
    { destruct (decide (k < N.of_nat n)) as [|Hge]; [done|].
      rewrite (testbit_above n b k) in Ek by lia. discriminate. }
    split; [|apply N.eqb_eq; lia].
    apply filter_In. split; [apply in_seq; lia|].
    by rewrite N2Nat.id.
  - apply not_true_is_false. intros Hex.
    apply existsb_exists in Hex as (p & Hin & Hp).
    apply N.eqb_eq in Hp. subst k.
    apply filter_In in Hin as [_ Hbit]. congruence.
Qed.

(** A non-empty set of players below [n] has an identifier between [1] and
    [2^n - 1]. *)
Lemma make_coalition_id_range (n : nat) (l : list nat) :
  l <> [] -> (forall p, In p l -> (p < n)%nat) ->
  1 <= make_coalition_id l < 2 ^ N.of_nat n.
Proof.
  intros Hne Hlt. split.
  - destruct l as [|p rest]; [done|].
    assert (make_coalition_id (p :: rest) <> 0); [|lia].
    intros H0.
    assert (N.testbit (make_coalition_id (p :: rest)) (N.of_nat p) = true) as Hb.
    { rewrite testbit_make_coalition_id. simpl. by rewrite N.eqb_refl. }
    rewrite H0, N.bits_0 in Hb. discriminate.
  - destruct (decide (make_coalition_id l = 0)) as [->|H0].
    { apply N.neq_0_lt_0. by apply N.pow_nonzero. }
    apply N.log2_lt_pow2; [lia|].
    destruct (decide (N.log2 (make_coalition_id l) < N.of_nat n)) as [|Hge]; [done|].
    pose proof (N.bit_log2 _ H0) as Hb.
    rewrite testbit_make_coalition_id in Hb.
    apply existsb_exists in Hb as (p & Hin & Hp).
    apply N.eqb_eq in Hp. specialize (Hlt p Hin). lia.
Qed.

Lemma omap_lookup_seq (n : nat) (l : list nat) :
  (forall p, In p l -> (p < n)%nat) -> omap (fun pos => seq 0 n !! pos) l = l.
Proof.
  induction l as [|p rest IH]; intros Hlt; [done|].
  change (omap (fun pos => seq 0 n !! pos) (p :: rest))
    with (match seq 0 n !! p with
          | Some y => y :: omap (fun pos => seq 0 n !! pos) rest
          | None => omap (fun pos => seq 0 n !! pos) rest
          end).
  rewrite lookup_seq_lt by (apply Hlt; by left). simpl.
  rewrite IH; [done|]. intros q Hq. apply Hlt. by right.
Qed.

(** The subset yielded for a bit mask over the providers [0, .., n-1]. *)
Lemma apply_fps (n : nat) (s : Subset.lexicographic_subset) :
  Subset.n_ s = n ->
  Subset.apply s (seq 0 n) = Some (Subset.positions n (Subset.bits_ s)).
Proof.
  intros Hn. unfold Subset.apply. rewrite length_seq, Hn, Nat.eqb_refl. f_equal.
  apply omap_lookup_seq. intros p Hp. unfold Subset.positions in Hp.
  apply filter_In in Hp as [Hp _]. apply in_seq in Hp. lia.
Qed.

Section Loop.

Variable opt_solver : list nat -> list nat -> vm_allocation_t.
Variable find_core_empty : subgame -> bool.
Variable shapley_value : subgame -> gmap nat real_t.
Variable belongs_to_core : subgame -> gmap nat real_t -> bool.
Variable e : experiment_t.
Variable vm_svcs : list nat.
Variable coalition_duration : Q.

Abbreviation visit := (visit opt_solver find_core_empty shapley_value belongs_to_core
                     e vm_svcs coalition_duration).
Abbreviation coalitions_loop :=
  (coalitions_loop opt_solver find_core_empty shapley_value belongs_to_core
     e vm_svcs coalition_duration).

Lemma dom_update (cid : N) (f : coalition_info_t -> coalition_info_t)
    (m : gmap N coalition_info_t) :
  dom (update cid f m) = {[cid]} ∪ dom m.
Proof. unfold update. by rewrite dom_insert_L. Qed.

(** A visit adds the identifier of the coalition to the visited ones. *)
Lemma dom_visit (coal_fps : list nat) (st : analysis) :
  dom (visited_coalitions (visit coal_fps st))
  = {[make_coalition_id coal_fps]} ∪ dom (visited_coalitions st).
Proof.
  unfold Experiment.visit.
  destruct (solved _); simpl.
  - destruct (find_core_empty _); simpl.
    + destruct (update _ _ _ !! _) as [info|]; [destruct (negb (core_empty info))|];
        rewrite ?dom_update; set_solver.
    + destruct (update _ _ _ !! _) as [info|]; [destruct (negb (core_empty info))|];
        rewrite ?dom_update; set_solver.
  - rewrite !dom_update. set_solver.
Qed.

Hypothesis fps_iota : fps_ e = seq 0 (num_fps e).
Hypothesis fits_ulong : (1 <= num_fps e <= 64)%nat.

Lemma coalitions_loop_step (fuel : nat) (s : Subset.lexicographic_subset)
    (st : analysis) :
  coalitions_loop (S fuel) s st =
  if Subset.has_next s then
    let* step := or_throw overflow_error (Subset.next_subset (fps_ e) s) in
    coalitions_loop fuel (snd step) (visit (fst step) st)
  else Ok st.
Proof. reflexivity. Qed.

(** The step of the iterator at the bit mask [b] over the providers. *)
Lemma next_subset_fps (b : N) (hp : bool) :
  1 <= b < 2 ^ N.of_nat (num_fps e) ->
  Subset.next_subset (fps_ e) (Subset.mk_subset (num_fps e) false b hp true)
  = Some (Subset.positions (num_fps e) b,
          if decide (b = 2 ^ N.of_nat (num_fps e) - 1)
          then Subset.mk_subset (num_fps e) false b (1 <? b) false
          else Subset.mk_subset (num_fps e) false (b + 1) true true).
Proof.
  intros Hb. unfold Subset.next_subset.
  rewrite fps_iota, (apply_fps (num_fps e)) by done.
  unfold Subset.incr. simpl.
  case_decide as Hfull.
  - assert ((Subset.count b <? num_fps e)%nat = false) as ->; [|done].
    apply Nat.ltb_ge. rewrite Hfull, SubsetFacts.count_full. lia.
  - assert ((Subset.count b <? num_fps e)%nat = true) as ->.
    { apply Nat.ltb_lt.
      destruct (SubsetFacts.count_bound (num_fps e) b ltac:(lia)) as [Hle Hf].
      destruct (decide (Subset.count b = num_fps e)) as [Heq|]; [|lia].
      specialize (Hf Heq). lia. }
    rewrite SubsetFacts.bitset_small by lia.
    assert ((1 <? b + 1) = true) as -> by (apply N.ltb_lt; lia).
    done.
Qed.

(** From the subset of bit mask [b] the loop visits the coalitions
    [b, .., 2^n - 1], each once, and ends. *)
Lemma coalitions_loop_run (k : nat) :
  forall (b : N) (hp : bool) (st : analysis),
    1 <= b -> b + N.of_nat k = 2 ^ N.of_nat (num_fps e) - 1 ->
    (forall c, c ∈ dom (visited_coalitions st) -> c < b) ->
    exists st',
      coalitions_loop (S (S k)) (Subset.mk_subset (num_fps e) false b hp true) st = Ok st' /\
      (forall c, c ∈ dom (visited_coalitions st') <->
                 c ∈ dom (visited_coalitions st) \/ b <= c < 2 ^ N.of_nat (num_fps e)) /\
      size (visited_coalitions st') = (size (visited_coalitions st) + S k)%nat.
Proof.
  pose proof (SubsetFacts.pow2_pos (num_fps e)) as Hpos.
  induction k as [|k IH]; intros b hp st Hb Hk Hfresh.
  - assert (b = 2 ^ N.of_nat (num_fps e) - 1) as Hfull by lia.
    rewrite coalitions_loop_step. simpl Subset.has_next. cbv iota.
    rewrite next_subset_fps by lia.
    rewrite decide_True by done. simpl.
    eexists. split; [reflexivity|].
    rewrite <- !size_dom, dom_visit, make_coalition_id_positions by lia.
    split.
    + intros c. rewrite elem_of_union, elem_of_singleton.
      split.
      * intros [->|H]; [right; lia|by left].
      * intros [H|H]; [by right|left; lia].
    + rewrite size_union, size_singleton; [lia|].
      intros c Hc1 Hc2. apply elem_of_singleton in Hc1. subst c.
      specialize (Hfresh _ Hc2). lia.
  - assert (b < 2 ^ N.of_nat (num_fps e) - 1) as Hlt by lia.
    rewrite coalitions_loop_step. simpl Subset.has_next. cbv iota.
    rewrite next_subset_fps by lia.
    rewrite decide_False by lia. simpl or_throw. simpl bind.
    destruct (IH (b + 1) true (visit (Subset.positions (num_fps e) b) st))
      as (st' & Hrun & Hdom & Hsize).
    + lia.
    + lia.
    + intros c. rewrite dom_visit, make_coalition_id_positions by lia.
      rewrite elem_of_union, elem_of_singleton. intros [->|Hc]; [lia|].
      specialize (Hfresh _ Hc). lia.
    + exists st'. split; [exact Hrun|].
      rewrite <- !size_dom in *.
      rewrite dom_visit, make_coalition_id_positions in * by lia.
      split.
      * intros c. rewrite Hdom, elem_of_union, elem_of_singleton.
        split.
        -- intros [[->|H]|H]; [right; lia|by left|right; lia].
        -- intros [H|H]; [by left; right|].
           destruct (decide (c = b)) as [->|]; [by left; left|right; lia].
      * rewrite Hsize, size_union, size_singleton; [lia|].
        intros c Hc1 Hc2. apply elem_of_singleton in Hc1. subst c.
        specialize (Hfresh _ Hc2). lia.
Qed.

End Loop.

End EnumerationFacts.

(** ** The value of a coalition *)

Module ValueFacts.
Import Real Gtpack Coalition Experiment.

Lemma lookup_update (cid : N) (f : coalition_info_t -> coalition_info_t)
    (m : gmap N coalition_info_t) :
  update cid f m !! cid = Some (f (default new_coalition_info (m !! cid))).
Proof. unfold update. by rewrite lookup_insert_eq. Qed.

Lemma value_set_value (cid : N) (v : real_t) (g : cooperative_game) :
  Gtpack.value (set_value cid v g) cid = v.
Proof. unfold Gtpack.value, set_value. simpl. by rewrite lookup_insert_eq. Qed.

Section Value.

Variable e : experiment_t.

Lemma fold_revenue (svcs : list nat) (a : Q) :
  exists q,
    fold_left
      (fun revenue svc =>
         radd revenue
           (Fin (svc_revenue e (vget (svc_fps_ e) svc) (vget (svc_categories_ e) svc))))
      svcs (Fin a) = Fin q /\
    (q == a + Qsum (map (fun svc => svc_revenue e (vget (svc_fps_ e) svc)
                                      (vget (svc_categories_ e) svc)) svcs))%Q.
Proof.
  revert a. induction svcs as [|svc rest IH]; intros a; simpl.
  - exists a. split; [done|]. ring.
  - destruct (IH (a + svc_revenue e (vget (svc_fps_ e) svc) (vget (svc_categories_ e) svc))%Q)
      as (q & Hq & Heq).
    exists q. split; [done|]. rewrite Heq. ring.
Qed.

Lemma fold_cost (fps : list nat) (a : Q) :
  exists q,
    fold_left (fun cost fp => rsub cost (Fin (coalition_cost e fp))) fps (Fin a) = Fin q /\
    (q == a - Qsum (map (coalition_cost e) fps))%Q.
Proof.
  revert a. induction fps as [|fp rest IH]; intros a; simpl.
  - exists a. split; [done|]. ring.
  - destruct (IH (a + - coalition_cost e fp)%Q) as (q & Hq & Heq).
    exists q. split; [done|]. rewrite Heq. ring.
Qed.

(** The profit computed for a solved coalition with a finite objective. *)
Lemma profit_of_spec (coalition_duration objective : Q) (vm_alloc : vm_allocation_t)
    (coal_fps : list nat) :
  objective_value vm_alloc = Fin objective ->
  exists v, profit_of e coalition_duration vm_alloc coal_fps = Fin v /\
    (v == (revenue_spec e coal_fps - cost_spec e objective coal_fps) * coalition_duration)%Q.
Proof.
  intros Hobj. unfold profit_of, revenue_of, cost_of, revenue_spec, cost_spec.
  rewrite Hobj.
  destruct (fold_revenue (coal_svcs_of e coal_fps) 0) as (r & -> & Hr).
  destruct (1 <? length coal_fps).
  - destruct (fold_cost coal_fps objective) as (c & -> & Hc).
    eexists. split; [reflexivity|]. rewrite Hr, Hc. ring.
  - eexists. split; [reflexivity|]. rewrite Hr. ring.
Qed.

(** The services gathered for a coalition are those of its members. *)
Lemma elem_of_coal_svcs (coal_fps : list nat) (svc : nat) :
  In svc (coal_svcs_of e coal_fps) <->
  svc < num_svcs_ e /\ In (vget (svc_fps_ e) svc) coal_fps.
Proof.
  unfold coal_svcs_of. rewrite in_flat_map. split.
  - intros (fp & Hfp & Hin). apply filter_In in Hin as [Hs Heq].
    apply in_seq in Hs. apply Nat.eqb_eq in Heq. subst fp. split; [lia|done].
  - intros [Hlt Hin]. exists (vget (svc_fps_ e) svc). split; [done|].
    apply filter_In. split; [apply in_seq; lia|apply Nat.eqb_refl].
Qed.

(** Each service is gathered once. *)
Lemma NoDup_coal_svcs (coal_fps : list nat) :
  NoDup coal_fps -> NoDup (coal_svcs_of e coal_fps).
Proof.
  induction coal_fps as [|fp rest IH]; intros Hnd.
  - constructor.
  - apply NoDup_cons in Hnd as [Hfp Hrest].
    change (coal_svcs_of e (fp :: rest))
      with (List.filter (fun svc => vget (svc_fps_ e) svc =? fp) (seq 0 (num_svcs_ e))
            ++ coal_svcs_of e rest).
    apply NoDup_app. split; [|split; [|by apply IH]].
    + apply NoDup_ListNoDup, List.NoDup_filter, seq_NoDup.
    + intros svc Hin Hin'. apply list_elem_of_In in Hin, Hin'.
      apply filter_In in Hin as [_ Heq]. apply Nat.eqb_eq in Heq.
      apply elem_of_coal_svcs in Hin' as [_ Hin'].
      apply Hfp. apply list_elem_of_In. by rewrite <- Heq.
Qed.

End Value.

End ValueFacts.

(** ** The event queue *)

Module HeapFacts.
Import Real Simulator.

Lemma le_ev_refl (a : event_t) : le_ev a a.
Proof. apply Qle_refl. Qed.

Lemma le_ev_trans (a b c : event_t) : le_ev a b -> le_ev b c -> le_ev a c.
Proof. apply Qle_trans. Qed.

Lemma comparator_false (a b : event_t) : event_comparator a b = false <-> le_ev a b.
Proof.
  unfold event_comparator, Qltb, le_ev.
  rewrite negb_false_iff. apply Qle_bool_iff.
Qed.

Lemma comparator_true (a b : event_t) : event_comparator a b = true -> le_ev b a.
Proof.
  unfold event_comparator, Qltb, le_ev. rewrite negb_true_iff.
  intros H. apply Qlt_le_weak, Qnot_le_lt. intros Hle.
  apply Qle_bool_iff in Hle. congruence.
Qed.

Lemma elt_insert (c : list event_t) (i j : nat) (x : event_t) :
  elt (<[i := x]> c) j = if decide (i = j /\ i < length c) then x else elt c j.
Proof.
  unfold elt.
  destruct (decide (i = j /\ i < length c)) as [[-> Hlt]|Hn].
  - apply nth_lookup_Some. by apply list_lookup_insert_eq.
  - destruct (decide (i = j)) as [->|Hij].
    + rewrite list_insert_ge by lia. done.
    + rewrite !nth_lookup. by rewrite list_lookup_insert_ne.
Qed.

Ltac elt_simpl :=
  repeat (rewrite elt_insert in * ); rewrite ?length_insert in *;
  repeat case_decide; try lia.

Lemma push_heap_loop_S (fuel : nat) (c : list event_t) (hole top : nat) (value : event_t) :
  push_heap_loop (S fuel) c hole top value =
  if (top <? hole) && event_comparator (elt c ((hole - 1) / 2)) value
  then push_heap_loop fuel (<[hole := elt c ((hole - 1) / 2)]> c) ((hole - 1) / 2) top value
  else <[hole := value]> c.
Proof. reflexivity. Qed.

(** The sift-up of [value] from the hole restores the heap, when the heap
    holds away from the hole and the children of the hole fire neither
    before [value] nor before the parent of the hole. *)
Lemma push_heap_loop_heap (fuel : nat) :
  forall (c : list event_t) (hole : nat) (value : event_t) (len : nat),
    hole <= fuel -> hole < len -> len <= length c ->
    (forall i, 0 < i < len -> i <> hole -> (i - 1) / 2 <> hole ->
       le_ev (elt c ((i - 1) / 2)) (elt c i)) ->
    (forall i, 0 < i < len -> (i - 1) / 2 = hole -> le_ev value (elt c i)) ->
    (0 < hole -> forall i, 0 < i < len -> (i - 1) / 2 = hole ->
       le_ev (elt c ((hole - 1) / 2)) (elt c i)) ->
    heap_upto len (push_heap_loop fuel c hole 0 value).
Proof.
  assert (Hexit : forall (c : list event_t) (hole : nat) (value : event_t) (len : nat),
    hole < len -> len <= length c ->
    (forall i, 0 < i < len -> i <> hole -> (i - 1) / 2 <> hole ->
       le_ev (elt c ((i - 1) / 2)) (elt c i)) ->
    (forall i, 0 < i < len -> (i - 1) / 2 = hole -> le_ev value (elt c i)) ->
    (0 < hole -> le_ev (elt c ((hole - 1) / 2)) value) ->
    heap_upto len (<[hole := value]> c)).
  { intros c hole value len Hlen Hc H1 H2 Hp i Hi.
    destruct (decide (i = hole)) as [->|Hne].
    - elt_simpl. apply Hp. lia.
    - destruct (decide ((i - 1) / 2 = hole)) as [Heq|Hne'].
      + rewrite Heq. elt_simpl. by apply H2.
      + elt_simpl. by apply H1. }
  induction fuel as [|fuel IH]; intros c hole value len Hf Hlen Hc H1 H2 H3.
  - simpl. apply Hexit; auto. lia.
  - rewrite push_heap_loop_S.
    destruct ((0 <? hole) && event_comparator (elt c ((hole - 1) / 2)) value) eqn:E.
    + apply andb_prop in E as [Hpos Hcmp]. apply Nat.ltb_lt in Hpos.
      apply comparator_true in Hcmp.
      assert (Hparent : (hole - 1) / 2 < hole) by lia.
      apply IH; try lia.
      * rewrite length_insert. lia.
      * intros i Hi Hne Hne'.
        destruct (decide (i = hole)) as [->|Hih]; [done|].
        destruct (decide ((i - 1) / 2 = hole)) as [Heq|Hph].
        -- rewrite Heq. elt_simpl. by apply H3.
        -- elt_simpl. by apply H1.
      * intros i Hi Heq.
        destruct (decide (i = hole)) as [->|Hih].
        -- elt_simpl. exact Hcmp.
        -- elt_simpl. apply (le_ev_trans _ (elt c ((hole - 1) / 2))); [done|].
           rewrite <- Heq. apply H1; lia.
      * intros Hpos' i Hi Heq.
        assert (Hgp : le_ev (elt c (((hole - 1) / 2 - 1) / 2)) (elt c ((hole - 1) / 2))).
        { apply H1; lia. }
        destruct (decide (i = hole)) as [->|Hih].
        -- elt_simpl. exact Hgp.
        -- elt_simpl. apply (le_ev_trans _ (elt c ((hole - 1) / 2))); [done|].
           rewrite <- Heq. apply H1; lia.
    + apply Hexit; auto.
      intros Hpos. apply comparator_false.
      apply andb_false_iff in E as [E|E]; [|done].
      apply Nat.ltb_ge in E. lia.
Qed.

Lemma length_push_heap_loop (fuel : nat) :
  forall (c : list event_t) (hole top : nat) (value : event_t),
    length (push_heap_loop fuel c hole top value) = length c.
Proof.
  induction fuel as [|fuel IH]; intros c hole top value.
  - simpl. apply length_insert.
  - rewrite push_heap_loop_S.
    destruct (_ && _); [|apply length_insert].
    rewrite IH. apply length_insert.
Qed.

Lemma In_insert (c : list event_t) (i : nat) (x y : event_t) :
  In x (<[i := y]> c) -> x = y \/ In x c.
Proof.
  intros Hin. apply list_elem_of_In in Hin.
  apply list_elem_of_lookup in Hin as (j & Hj).
  destruct (decide (i = j)) as [->|Hne].
  - destruct (decide (j < length c)) as [Hlt|Hge].
    + rewrite list_lookup_insert_eq in Hj by done. left. congruence.
    + rewrite list_insert_ge in Hj by lia. right.
      apply list_elem_of_In, list_elem_of_lookup. eauto.
  - rewrite list_lookup_insert_ne in Hj by done. right.
    apply list_elem_of_In, list_elem_of_lookup. eauto.
Qed.

Lemma In_elt (c : list event_t) (i : nat) : i < length c -> In (elt c i) c.
Proof. intros H. unfold elt. by apply nth_In. Qed.

(** The sift-up places [value] and elements of the vector only. *)
Lemma In_push_heap_loop (fuel : nat) :
  forall (c : list event_t) (hole top : nat) (value x : event_t),
    hole < length c ->
    In x (push_heap_loop fuel c hole top value) -> x = value \/ In x c.
Proof.
  induction fuel as [|fuel IH]; intros c hole top value x Hlen.
  - simpl. apply In_insert.
  - rewrite push_heap_loop_S.
    destruct (_ && _) eqn:E; [|apply In_insert].
    apply andb_prop in E as [Hpos _]. apply Nat.ltb_lt in Hpos.
    intros Hin. apply IH in Hin; [|rewrite length_insert; lia].
    destruct Hin as [?|Hin]; [by left|].
    apply In_insert in Hin as [->|?]; [|by right].
    right. apply In_elt. lia.
Qed.

Lemma elt_app_l (c : list event_t) (x : event_t) (i : nat) :
  i < length c -> elt (c ++ [x]) i = elt c i.
Proof. intros H. unfold elt. by apply app_nth1. Qed.

Lemma elt_app_last (c : list event_t) (x : event_t) : elt (c ++ [x]) (length c) = x.
Proof. unfold elt. rewrite app_nth2 by lia. by rewrite Nat.sub_diag. Qed.

(** [priority_queue::push] keeps the heap. *)
Lemma pq_push_heap (x : event_t) (c : list event_t) :
  is_heap c -> is_heap (pq_push x c).
Proof.
  intros Hc. unfold is_heap, pq_push, push_heap, __push_heap.
  rewrite length_push_heap_loop, length_app. cbn [length].
  replace (length c + 1 - 1) with (length c) by lia.
  apply push_heap_loop_heap; rewrite ?length_app; cbn [length]; try lia.
  intros i Hi Hne Hne'. rewrite !elt_app_l by lia. apply Hc. lia.
Qed.

Lemma length_pq_push (x : event_t) (c : list event_t) :
  length (pq_push x c) = S (length c).
Proof.
  unfold pq_push, push_heap, __push_heap.
  rewrite length_push_heap_loop, length_app. simpl. lia.
Qed.

(** [priority_queue::push] adds no element but the one pushed. *)
Lemma In_pq_push (x y : event_t) (c : list event_t) :
  In y (pq_push x c) -> y = x \/ In y c.
Proof.
  unfold pq_push, push_heap, __push_heap. rewrite length_app. simpl.
  replace (length c + 1 - 1) with (length c) by lia.
  rewrite elt_app_last. intros Hin.
  apply In_push_heap_loop in Hin; [|rewrite length_app; simpl; lia].
  destruct Hin as [?|Hin]; [by left|].
  apply in_app_iff in Hin as [?|[<-|[]]]; [by right|by left].
Qed.

(** The first element of a heap fires first. *)
Lemma heap_top_least (c : list event_t) (i : nat) :
  is_heap c -> i < length c -> le_ev (elt c 0) (elt c i).
Proof.
  intros Hc. induction i as [i IH] using lt_wf_ind. intros Hi.
  destruct (decide (i = 0)) as [->|Hpos]; [apply le_ev_refl|].
  apply (le_ev_trans _ (elt c ((i - 1) / 2))).
  - apply IH; lia.
  - apply Hc. lia.
Qed.

Lemma adjust_heap_loop_S (fuel : nat) (c : list event_t) (i len : nat) :
  adjust_heap_loop (S fuel) c i len =
  if i <? (len - 1) / 2 then
    adjust_heap_loop fuel
      (<[i := elt c (if event_comparator (elt c (2 * (i + 1))) (elt c (2 * (i + 1) - 1))
                     then 2 * (i + 1) - 1 else 2 * (i + 1))]> c)
      (if event_comparator (elt c (2 * (i + 1))) (elt c (2 * (i + 1) - 1))
       then 2 * (i + 1) - 1 else 2 * (i + 1))
      len
  else (c, i).
Proof. reflexivity. Qed.

(** One step of the sift-down: the child that fires first moves to the
    hole. *)
Lemma sift_inv_step (len : nat) (c : list event_t) (i : nat) :
  len <= length c -> i < (len - 1) / 2 -> sift_inv len c i ->
  let sc := if event_comparator (elt c (2 * (i + 1))) (elt c (2 * (i + 1) - 1))
            then 2 * (i + 1) - 1 else 2 * (i + 1) in
  i < sc < len /\ sift_inv len (<[i := elt c sc]> c) sc.
Proof.
  intros Hc Hi [Ha Hb] sc.
  assert (Hsc : (sc = 2 * i + 1 \/ sc = 2 * i + 2) /\
                forall j, 0 < j < len -> (j - 1) / 2 = i -> le_ev (elt c sc) (elt c j)).
  { subst sc. destruct (event_comparator _ _) eqn:E.
    - split; [left; lia|]. intros j Hj Hp.
      apply comparator_true in E.
      assert (j = 2 * (i + 1) - 1 \/ j = 2 * (i + 1)) as [->| ->] by lia;
        [apply le_ev_refl|done].
    - split; [right; lia|]. intros j Hj Hp.
      apply comparator_false in E.
      assert (j = 2 * (i + 1) - 1 \/ j = 2 * (i + 1)) as [->| ->] by lia;
        [done|apply le_ev_refl]. }
  clearbody sc. destruct Hsc as [Hsc Hmin].
  split; [lia|]. split.
  - intros j Hj Hne Hne'.
    destruct (decide (j = i)) as [->|Hji].
    + elt_simpl. apply Hb; lia.
    + destruct (decide ((j - 1) / 2 = i)) as [Heq|Hpi].
      * rewrite Heq. elt_simpl. by apply Hmin.
      * elt_simpl. by apply Ha.
  - intros Hpos j Hj Heq.
    assert ((sc - 1) / 2 = i) as -> by lia.
    elt_simpl. rewrite <- Heq. apply Ha; lia.
Qed.

(** The sift-down ends with the hole where it has no two children. *)
Lemma adjust_heap_loop_inv (fuel : nat) :
  forall (c : list event_t) (i len : nat),
    len <= i + fuel -> i < len -> len <= length c -> sift_inv len c i ->
    sift_inv len (adjust_heap_loop fuel c i len).1 (adjust_heap_loop fuel c i len).2 /\
    length (adjust_heap_loop fuel c i len).1 = length c /\
    (adjust_heap_loop fuel c i len).2 < len /\
    ~ (adjust_heap_loop fuel c i len).2 < (len - 1) / 2 /\
    (forall x, In x (adjust_heap_loop fuel c i len).1 -> In x c).
Proof.
  induction fuel as [|fuel IH]; intros c i len Hf Hi Hc Hinv; [lia|].
  rewrite adjust_heap_loop_S.
  destruct (i <? (len - 1) / 2) eqn:E.
  - apply Nat.ltb_lt in E.
    destruct (sift_inv_step len c i Hc E Hinv) as [Hsc Hinv'].
    set (sc := if event_comparator (elt c (2 * (i + 1))) (elt c (2 * (i + 1) - 1))
               then 2 * (i + 1) - 1 else 2 * (i + 1)) in *.
    destruct (IH (<[i := elt c sc]> c) sc len) as (H1 & H2 & H3 & H4 & H5);
      try lia; [by rewrite length_insert|done|].
    split; [done|]. split; [by rewrite H2, length_insert|].
    split; [done|]. split; [done|].
    intros x Hx. apply H5, In_insert in Hx as [->|?]; [|done].
    apply In_elt. lia.
  - apply Nat.ltb_ge in E. cbn [fst snd].
    split; [done|]. split; [done|]. split; [done|]. split; [lia|done].
Qed.

Lemma even_cases (len : nat) :
  (Nat.even len = true /\ len mod 2 = 0) \/ (Nat.even len = false /\ len mod 2 = 1).
Proof.
  destruct (Nat.even len) eqn:E.
  - left. split; [done|]. apply Nat.even_spec in E as [k ->]. lia.
  - right. split; [done|].
    assert (Nat.odd len = true) as Ho by (by rewrite <- Nat.negb_even, E).
    apply Nat.odd_spec in Ho as [k ->]. lia.
Qed.

(** [std::__adjust_heap] from the root restores the heap. *)
Lemma adjust_heap_heap (c : list event_t) (len : nat) (value : event_t) :
  1 <= len -> len <= length c -> sift_inv len c 0 ->
  heap_upto len (__adjust_heap c 0 len value) /\
  length (__adjust_heap c 0 len value) = length c /\
  (forall x, In x (__adjust_heap c 0 len value) -> x = value \/ In x c).
Proof.
  intros Hlen Hc Hinv. unfold __adjust_heap.
  destruct (adjust_heap_loop_inv len c 0 len) as (H1 & H2 & H3 & H4 & H5); try done; try lia.
  destruct (adjust_heap_loop len c 0 len) as [c1 i]. cbn [fst snd] in *.
  destruct H1 as [Ha Hb].
  destruct (even_cases len) as [[He Hm]|[He Hm]]; rewrite He; cbn [andb].
  - destruct (i =? (len - 2) / 2) eqn:Ei.
    + apply Nat.eqb_eq in Ei. unfold __push_heap.
      split; [|split].
      * apply push_heap_loop_heap; rewrite ?length_insert; try lia.
        intros j Hj Hne Hne'.
        destruct (decide (j = i)) as [->|Hji].
        -- elt_simpl. apply Hb; lia.
        -- destruct (decide ((j - 1) / 2 = i)) as [Heq|Hpi]; [lia|].
           elt_simpl. by apply Ha.
      * by rewrite length_push_heap_loop, length_insert.
      * intros x Hx. apply In_push_heap_loop in Hx; [|rewrite length_insert; lia].
        destruct Hx as [?|Hx]; [by left|]. right.
        apply In_insert in Hx as [->|?]; [|by apply H5].
        apply H5, In_elt. lia.
    + apply Nat.eqb_neq in Ei. unfold __push_heap.
      split; [|split].
      * apply push_heap_loop_heap; try lia. exact Ha.
      * by rewrite length_push_heap_loop.
      * intros x Hx. apply In_push_heap_loop in Hx; [|lia].
        destruct Hx as [?|Hx]; [by left|]. right. by apply H5.
  - unfold __push_heap. split; [|split].
    + apply push_heap_loop_heap; try lia. exact Ha.
    + by rewrite length_push_heap_loop.
    + intros x Hx. apply In_push_heap_loop in Hx; [|lia].
      destruct Hx as [?|Hx]; [by left|]. right. by apply H5.
Qed.

(** [std::pop_heap] leaves a heap before the last place. *)
Lemma pop_heap_heap (c : list event_t) :
  is_heap c ->
  heap_upto (length c - 1) (pop_heap c) /\
  length (pop_heap c) = length c /\
  (forall x, In x (pop_heap c) -> In x c).
Proof.
  intros Hc. unfold pop_heap.
  destruct (1 <? length c) eqn:E.
  - apply Nat.ltb_lt in E.
    destruct (adjust_heap_heap (<[length c - 1 := elt c 0]> c) (length c - 1)
                (elt c (length c - 1))) as (H1 & H2 & H3).
    + lia.
    + rewrite length_insert. lia.
    + split; [|lia]. intros j Hj Hne Hne'. elt_simpl. apply Hc. lia.
    + split; [done|]. split; [by rewrite H2, length_insert|].
      intros x Hx. apply H3 in Hx as [->|Hx]; [apply In_elt; lia|].
      apply In_insert in Hx as [->|?]; [apply In_elt; lia|done].
  - apply Nat.ltb_ge in E. split; [|done]. intros j Hj. lia.
Qed.

Lemma elt_removelast (c : list event_t) (j : nat) :
  j < length c - 1 -> elt (removelast c) j = elt c j.
Proof.
  intros Hj. unfold elt. rewrite removelast_firstn_len, nth_firstn.
  assert ((j <? pred (length c)) = true) as -> by (apply Nat.ltb_lt; lia).
  done.
Qed.

Lemma length_removelast (c : list event_t) : length (removelast c) = length c - 1.
Proof. rewrite removelast_firstn_len, length_firstn. lia. Qed.

Lemma In_removelast (c : list event_t) (x : event_t) : In x (removelast c) -> In x c.
Proof.
  rewrite removelast_firstn_len. intros Hx.
  rewrite <- (firstn_skipn (pred (length c)) c). apply in_or_app. by left.
Qed.

(** [priority_queue::pop] keeps the heap, and leaves elements of the queue
    only. *)
Lemma pq_pop_heap (c : list event_t) : is_heap c -> is_heap (pq_pop c).
Proof.
  intros Hc. destruct (pop_heap_heap c Hc) as (H1 & H2 & _).
  unfold is_heap, pq_pop. rewrite length_removelast, H2.
  intros j Hj. rewrite !elt_removelast by lia. by apply H1.
Qed.

Lemma In_pq_pop (c : list event_t) (x : event_t) :
  is_heap c -> In x (pq_pop c) -> In x c.
Proof.
  intros Hc Hx. destruct (pop_heap_heap c Hc) as (_ & _ & H3).
  by apply H3, In_removelast.
Qed.

Lemma length_pq_pop (c : list event_t) :
  is_heap c -> length (pq_pop c) = length c - 1.
Proof.
  intros Hc. destruct (pop_heap_heap c Hc) as (_ & H2 & _).
  unfold pq_pop. by rewrite length_removelast, H2.
Qed.

End HeapFacts.

(** ** The order of the events *)

Module DriverFacts.
Import Real Simulator HeapFacts.

Lemma time_ordered_nil : time_ordered [].
Proof. intros i j e1 e2 _ H. by rewrite lookup_nil in H. Qed.

Lemma time_ordered_cons (e : event_t) (rest : list event_t) :
  (forall x, In x rest -> (fire_time e <= fire_time x)%Q) ->
  time_ordered rest -> time_ordered (e :: rest).
Proof.
  intros Hmin Hrest i j e1 e2 Hij H1 H2.
  destruct j as [|j]; [lia|]. simpl in H2.
  destruct i as [|i]; simpl in H1.
  - injection H1 as <-. apply Hmin.
    apply list_elem_of_In, list_elem_of_lookup. eauto.
  - apply (Hrest i j); [lia|done|done].
Qed.

Lemma event_eta (e : event_t) : mk_event (fire_time e) (tag e) (p_state e) = e.
Proof. by destruct e. Qed.

Section Order.

Context {D : Type} (sub : subclass D) (good : event_t -> Prop).

(** Handlers schedule forward: no event before the simulated time. *)
Hypothesis init_forward :
  forall d, Forall (fun e => good e /\ (0 <= fire_time e)%Q)
                   (do_initialize_replication sub d).2.
Hypothesis process_forward :
  forall e now d, good e ->
    Forall (fun e' => good e' /\ (now <= fire_time e')%Q) (do_process_event sub e now d).2.

Lemma schedule_all_inv (events : list event_t) :
  forall s,
    queue_inv good s ->
    Forall (fun e => good e /\ (sim_time_ s <= fire_time e)%Q) events ->
    queue_inv good (schedule_all events s) /\
    sim_time_ (schedule_all events s) = sim_time_ s /\
    max_rep_len_ (schedule_all events s) = max_rep_len_ s.
Proof.
  induction events as [|e rest IH]; intros s Hinv Hall; [done|].
  apply Forall_cons in Hall as [[Hg Ht] Hrest].
  unfold schedule_all. cbn [fold_left]. fold (schedule_all rest).
  destruct (IH (schedule_event (fire_time e) (tag e) (p_state e) s)) as (H1 & H2 & H3).
  - destruct Hinv as [Hheap Hq]. split.
    + simpl. by apply pq_push_heap.
    + simpl. intros x Hx. rewrite event_eta in Hx.
      apply In_pq_push in Hx as [->|Hx]; [done|by apply Hq].
  - done.
  - done.
Qed.

(** An event fired is the earliest of the queue, and leaves the queue as
    it should be. *)
Lemma fire_event_inv (s s' : simulator_t) (d d' : D) (e : event_t) :
  queue_inv good s -> fire_event sub s d = (Some e, s', d') ->
  queue_inv good s' /\ sim_time_ s' = fire_time e /\
  (sim_time_ s <= fire_time e)%Q /\ max_rep_len_ s' = max_rep_len_ s.
Proof.
  intros [Hheap Hq]. unfold fire_event.
  destruct (0 <? length (evt_queue_ s)) eqn:E; [|discriminate].
  apply Nat.ltb_lt in E.
  destruct (do_process_event sub (pq_top (evt_queue_ s)) _ d) as [d1 events] eqn:Ep.
  intros [= <- <- <-].
  assert (Hin : In (pq_top (evt_queue_ s)) (evt_queue_ s)) by (by apply In_elt).
  destruct (Hq _ Hin) as [Hgood Htime].
  pose proof (process_forward (pq_top (evt_queue_ s)) (fire_time (pq_top (evt_queue_ s))) d Hgood)
    as Hfw.
  cbn [sim_time_ with_time with_queue] in Ep. rewrite Ep in Hfw. cbn [snd] in Hfw.
  destruct (schedule_all_inv events
              (with_time (fire_time (pq_top (evt_queue_ s)))
                 (with_queue (pq_pop (evt_queue_ s)) s))) as (H1 & H2 & H3).
  - split; simpl.
    + by apply pq_pop_heap.
    + intros x Hx. apply In_pq_pop in Hx; [|done].
      split; [by apply Hq|].
      apply list_elem_of_In, list_elem_of_lookup in Hx as (i & Hi).
      replace x with (elt (evt_queue_ s) i).
      * apply heap_top_least; [done|]. by eapply lookup_lt_Some.
      * unfold elt. by apply nth_lookup_Some.
  - exact Hfw.
  - split; [done|]. split; [by rewrite H2|]. split; [done|]. by rewrite H3.
Qed.

(** The events fired from a queue as it should be fire in time order, none
    before the simulated time. *)
Lemma fire_events_ordered (fuel : nat) :
  forall s d,
    queue_inv good s ->
    time_ordered (fire_events sub fuel s d) /\
    forall e, In e (fire_events sub fuel s d) -> (sim_time_ s <= fire_time e)%Q.
Proof.
  induction fuel as [|fuel IH]; intros s d Hinv; simpl.
  - split; [apply time_ordered_nil|intros e []].
  - destruct (check_end_of_replication sub s d);
      [split; [apply time_ordered_nil|intros e []]|].
    destruct (fire_event sub s d) as [[[e|] s'] d'] eqn:E;
      [|split; [apply time_ordered_nil|intros x []]].
    apply fire_event_inv in E as (Hinv' & Ht & Hle & _); [|done].
    destruct (IH s' d' Hinv') as [Hord Hmin].
    split.
    + apply time_ordered_cons; [|done].
      intros x Hx. rewrite <- Ht. by apply Hmin.
    + intros x [<-|Hx]; [done|].
      apply (Qle_trans _ (fire_time e)); [done|].
      rewrite <- Ht. by apply Hmin.
Qed.

Lemma replication_ordered (fuel : nat) (s : simulator_t) (d : D) :
  time_ordered (replication sub fuel s d).
Proof.
  unfold replication, initialize_replication.
  pose proof (init_forward d) as Hinit.
  destruct (do_initialize_replication sub d) as [d' events]. cbn [snd] in Hinit.
  apply fire_events_ordered.
  apply schedule_all_inv.
  - split; simpl; [intros j Hj; simpl in Hj; lia|intros e []].
  - exact Hinit.
Qed.

End Order.

End DriverFacts.

(** ** The handlers of the experiment *)

Module ExperimentDriverFacts.
Import Real Simulator Driver.

Lemma check_stats_spec (stats : list ci_mean_estimator_t) :
  check_stats stats = true <->
  Forall (fun stat => done stat = true \/ unstable stat = true) stats.
Proof.
  induction stats as [|stat rest IH]; simpl.
  - split; [constructor|done].
  - rewrite Forall_cons. destruct (done stat), (unstable stat); simpl;
      rewrite ?IH; intuition discriminate.
Qed.

Lemma next_burst_duration (cfg : config) (svc_cat : nat) (d : state) :
  forward cfg -> (0 <= (next_burst cfg svc_cat d).1.1)%Q.
Proof.
  intros [_ Hall]. unfold next_burst. cbn [fst].
  set (steps := nth svc_cat (svc_workloads cfg) []).
  assert (Forall (fun step => (0 <= step.1)%Q) steps) as Hsteps.
  { subst steps. destruct (nth_in_or_default svc_cat (svc_workloads cfg) []) as [Hin| ->].
    - rewrite List.Forall_forall in Hall. by apply Hall.
    - constructor. }
  destruct (nth_in_or_default (vget (wkl_next_idx d) svc_cat) steps (0, 0)%Q) as [Hin| ->].
  - rewrite List.Forall_forall in Hsteps. by apply Hsteps.
  - simpl. lra.
Qed.

Lemma initial_bursts_forward (cfg : config) (svcs : list nat) :
  forward cfg ->
  forall (d : state) (events : list event_t),
    Forall (fun e => good_event e /\ (0 <= fire_time e)%Q) events ->
    Forall (fun e => good_event e /\ (0 <= fire_time e)%Q)
      (fold_left
         (fun '(d, events) svc =>
            let svc_cat := vget (svc_categories_ cfg) svc in
            let '((duration, arrival_rate), d') := next_burst cfg svc_cat d in
            (d', events ++ [mk_event 0 arrival_burst_start_event
                              (arrival_burst_event_state svc duration arrival_rate)]))
         svcs (d, events)).2.
Proof.
  intros Hfw. induction svcs as [|svc rest IH]; intros d events Hev; [done|].
  cbn [fold_left].
  pose proof (next_burst_duration cfg (vget (svc_categories_ cfg) svc) d Hfw) as Hd.
  destruct (next_burst cfg (vget (svc_categories_ cfg) svc) d) as [[duration rate] d'].
  apply IH. apply Forall_app. split; [done|].
  constructor; [|constructor]. split; [exact Hd|simpl; lra].
Qed.

Lemma experiment_init_forward (cfg : config) (d : state) :
  forward cfg ->
  Forall (fun e => good_event e /\ (0 <= fire_time e)%Q)
         (Driver.do_initialize_replication cfg d).2.
Proof.
  intros Hfw. unfold Driver.do_initialize_replication.
  pose proof (initial_bursts_forward cfg (seq 0 (length (svc_categories_ cfg))) Hfw d []
                ltac:(constructor)) as H.
  destruct (fold_left _ _ _) as [d' starts]. cbn [snd] in *.
  apply Forall_app. split; [done|].
  constructor; [|constructor]. split; [done|].
  destruct Hfw as [Hi _]. simpl. lra.
Qed.

Lemma experiment_process_forward (cfg : config) (e : event_t) (now : Q) (d : state) :
  forward cfg -> good_event e ->
  Forall (fun e' => good_event e' /\ (now <= fire_time e')%Q)
         (Driver.do_process_event cfg e now d).2.
Proof.
  intros Hfw Hgood. unfold Driver.do_process_event.
  unfold good_event in Hgood.
  destruct (p_state e) as [|svc duration rate|start stop] eqn:Es.
  - constructor.
  - destruct (tag e =? arrival_burst_start_event)%Z.
    + constructor; [|constructor]. split.
      * exact Hgood.
      * simpl. lra.
    + destruct (tag e =? arrival_burst_stop_event)%Z; [|constructor].
      pose proof (next_burst_duration cfg (vget (svc_categories_ cfg) svc) d Hfw) as Hd.
      destruct (next_burst cfg (vget (svc_categories_ cfg) svc) d) as [[duration' rate'] d'].
      constructor; [|constructor]. split; [exact Hd|simpl; lra].
  - destruct (tag e =? coalition_formation_trigger_event)%Z; [|constructor].
    constructor; [|constructor]. split; [done|].
    destruct Hfw as [Hi _]. simpl. lra.
Qed.

End ExperimentDriverFacts.

(** ** The scenario file *)

Module ScenarioFacts.
Import Scenario.

Lemma and_then_check {A : Type} (c : bool) (k : unit -> parse A) (a : A) :
  and_then (check c) k = Parsed a -> c = true /\ k tt = Parsed a.
Proof. by destruct c. Qed.

Lemma and_then_check_rows {A B : Type} (n cols : nat) (m : list (list A))
    (k : unit -> parse B) (b : B) :
  length m = n -> and_then (check_rows n cols m) k = Parsed b ->
  table_shape n cols m /\ k tt = Parsed b.
Proof.
  intros Hlen H. apply and_then_check in H as [Hall Hk].
  split; [|done]. split; [done|].
  rewrite forallb_forall in Hall.
  apply Forall_lookup. intros i row Hi.
  assert (i < n) as Hlt by (rewrite <- Hlen; by eapply lookup_lt_Some).
  specialize (Hall i ltac:(apply in_seq; lia)).
  apply Nat.eqb_eq in Hall.
  by rewrite (nth_lookup_Some _ _ _ _ Hi) in Hall.
Qed.

(** What the post-parsing checks let through has the checked shapes. *)
Lemma post_parse_checked (s s' : scenario_t) :
  post_parse s = Parsed s' -> s' = s /\ checked_shape s.
Proof.
  unfold post_parse, checked_shape, vector_shape. intros H.
  apply and_then_check in H as [_ H].
  apply and_then_check in H as [_ H].
  apply and_then_check in H as [_ H].
  apply and_then_check in H as [_ H].
  apply and_then_check in H as [H1 H]. apply Nat.eqb_eq in H1.
  apply and_then_check in H as [H2 H]. apply Nat.eqb_eq in H2.
  apply and_then_check in H as [H3 H]. apply Nat.eqb_eq in H3.
  apply and_then_check_rows in H as [H3' H]; [|done].
  apply and_then_check in H as [H4 H]. apply Nat.eqb_eq in H4.
  apply and_then_check_rows in H as [H4' H]; [|done].
  apply and_then_check in H as [H5 H]. apply Nat.eqb_eq in H5.
  apply and_then_check in H as [H6 H]. apply Nat.eqb_eq in H6.
  apply and_then_check_rows in H as [H6' H]; [|done].
  apply and_then_check in H as [H7 H]. apply Nat.eqb_eq in H7.
  apply and_then_check_rows in H as [H7' H]; [|done].
  apply and_then_check in H as [H8 H]. apply Nat.eqb_eq in H8.
  apply and_then_check in H as [H9 H]. apply Nat.eqb_eq in H9.
  apply and_then_check_rows in H as [H9' H]; [|done].
  apply and_then_check in H as [H10 H]. apply Nat.eqb_eq in H10.
  apply and_then_check_rows in H as [H10' H]; [|done].
  apply and_then_check in H as [H11 H]. apply Nat.eqb_eq in H11.
  apply and_then_check in H as [H12 H]. apply Nat.eqb_eq in H12.
  injection H as <-. tauto.
Qed.

(** A scenario returned has the shapes that the checks cover. *)
Lemma make_scenario_checked (fname : string) (ifs : option (list line))
    (counts : nat * nat * nat * nat) (s : scenario_t) :
  make_scenario fname ifs counts = Parsed s -> checked_shape s.
Proof.
  unfold make_scenario. destruct (String.eqb fname ""); [done|].
  destruct ifs as [lines|]; [|done].
  destruct (parse_lines lines (default_initialized counts)) as [s0| |]; [|done|done].
  simpl. intros H. by apply post_parse_checked in H as [-> H].
Qed.

(** The loop over the steps of a workload stops within its fuel. *)
Lemma ignore_shorter (delim : token -> bool) (ts ts' : list token) :
  ignore delim ts = Some ts' -> length ts' < length ts.
Proof.
  revert ts'. induction ts as [|t ts IH]; intros ts'; simpl; [done|].
  destruct (delim t).
  - intros [= <-]. lia.
  - intros H. apply IH in H. lia.
Qed.

Lemma extract_length {A : Type} (conv : token -> option A) (zero x : A) (iss : stream) :
  length (rest (extract conv zero x iss).2) <= length (rest iss).
Proof.
  unfold extract. destruct (failbit iss); [done|].
  destruct (rest iss) as [|t ts]; [done|].
  destruct (conv t); simpl; lia.
Qed.

Lemma read_steps_fuel (fuel fuel' : nat) :
  forall (w : list (Q * Q)) (iss : stream),
    length (rest iss) < fuel -> length (rest iss) < fuel' ->
    read_steps fuel w iss = read_steps fuel' w iss.
Proof.
  revert fuel'. induction fuel as [|fuel IH]; intros fuel' w iss H H'; [lia|].
  destruct fuel' as [|fuel']; [lia|]. simpl.
  destruct (peek_is_rbracket iss); [done|].
  unfold move_to at 1 3. destruct (failbit iss); [done|].
  destruct (ignore is_lbracket (rest iss)) as [ts|] eqn:E; [|done].
  apply ignore_shorter in E. simpl.
  pose proof (extract_length as_real 0%Q 0%Q (mk_stream ts false)) as L1.
  destruct (extract as_real 0%Q 0%Q (mk_stream ts false)) as [duration iss2].
  pose proof (extract_length as_real 0%Q 0%Q iss2) as L2.
  destruct (extract as_real 0%Q 0%Q iss2) as [arr_rate iss3].
  simpl in L1, L2.
  unfold move_to. destruct (failbit iss3); [done|].
  destruct (ignore is_rbracket (rest iss3)) as [ts4|] eqn:E4; [|done].
  apply ignore_shorter in E4. simpl.
  apply IH; simpl; lia.
Qed.

End ScenarioFacts.
Lemma nodupb_sound (l : list nat) : nodupb l = true -> NoDup l.
Proof.
  induction l as [|x t IH]; simpl; intros H.
  - constructor.
  - apply andb_prop in H as [Hx Ht].
    constructor; [|auto].
    intros Hin. apply negb_true_iff in Hx.
    assert (existsb (Nat.eqb x) t = true) as E; [|congruence].
    apply existsb_exists. exists x. split.
    + by apply list_elem_of_In.
    + apply Nat.eqb_refl.
Qed.

Lemma is_partition_ofb_sound (n : nat) (blocks : list (list nat)) :
  is_partition_ofb n blocks = true -> is_partition_of n blocks.
Proof.
  unfold is_partition_ofb, is_partition_of. intros H.
  repeat (apply andb_prop in H as [H ?]).
  split.
  - apply List.Forall_forall. intros b Hb ->.
    rewrite forallb_forall in H. specialize (H _ Hb). discriminate.
  - apply NoDup_Permutation_bis.
    + apply NoDup_ListNoDup. by apply nodupb_sound.
    + rewrite length_seq. apply Nat.eqb_eq in H1. lia.
    + intros x Hx. rewrite forallb_forall in H0.
      apply in_seq. specialize (H0 _ Hx). apply Nat.ltb_lt in H0. lia.
Qed.

Lemma increasing_lower_bound (a : N) (l : list N) :
  increasing (a :: l) = true -> Forall (fun b => (a < b)%N) l.
Proof.
  revert a. induction l as [|b t IH]; intros a H; [constructor|].
  simpl in H. apply andb_prop in H as [Hab Ht].
  apply N.ltb_lt in Hab. constructor; [done|].
  specialize (IH _ Ht). eapply Forall_impl; [exact IH|].
  simpl. intros; lia.
Qed.

Lemma increasing_NoDup (l : list N) : increasing l = true -> NoDup l.
Proof.
  induction l as [|a t IH]; intros H; [constructor|].
  constructor.
  - intros Hin. apply increasing_lower_bound in H.
    rewrite Forall_forall in H. specialize (H _ Hin). lia.
  - apply IH. destruct t; [done|]. simpl in H. by apply andb_prop in H as [_ ?].
Qed.

Lemma togetherb_same_block (blocks : list (list nat)) (x y : nat) :
  togetherb blocks x y = true <-> same_block blocks x y.
Proof.
  unfold togetherb, same_block, memb. rewrite existsb_exists.
  split; intros (b & Hb & H); exists b; (split; [done|]).
  - apply andb_prop in H as [Hx Hy].
    apply existsb_exists in Hx as (x' & Hx & Ex). apply Nat.eqb_eq in Ex. subst x'.
    apply existsb_exists in Hy as (y' & Hy & Ey). apply Nat.eqb_eq in Ey. by subst y'.
  - destruct H as [Hx Hy]. apply andb_true_intro. split; apply existsb_exists.
    + exists x. split; [done|apply Nat.eqb_refl].
    + exists y. split; [done|apply Nat.eqb_refl].
Qed.

Lemma find_ext {A : Type} (f g : A -> bool) (l : list A) :
  (forall a, f a = g a) -> find f l = find g l.
Proof.
  intros H. induction l as [|a l IH]; simpl; [done|]. by rewrite H, IH.
Qed.

(** Lists that are the same set partition have the same number. *)
Lemma class_code_same (n : nat) (p q : list (list nat)) :
  same_partition p q -> class_code n p = class_code n q.
Proof.
  intros H. unfold class_code. f_equal. apply map_ext. intros x.
  unfold least_mate. rewrite (find_ext (togetherb p x) (togetherb q x)); [done|].
  intros y. destruct (togetherb p x y) eqn:Ep, (togetherb q x y) eqn:Eq; try done.
  - apply togetherb_same_block, H, togetherb_same_block in Ep. congruence.
  - apply togetherb_same_block, H, togetherb_same_block in Eq. congruence.
Qed.

(** Lists that differ by the order of their blocks and of the elements of
    a block are the same set partition. *)
Lemma same_partition_blocks (p q : list (list nat)) :
  (forall b, In b p -> exists b', In b' q /\ Permutation b b') ->
  (forall b, In b q -> exists b', In b' p /\ Permutation b b') ->
  same_partition p q.
Proof.
  intros Hpq Hqp x y. split; intros (b & Hb & Hx & Hy).
  - destruct (Hpq b Hb) as (b' & Hb' & Hperm). exists b'. split; [done|].
    split; eapply Permutation_in; eauto.
  - destruct (Hqp b Hb) as (b' & Hb' & Hperm). exists b'. split; [done|].
    split; eapply Permutation_in; eauto.
Qed.

Lemma enumeration_ok_sound (n count : nat) (ps : list (list (list nat))) :
  enumeration_ok n count ps = true ->
  length ps = count /\ NoDup ps /\ distinct_partitions ps /\
  Forall (is_partition_of n) ps.
Proof.
  unfold enumeration_ok. intros H.
  repeat (apply andb_prop in H as [H ?]).
  split; [by apply Nat.eqb_eq|]. split; [|split].
  - apply (NoDup_fmap_1 (code n)). by apply increasing_NoDup.
  - intros i j p q Hi Hj Hsame.
    apply (NoDup_lookup (class_code n <$> ps) i j (class_code n p)).
    + by apply increasing_NoDup.
    + by rewrite list_lookup_fmap, Hi.
    + rewrite list_lookup_fmap, Hj. simpl. f_equal. symmetry. by apply class_code_same.
  - apply List.Forall_forall. intros b Hb. apply is_partition_ofb_sound.
    rewrite forallb_forall in H0. by apply H0.
Qed.

(** Two lists that differ by the order of their blocks are not distinct
    as set partitions. *)
Lemma permuted_blocks_not_distinct : ~ distinct_partitions [[[0]; [1]]; [[1]; [0]]].
Proof.
  intros H. specialize (H 0 1 [[0]; [1]] [[1]; [0]] eq_refl eq_refl).
  assert (0 = 1) as E; [|discriminate E].
  apply H, same_partition_blocks; intros b Hb; exists b; (split; [|done]);
    simpl in *; tauto.
Qed.

(** C8. For every [n] from 1 to 8, the lexicographic partition iterator,
    advanced with [operator++] from its initial state until [has_next()] is
    false, yields [bell n] partitions of [{0, .., n-1}] that are pairwise
    distinct as set partitions, whatever the order of the blocks and of
    the elements in a block, and for every [k] from 1 to [n] the
    lexicographic k-partition iterator yields [stirling2 n k] partitions
    of [{0, .., n-1}] into [k] blocks that are pairwise distinct as set
    partitions. *)
Theorem partition_iterators_count :
  Forall (fun n =>
    (exists ps, Partition.yields n ps /\
       length ps = bell n /\ NoDup ps /\ distinct_partitions ps /\
       Forall (is_partition_of n) ps) /\
    Forall (fun k =>
      exists ps, Partition.k_yields n k ps /\
        length ps = stirling2 n k /\ NoDup ps /\ distinct_partitions ps /\
        Forall (is_k_partition_of n k) ps) (seq 1 n))
    (seq 1 8).
Proof.
  apply List.Forall_forall. intros n Hn.
  assert (check_partitions 5000 n = true) as Hc.
  { assert (forallb (check_partitions 5000) (seq 1 8) = true) as Hall
      by (vm_compute; reflexivity).
    rewrite forallb_forall in Hall. by apply Hall. }
  unfold check_partitions in Hc. apply andb_prop in Hc as [Hp Hk].
  split.
  - destruct (Partition.all_partitions 5000 n) as [ps|] eqn:E; [|discriminate].
    exists ps. split; [by exists 5000|]. by apply enumeration_ok_sound.
  - apply List.Forall_forall. intros k Hkn.
    rewrite forallb_forall in Hk. specialize (Hk _ Hkn).
    unfold check_k_partitions in Hk.
    destruct (Partition.all_k_partitions 5000 n k) as [ps|] eqn:E; [|discriminate].
    exists ps. split; [by exists 5000|].
    unfold k_enumeration_ok in Hk. apply andb_prop in Hk as [Hok Hlen].
    apply enumeration_ok_sound in Hok as (Hl & Hnd & Hdist & Hall).
    split; [done|]. split; [done|]. split; [done|].
    apply List.Forall_forall. intros b Hb. split.
    + rewrite List.Forall_forall in Hall. by apply Hall.
    + rewrite forallb_forall in Hlen. apply Nat.eqb_eq. by apply Hlen.
Qed.

(** ** Comparisons of floating-point values *)

Module FloatFacts.
Import Real Float.

Lemma Qltb_lt (a b : Q) : Qltb a b = true <-> (a < b)%Q.
Proof.
  unfold Qltb. rewrite negb_true_iff.
  destruct (Qle_bool b a) eqn:E.
  - apply Qle_bool_iff in E. split; [discriminate|]. intros H. lra.
  - split; [intros _|done].
    destruct (Qlt_le_dec a b) as [H|H]; [done|].
    apply Qle_bool_iff in H. congruence.
Qed.

Lemma Qltb_ge (a b : Q) : Qltb a b = false <-> (b <= a)%Q.
Proof.
  unfold Qltb. rewrite negb_false_iff. apply Qle_bool_iff.
Qed.

Lemma Qle_bool_gt (a b : Q) : Qle_bool a b = false <-> (b < a)%Q.
Proof.
  rewrite <- Qltb_lt. unfold Qltb. by rewrite negb_true_iff.
Qed.

Lemma Qltb_compat (a a' b b' : Q) :
  (a == a')%Q -> (b == b')%Q -> Qltb a b = Qltb a' b'.
Proof.
  intros Ha Hb. destruct (Qltb a b) eqn:E; symmetry.
  - apply Qltb_lt in E. apply Qltb_lt. lra.
  - apply Qltb_ge in E. apply Qltb_ge. lra.
Qed.

Lemma Qle_bool_compat (a a' b b' : Q) :
  (a == a')%Q -> (b == b')%Q -> Qle_bool a b = Qle_bool a' b'.
Proof.
  intros Ha Hb. destruct (Qle_bool a b) eqn:E; symmetry.
  - apply Qle_bool_iff in E. apply Qle_bool_iff. lra.
  - apply Qle_bool_gt in E. apply Qle_bool_gt. lra.
Qed.

Lemma rlt_compat (x x' y y' : real_t) :
  same x x' -> same y y' -> rlt x y = rlt x' y'.
Proof.
  destruct x, x', y, y'; simpl; try done. apply Qltb_compat.
Qed.

Lemma rle_compat (x x' y y' : real_t) :
  same x x' -> same y y' -> rle x y = rle x' y'.
Proof.
  destruct x, x', y, y'; simpl; try done. apply Qle_bool_compat.
Qed.

Lemma inf_times_compat (positive : bool) (a a' : Q) :
  (a == a')%Q -> inf_times positive a = inf_times positive a'.
Proof.
  intros H. unfold inf_times.
  by rewrite (Qltb_compat 0 0 a a'), (Qltb_compat a a' 0 0).
Qed.

Lemma rmul_compat (x x' y : real_t) : same x x' -> same (rmul x y) (rmul x' y).
Proof.
  destruct x as [a| | |], x' as [a'| | |], y as [b| | |]; simpl; try done; intros H;
    try (rewrite (inf_times_compat _ a a' H));
    try (by rewrite H);
    match goal with
    | |- context [inf_times ?p ?q] => by destruct (inf_times p q)
    end.
Qed.

Lemma rmax_comm (x y : real_t) :
  isnan x = false -> isnan y = false -> same (rmax x y) (rmax y x).
Proof.
  destruct x as [a| | |], y as [b| | |]; try done.
  intros _ _. unfold rmax. simpl.
  destruct (Qltb a b) eqn:E1, (Qltb b a) eqn:E2; simpl; try lra.
  - apply Qltb_lt in E1, E2. lra.
  - apply Qltb_ge in E1, E2. lra.
Qed.

Lemma rmin_comm (x y : real_t) :
  isnan x = false -> isnan y = false -> same (rmin x y) (rmin y x).
Proof.
  destruct x as [a| | |], y as [b| | |]; try done.
  intros _ _. unfold rmin. simpl.
  destruct (Qltb a b) eqn:E1, (Qltb b a) eqn:E2; simpl; try lra.
  - apply Qltb_lt in E1, E2. lra.
  - apply Qltb_ge in E1, E2. lra.
Qed.

Lemma same_refl (x : real_t) : same x x.
Proof. destruct x; simpl; try done. Qed.

Lemma rabs_sub_comm (x y : real_t) : same (rabs (rsub x y)) (rabs (rsub y x)).
Proof.
  destruct x as [a| | |], y as [b| | |]; try done.
  change (Qabs (a + - b) == Qabs (b + - a))%Q.
  rewrite <- (Qabs_opp (a + - b)). apply Qabs_wd. lra.
Qed.

Lemma rneg_compat (x x' : real_t) : same x x' -> same (rneg x) (rneg x').
Proof. destruct x, x'; simpl; try done. intros H. by rewrite H. Qed.

Lemma radd_compat (x x' y y' : real_t) :
  same x x' -> same y y' -> same (radd x y) (radd x' y').
Proof. destruct x, x', y, y'; simpl; try done. intros H1 H2. by rewrite H1, H2. Qed.

Lemma rsub_compat (x x' y y' : real_t) :
  same x x' -> same y y' -> same (rsub x y) (rsub x' y').
Proof. intros H1 H2. apply radd_compat; [done|by apply rneg_compat]. Qed.

Lemma rabs_compat (x x' : real_t) : same x x' -> same (rabs x) (rabs x').
Proof. destruct x, x'; simpl; try done. apply Qabs_wd. Qed.

Lemma rmax_compat (x x' y y' : real_t) :
  same x x' -> same y y' -> same (rmax x y) (rmax x' y').
Proof.
  intros H1 H2. unfold rmax. rewrite (rlt_compat x x' y y' H1 H2).
  by destruct (rlt x' y').
Qed.

Lemma isnan_compat (x x' : real_t) : same x x' -> isnan x = isnan x'.
Proof. by destruct x, x'. Qed.

Lemma isinf_compat (x x' : real_t) : same x x' -> isinf x = isinf x'.
Proof. by destruct x, x'. Qed.

Lemma isfinite_compat (x x' : real_t) : same x x' -> isfinite x = isfinite x'.
Proof. by destruct x, x'. Qed.

(** The comparisons do not tell equal rationals apart. *)
Lemma definitely_greater_compat (x x' y tol : real_t) :
  same x x' -> definitely_greater_tol x y tol = definitely_greater_tol x' y tol.
Proof.
  intros H. unfold definitely_greater_tol, rgt.
  rewrite (rle_compat x x' y y H (same_refl y)).
  rewrite (isnan_compat x x' H), (isinf_compat x x' H), (isfinite_compat x x' H).
  rewrite (rlt_compat (rmul (rmax (rabs x) (rabs y)) tol)
             (rmul (rmax (rabs x') (rabs y)) tol) (rsub x y) (rsub x' y)); [done| |].
  - apply rmul_compat, rmax_compat; [by apply rabs_compat|apply same_refl].
  - apply rsub_compat; [done|apply same_refl].
Qed.

Lemma definitely_less_greater (x y tol : real_t) :
  definitely_less_tol x y tol = definitely_greater_tol y x tol.
Proof.
  unfold definitely_less_tol, definitely_greater_tol.
  destruct (rle y x) eqn:E; [done|].
  rewrite (orb_comm (isnan x)).
  destruct (isnan y) eqn:Ny; [done|]. destruct (isnan x) eqn:Nx; [done|]. simpl.
  destruct x as [a| | |], y as [b| | |]; try done.
  simpl isinf. simpl isfinite. cbn [andb].
  unfold rgt. apply rlt_compat; [|apply same_refl].
  apply rmul_compat. by apply rmax_comm.
Qed.

End FloatFacts.

(** ** Restricted growth strings and their blocks *)

Module PartitionOpsFacts.
Import Partition PartitionInv PartitionOps PartitionFacts.

Lemma integrity_loop_wf (n : nat) (kappa M : list nat) :
  wf n kappa M ->
  forall k, k <= n ->
    integrity_loop k kappa M = (if k =? 0 then vget kappa 0 else vget M (k - 1), true).
Proof.
  intros W k. induction k as [|k IH]; intros Hk.
  - unfold integrity_loop. by rewrite for_range_empty.
  - unfold integrity_loop in *.
    replace (S k) with (k + 1) by lia. rewrite for_range_snoc by lia.
    rewrite IH by lia. replace (k + 1 =? 0) with false by (symmetry; apply Nat.eqb_neq; lia).
    replace (k + 1 - 1) with k by lia. cbn zeta.
    destruct k as [|k]; simpl.
    + rewrite (wf_kappa_0 _ _ _ W), (wf_M_0 _ _ _ W). done.
    + destruct (wf_step _ _ _ W (S k)) as [_ Hm]; [lia|].
      replace (S k - 1) with k in * by lia. rewrite Nat.sub_0_r.
      rewrite <- Hm. by rewrite Nat.eqb_refl.
Qed.

Lemma wf_integrity (n : nat) (kappa M : list nat) :
  wf n kappa M -> (integrity_loop n kappa M).2 = true.
Proof.
  intros W. by rewrite (integrity_loop_wf n kappa M W n).
Qed.

Lemma wf_M_mono (n : nat) (kappa M : list nat) :
  wf n kappa M -> forall i j, i <= j -> j < n -> vget M i <= vget M j.
Proof.
  intros W i j Hij. induction Hij as [|j Hij IH]; intros Hj; [done|].
  destruct (wf_step _ _ _ W (S j)) as [_ Hm]; [lia|].
  replace (S j - 1) with j in * by lia. specialize (IH ltac:(lia)). lia.
Qed.

Lemma wf_kappa_le_M (n : nat) (kappa M : list nat) :
  wf n kappa M -> forall i, i < n -> vget kappa i <= vget M i.
Proof.
  intros W [|i] Hi.
  - rewrite (wf_kappa_0 _ _ _ W). lia.
  - destruct (wf_step _ _ _ W (S i)) as [_ Hm]; [lia|]. lia.
Qed.

(** Every block index up to the maximum is used. *)
Lemma wf_onto (n : nat) (kappa M : list nat) :
  wf n kappa M ->
  forall i, i < n -> forall b, b <= vget M i -> exists j, j <= i /\ vget kappa j = b.
Proof.
  intros W i. induction i as [|i IH]; intros Hi b Hb.
  - rewrite (wf_M_0 _ _ _ W) in Hb. exists 0. split; [done|].
    rewrite (wf_kappa_0 _ _ _ W). lia.
  - destruct (wf_step _ _ _ W (S i)) as [Hk Hm]; [lia|].
    replace (S i - 1) with i in * by lia.
    destruct (decide (b <= vget M i)) as [Hle|Hgt].
    + destruct (IH ltac:(lia) b Hle) as (j & Hj & E). exists j. split; [lia|done].
    + exists (S i). split; [done|]. lia.
Qed.

(** *** The blocks that [operator()] builds *)

Section Blocks.

Context {A : Type}.

Abbreviation step := (fun (subs : list (list A)) '(b, x) => place subs b x).

Lemma length_place (subs : list (list A)) (b : nat) (x : A) :
  length (place subs b x) = length subs.
Proof.
  unfold place. destruct (subs !! b); [by rewrite length_insert|done].
Qed.

Lemma concat_place (subs : list (list A)) (b : nat) (x : A) :
  b < length subs -> Permutation (concat (place subs b x)) (concat subs ++ [x]).
Proof.
  intros Hb. unfold place.
  destruct (subs !! b) as [blk|] eqn:E.
  - rewrite insert_take_drop by done.
    rewrite <- (take_drop_middle subs b blk E) at 3.
    rewrite !concat_app. simpl. rewrite <- !app_assoc.
    apply Permutation_app_head. apply Permutation_app_head.
    apply Permutation_cons_append.
  - apply lookup_ge_None in E. lia.
Qed.

Lemma fold_place_length (l : list (nat * A)) (subs : list (list A)) :
  length (fold_left step l subs) = length subs.
Proof.
  revert subs. induction l as [|[b x] l IH]; intros subs; [done|].
  simpl. by rewrite IH, length_place.
Qed.

Lemma fold_place_perm (l : list (nat * A)) (subs : list (list A)) :
  Forall (fun kx => kx.1 < length subs) l ->
  Permutation (concat (fold_left step l subs)) (concat subs ++ map snd l).
Proof.
  revert subs. induction l as [|[b x] l IH]; intros subs Hall.
  - simpl. by rewrite app_nil_r.
  - apply Forall_cons in Hall as [Hb Hall]. simpl in Hb. simpl.
    rewrite IH by (by rewrite length_place).
    rewrite concat_place by done. by rewrite <- app_assoc.
Qed.

Lemma place_nonempty (subs : list (list A)) (b c : nat) (x : A) :
  (exists blk, subs !! c = Some blk /\ blk <> []) ->
  exists blk, place subs b x !! c = Some blk /\ blk <> [].
Proof.
  intros (blk & E & Hne). unfold place.
  destruct (subs !! b) as [blk'|] eqn:Eb; [|eauto].
  destruct (decide (b = c)) as [->|Hbc].
  - rewrite list_lookup_insert_eq by (by eapply lookup_lt_Some).
    exists (blk' ++ [x]). split; [done|]. by destruct blk'.
  - rewrite list_lookup_insert_ne by done. eauto.
Qed.

Lemma fold_place_keeps (l : list (nat * A)) (subs : list (list A)) (c : nat) :
  (exists blk, subs !! c = Some blk /\ blk <> []) ->
  exists blk, fold_left step l subs !! c = Some blk /\ blk <> [].
Proof.
  revert subs. induction l as [|[b x] l IH]; intros subs H; [done|].
  simpl. apply IH. by apply place_nonempty.
Qed.

Lemma fold_place_nonempty (l : list (nat * A)) (subs : list (list A)) (c : nat) :
  c < length subs -> c ∈ map fst l ->
  exists blk, fold_left step l subs !! c = Some blk /\ blk <> [].
Proof.
  revert subs. induction l as [|[b x] l IH]; intros subs Hc Hin.
  - by apply elem_of_nil in Hin.
  - simpl in *. apply elem_of_cons in Hin as [->|Hin].
    + apply fold_place_keeps. unfold place.
      destruct (subs !! b) as [blk|] eqn:E.
      * rewrite list_lookup_insert_eq by done.
        exists (blk ++ [x]). split; [done|]. by destruct blk.
      * apply lookup_ge_None in E. lia.
    + apply IH; [by rewrite length_place|done].
Qed.

Lemma map_fst_combine {B : Type} (k : list B) (v : list A) :
  length k = length v -> map fst (combine k v) = k.
Proof.
  revert v. induction k as [|a k IH]; intros [|x v] L; simpl in *; try done.
  f_equal. apply IH. lia.
Qed.

Lemma map_snd_combine {B : Type} (k : list B) (v : list A) :
  length k = length v -> map snd (combine k v) = v.
Proof.
  revert v. induction k as [|a k IH]; intros [|x v] L; simpl in *; try done.
  f_equal. apply IH. lia.
Qed.

(** The blocks of a restricted growth string with maximum [nblocks - 1]. *)
Lemma apply_rgs_blocks (n nblocks : nat) (kappa M : list nat) (v : list A) :
  wf n kappa M -> vget M (n - 1) + 1 = nblocks -> length v = n ->
  blocks_of nblocks v (apply_rgs nblocks kappa v).
Proof.
  intros W Hmax Hv.
  pose proof (wf_pos _ _ _ W) as Hn.
  pose proof (wf_length_kappa _ _ _ W) as Lk.
  unfold apply_rgs.
  assert (Forall (fun kx : nat * A => kx.1 < length (repeat (@nil A) nblocks))
                 (combine kappa v)) as Hkeys.
  { rewrite repeat_length. apply Forall_forall. intros [b x] Hin. simpl.
    apply list_elem_of_In, in_combine_l, (In_nth _ _ 0) in Hin as (i & Hi & E).
    pose proof (wf_kappa_le_M _ _ _ W i ltac:(lia)).
    pose proof (wf_M_mono _ _ _ W i (n - 1) ltac:(lia) ltac:(lia)).
    unfold vget in *. lia. }
  split; [|split].
  - by rewrite fold_place_length, repeat_length.
  - apply Forall_lookup. intros c blk Hc.
    assert (c < nblocks) as Hlt.
    { apply lookup_lt_Some in Hc. by rewrite fold_place_length, repeat_length in Hc. }
    destruct (wf_onto _ _ _ W (n - 1) ltac:(lia) c ltac:(lia)) as (j & Hj & E).
    destruct (fold_place_nonempty (combine kappa v) (repeat [] nblocks) c)
      as (blk' & E' & Hne).
    + by rewrite repeat_length.
    + rewrite map_fst_combine by lia.
      apply list_elem_of_lookup. exists j.
      destruct (lookup_lt_is_Some_2 kappa j ltac:(lia)) as [y Hy].
      unfold vget in E. by rewrite (nth_lookup_Some _ _ 0 _ Hy) in E; subst.
    + rewrite Hc in E'. by injection E' as ->.
  - rewrite fold_place_perm by done.
    assert (concat (repeat (@nil A) nblocks) = []) as ->.
    { clear. induction nblocks; simpl; auto. }
    simpl. by rewrite map_snd_combine by lia.
Qed.

End Blocks.

(** *** Strings in lexicographic order *)

Lemma firstn_agree (a b : list nat) (d : nat) :
  d <= length a -> d <= length b ->
  (forall j, j < d -> vget a j = vget b j) -> firstn d a = firstn d b.
Proof.
  intros Ha Hb H. apply (nth_ext _ _ 0 0).
  - rewrite !length_firstn. lia.
  - intros j Hj. rewrite length_firstn in Hj.
    rewrite !nth_firstn.
    destruct (j <? d) eqn:E; [|done]. apply Nat.ltb_lt in E. by apply H.
Qed.

Lemma prefix_max_S (c : list nat) (i : nat) :
  S i < length c ->
  prefix_max c (S i) = Nat.max (prefix_max c i) (vget c (S i)).
Proof.
  intros Hi. unfold prefix_max.
  destruct (lookup_lt_is_Some_2 c (S i) Hi) as [y Hy].
  rewrite (take_S_r c (S i) y Hy). rewrite list_max_app. simpl.
  unfold vget. rewrite (nth_lookup_Some _ _ 0 _ Hy). lia.
Qed.

Lemma prefix_max_0 (c : list nat) : 0 < length c -> prefix_max c 0 = vget c 0.
Proof.
  intros H. unfold prefix_max, vget. destruct c as [|x c]; simpl in *; lia.
Qed.

Lemma wf_prefix_max (n : nat) (kappa M : list nat) :
  wf n kappa M -> forall i, i < n -> vget M i = prefix_max kappa i.
Proof.
  intros W i. pose proof (wf_length_kappa _ _ _ W) as Lk.
  induction i as [|i IH]; intros Hi.
  - rewrite prefix_max_0 by lia.
    by rewrite (wf_M_0 _ _ _ W), (wf_kappa_0 _ _ _ W).
  - rewrite prefix_max_S by lia. rewrite <- IH by lia.
    destruct (wf_step _ _ _ W (S i)) as [_ Hm]; [lia|].
    by replace (S i - 1) with i in Hm by lia.
Qed.

Lemma wf_rgs (n : nat) (kappa M : list nat) : wf n kappa M -> rgs n kappa.
Proof.
  intros W. split; [apply (wf_length_kappa _ _ _ W)|].
  split; [apply (wf_kappa_0 _ _ _ W)|].
  intros i Hi. rewrite <- (wf_prefix_max n kappa M W) by lia.
  by destruct (wf_step _ _ _ W i Hi).
Qed.

Lemma prefix_max_agree (a b : list nat) (d : nat) :
  d < length a -> d < length b ->
  (forall j, j <= d -> vget a j = vget b j) -> prefix_max a d = prefix_max b d.
Proof.
  intros Ha Hb H. unfold prefix_max.
  rewrite (firstn_agree a b (S d)); [done|lia|lia|].
  intros j Hj. apply H. lia.
Qed.

(** Either all of [c] after [i] is zero, or there is a first element that
    is not. *)
Lemma first_nonzero (c : list nat) (i n : nat) :
  (forall j, i < j < n -> vget c j = 0) \/
  (exists e, i < e < n /\ 0 < vget c e /\ forall j, i < j < e -> vget c j = 0).
Proof.
  induction n as [|n [IH|IH]].
  - left. intros; lia.
  - destruct (decide (i < n /\ 0 < vget c n)) as [[H1 H2]|H].
    + right. exists n. split; [lia|]. split; [done|]. intros j Hj. apply IH. lia.
    + left. intros j Hj. destruct (decide (j = n)) as [->|]; [lia|]. apply IH. lia.
  - right. destruct IH as (e & He & Hpos & Hz). exists e. split; [lia|]. by split.
Qed.

(** The string that the loop of [operator++] builds at the index where it
    breaks is the least restricted growth string above the current one. *)
Lemma incr_at_successor (n i : nat) (kappa M : list nat) :
  wf n kappa M -> 1 <= i < n -> vget kappa i <= vget M (i - 1) ->
  (forall j, i < j <= n - 1 -> vget M (j - 1) < vget kappa j) ->
  lex_lt kappa (incr_at n i kappa M).1 /\
  forall c, rgs n c -> lex_lt kappa c ->
    c = (incr_at n i kappa M).1 \/ lex_lt (incr_at n i kappa M).1 c.
Proof.
  intros W Hi Hle Hgt.
  pose proof (wf_length_kappa _ _ _ W) as Lk.
  rewrite incr_at_eq. cbn [fst].
  set (kappa' := fill (i + 1) n (fun _ => 0) (vset kappa i (vget kappa i + 1))).
  assert (length kappa' = n) as Lk' by (subst kappa'; len_simpl; lia).
  assert (forall j, j < n -> vget kappa' j =
            if decide (j < i) then vget kappa j
            else if decide (j = i) then vget kappa i + 1 else 0) as Hk'.
  { intros j Hj. subst kappa'. vec_simpl. }
  split.
  - exists i. split; [lia|]. split.
    + intros j Hj. rewrite Hk' by lia. by rewrite decide_True by lia.
    + rewrite Hk' by lia. rewrite decide_False by lia. rewrite decide_True by lia. lia.
  - intros c (Lc & Hc0 & Hcs) (d & Hd & Hsame & Hlt).
    destruct (lt_eq_lt_dec d i) as [[Hdi|Hdi]|Hdi].
    + right. exists d. split; [lia|]. split.
      * intros j Hj. rewrite Hk' by lia. rewrite decide_True by lia. by apply Hsame.
      * rewrite Hk' by lia. by rewrite decide_True by lia.
    + subst d.
      destruct (decide (vget kappa i + 1 < vget c i)) as [Hbig|Hsmall].
      * right. exists i. split; [lia|]. split.
        -- intros j Hj. rewrite Hk' by lia. rewrite decide_True by lia. by apply Hsame.
        -- rewrite Hk' by lia. rewrite decide_False by lia. by rewrite decide_True by lia.
      * destruct (first_nonzero c i n) as [Hz|(e & He & Hpos & Hz)].
        -- left. apply vec_ext; [lia|]. intros j Hj. rewrite Lc in Hj.
           rewrite Hk' by lia. repeat case_decide.
           ++ symmetry. by apply Hsame.
           ++ subst j. lia.
           ++ apply Hz. lia.
        -- right. exists e. split; [lia|]. split.
           ++ intros j Hj. rewrite Hk' by lia. repeat case_decide.
              ** by apply Hsame.
              ** subst j. lia.
              ** symmetry. apply Hz. lia.
           ++ rewrite Hk' by lia. rewrite decide_False by lia.
              by rewrite decide_False by lia.
    + exfalso. rewrite Lk in Hd.
      specialize (Hcs d ltac:(lia)).
      rewrite (prefix_max_agree c kappa (d - 1)) in Hcs; [|lia|lia|].
      * rewrite <- (wf_prefix_max n kappa M W) in Hcs by lia.
        specialize (Hgt d ltac:(lia)). lia.
      * intros j Hj. symmetry. apply Hsame. lia.
Qed.

End PartitionOpsFacts.

(** ** The iterator over the partitions into [k] blocks *)

Module KPartitionFacts.
Import Partition PartitionInv PartitionOps PartitionFacts.

Lemma kincr_scan_some (n k i0 : nat) (kappa M : list nat) (r : list nat * list nat) :
  kincr_scan n k i0 kappa M = Some r ->
  exists i, 1 <= i <= i0 /\ vget kappa i < k - 1 /\ vget kappa i <= vget M (i - 1) /\
    r = kincr_at n k i kappa M.
Proof.
  induction i0 as [|i' IH]; simpl; [discriminate|].
  destruct ((vget kappa (S i') <? k - 1) && (vget kappa (S i') <=? vget M i')) eqn:E.
  - intros [= <-]. exists (S i'). apply andb_prop in E as [E1 E2].
    apply Nat.ltb_lt in E1. apply Nat.leb_le in E2.
    replace (S i' - 1) with i' by lia. repeat split; try lia; done.
  - intros H. destruct (IH H) as (i & Hi & H1 & H2 & Hr).
    exists i. repeat split; try lia; done.
Qed.

Lemma kdecr_scan_some (n k i0 : nat) (kappa M : list nat) (r : list nat * list nat) :
  kdecr_scan n k i0 kappa M = Some r ->
  exists i, 1 <= i <= i0 /\ 0 < vget kappa i /\ k - vget M (i - 1) <= n - i /\
    r = kdecr_at n k i kappa M.
Proof.
  induction i0 as [|i' IH]; simpl; [discriminate|].
  destruct ((0 <? vget kappa (S i')) && (k - vget M i' <=? n - S i')) eqn:E.
  - intros [= <-]. exists (S i'). apply andb_prop in E as [E1 E2].
    apply Nat.ltb_lt in E1. apply Nat.leb_le in E2.
    repeat split; try lia.
    all: try (unfold kdecr_at; by replace (S i' - 1) with i' by lia).
  - intros H. destruct (IH H) as (i & Hi & H1 & H2 & Hr).
    exists i. repeat split; try lia; done.
Qed.

Lemma kincr_at_eq (n k i : nat) (kappa M : list nat) :
  kincr_at n k i kappa M =
  let new_max := Nat.max (vget M i) (vget (vset kappa i (vget kappa i + 1)) i) in
  let top := n - (k - new_max) + 1 in
  (fill top n (fun j => k - (n - j))
     (fill (i + 1) top (fun _ => 0) (vset kappa i (vget kappa i + 1))),
   fill top n (fun j => k - (n - j))
     (fill (i + 1) top (fun _ => new_max) (vset M i new_max))).
Proof. unfold kincr_at, kreset_tail. cbn zeta. by rewrite !for_range_pair. Qed.

Lemma kdecr_at_eq (n k i : nat) (kappa M : list nat) :
  kdecr_at n k i kappa M =
  let m_i := vget M (i - 1) in
  let top := i + (k - m_i) in
  (fill top n (fun _ => k - 1)
     (fill (i + 1) top (fun j => m_i + j - i) (vset kappa i (vget kappa i - 1))),
   fill top n (fun _ => k - 1)
     (fill (i + 1) top (fun j => m_i + j - i) (vset M i m_i))).
Proof. unfold kdecr_at, kclimb_tail. cbn zeta. by rewrite !for_range_pair. Qed.

Lemma wf_M_step (n : nat) (kappa M : list nat) :
  wf n kappa M -> forall i d, i + d < n -> vget M (i + d) <= vget M i + d.
Proof.
  intros W i d. induction d as [|d IH]; intros Hd; [rewrite Nat.add_0_r; lia|].
  destruct (wf_step _ _ _ W (i + S d)) as [Hk Hm]; [lia|].
  replace (i + S d - 1) with (i + d) in * by lia. specialize (IH ltac:(lia)). lia.
Qed.

Lemma kincr_at_wf (n k i : nat) (kappa M : list nat) :
  kwf n k kappa M -> 1 <= i < n -> vget kappa i < k - 1 ->
  vget kappa i <= vget M (i - 1) ->
  kwf n k (kincr_at n k i kappa M).1 (kincr_at n k i kappa M).2.
Proof.
  intros (W & Hk & Hmax) Hi Hlt Hle. rewrite kincr_at_eq. cbn zeta. cbn [fst snd].
  pose proof (wf_length_kappa _ _ _ W) as Lk.
  pose proof (wf_length_M _ _ _ W) as Lm.
  pose proof (wf_kappa_0 _ _ _ W) as K0.
  pose proof (wf_M_0 _ _ _ W) as M0.
  pose proof (PartitionOpsFacts.wf_M_mono n _ _ W i (n - 1) ltac:(lia) ltac:(lia)) as Hmono.
  pose proof (wf_M_step n _ _ W i (n - 1 - i) ltac:(lia)) as Hstep.
  replace (i + (n - 1 - i)) with (n - 1) in Hstep by lia.
  destruct (wf_step _ _ _ W i ltac:(lia)) as [_ HMi].
  rewrite vget_vset. rewrite decide_True by lia.
  set (new_max := Nat.max (vget M i) (vget kappa i + 1)).
  assert (new_max = vget M (i - 1) \/ new_max = vget kappa i + 1) as Hnew
    by (subst new_max; lia).
  assert (vget M (i - 1) <= new_max) as Hnew1 by (subst new_max; lia).
  assert (vget kappa i + 1 <= new_max) as Hnew2 by (subst new_max; lia).
  assert (new_max <= k - 1) as Hnm by (subst new_max; lia).
  assert (exists top d, k = new_max + 1 + d /\ n = top + 1 + d /\ i <= top)
    as (top & d & Hkd & Hnd & Htop).
  { exists (n - (k - new_max)), (k - 1 - new_max). subst new_max. lia. }
  replace (n - (k - new_max)) with top by lia.
  assert (forall x, top + 1 <= x < n -> k - (n - x) = new_max + (x - top)) as Htail by lia.
  clearbody new_max. clear Hmono Hstep HMi Hmax Hlt.
  split; [|split; [lia|]].
  - constructor.
    + lia.
    + len_simpl. lia.
    + len_simpl. lia.
    + vec_simpl.
    + vec_simpl.
    + intros j Hj.
      destruct (wf_step _ _ _ W j Hj) as [Hkj HMj].
      destruct j as [|j']; [lia|]. replace (S j' - 1) with j' in * by lia.
      clear W K0 M0.
      destruct (decide (S j' = i)) as [Hji|Hji];
        [subst i; replace (S j' - 1) with j' in * by lia|].
      { rewrite !(vget_fill (top + 1)), !decide_False by (len_simpl; lia).
        split; vec_simpl. }
      destruct (decide (j' < top)) as [Hjt|Hjt].
      * rewrite !(vget_fill (top + 1)), !decide_False by (len_simpl; lia).
        split; vec_simpl.
      * destruct (decide (j' = top)) as [->|Hne].
        -- rewrite (vget_fill (top + 1) _ _ _ (S top)), decide_True by (len_simpl; lia).
           rewrite (vget_fill (top + 1) _ _ _ top), decide_False by (len_simpl; lia).
           rewrite Htail by lia.
           split; vec_simpl.
        -- rewrite !(vget_fill (top + 1)), !decide_True by (len_simpl; lia).
           rewrite !Htail by lia.
           split; vec_simpl.
  - vec_simpl.
Qed.

Lemma kdecr_at_wf (n k i : nat) (kappa M : list nat) :
  kwf n k kappa M -> 1 <= i < n -> 0 < vget kappa i ->
  k - vget M (i - 1) <= n - i ->
  kwf n k (kdecr_at n k i kappa M).1 (kdecr_at n k i kappa M).2.
Proof.
  intros (W & Hk & Hmax) Hi Hpos Hroom. rewrite kdecr_at_eq. cbn zeta. cbn [fst snd].
  pose proof (wf_length_kappa _ _ _ W) as Lk.
  pose proof (wf_length_M _ _ _ W) as Lm.
  pose proof (wf_kappa_0 _ _ _ W) as K0.
  pose proof (wf_M_0 _ _ _ W) as M0.
  pose proof (PartitionOpsFacts.wf_M_mono n _ _ W (i - 1) (n - 1) ltac:(lia) ltac:(lia))
    as Hmono.
  destruct (wf_step _ _ _ W i ltac:(lia)) as [Hki HMi].
  set (m_i := vget M (i - 1)) in *.
  assert (exists e kp, k = m_i + e /\ vget kappa i = kp + 1 /\ 1 <= e /\ i + e <= n)
    as (e & kp & Hke & Hkp & He & Hen).
  { exists (k - m_i), (vget kappa i - 1). lia. }
  replace (k - m_i) with e by lia. replace (vget kappa i - 1) with kp by lia.
  replace (k - 1) with (m_i + (e - 1)) by lia.
  clear Hroom Hmono Hmax HMi.
  split; [|split; [lia|]].
  - constructor.
    + lia.
    + len_simpl. lia.
    + len_simpl. lia.
    + vec_simpl.
    + vec_simpl.
    + intros j Hj.
      destruct (wf_step _ _ _ W j Hj) as [Hkj HMj].
      destruct j as [|j']; [lia|]. replace (S j' - 1) with j' in * by lia.
      clear W K0 M0.
      destruct (decide (S j' = i)) as [Hji|Hji];
        [subst i m_i; replace (S j' - 1) with j' in * by lia|].
      { rewrite !(vget_fill (S j' + e)), !decide_False by (len_simpl; lia).
        split; vec_simpl. }
      destruct (decide (j' < i + e - 1)) as [Hjt|Hjt].
      * rewrite !(vget_fill (i + e)), !decide_False by (len_simpl; lia).
        split; vec_simpl.
      * destruct (decide (j' = i + e - 1)) as [->|Hne].
        -- replace (S (i + e - 1)) with (i + e) by lia.
           rewrite (vget_fill (i + e) _ _ _ (i + e)), decide_True by (len_simpl; lia).
           rewrite (vget_fill (i + e) _ _ _ (i + e - 1)), decide_False by (len_simpl; lia).
           split; vec_simpl.
        -- rewrite !(vget_fill (i + e)), !decide_True by (len_simpl; lia).
           split; vec_simpl.
  - vec_simpl.
Qed.

Lemma kmake_wf (n k : nat) (first : bool) (p : lexicographic_k_partition) :
  kmake n k first = Some p -> kwf_state n k p.
Proof.
  unfold kmake. destruct (n =? 0) eqn:En; [discriminate|].
  apply Nat.eqb_neq in En.
  destruct ((0 <? k) && (k <=? n)) eqn:Ek; [|discriminate]. simpl.
  apply andb_prop in Ek as [Ek1 Ek2]. apply Nat.ltb_lt in Ek1. apply Nat.leb_le in Ek2.
  destruct first.
  - rewrite for_range_pair. intros [= <-]. split; [done|]. split; [done|]. simpl.
    split; [|split; [lia|]].
    + constructor.
      * lia.
      * len_simpl. by rewrite repeat_length.
      * len_simpl. by rewrite repeat_length.
      * rewrite vget_fill by (rewrite repeat_length; lia).
        rewrite decide_False by lia. apply vget_repeat_0.
      * rewrite vget_fill by (rewrite repeat_length; lia).
        rewrite decide_False by lia. apply vget_repeat_0.
      * intros i Hi. rewrite !vget_fill by (rewrite repeat_length; lia).
        rewrite !vget_repeat_0. repeat case_decide; lia.
    + rewrite vget_fill by (rewrite repeat_length; lia).
      rewrite vget_repeat_0. case_decide; lia.
  - rewrite for_range_pair.
    change (for_range k n (fun i kp => vset kp i (k - 1)))
      with (fill k n (fun _ : nat => k - 1)).
    intros [= <-]. split; [done|]. split; [done|]. simpl.
    assert (k <= length (repeat 0 n)) as Hlen by (rewrite repeat_length; lia).
    split; [|split; [lia|]].
    + constructor.
      * lia.
      * len_simpl. by rewrite repeat_length.
      * len_simpl. by rewrite repeat_length.
      * rewrite !vget_fill by (len_simpl; rewrite ?repeat_length; lia).
        rewrite vget_repeat_0. repeat case_decide; lia.
      * rewrite !vget_fill by (len_simpl; rewrite ?repeat_length; lia).
        rewrite vget_repeat_0. repeat case_decide; lia.
      * intros i Hi. rewrite !vget_fill by (len_simpl; rewrite ?repeat_length; lia).
        rewrite !vget_repeat_0. repeat case_decide; lia.
    + rewrite !vget_fill by (len_simpl; rewrite ?repeat_length; lia).
      rewrite vget_repeat_0. repeat case_decide; lia.
Qed.

Lemma kincr_wf (n k : nat) (p p' : lexicographic_k_partition) :
  kwf_state n k p -> kincr p = Some p' -> kwf_state n k p'.
Proof.
  intros (Hn & Hk & W). unfold kincr. destruct (khas_next_ p); [|discriminate].
  rewrite Hn, Hk.
  destruct (kincr_scan n k (n - 1) (kkappa_ p) (kM_ p)) as [[kp m]|] eqn:E.
  - intros [= <-]. split; [done|]. split; [done|]. simpl.
    apply kincr_scan_some in E as (i & Hi & Hlt & Hle & Hr).
    destruct W as (W & Hkn & Hmax).
    pose proof (wf_pos _ _ _ W).
    pose proof (kincr_at_wf n k i _ _ (conj W (conj Hkn Hmax)) ltac:(lia) Hlt Hle) as W'.
    by rewrite <- Hr in W'.
  - intros [= <-]. by split; [|split].
Qed.

Lemma kdecr_wf (n k : nat) (p p' : lexicographic_k_partition) :
  kwf_state n k p -> kdecr p = Some p' -> kwf_state n k p'.
Proof.
  intros (Hn & Hk & W). unfold kdecr. destruct (khas_prev_ p); [|discriminate].
  rewrite Hn, Hk.
  destruct (kdecr_scan n k (n - 1) (kkappa_ p) (kM_ p)) as [[kp m]|] eqn:E.
  - intros [= <-]. split; [done|]. split; [done|]. simpl.
    apply kdecr_scan_some in E as (i & Hi & Hpos & Hroom & Hr).
    destruct W as (W & Hkn & Hmax).
    pose proof (wf_pos _ _ _ W).
    pose proof (kdecr_at_wf n k i _ _ (conj W (conj Hkn Hmax)) ltac:(lia) Hpos Hroom) as W'.
    by rewrite <- Hr in W'.
  - intros [= <-]. by split; [|split].
Qed.

Lemma kreachable_wf (n k : nat) (p : lexicographic_k_partition) :
  kreachable n k p -> kwf_state n k p.
Proof.
  induction 1 as [first p H|p p' _ IH H|p p' _ IH H].
  - by eapply kmake_wf.
  - by eapply kincr_wf.
  - by eapply kdecr_wf.
Qed.

End KPartitionFacts.

(** ** The subsets in the order of their bit masks *)

Module SubsetOpsFacts.
Import Subset SubsetOps SubsetFacts.

Local Open Scope N_scope.

Lemma length_filter_shift (f : nat -> bool) (l : list nat) :
  length (List.filter f (map S l)) = length (List.filter (fun i => f (S i)) l).
Proof.
  induction l as [|x l IH]; simpl; [done|].
  destruct (f (S x)); simpl; by rewrite IH.
Qed.

Lemma testbit_double (p : positive) (b : bool) (i : nat) :
  N.testbit (N.pos (if b then p~1 else p~0)%positive) (N.of_nat (S i))
  = N.testbit (N.pos p) (N.of_nat i).
Proof.
  rewrite Nat2N.inj_succ.
  destruct b.
  - change (N.pos p~1) with (2 * N.pos p + 1). apply N.testbit_odd_succ. lia.
  - change (N.pos p~0) with (2 * N.pos p). apply N.testbit_even_succ. lia.
Qed.

(** [bits_.count()] is the number of set positions below [n]. *)
Lemma count_positions (n : nat) (b : N) :
  b < 2 ^ N.of_nat n -> length (positions n b) = Subset.count b.
Proof.
  revert b. induction n as [|n IH]; intros b Hb.
  - simpl in Hb. by assert (b = 0) as -> by lia.
  - unfold positions. rewrite <- cons_seq, <- seq_shift.
    rewrite pow2_succ in Hb.
    destruct b as [|[q|q|]].
    + simpl. rewrite length_filter_shift.
      rewrite (List.filter_ext _ (fun i => N.testbit 0 (N.of_nat i))); [apply (IH 0); lia|].
      intros i. by rewrite !N.bits_0.
    + cbn [List.filter]. change (N.testbit (N.pos q~1) (N.of_nat 0)) with true. cbn iota.
      cbn [length Subset.count popcount_pos]. f_equal.
      rewrite length_filter_shift.
      rewrite (List.filter_ext _ (fun i => N.testbit (N.pos q) (N.of_nat i))).
      * apply (IH (N.pos q)). lia.
      * intros i. apply (testbit_double q true).
    + cbn [List.filter]. change (N.testbit (N.pos q~0) (N.of_nat 0)) with false. cbn iota.
      cbn [Subset.count popcount_pos].
      rewrite length_filter_shift.
      rewrite (List.filter_ext _ (fun i => N.testbit (N.pos q) (N.of_nat i))).
      * apply (IH (N.pos q)). lia.
      * intros i. apply (testbit_double q false).
    + cbn [List.filter]. change (N.testbit 1 (N.of_nat 0)) with true. cbn iota.
      cbn [length Subset.count popcount_pos]. f_equal.
      rewrite length_filter_shift.
      rewrite (List.filter_ext _ (fun i => N.testbit 0 (N.of_nat i))).
      * apply (IH 0). apply pow2_pos.
      * intros i. rewrite N.bits_0. rewrite Nat2N.inj_succ.
        change 1 with (2 * 0 + 1). rewrite N.testbit_odd_succ by lia. apply N.bits_0.
Qed.

Local Close Scope N_scope.

Section Elements.

Context {A : Type}.

Lemma omap_lookup_cons (x : A) (v : list A) (l : list nat) :
  omap (fun pos => (x :: v) !! pos) (map S l) = omap (fun pos => v !! pos) l.
Proof.
  induction l as [|p l IH]; [done|].
  change (omap (fun pos => (x :: v) !! pos) (map S (p :: l)))
    with (match v !! p with
          | Some y => y :: omap (fun pos => (x :: v) !! pos) (map S l)
          | None => omap (fun pos => (x :: v) !! pos) (map S l)
          end).
  change (omap (fun pos => v !! pos) (p :: l))
    with (match v !! p with
          | Some y => y :: omap (fun pos => v !! pos) l
          | None => omap (fun pos => v !! pos) l
          end).
  by rewrite IH.
Qed.

Lemma filter_shift (f : nat -> bool) (l : list nat) :
  List.filter f (map S l) = map S (List.filter (fun i => f (S i)) l).
Proof.
  induction l as [|x l IH]; simpl; [done|].
  destruct (f (S x)); simpl; by rewrite IH.
Qed.

(** The elements at the positions that [f] selects: a sublist, with one
    element for each position. *)
Lemma omap_filter_sublist (f : nat -> bool) (v : list A) :
  let l := omap (fun pos => v !! pos) (List.filter f (seq 0 (length v))) in
  sublist l v /\ length l = length (List.filter f (seq 0 (length v))).
Proof.
  revert f. induction v as [|x v IH]; intros f; [split; [constructor|done]|].
  cbn [length]. rewrite <- cons_seq, <- seq_shift. cbn [List.filter].
  rewrite filter_shift.
  destruct (IH (fun i => f (S i))) as [Hsub Hlen].
  destruct (f 0).
  - change (omap (fun pos => (x :: v) !! pos) (0 :: ?l))
      with (x :: omap (fun pos => (x :: v) !! pos) l).
    rewrite omap_lookup_cons. cbn zeta. split.
    + by constructor.
    + simpl. rewrite length_map. f_equal. exact Hlen.
  - rewrite omap_lookup_cons. cbn zeta. split.
    + by constructor.
    + rewrite length_map. exact Hlen.
Qed.

(** The step of the iterator at the bit mask [b]. *)
Lemma next_subset_at (n : nat) (e : bool) (b : N) (hp : bool) (v : list A) :
  n <= 64 -> length v = n -> (lowest e <= b < 2 ^ N.of_nat n)%N ->
  next_subset v (mk_subset n e b hp true)
  = Some (subset_at v b,
          if decide (b = 2 ^ N.of_nat n - 1)%N
          then mk_subset n e b (lowest e <? b)%N false
          else mk_subset n e (b + 1) true true).
Proof.
  intros Hn Hv Hb. unfold next_subset, apply. cbn [n_ bits_].
  rewrite Hv, Nat.eqb_refl. unfold subset_at. rewrite Hv.
  unfold incr. cbn [has_next_ n_ bits_ empty_set_].
  case_decide as Hfull.
  - assert ((Subset.count b <? n) = false) as ->; [|done].
    apply Nat.ltb_ge. rewrite Hfull, count_full. lia.
  - assert ((Subset.count b <? n) = true) as ->.
    { apply Nat.ltb_lt.
      destruct (count_bound n b ltac:(lia)) as [Hle Hf].
      destruct (decide (Subset.count b = n)) as [Heq|]; [|lia].
      specialize (Hf Heq). lia. }
    rewrite bitset_small by lia.
    assert ((lowest e <? b + 1)%N = true) as -> by (apply N.ltb_lt; lia).
    done.
Qed.

Lemma enumerate_step (fuel : nat) (v : list A) (s : lexicographic_subset) :
  enumerate (S fuel) v s =
  if has_next s then
    match next_subset v s with
    | Some (subs, s') =>
        match enumerate fuel v s' with
        | Some rest => Some (subs :: rest)
        | None => None
        end
    | None => None
    end
  else Some [].
Proof. reflexivity. Qed.

(** From the bit mask [b] the loop yields the subsets of the bit masks
    [b, .., 2^n - 1] and ends. *)
Lemma enumerate_run (n : nat) (e : bool) (v : list A) (k : nat) :
  n <= 64 -> length v = n ->
  forall (b : N) (hp : bool),
    (lowest e <= b)%N -> (b + N.of_nat k = 2 ^ N.of_nat n - 1)%N ->
    enumerate (S (S k)) v (mk_subset n e b hp true)
    = Some (map (fun j => subset_at v (b + N.of_nat j)) (seq 0 (S k))).
Proof.
  intros Hn Hv. pose proof (pow2_pos n) as Hpos.
  induction k as [|k IH]; intros b hp Hb Hk.
  - rewrite enumerate_step. cbn [has_next has_next_].
    rewrite (next_subset_at n) by (try done; lia).
    rewrite decide_True by lia. cbn [enumerate has_next has_next_ map seq].
    by rewrite N.add_0_r.
  - rewrite enumerate_step. cbn [has_next has_next_].
    rewrite (next_subset_at n) by (try done; lia).
    rewrite decide_False by lia.
    rewrite IH by lia.
    f_equal.
    transitivity (map (fun j => subset_at v (b + N.of_nat j)) (0 :: map S (seq 0 (S k)))).
    + cbn [map]. rewrite N.add_0_r. f_equal.
      rewrite map_map. apply map_ext. intros j. f_equal. lia.
    + by rewrite seq_shift.
Qed.

End Elements.

End SubsetOpsFacts.

(** ** The stability check, conversely *)

Module NashCompleteFacts.
Import Real Gtpack Coalition NashStable NashStableFacts.





(** *** The candidates of the selector *)

(** The coalitions recorded in a candidate are visited coalitions of
    blocks of the partition. *)
Lemma candidate_coalitions (game : cooperative_game)
    (visited : gmap N coalition_info_t) (subsets : list (list nat)) (cid : N) :
  cid ∈ coalitions (candidate game visited subsets) ->
  is_Some (visited !! cid) /\ exists b, b ∈ subsets /\ cid = make_coalition_id b.
Proof.
  unfold candidate.
  assert (forall acc,
    (forall c, c ∈ coalitions acc ->
       is_Some (visited !! c) /\ exists b, b ∈ subsets /\ c = make_coalition_id b) ->
    forall done todo, subsets = done ++ todo ->
    forall c, c ∈ coalitions
      (fold_left
         (fun cand subset =>
            let cid := make_coalition_id subset in
            match visited !! cid with
            | None => cand
            | Some info =>
                mk_partition_info
                  (radd (pvalue cand) (Gtpack.value game cid))
                  (set_insert cid (coalitions cand))
                  (record_payoffs info subset (ppayoffs cand))
            end) todo acc) ->
    is_Some (visited !! c) /\ exists b, b ∈ subsets /\ c = make_coalition_id b) as Hgen.
  { intros acc Hacc done todo. revert acc Hacc done.
    induction todo as [|s todo IH]; intros acc Hacc done Heq c Hc; [by apply Hacc|].
    simpl in Hc. apply (IH _) with (done := done ++ [s]) in Hc; [done| |by rewrite <- app_assoc].
    intros c' Hc'. destruct (visited !! make_coalition_id s) as [info|] eqn:E;
      [|by apply Hacc].
    simpl in Hc'. apply elem_of_set_insert in Hc' as [->|Hc']; [|by apply Hacc].
    split; [by rewrite E|]. exists s. split; [|done].
    rewrite Heq. apply elem_of_app. right. by left. }
  apply (Hgen _) with (done := []); [|done].
  intros c Hc. simpl in Hc. by apply elem_of_nil in Hc.
Qed.

Lemma next_partition_blocks (n : nat) (p p' : Partition.lexicographic_partition)
    (v : list nat) (subs : list (list nat)) :
  PartitionInv.wf_state n p -> length v = n ->
  Partition.next_partition v p = Some (subs, p') ->
  PartitionInv.wf_state n p' /\
  PartitionOps.blocks_of (Partition.num_subsets p) v subs.
Proof.
  intros Hwf Hv. unfold Partition.next_partition, Partition.apply.
  destruct Hwf as [Hn W]. rewrite Hn, Hv, Nat.eqb_refl.
  assert (PartitionOps.blocks_of (Partition.num_subsets p) v
            (Partition.apply_rgs (Partition.num_subsets p) (Partition.kappa_ p) v)) as Hb.
  { apply (PartitionOpsFacts.apply_rgs_blocks n _ _ (Partition.M_ p)); try done.
    unfold Partition.num_subsets. by rewrite Hn. }
  destruct (Partition.has_next p).
  - destruct (Partition.incr p) as [q|] eqn:E; [|discriminate].
    intros [= <- <-]. split; [|done].
    by apply (PartitionFacts.incr_wf n p q).
  - intros [= <- <-]. by split.
Qed.

Lemma select_loop_candidates (fuel : nat) (game : cooperative_game)
    (visited : gmap N coalition_info_t) (partition : Partition.lexicographic_partition)
    (best result : list partition_info_t) :
  PartitionInv.wf_state (num_players game) partition ->
  let P := fun part : partition_info_t =>
    exists k blocks, PartitionOps.blocks_of k (players game) blocks /\
      part = candidate game visited blocks in
  Forall P best ->
  select_loop fuel game visited partition best = Ok result ->
  Forall P result.
Proof.
  intros Hwf P. revert partition best Hwf.
  induction fuel as [|fuel IH]; intros partition best Hwf Hbest; simpl.
  - discriminate.
  - destruct (Partition.has_next partition); [|by intros [= <-]].
    intros H. apply bind_ok in H as (step & Hstep & H).
    apply bind_ok in H as (nash_stable & Hcheck & H).
    destruct (Partition.next_partition (players game) partition) as [[subs p']|] eqn:E;
      [|discriminate].
    injection Hstep as <-. simpl in *.
    apply (next_partition_blocks (num_players game)) in E as [Hwf' Hb];
      [|done|by unfold players; rewrite length_seq].
    apply (IH _ _ Hwf') in H; [done|].
    destruct nash_stable; [|done].
    apply Forall_app. split; [done|].
    constructor; [|constructor]. by exists (Partition.num_subsets partition), subs.
Qed.

End NashCompleteFacts.

(** ** The loops of the simulator *)

Module SimulatorRunFacts.
Import Simulator SimulatorRun.

Lemma schedule_all_settings (events : list event_t) (s : simulator_t) :
  same_settings s (schedule_all events s) /\
  sim_time_ (schedule_all events s) = sim_time_ s.
Proof.
  revert s. induction events as [|e rest IH]; intros s; [by repeat split|].
  change (schedule_all (e :: rest) s)
    with (schedule_all rest (schedule_event (fire_time e) (tag e) (p_state e) s)).
  destruct (IH (schedule_event (fire_time e) (tag e) (p_state e) s))
    as ((H1 & H2 & H3 & H4) & H5).
  unfold same_settings. rewrite H1, H2, H3, H4, H5. by repeat split.
Qed.

Section Loops.

Context {D : Type} (sub : subclass D).

Lemma fire_event_settings (s s' : simulator_t) (d d' : D) (o : option event_t) :
  fire_event sub s d = (o, s', d') ->
  same_settings s s' /\
  forall e, o = Some e -> sim_time_ s' = fire_time e.
Proof.
  unfold fire_event. destruct (0 <? length (evt_queue_ s)).
  - destruct (do_process_event sub _ _ d) as [d1 events].
    intros [= <- <- <-].
    destruct (schedule_all_settings events
                (with_time (fire_time (pq_top (evt_queue_ s)))
                   (with_queue (pq_pop (evt_queue_ s)) s))) as ((H1 & H2 & H3 & H4) & H5).
    split; [by repeat split|]. intros e [= <-]. by rewrite H5.
  - intros [= <- <- <-]. split; [by repeat split|]. discriminate.
Qed.

(** All the events of a replication but the last fire before the end of
    the replication. *)
Lemma fire_events_horizon (fuel : nat) :
  forall (s : simulator_t) (d : D) (i : nat) (e : event_t),
    fire_events sub fuel s d !! i = Some e ->
    S i < length (fire_events sub fuel s d) ->
    (fire_time e < max_rep_len_ s)%Q.
Proof.
  induction fuel as [|fuel IH]; intros s d i e; simpl; [by rewrite lookup_nil|].
  destruct (check_end_of_replication sub s d) eqn:Ec; [by rewrite lookup_nil|].
  destruct (fire_event sub s d) as [[[e0|] s'] d'] eqn:E; [|by rewrite lookup_nil].
  apply fire_event_settings in E as ((Hlen & _) & Ht).
  specialize (Ht e0 eq_refl).
  destruct i as [|i]; simpl.
  - intros [= <-] Hl.
    destruct fuel as [|fuel']; simpl in Hl; [lia|].
    unfold check_end_of_replication in Hl at 1.
    destruct (Qle_bool (max_rep_len_ s') (sim_time_ s')) eqn:Eq; simpl in Hl; [lia|].
    rewrite Hlen, Ht in Eq.
    apply not_true_iff_false in Eq. rewrite Qle_bool_iff in Eq. lra.
  - intros Hi Hl. rewrite <- Hlen. apply (IH s' d' i e Hi). lia.
Qed.

Variable do_finalize_replication : D -> D.

Lemma fire_loop_settings (fuel : nat) :
  forall (s s' : simulator_t) (d d' : D),
    fire_loop sub fuel s d = Some (s', d') -> same_settings s s'.
Proof.
  induction fuel as [|fuel IH]; intros s s' d d'; simpl; [discriminate|].
  destruct (check_end_of_replication sub s d); [by intros [= <- <-]|].
  destruct (fire_event sub s d) as [[o s1] d1] eqn:E.
  apply fire_event_settings in E as ((H1 & H2 & H3 & H4) & _).
  intros H. apply IH in H as (G1 & G2 & G3 & G4).
  repeat split; congruence.
Qed.

(** The loop of [run()] ends on the test of the end of the simulation, and
    counts no replication beyond the maximum. *)
Lemma run_loop_end (events fuel : nat) :
  forall (s s' : simulator_t) (d d' : D),
    run_loop sub do_finalize_replication events fuel s d = Some (s', d') ->
    max_num_rep_ s' = max_num_rep_ s /\ done_ s' = done_ s /\
    check_end_of_simulation sub s' d' = true /\
    num_rep_ s <= num_rep_ s' /\
    (num_rep_ s <= max_num_rep_ s -> num_rep_ s' <= max_num_rep_ s).
Proof.
  induction fuel as [|fuel IH]; intros s s' d d'; simpl; [discriminate|].
  destruct (check_end_of_simulation sub s d) eqn:Ec; [intros [= <- <-]; by repeat split|].
  unfold initialize_replication.
  destruct (do_initialize_replication sub d) as [d0 evs].
  destruct (schedule_all_settings evs
              (mk_simulator (max_rep_len_ s) (max_num_rep_ s) (num_rep_ s + 1) 0
                 (done_ s) [])) as ((H1 & H2 & H3 & H4) & _).
  destruct (fire_loop sub events _ d0) as [[s2 d2]|] eqn:El; [|discriminate].
  apply fire_loop_settings in El as (G1 & G2 & G3 & G4).
  intros H. apply IH in H as (K1 & K2 & K3 & K4 & K5).
  simpl in *.
  unfold check_end_of_simulation in Ec.
  apply orb_false_elim in Ec as [Ec _]. apply orb_false_elim in Ec as [_ Ec].
  apply Nat.leb_gt in Ec.
  repeat split; try congruence; lia.
Qed.

End Loops.

End SimulatorRunFacts.

(** ** The workload generator *)

Module WorkloadFacts.
Import Workload.

Lemma calls_from (ds rs : list Q) (n : nat) :
  length ds = n -> length rs = n -> 0 < n ->
  forall k i, i < n ->
    calls k (mk_generator ds rs n i)
    = Some (map (fun j => (nth ((i + j) mod n) ds 0%Q, nth ((i + j) mod n) rs 0%Q)) (seq 0 k),
            mk_generator ds rs n ((i + k) mod n)).
Proof.
  intros Hd Hr Hn k. induction k as [|k IH]; intros i Hi.
  - simpl. by rewrite Nat.add_0_r, Nat.mod_small.
  - cbn [calls]. unfold next. cbn [durations_ arr_rates_ n_ next_idx_].
    destruct (lookup_lt_is_Some_2 ds i ltac:(lia)) as [d Ed].
    destruct (lookup_lt_is_Some_2 rs i ltac:(lia)) as [r Er].
    rewrite Ed, Er.
    rewrite IH by (apply Nat.mod_upper_bound; lia).
    f_equal. f_equal.
    + change (seq 0 (S k)) with (0 :: seq 1 k).
      rewrite <- (seq_shift k 0). cbn [map]. rewrite Nat.add_0_r.
      rewrite (Nat.mod_small i n) by done.
      rewrite (nth_lookup_Some _ _ _ _ Ed), (nth_lookup_Some _ _ _ _ Er). f_equal.
      rewrite !map_map. apply map_ext. intros j.
      rewrite Nat.Div0.add_mod_idemp_l.
      by replace (i + 1 + j) with (i + S j) by lia.
    + f_equal. rewrite Nat.Div0.add_mod_idemp_l. f_equal. lia.
Qed.

End WorkloadFacts.

(** ** The vectors that [setup] fills *)

Module SetupFacts.
Import Scenario Setup.

Lemma combine_app_balanced {A B : Type} (l1 l2 : list A) (m1 m2 : list B) :
  length l1 = length m1 ->
  combine (l1 ++ l2) (m1 ++ m2) = combine l1 m1 ++ combine l2 m2.
Proof.
  revert m1. induction l1 as [|a l1 IH]; intros [|b m1] H; simpl in *; try done.
  f_equal. apply IH. lia.
Qed.

Lemma combine_repeat (a b n : nat) :
  combine (repeat a n) (repeat b n) = repeat (a, b) n.
Proof. induction n as [|n IH]; simpl; [done|]. by rewrite IH. Qed.

Lemma filter_repeat {A : Type} (f : A -> bool) (x : A) (n : nat) :
  length (List.filter f (repeat x n)) = if f x then n else 0.
Proof.
  induction n as [|n IH]; simpl; [by destruct (f x)|].
  destruct (f x) eqn:E; simpl; [by rewrite IH|done].
Qed.

Lemma push_units_count (fp c n : nat) (u : units) (a b : nat) :
  balanced u ->
  balanced (push_units fp c n u) /\
  count_units (push_units fp c n u).1.1 (push_units fp c n u).1.2 a b
  = count_units u.1.1 u.1.2 a b + (if decide (a = fp /\ b = c) then n else 0).
Proof.
  intros [H1 H2]. unfold push_units, count_units. cbn [fst snd]. split.
  - unfold balanced. cbn [fst snd]. split; rewrite length_app, repeat_length; lia.
  - rewrite combine_app_balanced by lia. rewrite combine_repeat.
    rewrite List.filter_app, length_app. f_equal.
    rewrite filter_repeat. cbn [fst snd].
    case_decide as Hd.
    + destruct Hd as [-> ->]. by rewrite !Nat.eqb_refl.
    + destruct (fp =? a) eqn:E1; destruct (c =? b) eqn:E2; simpl; try done.
      apply Nat.eqb_eq in E1, E2. subst. tauto.
Qed.

Lemma fill_categories_count (table : list (list nat)) (fp : nat) (categories : list nat) :
  NoDup categories ->
  forall u u', fill_categories table fp categories u = Some u' -> balanced u ->
    balanced u' /\
    forall a b, count_units u'.1.1 u'.1.2 a b
      = count_units u.1.1 u.1.2 a b
        + (if decide (a = fp /\ b ∈ categories) then declared table fp b else 0).
Proof.
  induction 1 as [|c rest Hnotin Hnd IH]; intros u u' H Hb.
  - injection H as <-. split; [done|]. intros a b.
    case_decide as Hd; [|lia]. destruct Hd as [_ Hd]. by apply elem_of_nil in Hd.
  - simpl in H.
    destruct (table !! fp) as [row|] eqn:Er; [|discriminate].
    destruct (row !! c) as [n|] eqn:Ec; [|discriminate].
    destruct (IH _ _ H) as [Hb' Hc'].
    { by apply push_units_count. }
    split; [done|]. intros a b. rewrite Hc'.
    destruct (push_units_count fp c n u a b Hb) as [_ ->].
    assert (declared table fp c = n) as Hdecl.
    { unfold declared. rewrite (nth_lookup_Some _ _ _ _ Er).
      by rewrite (nth_lookup_Some _ _ _ _ Ec). }
    destruct (decide (a = fp /\ b = c)) as [[-> ->]|Hne].
    + rewrite decide_False by tauto.
      rewrite decide_True by (split; [done|by left]). lia.
    + destruct (decide (a = fp /\ b ∈ rest)) as [[-> Hin]|Hnr].
      * rewrite decide_True by (split; [done|by right]). lia.
      * rewrite decide_False; [lia|].
        intros [-> Hin]. apply elem_of_cons in Hin as [->|Hin]; tauto.
Qed.

Lemma fill_units_count (table : list (list nat)) (num_categories : nat) (fps : list nat) :
  NoDup fps ->
  forall u u', fill_units table num_categories fps u = Some u' -> balanced u ->
    balanced u' /\
    forall a b, count_units u'.1.1 u'.1.2 a b
      = count_units u.1.1 u.1.2 a b
        + (if decide (a ∈ fps /\ b < num_categories) then declared table a b else 0).
Proof.
  induction 1 as [|fp rest Hnotin Hnd IH]; intros u u' H Hb.
  - injection H as <-. split; [done|]. intros a b.
    case_decide as Hd; [|lia]. destruct Hd as [Hd _]. by apply elem_of_nil in Hd.
  - simpl in H.
    destruct (fill_categories table fp (seq 0 num_categories) u) as [u1|] eqn:E1;
      [|discriminate].
    apply fill_categories_count in E1 as [Hb1 Hc1]; [|apply NoDup_seq|done].
    destruct (IH _ _ H Hb1) as [Hb' Hc'].
    split; [done|]. intros a b. rewrite Hc', Hc1.
    destruct (decide (a = fp /\ b ∈ seq 0 num_categories)) as [[-> Hin]|Hne].
    + apply elem_of_seq in Hin.
      rewrite decide_False by tauto.
      rewrite decide_True by (split; [by left|lia]). lia.
    + destruct (decide (a ∈ rest /\ b < num_categories)) as [[Hin Hlt]|Hnr].
      * rewrite decide_True by (split; [by right|done]). lia.
      * rewrite decide_False; [lia|].
        intros [Hin Hlt]. apply elem_of_cons in Hin as [->|Hin]; [|tauto].
        apply Hne. split; [done|]. apply elem_of_seq. lia.
Qed.

(** The loops read the table within its bounds when it has the shape. *)
Lemma fill_categories_defined (table : list (list nat)) (fp cols : nat)
    (categories : list nat) (u : units) :
  (exists row, table !! fp = Some row /\ length row = cols) ->
  Forall (fun c => c < cols) categories ->
  is_Some (fill_categories table fp categories u).
Proof.
  intros (row & Er & Hl). revert u.
  induction categories as [|c rest IH]; intros u Hall; [by eexists|].
  apply Forall_cons in Hall as [Hc Hall]. simpl. rewrite Er.
  destruct (lookup_lt_is_Some_2 row c ltac:(lia)) as [n ->].
  by apply IH.
Qed.

Lemma fill_units_defined (table : list (list nat)) (rows cols : nat) (fps : list nat)
    (u : units) :
  table_shape rows cols table -> Forall (fun fp => fp < rows) fps ->
  is_Some (fill_units table cols fps u).
Proof.
  intros [Hlen Hrows]. revert u.
  induction fps as [|fp rest IH]; intros u Hall; [by eexists|].
  apply Forall_cons in Hall as [Hfp Hall]. simpl.
  destruct (fill_categories_defined table fp cols (seq 0 cols) u) as [u1 ->].
  - destruct (lookup_lt_is_Some_2 table fp ltac:(lia)) as [row Er].
    exists row. split; [done|].
    rewrite Forall_forall in Hrows. apply Hrows. by eapply list_elem_of_lookup_2.
  - apply Forall_forall. intros c Hc. apply list_elem_of_In, in_seq in Hc. lia.
  - by apply IH.
Qed.

Lemma make_generators_defined (workloads : list (list (Q * Q))) (categories : list nat) :
  Forall (fun i => i < length workloads) categories ->
  exists gens, make_generators workloads categories = Some gens /\
    length gens = length categories.
Proof.
  induction categories as [|i rest IH]; intros Hall; [by exists []|].
  apply Forall_cons in Hall as [Hi Hall]. simpl.
  destruct (lookup_lt_is_Some_2 workloads i Hi) as [steps ->].
  destruct (IH Hall) as (gens & -> & Hl). eexists. split; [done|]. simpl. by rewrite Hl.
Qed.

Lemma make_generators_length (workloads : list (list (Q * Q))) (categories : list nat)
    (gens : list Workload.multistep_workload_generator_t) :
  make_generators workloads categories = Some gens -> length gens = length categories.
Proof.
  revert gens. induction categories as [|i rest IH]; intros gens; simpl.
  - by intros [= <-].
  - destruct (workloads !! i); [|discriminate].
    destruct (make_generators workloads rest) as [g|]; [|discriminate].
    intros [= <-]. simpl. f_equal. by apply IH.
Qed.

End SetupFacts.

(** ** The bursts of a trigger interval *)

Module BurstsFacts.
Import Real Bursts FloatFacts.

Lemma chronological_tail (b : burst) (rest : list burst) :
  chronological (b :: rest) ->
  chronological rest /\
  forall b', b' ∈ rest -> (burst_start b <= burst_start b')%Q.
Proof.
  intros H. split.
  - intros i j b1 b2 Hij H1 H2. apply (H (S i) (S j)); [lia|done|done].
  - intros b' Hin. apply list_elem_of_lookup in Hin as [j Hj].
    apply (H 0 (S j)); [lia|done|done].
Qed.

Lemma scan_spec (start stop : Q) (bursts : list burst) :
  chronological bursts ->
  forall m0,
    let r := scan start stop bursts m0 in
    (m0 <= r.1)%Q /\
    (forall b, b ∈ bursts -> overlaps start stop b -> (arr_rate b <= r.1)%Q) /\
    (r.1 = m0 \/ exists b, b ∈ bursts /\ overlaps start stop b /\ arr_rate b = r.1) /\
    sublist r.2 bursts /\
    (forall b, b ∈ r.2 -> (stop <= burst_stop b)%Q \/ (stop <= burst_start b)%Q).
Proof.
  induction bursts as [|b rest IH]; intros Hch m0.
  - simpl. split; [lra|]. split; [intros b Hb; by apply elem_of_nil in Hb|].
    split; [by left|]. split; [constructor|]. intros b Hb. by apply elem_of_nil in Hb.
  - apply chronological_tail in Hch as [Hch Hfirst].
    cbn [scan].
    destruct (Qle_bool (burst_stop b) start) eqn:E1.
    { apply Qle_bool_iff in E1.
      destruct (IH Hch m0) as (H1 & H2 & H3 & H4 & H5). cbn zeta in *.
      split; [done|]. split; [|split; [|split]].
      - intros b' Hin Hov. apply elem_of_cons in Hin as [->|Hin]; [|by apply H2].
        destruct Hov as [Hov _]. lra.
      - destruct H3 as [H3|(b' & Hin & Hov & Hr)]; [by left|].
        right. exists b'. split; [by right|done].
      - by apply sublist_cons.
      - done. }
    apply Qle_bool_gt in E1.
    destruct (Qltb (burst_start b) stop) eqn:E2.
    + apply Qltb_lt in E2.
      set (m1 := if Qltb m0 (arr_rate b) then arr_rate b else m0).
      assert ((m0 <= m1)%Q /\ (arr_rate b <= m1)%Q /\ (m1 = m0 \/ m1 = arr_rate b))
        as (Hm0 & Hmb & Hm1).
      { subst m1. destruct (Qltb m0 (arr_rate b)) eqn:E.
        - apply Qltb_lt in E. split; [lra|]. split; [lra|by right].
        - apply Qltb_ge in E. split; [lra|]. split; [lra|by left]. }
      assert (overlaps start stop b) as Hovb by (by split).
      destruct (IH Hch m1) as (H1 & H2 & H3 & H4 & H5). cbn zeta in *.
      destruct (Qltb (burst_stop b) stop) eqn:E3.
      * split; [lra|]. split; [|split; [|split]].
        -- intros b' Hin Hov. apply elem_of_cons in Hin as [->|Hin]; [lra|by apply H2].
        -- destruct H3 as [H3|(b' & Hin & Hov & Hr)].
           ++ destruct Hm1 as [Hm1|Hm1]; [left; congruence|].
              right. exists b. split; [by left|]. split; [done|]. congruence.
           ++ right. exists b'. split; [by right|done].
        -- by apply sublist_cons.
        -- done.
      * apply Qltb_ge in E3.
        destruct (scan start stop rest m1) as [m kept]. cbn [fst snd] in *.
        split; [lra|]. split; [|split; [|split]].
        -- intros b' Hin Hov. apply elem_of_cons in Hin as [->|Hin]; [lra|by apply H2].
        -- destruct H3 as [H3|(b' & Hin & Hov & Hr)].
           ++ destruct Hm1 as [Hm1|Hm1]; [left; congruence|].
              right. exists b. split; [by left|]. split; [done|]. congruence.
           ++ right. exists b'. split; [by right|done].
        -- by apply sublist_skip.
        -- intros b' Hin. apply elem_of_cons in Hin as [->|Hin]; [by left|by apply H5].
    + apply Qltb_ge in E2. cbn [fst snd].
      split; [lra|]. split; [|split; [|split]].
      * intros b' Hin [_ Hov]. apply elem_of_cons in Hin as [->|Hin]; [lra|].
        specialize (Hfirst b' Hin). lra.
      * by left.
      * done.
      * intros b' Hin. right. apply elem_of_cons in Hin as [->|Hin]; [done|].
        specialize (Hfirst b' Hin). lra.
Qed.

(** A burst that is not over when the interval stops stays in the
    vector. *)
Lemma scan_keeps (start stop : Q) (bursts : list burst) :
  (start < stop)%Q ->
  forall m0 b, b ∈ bursts -> (stop <= burst_stop b)%Q ->
    b ∈ (scan start stop bursts m0).2.
Proof.
  intros Hlt. induction bursts as [|b0 rest IH]; intros m0 b Hin Hb.
  - by apply elem_of_nil in Hin.
  - cbn [scan].
    destruct (Qle_bool (burst_stop b0) start) eqn:E1.
    { apply Qle_bool_iff in E1.
      apply elem_of_cons in Hin as [->|Hin]; [lra|by apply IH]. }
    destruct (Qltb (burst_start b0) stop) eqn:E2; [|done].
    destruct (Qltb (burst_stop b0) stop) eqn:E3.
    { apply Qltb_lt in E3.
      apply elem_of_cons in Hin as [->|Hin]; [lra|by apply IH]. }
    destruct (scan start stop rest _) as [m kept] eqn:Es. simpl.
    apply elem_of_cons in Hin as [->|Hin]; [by left|].
    right. specialize (IH (if Qltb m0 (arr_rate b0) then arr_rate b0 else m0) b Hin Hb).
    by rewrite Es in IH.
Qed.

End BurstsFacts.

(** ** The partition of the greatest value *)

Module BestPartitionFacts.
Import Real Coalition BestPartition FloatFacts.

(** A value that is not above [m] is not above a value above [m]. *)
Lemma rgt_trans_not (p m b : real_t) :
  rgt p m = false -> rgt b m = true -> isnan m = false -> rgt p b = false.
Proof.
  unfold rgt. destruct p as [x| | |], m as [y| | |], b as [z| | |]; simpl; try done.
  intros H1 H2 _. apply Qltb_ge in H1. apply Qltb_lt in H2. apply Qltb_ge. lra.
Qed.

Lemma rgt_not_nan (b m : real_t) : rgt b m = true -> isnan b = false.
Proof. unfold rgt. by destruct b, m. Qed.

Lemma rgt_irrefl (b : real_t) : rgt b b = false.
Proof. unfold rgt. destruct b; simpl; try done. apply Qltb_ge. lra. Qed.

Lemma max_best_fold (l : list partition_info_t) :
  forall m0 : partition_info_t,
    isnan (pvalue m0) = false ->
    let m := fold_left
      (fun max_best best_partition =>
         if rgt (pvalue best_partition) (pvalue max_best) then best_partition else max_best)
      l m0 in
    isnan (pvalue m) = false /\
    (m = m0 \/ m ∈ l) /\
    rgt (pvalue m0) (pvalue m) = false /\
    forall p, p ∈ l -> rgt (pvalue p) (pvalue m) = false.
Proof.
  induction l as [|b rest IH]; intros m0 Hn; cbn zeta.
  - simpl. split; [done|]. split; [by left|]. split; [apply rgt_irrefl|].
    intros p Hp. by apply elem_of_nil in Hp.
  - cbn [fold_left].
    destruct (rgt (pvalue b) (pvalue m0)) eqn:E.
    + destruct (IH b (rgt_not_nan _ _ E)) as (H1 & H2 & H3 & H4). cbn zeta in *.
      split; [done|]. split; [|split].
      * right. destruct H2 as [->|H2]; [by left|by right].
      * set (m := fold_left _ rest b) in *.
        destruct (rgt (pvalue m0) (pvalue m)) eqn:E'; [|done].
        exfalso. clear -E E' H3 Hn H1.
        unfold rgt in *.
        destruct (pvalue b) as [x| | |], (pvalue m0) as [y| | |], (pvalue m) as [z| | |];
          simpl in *; try done.
        apply Qltb_lt in E, E'. apply Qltb_ge in H3. lra.
      * intros p Hp. apply elem_of_cons in Hp as [->|Hp]; [done|by apply H4].
    + destruct (IH m0 Hn) as (H1 & H2 & H3 & H4). cbn zeta in *.
      split; [done|]. split; [|split; [done|]].
      * destruct H2 as [H2|H2]; [by left|right; by right].
      * intros p Hp. apply elem_of_cons in Hp as [->|Hp]; [|by apply H4].
        set (m := fold_left _ rest m0) in *.
        clear -E H3 Hn H1. unfold rgt in *.
        destruct (pvalue b) as [x| | |], (pvalue m0) as [y| | |], (pvalue m) as [z| | |];
          simpl in *; try done.
        apply Qltb_ge in E, H3. apply Qltb_ge. lra.
Qed.

(** Nothing replaces a partition that no partition of the list is above. *)
Lemma max_best_default (l : list partition_info_t) (m0 : partition_info_t) :
  (forall p, p ∈ l -> rgt (pvalue p) (pvalue m0) = false) ->
  fold_left
    (fun max_best best_partition =>
       if rgt (pvalue best_partition) (pvalue max_best) then best_partition else max_best)
    l m0 = m0.
Proof.
  induction l as [|b rest IH]; intros H; [done|].
  cbn [fold_left]. rewrite (H b) by left.
  apply IH. intros p Hp. apply H. by right.
Qed.

End BestPartitionFacts.

(** ** The lines of a scenario file *)

Module ScenarioLinesFacts.
Import Scenario ScenarioKeys.

Lemma parse_line_skipped (s : scenario_t) (l : line) :
  skipped l = true -> parse_line s l = Parsed s.
Proof. intros H. unfold parse_line. by rewrite H. Qed.

Lemma parse_line_unknown (s : scenario_t) (l : line) :
  known l = false -> parse_line s l = Parsed s.
Proof.
  unfold known, keys. cbn [existsb]. intros H.
  repeat (apply orb_false_elim in H as [? H]).
  unfold parse_line. destruct (skipped l); [done|].
  repeat match goal with E : istarts_with l _ = false |- _ => rewrite E; clear E end.
  done.
Qed.

Lemma parse_line_no_equals (s : scenario_t) (l : line) :
  skipped l = false -> known l = true -> body l = None ->
  parse_line s l = Raises runtime_error.
Proof.
  intros Hs Hk Hb. unfold parse_line. rewrite Hs.
  unfold read_count, read_list, read_table, move_to_equals. rewrite Hb.
  cbn [and_then].
  repeat match goal with
         | |- (if istarts_with l ?k then _ else _) = _ =>
             destruct (istarts_with l k) eqn:?; [done|]
         end.
  unfold known, keys in Hk. cbn [existsb] in Hk.
  repeat match goal with E : istarts_with l _ = false |- _ => rewrite E in Hk; clear E end.
  done.
Qed.

Lemma parse_lines_app (before after : list line) (s : scenario_t) :
  parse_lines (before ++ after) s
  = and_then (parse_lines before s) (parse_lines after).
Proof.
  revert s. induction before as [|l before IH]; intros s; simpl; [done|].
  destruct (parse_line s l) as [s'| |]; simpl; [apply IH|done|done].
Qed.

Lemma post_parse_positive (s s' : scenario_t) :
  post_parse s = Parsed s' ->
  0 < num_fps s /\ 0 < num_fn_categories s /\ 0 < num_svc_categories s /\
  0 < num_vm_categories s.
Proof.
  unfold post_parse. intros H.
  apply ScenarioFacts.and_then_check in H as [H1 H]. apply Nat.ltb_lt in H1.
  apply ScenarioFacts.and_then_check in H as [H2 H]. apply Nat.ltb_lt in H2.
  apply ScenarioFacts.and_then_check in H as [H3 H]. apply Nat.ltb_lt in H3.
  apply ScenarioFacts.and_then_check in H as [H4 H]. apply Nat.ltb_lt in H4.
  done.
Qed.

Section Values.
Context {A : Type} (conv : token -> option A) (zero : A).

Abbreviation read_step :=
  (fun (i : nat) '(v, iss) =>
     let '(x, iss') := extract conv zero (nth i v zero) iss in
     (<[i := x]> v, iss')).

(** The vector and the stream after [k] turns of the loop of
    [read_vector], over the numerals [ts] of values [vs]. *)
Lemma read_vector_turns (n : nat) (ts after : list token) (vs : list A) :
  Forall2 (fun t a => conv t = Some a) ts vs -> stops conv after ->
  forall k, k <= n ->
    let r := for_range 0 k read_step (resize n zero [], mk_stream (ts ++ after) false) in
    r.1 = resize n zero (take k vs) /\
    (k <= length vs -> r.2 = mk_stream (drop k ts ++ after) false) /\
    (length vs < k -> failbit r.2 = true).
Proof.
  intros Hts Hafter k. induction k as [|k IH]; intros Hk.
  - rewrite for_range_empty by lia. simpl. rewrite take_0, drop_0. repeat split; (done || lia).
  - pose proof (for_range_snoc 0 k read_step
                  (resize n zero [], mk_stream (ts ++ after) false) ltac:(lia)) as Hs.
    replace (k + 1) with (S k) in Hs by lia. rewrite Hs. clear Hs.
    destruct IH as (IH1 & IH2 & IH3); [lia|]. cbn zeta in *.
    destruct (for_range 0 k read_step _) as [v iss]. simpl in IH1, IH2, IH3. subst v.
    pose proof (Forall2_length _ _ _ Hts) as Hlen.
    destruct (decide (k < length vs)) as [Hlt|Hge].
    + rewrite IH2 by lia.
      destruct (lookup_lt_is_Some_2 vs k Hlt) as [a Ha].
      destruct (lookup_lt_is_Some_2 ts k ltac:(lia)) as [t Ht].
      rewrite (drop_S _ _ _ Ht). cbn [extract failbit rest app].
      assert (conv t = Some a) as ->.
      { by apply (Forall2_lookup_lr _ _ _ _ _ _ Hts Ht Ha). }
      cbn [fst snd]. split; [|split; [|lia]].
      * rewrite (take_S_r _ _ _ Ha).
        apply list_eq. intros j.
        destruct (decide (j = k)) as [->|Hne].
        -- rewrite list_lookup_insert_eq by (rewrite length_resize; lia).
           rewrite lookup_resize by (rewrite ?length_app, ?length_take; simpl; lia).
           rewrite lookup_app_r by (rewrite length_take; lia).
           rewrite length_take. by replace (k - k `min` length vs) with 0 by lia.
        -- rewrite list_lookup_insert_ne by done.
           destruct (decide (j < n)) as [Hj|Hj].
           ++ destruct (decide (j < k)) as [Hjk|Hjk].
              ** rewrite !lookup_resize by (rewrite ?length_app, ?length_take; simpl; lia).
                 by rewrite lookup_app_l by (rewrite length_take; lia).
              ** rewrite !lookup_resize_new
                   by (rewrite ?length_app, ?length_take; simpl; lia). done.
           ++ rewrite !lookup_resize_old by lia. done.
      * done.
    + assert (take k vs = vs) as Htk by (apply take_ge; lia).
      assert (take (S k) vs = vs) as -> by (apply take_ge; lia).
      rewrite Htk in *.
      assert (nth k (resize n zero vs) zero = zero) as Hnth.
      { rewrite nth_lookup. by rewrite lookup_resize_new by lia. }
      assert (<[k := zero]> (resize n zero vs) = resize n zero vs) as Hid.
      { apply list_insert_id. rewrite lookup_resize_new by lia. done. }
      destruct (decide (k = length vs)) as [Heq|Hne].
      * rewrite IH2 by lia. rewrite drop_ge by lia. cbn [app extract failbit rest].
        rewrite Hnth.
        destruct after as [|t after']; cbn [fst snd].
        -- split; [done|]. split; [lia|done].
        -- simpl in Hafter. rewrite Hafter. cbn [fst snd].
           split; [done|]. split; [lia|done].
      * specialize (IH3 ltac:(lia)). unfold extract. rewrite IH3. rewrite Hnth.
        cbn [fst snd]. split; [done|]. split; [lia|done].
Qed.

(** The stream after [k] turns of the loop of [read_vector], whatever
    the vector holds. *)
Lemma read_vector_stream (ts after : list token) (vs : list A) (v : list A) :
  Forall2 (fun t a => conv t = Some a) ts vs -> stops conv after ->
  forall k,
    let r := for_range 0 k read_step (v, mk_stream (ts ++ after) false) in
    (k <= length vs -> r.2 = mk_stream (drop k ts ++ after) false) /\
    (length vs < k -> failbit r.2 = true).
Proof.
  intros Hts Hafter k. induction k as [|k IH].
  - rewrite for_range_empty by lia. simpl. rewrite drop_0. split; [done|lia].
  - pose proof (for_range_snoc 0 k read_step
                  (v, mk_stream (ts ++ after) false) ltac:(lia)) as Hs.
    replace (k + 1) with (S k) in Hs by lia. rewrite Hs. clear Hs.
    destruct IH as (IH2 & IH3). cbn zeta in *.
    destruct (for_range 0 k read_step _) as [v' iss]. simpl in IH2, IH3.
    pose proof (Forall2_length _ _ _ Hts) as Hlen.
    destruct (decide (k < length vs)) as [Hlt|Hge].
    + rewrite IH2 by lia.
      destruct (lookup_lt_is_Some_2 vs k Hlt) as [a Ha].
      destruct (lookup_lt_is_Some_2 ts k ltac:(lia)) as [t Ht].
      rewrite (drop_S _ _ _ Ht). cbn [extract failbit rest app].
      assert (conv t = Some a) as ->.
      { by apply (Forall2_lookup_lr _ _ _ _ _ _ Hts Ht Ha). }
      cbn [fst snd]. split; [done|lia].
    + destruct (decide (k = length vs)) as [Heq|Hne].
      * rewrite IH2 by lia. rewrite drop_ge by lia. cbn [app extract failbit rest].
        destruct after as [|t after']; cbn [fst snd]; [split; [lia|done]|].
        simpl in Hafter. rewrite Hafter. cbn [fst snd]. split; [lia|done].
      * specialize (IH3 ltac:(lia)). unfold extract. rewrite IH3.
        cbn [fst snd]. split; [lia|done].
Qed.

Lemma numerals_values (ts : list token) (vs : list A) :
  map conv ts = map Some vs -> Forall2 (fun t a => conv t = Some a) ts vs.
Proof.
  revert vs. induction ts as [|t ts IH]; intros [|a vs]; simpl; try done.
  intros [= Ht Hts]. constructor; [done|by apply IH].
Qed.

Lemma read_vector_values (n : nat) (ts after : list token) (vs : list A) :
  Forall2 (fun t a => conv t = Some a) ts vs -> stops conv after ->
  (read_vector conv zero n [] (mk_stream (ts ++ after) false)).1 = resize n zero vs.
Proof.
  intros Hts Hafter. unfold read_vector.
  destruct (read_vector_turns n ts after vs Hts Hafter n (le_n n)) as (H & _).
  cbn zeta in H. rewrite H.
  destruct (decide (n <= length vs)) as [Hle|Hgt].
  - by rewrite resize_take_eq.
  - by rewrite take_ge by lia.
Qed.

(** A row with fewer numerals than columns leaves the stream failed. *)
Lemma read_vector_short (n : nat) (ts after : list token) (vs v : list A) :
  map conv ts = map Some vs -> stops conv after -> length ts < n ->
  failbit (read_vector conv zero n v (mk_stream (ts ++ after) false)).2 = true.
Proof.
  intros Hts Hafter Hn. unfold read_vector.
  apply numerals_values in Hts. pose proof (Forall2_length _ _ _ Hts) as Hlen.
  destruct (read_vector_stream ts after vs (resize n zero v) Hts Hafter n) as [_ H].
  apply H. lia.
Qed.

(** A row of as many numerals as columns is read to its end. *)
Lemma read_vector_complete (n : nat) (ts after : list token) (v : list A) :
  complete_row conv n ts -> stops conv after ->
  (read_vector conv zero n v (mk_stream (ts ++ after) false)).2 = mk_stream after false.
Proof.
  intros [Hlen [vs Hts]] Hafter. unfold read_vector.
  apply numerals_values in Hts. pose proof (Forall2_length _ _ _ Hts) as Hlen'.
  destruct (read_vector_stream ts after vs (resize n zero v) Hts Hafter n) as [H _].
  rewrite H by lia. by rewrite drop_ge by lia.
Qed.

(** The loop over the rows throws at the first row that is too short. *)
Lemma read_rows_short (cols : nat) (ts after : list token) (vs : list A) :
  conv rbracket = None ->
  map conv ts = map Some vs -> stops conv after -> length ts < cols ->
  forall (before : list (list token)) (lo n : nat) (m : list (list A)),
    Forall (complete_row conv cols) before ->
    length before < n -> lo + length before < length m ->
    read_rows conv zero true cols (seq lo n) m
      (mk_stream (concat (map row_tokens before) ++ lbracket :: ts ++ after) false)
    = Raises runtime_error.
Proof.
  intros Hr Hts Hafter Hshort before.
  induction before as [|row before IH]; intros lo n m Hrows Hn Hm.
  - destruct n as [|n]; [simpl in Hn; lia|]. cbn [map concat app seq read_rows].
    unfold move_to at 1. cbn [failbit rest ignore is_lbracket and_then].
    destruct (lookup_lt_is_Some_2 m lo ltac:(simpl in Hm; lia)) as [r ->].
    pose proof (read_vector_short cols ts after vs r Hts Hafter Hshort) as Hfail.
    destruct (read_vector conv zero cols r _) as [r' iss2]. simpl in Hfail.
    unfold move_to. by rewrite Hfail.
  - destruct n as [|n]; [simpl in Hn; lia|].
    apply Forall_cons in Hrows as [Hrow Hrows].
    cbn [map concat seq read_rows]. unfold row_tokens at 1.
    cbn [app]. unfold move_to at 1. cbn [failbit rest ignore is_lbracket and_then].
    destruct (lookup_lt_is_Some_2 m lo ltac:(simpl in Hm; lia)) as [r ->].
    rewrite <- !app_assoc. cbn [app].
    pose proof (read_vector_complete cols row
                  (rbracket :: concat (map row_tokens before) ++ lbracket :: ts ++ after)
                  r Hrow Hr) as Hnext.
    destruct (read_vector conv zero cols r _) as [r' iss2]. simpl in Hnext. subst iss2.
    unfold move_to at 1. cbn [failbit rest ignore is_rbracket and_then].
    apply IH; [done|simpl in Hn; lia|].
    rewrite length_insert. simpl in Hm. lia.
Qed.

End Values.

End ScenarioLinesFacts.

(** ** The M/M/c queue *)

Module MMcFacts.
Import Real Float MMc.

Lemma Qmult_comm_eq (a b : Q) : (a * b)%Q = (b * a)%Q.
Proof. unfold Qmult. by rewrite Z.mul_comm, Pos.mul_comm. Qed.

Lemma rmul_comm (x y : real_t) : rmul x y = rmul y x.
Proof. destruct x, y; simpl; try done. by rewrite Qmult_comm_eq. Qed.

(** The loop of [Erlang] computes what [recursiveErlang] returns. *)
Lemma Erlang_loop (rho : real_t) (c : nat) :
  for_range 1 (c + 1)
    (fun j pb => rdiv (rmul rho pb) (radd (of_int j) (rmul pb rho))) (Fin 1)
  = recursiveErlang c rho.
Proof.
  induction c as [|c IH]; [done|].
  replace (S c + 1) with (c + 1 + 1) by lia. rewrite for_range_snoc by lia.
  rewrite IH. replace (c + 1) with (S c) by lia. cbn [recursiveErlang].
  by rewrite (rmul_comm (recursiveErlang c rho) rho).
Qed.

Lemma Erlang_solveErlangC (m : MMc) (c : nat) : Erlang m c = solveErlangC m c.
Proof. unfold Erlang, solveErlangC. cbn zeta. by rewrite Erlang_loop. Qed.

(** The loop of [computeQueueParameters] stops at the first number of
    servers above [n] whose delay is not definitely greater than
    [d_max]. *)
Lemma queue_loop_spec (fuel : nat) (iterative : bool) :
  forall (m : MMc) (d : real_t) (n n' : nat) (m' : MMc),
    queue_loop fuel iterative m d n = Some (n', m') ->
    n <= n' /\
    lambda m' = lambda m /\ mu m' = mu m /\ d_max m' = d_max m /\ prec m' = prec m /\
    delay m' = delay m ++ map (fun c => (Erlang m c).2) (seq (n + 1) (n' - n)) /\
    (forall c, n < c < n' ->
       definitely_greater_tol (Erlang m c).2 (d_max m) (prec m) = true) /\
    (n < n' ->
       definitely_greater_tol d (d_max m) (prec m) = true /\
       definitely_greater_tol (Erlang m n').2 (d_max m) (prec m) = false) /\
    (n' = n -> definitely_greater_tol d (d_max m) (prec m) = false).
Proof.
  induction fuel as [|fuel IH]; intros m d n n' m'; [done|].
  cbn [queue_loop].
  destruct (definitely_greater_tol d (d_max m) (prec m)) eqn:Ed.
  - cbn zeta.
    assert ((if iterative then Erlang m (n + 1) else solveErlangC m (n + 1))
            = Erlang m (n + 1)) as ->.
    { destruct iterative; [done|]. by rewrite Erlang_solveErlangC. }
    intros H. apply IH in H as (Hle & Hl & Hm & Hd & Hp & Hdelay & Hbefore & Hlast & Hsame).
    cbn [lambda mu d_max prec delay push_delay] in *.
    split; [lia|]. repeat split; try done.
    + rewrite Hdelay, <- app_assoc. f_equal.
      replace (n' - n) with (S (n' - (n + 1))) by lia.
      cbn [seq map app]. by replace (n + 1 + 1) with (S (n + 1)) by lia.
    + intros c Hc. destruct (decide (c = n + 1)) as [->|Hne].
      * destruct (decide (n + 1 = n')) as [Heq|Hlt]; [lia|].
        by destruct Hlast as [Hlast _]; [lia|].
      * apply Hbefore. lia.
    + destruct (decide (n' = n + 1)) as [->|Hne].
      * by apply Hsame.
      * by destruct Hlast as [_ Hlast]; [lia|].
    + lia.
  - intros [= <- <-]. split; [done|]. repeat split; try done; try lia.
    by rewrite Nat.sub_diag, app_nil_r.
Qed.

Lemma rdiv_fin (a b : Q) : ~ (b == 0)%Q -> rdiv (Fin a) (Fin b) = Fin (a / b).
Proof.
  intros H. unfold rdiv. destruct (Qeq_bool b 0) eqn:E; [|done].
  by apply Qeq_bool_iff in E.
Qed.

Lemma Qdiv_zero (a b : Q) : (a == 0)%Q -> (a / b == 0)%Q.
Proof. intros H. unfold Qdiv. rewrite H. ring. Qed.

Lemma essentially_greater_equal_zero (r p : Q) :
  (r == 0)%Q -> (0 <= p)%Q ->
  essentially_greater_equal_tol (Fin r) (Fin 1) (Fin p) = false.
Proof.
  intros Hr Hp.
  unfold essentially_greater_equal_tol, definitely_greater_tol, essentially_equal_tol.
  cbn [rle req isnan isinf isfinite orb andb rabs rsub rneg radd].
  assert (Qle_bool r 1 = true) as -> by (apply Qle_bool_iff; lra).
  assert (Qeq_bool r 1 = false) as ->.
  { apply not_true_is_false. intros H. apply Qeq_bool_iff in H. lra. }
  cbn [orb]. unfold rmin. cbn [rlt].
  assert (Qabs r == 0)%Q as Habs by (rewrite Hr; done).
  assert (Qabs (r + - 1) == 1)%Q as Habs1.
  { assert (r + - 1 == - 1)%Q as -> by lra. done. }
  assert (Qltb (Qabs 1) (Qabs r) = false) as ->.
  { apply FloatFacts.Qltb_ge. rewrite Habs. done. }
  cbn [rmul rle]. apply FloatFacts.Qle_bool_gt. rewrite Habs, Habs1. lra.
Qed.

Lemma rmul_fin (a b : Q) : rmul (Fin a) (Fin b) = Fin (a * b).
Proof. done. Qed.

Lemma radd_fin (a b : Q) : radd (Fin a) (Fin b) = Fin (a + b).
Proof. done. Qed.

Lemma rsub_fin (a b : Q) : rsub (Fin a) (Fin b) = Fin (a + - b).
Proof. done. Qed.

(** With no arrivals one server waits for nothing: the delay is the
    service time. *)
Lemma Erlang_idle (l u p : Q) (d : real_t) (ds : list real_t) :
  (l == 0)%Q -> (0 < u)%Q -> (0 <= p)%Q ->
  exists f q, Erlang (mk_MMc (Fin l) (Fin u) d (Fin p) ds) 1 = (Fin f, Fin q) /\
              (q == 1 / u)%Q.
Proof.
  intros Hl Hu Hp. unfold Erlang. cbn [lambda mu prec].
  unfold for_range. cbn [Nat.add Nat.sub seq fold_left].
  change (of_int 1) with (Fin 1).
  assert (~ (u == 0)%Q) as Hu0 by lra.
  rewrite (rdiv_fin l u Hu0).
  assert (l / u == 0)%Q as E0 by (by apply Qdiv_zero).
  remember (l / u)%Q as r0 eqn:Er0. clear Er0.
  rewrite (rdiv_fin r0 1) by lra.
  assert (r0 / 1 == 0)%Q as E1 by (by apply Qdiv_zero).
  remember (r0 / 1)%Q as r1 eqn:Er1. clear Er1.
  rewrite (essentially_greater_equal_zero _ _ E1 Hp).
  rewrite !rmul_fin, !radd_fin.
  rewrite (rdiv_fin (r0 * 1) (1 + 1 * r0)) by lra.
  assert (r0 * 1 / (1 + 1 * r0) == 0)%Q as Epb by (apply Qdiv_zero; lra).
  remember (r0 * 1 / (1 + 1 * r0))%Q as pb eqn:Erpb. clear Erpb.
  rewrite !rmul_fin, !rsub_fin, !radd_fin.
  rewrite (rdiv_fin pb (1 + - r1 + r1 * pb)) by nra.
  assert (pb / (1 + - r1 + r1 * pb) == 0)%Q as Ef by (by apply Qdiv_zero).
  remember (pb / (1 + - r1 + r1 * pb))%Q as f eqn:Erf. clear Erf.
  rewrite (rdiv_fin f (1 * u + - l)) by lra.
  rewrite (rdiv_fin 1 u Hu0). rewrite radd_fin.
  eexists _, _. split; [done|].
  rewrite (Qdiv_zero f _ Ef). ring.
Qed.

(** An infinite delay is definitely greater than [d] exactly when [d] is
    finite, at a tolerance that is not negative. *)
Lemma infinity_definitely_greater (d : real_t) (p : Q) :
  (0 <= p)%Q -> definitely_greater_tol infinity d (Fin p) = isfinite d.
Proof.
  intros Hp. destruct d as [q| | |]; try done.
  unfold definitely_greater_tol, infinity, rgt.
  cbn [rle isnan isinf isfinite orb andb rabs rsub rneg radd rmax rlt rmul].
  unfold inf_times.
  destruct (Qltb 0 p) eqn:E1; [done|].
  destruct (Qltb p 0) eqn:E2; [|done].
  apply FloatFacts.Qltb_lt in E2. lra.
Qed.

End MMcFacts.

(** * The claims of the specification *)

(** ** Coalition formation *)

Module CoalitionClaims.
Import Real Gtpack Coalition NashStable Experiment Examples.

(** When the optimizer does not solve a coalition that was not visited
    before, [visit] stores [-numeric_limits<RealT>::min()] in the game,
    leaves the value of the record at the NaN of its constructor, and leaves
    its payoffs empty. *)
Lemma visit_unsolved
    (opt_solver : list nat -> list nat -> vm_allocation_t)
    (find_core_empty : subgame -> bool)
    (shapley_value : subgame -> gmap nat real_t)
    (belongs_to_core : subgame -> gmap nat real_t -> bool)
    (e : experiment_t) (vm_svcs : list nat) (coalition_duration : Q)
    (coal_fps : list nat) (st : analysis) :
  solved (opt_solver (coal_fns_of e coal_fps) (coal_vms_of e vm_svcs coal_fps)) = false ->
  visited_coalitions st !! make_coalition_id coal_fps = None ->
  let st' := visit opt_solver find_core_empty shapley_value belongs_to_core
               e vm_svcs coalition_duration coal_fps st in
  Gtpack.value (game st') (make_coalition_id coal_fps) = Fin (- numeric_limits_min) /\
  exists info, visited_coalitions st' !! make_coalition_id coal_fps = Some info /\
    value info = quiet_NaN /\ payoffs info = ∅.
Proof.
  intros Hs Hnew. unfold visit. rewrite Hs. cbv zeta.
  cbn [game visited_coalitions]. split.
  - apply ValueFacts.value_set_value.
  - eexists. split.
    + rewrite !ValueFacts.lookup_update. reflexivity.
    + rewrite Hnew. by split.
Qed.

(** C1 (at the failing input). In the trigger over two providers whose
    pooled placement the optimizer does not solve, the value stored in the
    game for the grand coalition (identifier 3) is [-2^-1022], which is not
    the negative infinity, the value of its record is NaN, and its payoff
    map is empty. *)
Theorem unsolved_coalition_sentinel :
  exists st info,
    infeasible_enumeration = Ok st /\
    visited_coalitions st !! 3%N = Some info /\
    solved (vm_allocation info) = false /\
    Gtpack.value (game st) 3 = Fin (- (1 # 2 ^ 1022)) /\
    Gtpack.value (game st) 3 <> rneg infinity /\
    value info = quiet_NaN /\
    value info <> rneg infinity /\
    payoffs info = ∅.
Proof.
  unfold infeasible_enumeration.
  eexists. eexists. split; [vm_compute; reflexivity|].
  split; [vm_compute; reflexivity|].
  repeat split; try (vm_compute; reflexivity); vm_compute; discriminate.
Qed.

(** C2 (at the failing input). In the trigger over two providers whose
    pooled placement the optimizer does not solve while each provider alone
    is served, [std::out_of_range] leaves [analyze_coalitions]: the check
    of the partition [{{0,1}}] reads the payoff of provider 0 in the
    unsolved grand coalition with [payoffs.at(pid)]. *)
Theorem infeasible_coalition_throws :
  infeasible_trigger = Throws out_of_range.
Proof. vm_compute. reflexivity. Qed.



(** C4. For a coalition whose optimizer call returns [solved = true] with a
    finite objective, the value stored in the game and in the record of the
    coalition is [(revenue − cost) · Δt]: the revenue is the sum of the
    service revenues over the services of the members, each counted once,
    the cost is the objective minus the coalition costs of the members when
    there are several of them and the objective when there is one. *)
Theorem solved_coalition_value
    (opt_solver : list nat -> list nat -> vm_allocation_t)
    (find_core_empty : subgame -> bool)
    (shapley_value : subgame -> gmap nat real_t)
    (belongs_to_core : subgame -> gmap nat real_t -> bool)
    (e : experiment_t) (vm_svcs : list nat) (coalition_duration : Q)
    (coal_fps : list nat) (st : analysis) (objective : Q) :
  NoDup coal_fps ->
  solved (opt_solver (coal_fns_of e coal_fps) (coal_vms_of e vm_svcs coal_fps)) = true ->
  objective_value (opt_solver (coal_fns_of e coal_fps) (coal_vms_of e vm_svcs coal_fps))
    = Fin objective ->
  exists v info,
    Gtpack.value
      (game (visit opt_solver find_core_empty shapley_value belongs_to_core
               e vm_svcs coalition_duration coal_fps st))
      (make_coalition_id coal_fps) = Fin v /\
    visited_coalitions
      (visit opt_solver find_core_empty shapley_value belongs_to_core
         e vm_svcs coalition_duration coal_fps st)
      !! make_coalition_id coal_fps = Some info /\
    value info = Fin v /\
    (v == (revenue_spec e coal_fps - cost_spec e objective coal_fps) * coalition_duration)%Q /\
    NoDup (coal_svcs_of e coal_fps) /\
    (forall svc, In svc (coal_svcs_of e coal_fps) <->
                 svc < num_svcs_ e /\ In (vget (svc_fps_ e) svc) coal_fps).
Proof.
  intros Hnd Hs Hobj.
  destruct (ValueFacts.profit_of_spec e coalition_duration objective _ coal_fps Hobj)
    as (v & Hv & Heq).
  unfold visit. rewrite Hs. cbv zeta. rewrite Hv.
  exists v.
  set (cid := make_coalition_id coal_fps).
  set (visited1 := update cid (with_value (Fin v)) _).
  assert (exists info1, visited1 !! cid = Some info1 /\ value info1 = Fin v) as (info1 & H1 & Hv1).
  { eexists. split; [apply ValueFacts.lookup_update|done]. }
  set (visited2 := if find_core_empty _ then _ else _).
  assert (exists info2, visited2 !! cid = Some info2 /\ value info2 = Fin v) as (info2 & H2 & Hv2).
  { subst visited2. destruct (find_core_empty _).
    - eexists. split; [apply ValueFacts.lookup_update|].
      rewrite ValueFacts.lookup_update, H1. done.
    - eexists. split; [apply ValueFacts.lookup_update|]. rewrite H1. done. }
  set (visited3 := update cid (with_payoffs _) visited2).
  assert (exists info3, visited3 !! cid = Some info3 /\ value info3 = Fin v) as (info3 & H3 & Hv3).
  { eexists. split; [apply ValueFacts.lookup_update|]. rewrite H2. done. }
  rewrite H3.
  assert (exists info,
            (if negb (core_empty info3)
             then update cid (with_payoffs_in_core
                                (belongs_to_core (set_value cid (Fin v) (game st), coal_fps)
                                   (shapley_value (set_value cid (Fin v) (game st), coal_fps))))
                    visited3
             else visited3) !! cid = Some info /\ value info = Fin v) as (info & H4 & Hv4).
  { destruct (negb (core_empty info3)).
    - eexists. split; [apply ValueFacts.lookup_update|]. rewrite H3. done.
    - by exists info3. }
  exists info. simpl.
  split; [apply ValueFacts.value_set_value|].
  split; [exact H4|]. split; [done|]. split; [done|].
  split; [by apply ValueFacts.NoDup_coal_svcs|].
  apply ValueFacts.elem_of_coal_svcs.
Qed.

(** The grand coalition of two providers, solved at an objective of 2. *)
Lemma solved_coalition_value_witness :
  exists v info,
    Gtpack.value
      (game (visit all_feasible core_nonempty shapley_two in_core
               two_fps two_vms 100 [0; 1] (initial_analysis two_fps)))
      (make_coalition_id [0; 1]) = Fin v /\
    visited_coalitions
      (visit all_feasible core_nonempty shapley_two in_core
         two_fps two_vms 100 [0; 1] (initial_analysis two_fps))
      !! make_coalition_id [0; 1] = Some info /\
    value info = Fin v /\
    (v == (revenue_spec two_fps [0%nat; 1%nat]
           - cost_spec two_fps 2 [0%nat; 1%nat]) * 100)%Q /\
    NoDup (coal_svcs_of two_fps [0; 1]) /\
    (forall svc, In svc (coal_svcs_of two_fps [0; 1]) <->
                 svc < num_svcs_ two_fps /\ In (vget (svc_fps_ two_fps) svc) [0; 1]).
Proof.
  apply (solved_coalition_value all_feasible core_nonempty shapley_two in_core
           two_fps two_vms 100 [0; 1] (initial_analysis two_fps) 2).
  - by apply (bool_decide_unpack (NoDup [0; 1])).
  - reflexivity.
  - reflexivity.
Defined.

(** C10. In a trigger over [n] providers, [1 <= n <= 64], the enumeration
    of the coalitions ends, and when it does [visited_coalitions] has
    [2^n - 1] entries, whose keys are exactly the identifiers of the
    non-empty sets of providers; hence [visited_coalitions.at(cid)] succeeds
    for the identifier of every non-empty set of providers. *)
Theorem visited_coalitions_complete
    (opt_solver : list nat -> list nat -> vm_allocation_t)
    (find_core_empty : subgame -> bool)
    (shapley_value : subgame -> gmap nat real_t)
    (belongs_to_core : subgame -> gmap nat real_t -> bool)
    (e : experiment_t) (vm_svcs : list nat) (coalition_duration : Q) :
  fps_ e = seq 0 (num_fps e) ->
  1 <= num_fps e <= 64 ->
  exists fuel st,
    enumerate_coalitions opt_solver find_core_empty shapley_value belongs_to_core
      e vm_svcs coalition_duration fuel = Ok st /\
    N.of_nat (size (visited_coalitions st)) = (2 ^ N.of_nat (num_fps e) - 1)%N /\
    (forall cid, is_Some (visited_coalitions st !! cid) <->
       exists players, players <> [] /\ (forall p, In p players -> p < num_fps e) /\
         cid = make_coalition_id players) /\
    (forall players, players <> [] -> (forall p, In p players -> p < num_fps e) ->
       exists info, at_cid (visited_coalitions st) (make_coalition_id players) = Ok info).
Proof.
  intros Hfps Hn.
  pose proof (SubsetFacts.pow2_pos (num_fps e)) as Hpos.
  assert (2 <= 2 ^ N.of_nat (num_fps e))%N as Hpow.
  { destruct (num_fps e) as [|m]; [lia|]. rewrite SubsetFacts.pow2_succ.
    pose proof (SubsetFacts.pow2_pos m). lia. }
  set (k := N.to_nat (2 ^ N.of_nat (num_fps e) - 2)).
  destruct (EnumerationFacts.coalitions_loop_run opt_solver find_core_empty
              shapley_value belongs_to_core e vm_svcs coalition_duration Hfps Hn
              k 1%N false (initial_analysis e))
    as (st & Hrun & Hdom & Hsize).
  { lia. }
  { subst k. lia. }
  { intros c. simpl. rewrite dom_empty_L. intros Hc. by apply not_elem_of_empty in Hc. }
  assert (forall cid, is_Some (visited_coalitions st !! cid) <->
                      (1 <= cid < 2 ^ N.of_nat (num_fps e))%N) as Hkeys.
  { intros cid. rewrite <- elem_of_dom, Hdom. simpl. rewrite dom_empty_L.
    split; [intros [Hc|Hc]; [by apply not_elem_of_empty in Hc|done]|by right]. }
  exists (S (S k)), st. split; [|split; [|split]].
  - unfold enumerate_coalitions, Subset.make.
    assert ((0 <? num_fps e) = true) as -> by (apply Nat.ltb_lt; lia).
    rewrite SubsetFacts.bitset_small by (simpl; lia). simpl. exact Hrun.
  - rewrite Hsize. simpl. rewrite map_size_empty. subst k. lia.
  - intros cid. rewrite Hkeys. split.
    + intros Hc. exists (Subset.positions (num_fps e) cid).
      assert (make_coalition_id (Subset.positions (num_fps e) cid) = cid) as Hid
        by (apply EnumerationFacts.make_coalition_id_positions; lia).
      split; [|split; [|done]].
      * intros Hnil. rewrite Hnil in Hid. simpl in Hid. unfold make_coalition_id in Hid.
        simpl in Hid. lia.
      * intros p Hp. unfold Subset.positions in Hp.
        apply filter_In in Hp as [Hp _]. apply in_seq in Hp. lia.
    + intros (players & Hne & Hlt & ->).
      by apply EnumerationFacts.make_coalition_id_range.
  - intros players Hne Hlt.
    destruct (proj2 (Hkeys (make_coalition_id players))) as [info Hinfo].
    { by apply EnumerationFacts.make_coalition_id_range. }
    exists info. unfold at_cid. by rewrite Hinfo.
Qed.

(** The trigger over the two providers of the examples. *)
Lemma visited_coalitions_complete_witness :
  exists fuel st,
    enumerate_coalitions grand_infeasible core_nonempty shapley_two in_core
      two_fps two_vms 100 fuel = Ok st /\
    N.of_nat (size (visited_coalitions st)) = (2 ^ N.of_nat (num_fps two_fps) - 1)%N /\
    (forall cid, is_Some (visited_coalitions st !! cid) <->
       exists players, players <> [] /\ (forall p, In p players -> p < num_fps two_fps) /\
         cid = make_coalition_id players) /\
    (forall players, players <> [] -> (forall p, In p players -> p < num_fps two_fps) ->
       exists info, at_cid (visited_coalitions st) (make_coalition_id players) = Ok info).
Proof.
  apply (visited_coalitions_complete grand_infeasible core_nonempty shapley_two in_core
           two_fps two_vms 100).
  - reflexivity.
  - simpl. lia.
Defined.

End CoalitionClaims.

(** ** Combinatorics utilities *)

Module IteratorClaims.

(** C9, as stated, fails on the partition iterator over two elements.  From
    the state the constructor builds, [++] then [--] leads to the first
    partition with [has_prev()] true, not false; from the last partition
    with [has_next()] true, [++] clears [has_next()] without moving and [--]
    then moves to the partition before. *)
Lemma iterators_round_trip_counterexample :
  Partition.make 2 true = Some (Partition.mk_partition 2 [0; 0] [0; 0] false true) /\
  Partition.incr (Partition.mk_partition 2 [0; 0] [0; 0] false true)
    = Some (Partition.mk_partition 2 [0; 1] [0; 1] true true) /\
  Partition.decr (Partition.mk_partition 2 [0; 1] [0; 1] true true)
    = Some (Partition.mk_partition 2 [0; 0] [0; 0] true true) /\
  Partition.incr (Partition.mk_partition 2 [0; 1] [0; 1] true true)
    = Some (Partition.mk_partition 2 [0; 1] [0; 1] true false) /\
  Partition.decr (Partition.mk_partition 2 [0; 1] [0; 1] true false)
    = Some (Partition.mk_partition 2 [0; 0] [0; 0] true true) /\
  ~ (forall n p, Partition.reachable n p -> Partition.has_next p = true ->
       exists p', Partition.incr p = Some p' /\ Partition.decr p' = Some p).
Proof.
  repeat (split; [reflexivity|]).
  intros Hclaim.
  destruct (Hclaim 2 (Partition.mk_partition 2 [0; 0] [0; 0] false true))
    as (p' & Hincr & Hdecr).
  - by apply (Partition.reachable_make 2 true).
  - reflexivity.
  - vm_compute in Hincr. injection Hincr as <-.
    vm_compute in Hdecr. discriminate.
Qed.

(** What [operator--] of the subset iterator leaves in [has_next_]: the
    comparison of the bit mask with the number of elements.  Over two
    elements, from the subset [{1}] (mask 2), [++] then [--] comes back to
    the mask 2 with [has_next()] false. *)
Lemma subset_decr_has_next :
  Subset.incr (Subset.mk_subset 2 true 2 true true)
    = Some (Subset.mk_subset 2 true 3 true true) /\
  Subset.decr (Subset.mk_subset 2 true 3 true true)
    = Some (Subset.mk_subset 2 true 2 true false).
Proof. split; reflexivity. Qed.

(** C9 (amended). For every reachable state of the partition iterator in
    which [has_next()] and [has_prev()] are both true: if it is not the last
    partition, [++] then [--] returns the iterator to it, and if it is not
    the first partition, [--] then [++] returns the iterator to it, flags
    included.  For every reachable state of the subset iterator over at most
    64 elements: below the full set and with [has_next()] true, [++] then
    [--] restores the bit mask and leaves [has_prev()] true; above the first
    subset and with [has_prev()] true, [--] steps the bit mask down by one
    and, when [has_next()] holds after it, [++] restores the bit mask with
    [has_prev()] and [has_next()] true. *)
Theorem iterators_round_trip :
  (forall (n : nat) (p : Partition.lexicographic_partition),
     Partition.reachable n p ->
     Partition.has_next p = true -> Partition.has_prev p = true ->
     (Partition.num_subsets p < n ->
      exists p', Partition.incr p = Some p' /\ Partition.decr p' = Some p) /\
     (1 < Partition.num_subsets p ->
      exists p', Partition.decr p = Some p' /\ Partition.incr p' = Some p)) /\
  (forall (n : nat) (e : bool) (s : Subset.lexicographic_subset),
     n <= 64 -> Subset.reachable n e s ->
     (Subset.has_next s = true -> Subset.size s < n ->
      exists s' s'', Subset.incr s = Some s' /\ Subset.decr s' = Some s'' /\
        Subset.bits_ s'' = Subset.bits_ s /\ Subset.has_prev s'' = true) /\
     (Subset.has_prev s = true -> (Subset.lowest e < Subset.bits_ s)%N ->
      exists s', Subset.decr s = Some s' /\
        Subset.bits_ s' = (Subset.bits_ s - 1)%N /\
        (Subset.has_next s' = true ->
         exists s'', Subset.incr s' = Some s'' /\ Subset.bits_ s'' = Subset.bits_ s /\
           Subset.has_prev s'' = true /\ Subset.has_next s'' = true))).
Proof.
  split.
  - intros n p Hreach Hnext Hprev.
    apply PartitionFacts.reachable_wf in Hreach.
    split; intros H.
    + by apply (PartitionFacts.incr_then_decr n).
    + by apply (PartitionFacts.decr_then_incr n).
  - intros n e s Hn Hreach.
    apply SubsetFacts.reachable_inv in Hreach; [|done].
    split.
    + intros Hnext Hsize. by apply (SubsetFacts.subset_incr_then_decr n e).
    + intros Hprev Hfirst. by apply (SubsetFacts.subset_decr_then_incr n e).
Qed.

(** The second of the five partitions of three elements, and the subset
    [{0}] of two elements. *)
Lemma iterators_round_trip_witness :
  (exists p', Partition.incr (Partition.mk_partition 3 [0; 0; 1] [0; 0; 1] true true) = Some p' /\
     Partition.decr p' = Some (Partition.mk_partition 3 [0; 0; 1] [0; 0; 1] true true)) /\
  (exists p', Partition.decr (Partition.mk_partition 3 [0; 0; 1] [0; 0; 1] true true) = Some p' /\
     Partition.incr p' = Some (Partition.mk_partition 3 [0; 0; 1] [0; 0; 1] true true)) /\
  (exists s' s'', Subset.incr (Subset.mk_subset 2 true 1 true true) = Some s' /\
     Subset.decr s' = Some s'' /\ Subset.bits_ s'' = 1%N /\ Subset.has_prev s'' = true).
Proof.
  assert (Partition.reachable 3 (Partition.mk_partition 3 [0; 0; 1] [0; 0; 1] true true)) as Hp.
  { apply (Partition.reachable_incr 3 (Partition.mk_partition 3 [0; 0; 0] [0; 0; 0] false true)).
    - by apply (Partition.reachable_make 3 true).
    - reflexivity. }
  assert (Subset.reachable 2 true (Subset.mk_subset 2 true 1 true true)) as Hs.
  { apply (Subset.reachable_incr 2 true (Subset.mk_subset 2 true 0 false true)).
    - by apply Subset.reachable_make.
    - reflexivity. }
  split; [|split].
  - apply (proj1 iterators_round_trip 3 _ Hp); [reflexivity|reflexivity|vm_compute; lia].
  - apply (proj1 iterators_round_trip 3 _ Hp); [reflexivity|reflexivity|vm_compute; lia].
  - apply (proj2 iterators_round_trip 2 true _ ltac:(lia) Hs); [reflexivity|vm_compute; lia].
Defined.

End IteratorClaims.

(** ** The simulation driver *)

Module DriverClaims.
Import Real Simulator Driver.

(** C5, as stated, fails: with one provider whose coalition-profit
    estimator is done and whose alone-profit estimator is neither done nor
    unstable, after the first of ten replications,
    [check_end_of_simulation()] answers true, so that the loop of [run()]
    is left. *)
Lemma simulation_end_counterexample :
  check_end_of_simulation (experiment three_services) first_replication_over alone_unsettled
    = true /\
  ~ (all_estimators_settled alone_unsettled \/
     max_num_rep_ first_replication_over <= num_rep_ first_replication_over).
Proof.
  split; [reflexivity|].
  intros [H|H].
  - unfold all_estimators_settled in H. simpl in H.
    apply Forall_cons in H as [_ H]. apply Forall_cons in H as [[H|H] _]; discriminate.
  - simpl in H. lia.
Qed.

(** C5, amended: while the simulation runs ([done_] is false until
    [finalize_simulation()]), [check_end_of_simulation()], the condition on
    which [run()] leaves its loop, holds exactly when every
    coalition-profit estimator reports [done()] or [unstable()], or the
    number of replications has reached [max_num_replications]; the
    alone-profit estimators are not read. *)
Theorem simulation_end (cfg : config) (s : simulator_t) (d : state) :
  done_ s = false ->
  (check_end_of_simulation (experiment cfg) s d = true <->
   coal_estimators_settled d \/ max_num_rep_ s <= num_rep_ s).
Proof.
  intros Hrun. unfold check_end_of_simulation. rewrite Hrun. cbn [orb].
  rewrite orb_true_iff, Nat.leb_le. simpl.
  unfold Driver.do_check_end_of_simulation, coal_estimators_settled.
  rewrite ExperimentDriverFacts.check_stats_spec. tauto.
Qed.

Lemma simulation_end_witness :
  done_ first_replication_over = false /\
  (check_end_of_simulation (experiment three_services) first_replication_over alone_unsettled
     = true <->
   coal_estimators_settled alone_unsettled \/
   max_num_rep_ first_replication_over <= num_rep_ first_replication_over).
Proof.
  split; [reflexivity|].
  apply (simulation_end three_services first_replication_over alone_unsettled).
  reflexivity.
Defined.

(** C6, as stated, fails on ties: [do_initialize_replication()] schedules
    the first bursts of the services 0, 1 and 2, in this order and all at
    time 0; the first three events fired are those of the services 0, 2
    and 1. *)
Lemma events_order_counterexample :
  let scheduled := firstn 3 (Driver.do_initialize_replication three_services fresh_state).2 in
  let fired := replication (experiment three_services) 3 fresh_simulator fresh_state in
  map service_of scheduled = [Some 0; Some 1; Some 2] /\
  map fire_time scheduled = [0; 0; 0]%Q /\
  map service_of fired = [Some 0; Some 2; Some 1] /\
  map fire_time fired = [0; 0; 0]%Q.
Proof. vm_compute. repeat split. Qed.

(** C6, amended: when no duration of a workload and no formation interval
    is negative, so that no handler schedules an event before the
    simulated time, the events of a replication are fired in
    non-decreasing fire-time order. *)
Theorem events_order (cfg : config) (fuel : nat) (s : simulator_t) (d : state) :
  forward cfg -> time_ordered (replication (experiment cfg) fuel s d).
Proof.
  intros Hfw.
  apply (DriverFacts.replication_ordered (experiment cfg) good_event).
  - intros d0. by apply ExperimentDriverFacts.experiment_init_forward.
  - intros e now d0 Hgood. by apply ExperimentDriverFacts.experiment_process_forward.
Qed.

Lemma events_order_witness :
  forward three_services /\
  time_ordered (replication (experiment three_services) 8 fresh_simulator fresh_state).
Proof.
  assert (forward three_services) as Hfw.
  { split; [vm_compute; discriminate|].
    repeat constructor. vm_compute. discriminate. }
  split; [exact Hfw|].
  exact (events_order three_services 8 fresh_simulator fresh_state Hfw).
Defined.

End DriverClaims.

(** ** The scenario file *)

Module ScenarioClaims.
Import Scenario.

(** A file without the tables of the virtual machines is accepted, and the
    tables are empty. *)
Lemma make_scenario_vm_tables_missing (counts : nat * nat * nat * nat) :
  exists s,
    make_scenario "scenario.conf" (Some no_vm_tables_file) counts = Parsed s /\
    num_vm_categories s = 1 /\
    vm_cpu_requirements s = [] /\ vm_ram_requirements s = [].
Proof.
  destruct counts as [[[c1 c2] c3] c4].
  eexists. split; [vm_compute; reflexivity|]. by repeat split.
Qed.

(** With more categories of virtual machines than providers the rows are
    written past the end of the table. *)
Lemma make_scenario_vm_tables_overrun (counts : nat * nat * nat * nat) :
  make_scenario "scenario.conf" (Some two_vm_categories_file) counts = Undefined.
Proof. destruct counts as [[[c1 c2] c3] c4]. vm_compute. reflexivity. Qed.

(** C7 fails on the code: [make_scenario] accepts the file [two_fps_file],
    of two providers and one category of virtual machines, whose tables
    are all written as declared, and returns [vm.cpu_requirements] and
    [vm.ram_requirements] of outer length 2, the number of providers,
    with an empty second row; the scenario returned has not the declared
    shape. *)
Theorem make_scenario_vm_tables_shape (counts : nat * nat * nat * nat) :
  exists s,
    make_scenario "scenario.conf" (Some two_fps_file) counts = Parsed s /\
    num_fps s = 2 /\ num_vm_categories s = 1 /\ num_fn_categories s = 1 /\
    vm_cpu_requirements s = [[1 # 2]; []] /\
    vm_ram_requirements s = [[1 # 2]; []] /\
    ~ declared_shape s.
Proof.
  destruct counts as [[[c1 c2] c3] c4].
  eexists. split; [vm_compute; reflexivity|].
  repeat split.
  intros (_ & _ & _ & [Hlen _] & _). simpl in Hlen. discriminate.
Qed.

End ScenarioClaims.

(** ** Properties of the floating-point comparisons *)

Module FloatProperties.
Import Real Float FloatFacts.

(** X1. [definitely_greater(x, y, tol)] holds only of values with
    [x > y], neither of them a NaN, and never in both directions,
    whatever the tolerance. *)
Theorem definitely_greater_sound (x y tol : real_t) :
  definitely_greater_tol x y tol = true ->
  rgt x y = true /\ isnan x = false /\ isnan y = false /\
  definitely_greater_tol y x tol = false.
Proof.
  unfold definitely_greater_tol, rgt.
  destruct x as [a| | |], y as [b| | |]; simpl; try discriminate; try done.
  destruct (Qle_bool a b) eqn:E; [discriminate|]. intros _.
  apply Qle_bool_gt in E.
  assert (Qle_bool b a = true) as -> by (apply Qle_bool_iff; lra).
  repeat split. by apply Qltb_lt.
Qed.

Lemma definitely_greater_sound_witness :
  definitely_greater_tol (Fin 2) (Fin 1) tolerance = true /\
  rgt (Fin 2) (Fin 1) = true /\ isnan (Fin 2) = false /\ isnan (Fin 1) = false /\
  definitely_greater_tol (Fin 1) (Fin 2) tolerance = false.
Proof.
  split; [vm_compute; reflexivity|].
  apply (definitely_greater_sound (Fin 2) (Fin 1) tolerance).
  vm_compute. reflexivity.
Defined.

(** X2. [definitely_less(x, y, tol)] and [definitely_greater(y, x, tol)]
    give the same answer on all values, special ones included. *)
Theorem definitely_less_mirror (x y tol : real_t) :
  definitely_less_tol x y tol = definitely_greater_tol y x tol.
Proof.
  unfold definitely_less_tol, definitely_greater_tol.
  destruct (rle y x) eqn:E; [done|].
  rewrite (orb_comm (isnan x)).
  destruct (isnan y) eqn:Ny; [done|]. destruct (isnan x) eqn:Nx; [done|]. simpl.
  destruct x as [a| | |], y as [b| | |]; try done.
  simpl isinf. simpl isfinite. cbn [andb].
  unfold rgt. apply rlt_compat; [|apply same_refl].
  apply rmul_compat. by apply rmax_comm.
Qed.

(** X3. Of two finite values exactly one of [definitely_less],
    [approximately_equal] and [definitely_greater] holds, at every finite
    tolerance. *)
Theorem finite_trichotomy (a b t : Q) :
  let x := Fin a in
  let y := Fin b in
  let tol := Fin t in
  (definitely_less_tol x y tol = true /\ approximately_equal_tol x y tol = false /\
   definitely_greater_tol x y tol = false) \/
  (definitely_less_tol x y tol = false /\ approximately_equal_tol x y tol = true /\
   definitely_greater_tol x y tol = false) \/
  (definitely_less_tol x y tol = false /\ approximately_equal_tol x y tol = false /\
   definitely_greater_tol x y tol = true).
Proof.
  intros x y tol. subst x y tol.
  unfold definitely_less_tol, approximately_equal_tol, definitely_greater_tol, rgt.
  cbn [isnan isinf isfinite orb andb req rle rabs rsub rneg radd].
  set (m := rmax (Fin (Qabs a)) (Fin (Qabs b))).
  assert (exists c, m = Fin c) as [c ->].
  { subst m. unfold rmax. destruct (rlt _ _); eauto. }
  cbn [rmul rle rlt].
  destruct (Qcompare_spec a b) as [Heq|Hlt|Hgt].
  - right. left.
    assert (Qle_bool b a = true) as -> by (apply Qle_bool_iff; lra).
    assert (Qle_bool a b = true) as -> by (apply Qle_bool_iff; lra).
    assert (Qeq_bool a b = true) as -> by (by apply Qeq_bool_iff).
    done.
  - assert (Qle_bool b a = false) as -> by (apply Qle_bool_gt; lra).
    assert (Qle_bool a b = true) as -> by (apply Qle_bool_iff; lra).
    assert (Qeq_bool a b = false) as ->.
    { apply not_true_is_false. intros H. apply Qeq_bool_iff in H. lra. }
    assert (Qabs (a + - b) == b + - a)%Q as Habs.
    { rewrite Qabs_neg by lra. lra. }
    rewrite (Qle_bool_compat _ (b + - a) _ (c * t) Habs) by reflexivity.
    unfold Qltb. destruct (Qle_bool (b + - a) (c * t)); simpl; tauto.
  - assert (Qle_bool b a = true) as -> by (apply Qle_bool_iff; lra).
    assert (Qle_bool a b = false) as -> by (apply Qle_bool_gt; lra).
    assert (Qeq_bool a b = false) as ->.
    { apply not_true_is_false. intros H. apply Qeq_bool_iff in H. lra. }
    assert (Qabs (a + - b) == a + - b)%Q as Habs.
    { rewrite Qabs_pos by lra. lra. }
    rewrite (Qle_bool_compat _ (a + - b) _ (c * t) Habs) by reflexivity.
    unfold Qltb. destruct (Qle_bool (a + - b) (c * t)); simpl; tauto.
Qed.

(** X4. No value is reported definitely greater than minus infinity, and
    minus infinity is reported definitely less than no value, at the
    default tolerance: the test on the infinities looks at one side
    only. *)
Theorem minus_infinity_not_below (x : real_t) :
  definitely_greater x NegInf = false /\ definitely_less NegInf x = false.
Proof.
  split.
  - destruct x; reflexivity.
  - destruct x; reflexivity.
Qed.

(** X5. At a finite tolerance that is not negative, values that are
    essentially equal are approximately equal, and both relations are
    symmetric. *)
Theorem essentially_approximately (x y : real_t) (t : Q) :
  (0 <= t)%Q ->
  (essentially_equal_tol x y (Fin t) = true ->
   approximately_equal_tol x y (Fin t) = true) /\
  approximately_equal_tol x y (Fin t) = approximately_equal_tol y x (Fin t) /\
  essentially_equal_tol x y (Fin t) = essentially_equal_tol y x (Fin t).
Proof.
  intros Ht. split; [|split].
  - unfold essentially_equal_tol, approximately_equal_tol.
    destruct (req x y); [done|]. destruct (isnan x || isnan y); [done|].
    destruct (isinf x && isinf y); [done|].
    destruct ((isinf x && isfinite y) || (isfinite x && isinf y)); [done|].
    destruct x as [a| | |], y as [b| | |]; try done.
    cbn [rabs rsub rneg radd]. unfold rmin, rmax. cbn [rlt].
    destruct (Qltb (Qabs b) (Qabs a)) eqn:E1, (Qltb (Qabs a) (Qabs b)) eqn:E2;
      cbn [rmul rle]; rewrite !Qle_bool_iff;
      try apply Qltb_lt in E1; try apply Qltb_lt in E2;
      try apply Qltb_ge in E1; try apply Qltb_ge in E2; intros H; nra.
  - unfold approximately_equal_tol.
    assert (req x y = req y x) as ->.
    { destruct x as [a| | |], y as [b| | |]; try done. simpl.
      destruct (Qeq_bool a b) eqn:E; symmetry.
      - apply Qeq_bool_iff in E. apply Qeq_bool_iff. lra.
      - apply not_true_is_false. intros H. apply Qeq_bool_iff in H.
        apply Qeq_bool_neq in E. apply E. lra. }
    destruct (req y x); [done|].
    rewrite (orb_comm (isnan x)). destruct (isnan y) eqn:Ny; [done|].
    destruct (isnan x) eqn:Nx; [done|]. cbn [orb].
    rewrite (andb_comm (isinf x)). destruct (isinf y && isinf x); [done|].
    destruct x as [a| | |], y as [b| | |]; try done.
    cbn [isinf isfinite andb orb].
    apply rle_compat; [apply rabs_sub_comm|].
    apply rmul_compat. by apply rmax_comm.
  - unfold essentially_equal_tol.
    assert (req x y = req y x) as ->.
    { destruct x as [a| | |], y as [b| | |]; try done. simpl.
      destruct (Qeq_bool a b) eqn:E; symmetry.
      - apply Qeq_bool_iff in E. apply Qeq_bool_iff. lra.
      - apply not_true_is_false. intros H. apply Qeq_bool_iff in H.
        apply Qeq_bool_neq in E. apply E. lra. }
    destruct (req y x); [done|].
    rewrite (orb_comm (isnan x)). destruct (isnan y) eqn:Ny; [done|].
    destruct (isnan x) eqn:Nx; [done|]. cbn [orb].
    rewrite (andb_comm (isinf x)). destruct (isinf y && isinf x); [done|].
    destruct x as [a| | |], y as [b| | |]; try done.
    cbn [isinf isfinite andb orb].
    apply rle_compat; [apply rabs_sub_comm|].
    apply rmul_compat. by apply rmin_comm.
Qed.

Lemma essentially_approximately_witness :
  (0 <= 100 * epsilon)%Q /\
  (essentially_equal_tol (Fin 1) (Fin (1 + epsilon)) (Fin (100 * epsilon)) = true ->
   approximately_equal_tol (Fin 1) (Fin (1 + epsilon)) (Fin (100 * epsilon)) = true) /\
  approximately_equal_tol (Fin 1) (Fin (1 + epsilon)) (Fin (100 * epsilon))
    = approximately_equal_tol (Fin (1 + epsilon)) (Fin 1) (Fin (100 * epsilon)) /\
  essentially_equal_tol (Fin 1) (Fin (1 + epsilon)) (Fin (100 * epsilon))
    = essentially_equal_tol (Fin (1 + epsilon)) (Fin 1) (Fin (100 * epsilon)).
Proof.
  assert (0 <= 100 * epsilon)%Q as H by (vm_compute; discriminate).
  split; [exact H|].
  exact (essentially_approximately (Fin 1) (Fin (1 + epsilon)) (100 * epsilon) H).
Defined.

End FloatProperties.

(** ** Properties of the partition iterators *)

Module PartitionProperties.
Import Partition PartitionInv PartitionOps.

(** X6. In every state that the constructor, [operator++] and
    [operator--] lead to, [integrity_check()] passes and [kappa_] is a
    restricted growth string. *)
Theorem partition_integrity (n : nat) (p : lexicographic_partition) :
  reachable n p -> integrity_check p = true /\ rgs n (kappa_ p).
Proof.
  intros H. apply PartitionFacts.reachable_wf in H as [Hn W].
  split.
  - unfold integrity_check. rewrite Hn. by apply (PartitionOpsFacts.wf_integrity n).
  - by apply (PartitionOpsFacts.wf_rgs n _ (M_ p)).
Qed.

Lemma partition_integrity_witness :
  integrity_check (mk_partition 3 [0; 0; 1] [0; 0; 1] true true) = true /\
  rgs 3 [0; 0; 1].
Proof.
  apply (partition_integrity 3 (mk_partition 3 [0; 0; 1] [0; 0; 1] true true)).
  apply (reachable_incr 3 (mk_partition 3 [0; 0; 0] [0; 0; 0] false true)).
  - by apply (reachable_make 3 true).
  - reflexivity.
Defined.

(** X7. In every such state [operator()] applied to a vector of [n]
    elements returns [num_subsets()] blocks, none of them empty, which
    together hold the elements of the vector, each once; on a vector of
    another size it throws. *)
Theorem partition_blocks {A : Type} (n : nat) (p : lexicographic_partition) (v : list A) :
  reachable n p ->
  (length v = n ->
   exists blocks, apply p v = Some blocks /\ blocks_of (num_subsets p) v blocks) /\
  (length v <> n -> apply p v = None).
Proof.
  intros H. apply PartitionFacts.reachable_wf in H as [Hn W].
  unfold apply. rewrite Hn. split; intros Hv.
  - apply Nat.eqb_eq in Hv as Hv'. rewrite Hv'. eexists. split; [done|].
    apply (PartitionOpsFacts.apply_rgs_blocks n _ _ (M_ p)); try done.
    unfold num_subsets. by rewrite Hn.
  - apply Nat.eqb_neq in Hv. by rewrite Hv.
Qed.

Lemma partition_blocks_witness :
  (length [10; 20; 30] = 3 ->
   exists blocks,
     apply (mk_partition 3 [0; 0; 1] [0; 0; 1] true true) [10; 20; 30] = Some blocks /\
     blocks_of (num_subsets (mk_partition 3 [0; 0; 1] [0; 0; 1] true true))
       [10; 20; 30] blocks) /\
  (length [10; 20; 30] <> 3 ->
   apply (mk_partition 3 [0; 0; 1] [0; 0; 1] true true) [10; 20; 30] = None).
Proof.
  apply (partition_blocks 3 (mk_partition 3 [0; 0; 1] [0; 0; 1] true true) [10; 20; 30]).
  apply (reachable_incr 3 (mk_partition 3 [0; 0; 0] [0; 0; 0] false true)).
  - by apply (reachable_make 3 true).
  - reflexivity.
Defined.

(** X8. From a state with fewer than [n] blocks, [operator++] moves to
    the next restricted growth string in lexicographic order: the new
    string is greater than the old one, and every restricted growth string
    greater than the old one is the new one or greater than it. *)
Theorem partition_successor (n : nat) (p p' : lexicographic_partition) :
  reachable n p -> incr p = Some p' -> num_subsets p < n ->
  rgs n (kappa_ p') /\
  lex_lt (kappa_ p) (kappa_ p') /\
  forall c, rgs n c -> lex_lt (kappa_ p) c -> c = kappa_ p' \/ lex_lt (kappa_ p') c.
Proof.
  intros Hreach Hincr Hlast.
  apply PartitionFacts.reachable_wf in Hreach as Hwf.
  pose proof (PartitionFacts.incr_wf n p p' Hwf Hincr) as [_ W'].
  destruct Hwf as [Hn W].
  split; [by apply (PartitionOpsFacts.wf_rgs n _ (M_ p'))|].
  unfold incr in Hincr. destruct (has_next_ p); [|discriminate].
  rewrite Hn in Hincr. unfold num_subsets in Hlast. rewrite Hn in Hlast.
  destruct (PartitionFacts.not_last_scan n _ _ W Hlast) as [r E].
  rewrite E in Hincr.
  apply PartitionFacts.incr_scan_some in E as (i & Hi & Hle & Hgt & ->).
  pose proof (wf_pos _ _ _ W) as Hpos.
  destruct (PartitionOpsFacts.incr_at_successor n i _ _ W ltac:(lia) Hle Hgt) as [H1 H2].
  destruct (incr_at n i (kappa_ p) (M_ p)) as [k m] eqn:Eat.
  injection Hincr as <-. simpl in *. by split.
Qed.

Lemma partition_successor_witness :
  rgs 3 [0; 0; 1] /\
  lex_lt [0; 0; 0] [0; 0; 1] /\
  forall c, rgs 3 c -> lex_lt [0; 0; 0] c -> c = [0; 0; 1] \/ lex_lt [0; 0; 1] c.
Proof.
  apply (partition_successor 3 (mk_partition 3 [0; 0; 0] [0; 0; 0] false true)
           (mk_partition 3 [0; 0; 1] [0; 0; 1] true true)).
  - by apply (reachable_make 3 true).
  - reflexivity.
  - vm_compute. lia.
Defined.

(** X9. In a state with [n] blocks, [operator++] does not move: the
    string is [0, 1, .., n-1], it stays, and [has_next()] is false
    after the call. *)
Theorem partition_last (n : nat) (p p' : lexicographic_partition) :
  reachable n p -> incr p = Some p' -> num_subsets p = n ->
  kappa_ p = seq 0 n /\ kappa_ p' = kappa_ p /\ has_next p' = false.
Proof.
  intros Hreach Hincr Hlast.
  apply PartitionFacts.reachable_wf in Hreach as [Hn W].
  pose proof (wf_pos _ _ _ W) as Hpos.
  pose proof (wf_length_kappa _ _ _ W) as Lk.
  unfold num_subsets in Hlast. rewrite Hn in Hlast.
  assert (forall j, j < n -> vget (M_ p) j = j) as HM.
  { intros j Hj.
    pose proof (PartitionFacts.wf_M_le n _ _ W j Hj) as Hle.
    assert (forall d, j + d < n -> vget (M_ p) (j + d) <= vget (M_ p) j + d) as Hup.
    { induction d as [|d IH]; intros Hd; [rewrite Nat.add_0_r; lia|].
      destruct (wf_step _ _ _ W (j + S d)) as [Hk Hm]; [lia|].
      replace (j + S d - 1) with (j + d) in * by lia. specialize (IH ltac:(lia)). lia. }
    specialize (Hup (n - 1 - j) ltac:(lia)).
    replace (j + (n - 1 - j)) with (n - 1) in Hup by lia. lia. }
  assert (forall j, j < n -> vget (kappa_ p) j = j) as HK.
  { intros [|j] Hj; [apply (wf_kappa_0 _ _ _ W)|].
    destruct (wf_step _ _ _ W (S j)) as [Hk Hm]; [lia|].
    replace (S j - 1) with j in * by lia.
    rewrite (HM (S j)), (HM j) in * by lia. lia. }
  split.
  { apply (nth_ext _ _ 0 0); [by rewrite length_seq|].
    intros j Hj. rewrite seq_nth by lia. apply HK. lia. }
  unfold incr in Hincr. destruct (has_next_ p); [|discriminate].
  rewrite Hn in Hincr.
  destruct (incr_scan n (n - 1) (kappa_ p) (M_ p)) as [r|] eqn:E.
  - apply PartitionFacts.incr_scan_some in E as (i & Hi & Hle & _).
    rewrite HK, HM in Hle by lia. lia.
  - injection Hincr as <-. simpl. split; [done|].
    unfold has_next. simpl. apply Nat.ltb_ge. lia.
Qed.

Lemma partition_last_witness :
  [0; 1; 2] = seq 0 3 /\ [0; 1; 2] = [0; 1; 2] /\
  has_next (mk_partition 3 [0; 1; 2] [0; 1; 2] false false) = false.
Proof.
  apply (partition_last 3 (mk_partition 3 [0; 1; 2] [0; 1; 2] false true)
           (mk_partition 3 [0; 1; 2] [0; 1; 2] false false)).
  - by apply (reachable_make 3 false).
  - reflexivity.
  - reflexivity.
Defined.

(** X10. In every state of the iterator over the partitions into [k]
    blocks that its constructor, [operator++] and [operator--] lead to,
    both tests of [integrity_check()] pass, [kappa_] is a restricted
    growth string, and [operator()] applied to a vector of [n] elements
    returns exactly [k] blocks, none of them empty, which together hold
    the elements of the vector, each once. *)
Theorem k_partition_integrity {A : Type} (n k : nat) (p : lexicographic_k_partition)
    (v : list A) :
  kreachable n k p ->
  kintegrity_check p = true /\ rgs n (kkappa_ p) /\
  (length v = n -> exists blocks, kapply p v = Some blocks /\ blocks_of k v blocks).
Proof.
  intros H. apply KPartitionFacts.kreachable_wf in H as (Hn & Hk & W & Hkn & Hmax).
  split; [|split].
  - unfold kintegrity_check, knum_subsets. rewrite Hn, Hk.
    rewrite (PartitionOpsFacts.wf_integrity n _ _ W). simpl.
    apply Nat.eqb_eq. lia.
  - by apply (PartitionOpsFacts.wf_rgs n _ (kM_ p)).
  - intros Hv. unfold kapply. rewrite Hn.
    apply Nat.eqb_eq in Hv as Hv'. rewrite Hv'. eexists. split; [done|].
    unfold knum_subsets. rewrite Hk.
    by apply (PartitionOpsFacts.apply_rgs_blocks n _ _ (kM_ p)).
Qed.

Lemma k_partition_integrity_witness :
  kintegrity_check (mk_k_partition 4 2 [0; 0; 1; 0] [0; 0; 1; 1] true true) = true /\
  rgs 4 [0; 0; 1; 0] /\
  (length [10; 20; 30; 40] = 4 ->
   exists blocks,
     kapply (mk_k_partition 4 2 [0; 0; 1; 0] [0; 0; 1; 1] true true) [10; 20; 30; 40]
       = Some blocks /\
     blocks_of 2 [10; 20; 30; 40] blocks).
Proof.
  apply (k_partition_integrity 4 2
           (mk_k_partition 4 2 [0; 0; 1; 0] [0; 0; 1; 1] true true) [10; 20; 30; 40]).
  apply (kreachable_incr 4 2 (mk_k_partition 4 2 [0; 0; 0; 1] [0; 0; 0; 1] false true)).
  - by apply (kreachable_make 4 2 true).
  - reflexivity.
Defined.

End PartitionProperties.

(** ** Properties of the subset iterator *)

Module SubsetProperties.
Import Subset SubsetOps.

(** X11. Over [n] elements, [1 <= n <= 64], the loop
    [while (subset.has_next()) next_subset(...)] started from a new
    iterator ends; it yields the subsets of the bit masks
    [first, first + 1, .., 2^n - 1] in this order, [first] being 0 with
    the empty set and 1 without it, and their number is [count()] where
    [count()] is defined. *)
Theorem subset_enumeration {A : Type} (n : nat) (e : bool) (v : list A) :
  1 <= n <= 64 -> length v = n ->
  exists s0 fuel l,
    make n e = Some s0 /\ enumerate fuel v s0 = Some l /\
    N.of_nat (length l) = (2 ^ N.of_nat n - lowest e)%N /\
    (forall j, j < length l -> l !! j = Some (subset_at v (lowest e + N.of_nat j))) /\
    (n <= 30 -> count s0 = Some (N.of_nat (length l))).
Proof.
  intros Hn Hv.
  pose proof (SubsetFacts.lowest_small n e ltac:(lia)) as Hlow.
  set (k := N.to_nat (2 ^ N.of_nat n - 1 - lowest e)).
  exists (mk_subset n e (lowest e) false true), (S (S k)), 
    (map (fun j => subset_at v (lowest e + N.of_nat j)) (seq 0 (S k))).
  split; [|split; [|split; [|split]]].
  - unfold make. assert ((0 <? n) = true) as -> by (apply Nat.ltb_lt; lia).
    by rewrite SubsetFacts.bitset_small by lia.
  - apply (SubsetOpsFacts.enumerate_run n); try done; lia.
  - rewrite length_map, length_seq. subst k. lia.
  - intros j Hj. rewrite length_map, length_seq in Hj.
    rewrite list_lookup_fmap, lookup_seq_lt by done. done.
  - intros H30. unfold count. cbn [n_ empty_set_].
    assert ((n <? 31) = true) as -> by (apply Nat.ltb_lt; lia).
    rewrite length_map, length_seq. f_equal. subst k. destruct e; simpl in *; lia.
Qed.

Lemma subset_enumeration_witness :
  1 <= 2 <= 64 /\ length [10; 20] = 2 /\
  exists s0 fuel l,
    make 2 false = Some s0 /\ enumerate fuel [10; 20] s0 = Some l /\
    N.of_nat (length l) = (2 ^ N.of_nat 2 - lowest false)%N /\
    (forall j, j < length l ->
       l !! j = Some (subset_at [10; 20] (lowest false + N.of_nat j))) /\
    (2 <= 30 -> count s0 = Some (N.of_nat (length l))).
Proof.
  assert (1 <= 2 <= 64) as Hn by lia.
  split; [exact Hn|]. split; [reflexivity|].
  exact (subset_enumeration 2 false [10; 20] Hn eq_refl).
Defined.

(** X12. In every state that the constructor, [operator++] and
    [operator--] lead to, over at most 64 elements, [operator()] applied
    to a vector of [n] elements returns [size()] of them, in the order of
    the vector, [size()] is at most [n], and [operator()()] returns
    [size()] positions. *)
Theorem subset_members {A : Type} (n : nat) (e : bool) (s : lexicographic_subset)
    (v : list A) :
  n <= 64 -> reachable n e s -> length v = n ->
  exists l, apply s v = Some l /\ sublist l v /\ length l = size s /\
    size s <= n /\ length (members s) = size s.
Proof.
  intros Hn Hreach Hv.
  apply SubsetFacts.reachable_inv in Hreach as (Hsn & _ & _ & _ & Hhi); [|done].
  unfold apply, members, size. rewrite Hsn, Hv, Nat.eqb_refl.
  eexists. split; [done|].
  pose proof (SubsetOpsFacts.omap_filter_sublist
                (fun pos => N.testbit (bits_ s) (N.of_nat pos)) v) as [Hsub Hlen].
  rewrite Hv in Hsub, Hlen. cbn zeta in Hsub, Hlen.
  pose proof (SubsetOpsFacts.count_positions n (bits_ s) Hhi) as Hc.
  unfold positions in *.
  split; [exact Hsub|]. split; [lia|]. split; [|exact Hc].
  by destruct (SubsetFacts.count_bound n (bits_ s) Hhi).
Qed.

Lemma subset_members_witness :
  2 <= 64 /\ length [10; 20] = 2 /\
  exists l, apply (mk_subset 2 true 1 true true) [10; 20] = Some l /\
    sublist l [10; 20] /\ length l = size (mk_subset 2 true 1 true true) /\
    size (mk_subset 2 true 1 true true) <= 2 /\
    length (members (mk_subset 2 true 1 true true)) = size (mk_subset 2 true 1 true true).
Proof.
  assert (2 <= 64) as Hn by lia.
  assert (reachable 2 true (mk_subset 2 true 1 true true)) as Hs.
  { apply (reachable_incr 2 true (mk_subset 2 true 0 false true)).
    - by apply reachable_make.
    - reflexivity. }
  split; [exact Hn|]. split; [reflexivity|].
  exact (subset_members 2 true (mk_subset 2 true 1 true true) [10; 20] Hn Hs eq_refl).
Defined.

End SubsetProperties.

(** ** Properties of the Nash-stable partition selector *)

Module NashProperties.
Import Real Gtpack Coalition Experiment NashStable Examples.


(** X14. Every partition that the selector returns is the candidate built
    from a partition of the players of the game into non-empty blocks, and
    each of its coalitions is a visited coalition, the identifier of one
    of these blocks. *)
Theorem selector_candidates (fuel : nat) (game : cooperative_game)
    (visited : gmap N coalition_info_t) (best : list partition_info_t)
    (part : partition_info_t) :
  select fuel game visited = Ok best -> part ∈ best ->
  exists k blocks,
    PartitionOps.blocks_of k (players game) blocks /\
    part = candidate game visited blocks /\
    forall cid, cid ∈ coalitions part ->
      is_Some (visited !! cid) /\ exists b, b ∈ blocks /\ cid = make_coalition_id b.
Proof.
  unfold select. intros H Hin.
  apply NashStableFacts.bind_ok in H as (partition & Hmake & H).
  destruct (Partition.make (num_players game) true) as [p0|] eqn:E; [|discriminate].
  injection Hmake as <-.
  apply PartitionFacts.make_wf in E.
  pose proof (NashCompleteFacts.select_loop_candidates fuel game visited p0 [] best E
                ltac:(constructor) H) as Hall.
  rewrite Forall_forall in Hall.
  destruct (Hall part Hin) as (k & blocks & Hb & ->).
  exists k, blocks. split; [done|]. split; [done|].
  intros cid Hc. by apply NashCompleteFacts.candidate_coalitions in Hc.
Qed.

Lemma selector_candidates_witness :
  exists k blocks,
    PartitionOps.blocks_of k (players (game feasible_analysis)) blocks /\
    mk_partition_info (Fin 1800) [1%N; 2%N] (<[1 := Fin 900]> {[0 := Fin 900]})
      = candidate (game feasible_analysis) (visited_coalitions feasible_analysis) blocks /\
    forall cid,
      cid ∈ coalitions
        (mk_partition_info (Fin 1800) [1%N; 2%N] (<[1 := Fin 900]> {[0 := Fin 900]})) ->
      is_Some (visited_coalitions feasible_analysis !! cid) /\
      exists b, b ∈ blocks /\ cid = make_coalition_id b.
Proof.
  apply (selector_candidates 4 (game feasible_analysis)
           (visited_coalitions feasible_analysis) feasible_best).
  - vm_compute. reflexivity.
  - apply (list_elem_of_lookup_2 _ 1). vm_compute. reflexivity.
Defined.

End NashProperties.

(** ** Properties of the simulator *)

Module SimulatorProperties.
Import Simulator SimulatorRun.

(** X15. Every event fired in a replication, the last one apart, fires
    before the maximum replication duration; when that duration is not
    positive the replication fires no event at all. *)
Theorem replication_horizon {D : Type} (sub : subclass D) (fuel : nat)
    (s : simulator_t) (d : D) :
  (forall i e, replication sub fuel s d !! i = Some e ->
     S i < length (replication sub fuel s d) ->
     (fire_time e < max_rep_len_ s)%Q) /\
  ((max_rep_len_ s <= 0)%Q -> replication sub fuel s d = []).
Proof.
  unfold replication, initialize_replication.
  destruct (do_initialize_replication sub d) as [d0 evs].
  destruct (SimulatorRunFacts.schedule_all_settings evs
              (mk_simulator (max_rep_len_ s) (max_num_rep_ s) (num_rep_ s + 1) 0
                 (done_ s) [])) as ((H1 & _) & H5).
  simpl in H1, H5. split.
  - intros i e Hi Hl. rewrite <- H1.
    by apply (SimulatorRunFacts.fire_events_horizon sub fuel _ d0 i e).
  - intros Hle. destruct fuel as [|fuel]; [done|]. simpl.
    unfold check_end_of_replication. rewrite H1, H5.
    assert (Qle_bool (max_rep_len_ s) 0 = true) as -> by (by apply Qle_bool_iff).
    done.
Qed.

Lemma replication_horizon_witness :
  (fire_time (mk_event 0 Driver.arrival_burst_start_event
                (arrival_burst_event_state 0 10 5))
   < max_rep_len_ Driver.fresh_simulator)%Q.
Proof.
  apply (proj1 (replication_horizon (Driver.experiment Driver.three_services) 8
                  Driver.fresh_simulator Driver.fresh_state) 0).
  - vm_compute. reflexivity.
  - vm_compute. lia.
Defined.

(** X16. When [run()] returns, [done()] holds, the number of replications
    does not exceed the maximum number of replications, which is the
    option [sim_max_num_replications] when it is positive and the value
    the simulator had otherwise, and either that maximum is reached or
    the subclass reports the end of the simulation. *)
Theorem run_bounded {D : Type} (sub : subclass D) (options : nat * Q)
    (do_initialize_simulation do_finalize_replication do_finalize_simulation : D -> D)
    (events fuel : nat) (s s' : simulator_t) (d d' : D) :
  run sub options do_initialize_simulation do_finalize_replication
    do_finalize_simulation events fuel s d = Some (s', d') ->
  done_ s' = true /\
  max_num_rep_ s' = (if 0 <? options.1 then options.1 else max_num_rep_ s) /\
  num_rep_ s' <= max_num_rep_ s' /\
  exists d1, d' = do_finalize_simulation d1 /\
    (max_num_rep_ s' <= num_rep_ s' \/ do_check_end_of_simulation sub d1 = true).
Proof.
  unfold run, initialize_simulation.
  destruct (run_loop _ _ _ _ _ _) as [[s1 d1]|] eqn:E; [|discriminate].
  intros [= <- <-].
  apply SimulatorRunFacts.run_loop_end in E as (K1 & K2 & K3 & K4 & K5).
  unfold apply_options in *.
  cbn [done_ max_num_rep_ num_rep_ set_done] in *.
  assert (forall c (a b : simulator_t) (f : simulator_t -> nat),
            f (if c : bool then a else b) = if c then f a else f b) as Hif
    by (by intros []).
  assert (forall c (a b : simulator_t) (f : simulator_t -> bool),
            f (if c : bool then a else b) = if c then f a else f b) as Hifb
    by (by intros []).
  rewrite !Hif, !Hifb in *.
  cbn [done_ max_num_rep_ num_rep_ set_max_replication_duration set_max_num_replications] in *.
  rewrite !Hif, !Hifb in *.
  cbn [done_ max_num_rep_ num_rep_ set_max_replication_duration set_max_num_replications] in *.
  assert (forall c (x : nat), (if c : bool then x else x) = x) as Hsame by (by intros []).
  assert (forall c (x : bool), (if c : bool then x else x) = x) as Hsameb by (by intros []).
  rewrite ?Hsame, ?Hsameb in *.
  split; [done|]. split; [done|]. split.
  - rewrite K1 in *. apply K5. lia.
  - exists d1. split; [done|].
    unfold check_end_of_simulation in K3. rewrite K2 in K3. simpl in K3.
    apply orb_true_iff in K3 as [K3|K3]; [left; by apply Nat.leb_le|by right].
Qed.

Lemma run_bounded_witness :
  exists s' d',
    two_replications = Some (s', d') /\
    done_ s' = true /\
    max_num_rep_ s' = 2 /\
    num_rep_ s' <= max_num_rep_ s' /\
    exists d1, d' = id d1 /\
      (max_num_rep_ s' <= num_rep_ s' \/
       do_check_end_of_simulation (Driver.experiment Driver.three_services) d1 = true).
Proof.
  eexists. eexists. split; [vm_compute; reflexivity|].
  apply (run_bounded (Driver.experiment Driver.three_services) (2, 20%Q) id id id 100 5
           Driver.fresh_simulator _ unsettled _).
  vm_compute. reflexivity.
Defined.

End SimulatorProperties.

(** ** Properties of the set-up of an experiment *)

Module ExperimentProperties.
Import Real Scenario Setup.

(** X17. A generator built from as many durations as arrival rates, at
    least one, returns the steps in turn and starts again after the last:
    the [j]-th call returns the step [j mod n], and after [k] calls the
    next step is [k mod n]. *)
Theorem workload_cycle (durations arr_rates : list Q) (k : nat) :
  length durations = length arr_rates -> durations <> [] ->
  Workload.calls k (Workload.make durations arr_rates)
  = Some (map (fun j => (nth (j mod length durations) durations 0%Q,
                         nth (j mod length durations) arr_rates 0%Q)) (seq 0 k),
          Workload.mk_generator durations arr_rates (length durations)
            (k mod length durations)).
Proof.
  intros Hl Hne. unfold Workload.make.
  assert (0 < length durations) as Hn by (destruct durations; [done|simpl; lia]).
  rewrite (WorkloadFacts.calls_from durations arr_rates (length durations)) by (done || lia).
  done.
Qed.

Lemma workload_cycle_witness :
  Workload.calls 3 (Workload.make [10%Q; 20%Q] [5%Q; 6%Q])
  = Some (map (fun j => (nth (j mod length [10%Q; 20%Q]) [10%Q; 20%Q] 0%Q,
                         nth (j mod length [10%Q; 20%Q]) [5%Q; 6%Q] 0%Q)) (seq 0 3),
          Workload.mk_generator [10%Q; 20%Q] [5%Q; 6%Q] (length [10%Q; 20%Q])
            (3 mod length [10%Q; 20%Q])).
Proof.
  apply (workload_cycle [10%Q; 20%Q] [5%Q; 6%Q] 3).
  - reflexivity.
  - discriminate.
Defined.

(** X18. When [setup] returns, the providers are [0, .., num_fps - 1];
    [num_fns_] is the length of [fn_fps_] and of [fn_categories_], and the
    FNs of provider [fp] and category [c] are as many as
    [fp_num_fns[fp][c]] declares, none for a pair outside the scenario;
    the same holds of the services and [fp_num_svcs]; and there is one
    workload generator for each service category. *)
Theorem setup_units (scen : scenario_t) (e : experiment_t) :
  setup scen = Some e ->
  fps_ e = seq 0 (num_fps scen) /\
  length (fn_fps_ e) = num_fns_ e /\ length (fn_categories_ e) = num_fns_ e /\
  length (svc_fps_ e) = num_svcs_ e /\ length (svc_categories_ e) = num_svcs_ e /\
  length (wkl_gens_ e) = num_svc_categories scen /\
  (forall fp c,
     count_units (fn_fps_ e) (fn_categories_ e) fp c
     = if decide (fp < num_fps scen /\ c < num_fn_categories scen)
       then declared (fp_num_fns scen) fp c else 0) /\
  (forall fp c,
     count_units (svc_fps_ e) (svc_categories_ e) fp c
     = if decide (fp < num_fps scen /\ c < num_svc_categories scen)
       then declared (fp_num_svcs scen) fp c else 0).
Proof.
  unfold setup.
  destruct (fill_units (fp_num_fns scen) _ _ _) as [[[fn_fps fn_cats] num_fns]|] eqn:E1;
    [|discriminate].
  destruct (fill_units (fp_num_svcs scen) _ _ _) as [[[svc_fps svc_cats] num_svcs]|] eqn:E2;
    [|discriminate].
  destruct (make_generators _ _) as [gens|] eqn:E3; [|discriminate].
  intros [= <-]. cbn [fps_ num_fns_ fn_fps_ fn_categories_ num_svcs_ svc_fps_
                      svc_categories_ wkl_gens_].
  apply SetupFacts.fill_units_count in E1 as [[B1 B2] C1];
    [|apply NoDup_seq|by split].
  apply SetupFacts.fill_units_count in E2 as [[B3 B4] C2];
    [|apply NoDup_seq|by split].
  apply SetupFacts.make_generators_length in E3. rewrite length_seq in E3.
  cbn [fst snd] in *.
  repeat split; try done.
  - intros fp c. rewrite C1. unfold count_units at 1. simpl.
    repeat case_decide; try done; rewrite elem_of_seq in *; lia.
  - intros fp c. rewrite C2. unfold count_units at 1. simpl.
    repeat case_decide; try done; rewrite elem_of_seq in *; lia.
Qed.

Lemma setup_units_witness :
  exists e, setup two_fps_scenario = Some e /\
  fps_ e = seq 0 (num_fps two_fps_scenario) /\
  length (fn_fps_ e) = num_fns_ e /\ length (fn_categories_ e) = num_fns_ e /\
  length (svc_fps_ e) = num_svcs_ e /\ length (svc_categories_ e) = num_svcs_ e /\
  length (wkl_gens_ e) = num_svc_categories two_fps_scenario /\
  (forall fp c,
     count_units (fn_fps_ e) (fn_categories_ e) fp c
     = if decide (fp < num_fps two_fps_scenario /\ c < num_fn_categories two_fps_scenario)
       then declared (fp_num_fns two_fps_scenario) fp c else 0) /\
  (forall fp c,
     count_units (svc_fps_ e) (svc_categories_ e) fp c
     = if decide (fp < num_fps two_fps_scenario /\ c < num_svc_categories two_fps_scenario)
       then declared (fp_num_svcs two_fps_scenario) fp c else 0).
Proof.
  eexists. split; [vm_compute; reflexivity|].
  apply (setup_units two_fps_scenario). vm_compute. reflexivity.
Defined.

(** A file without the line of [svc.workloads] is accepted, and [setup]
    reads [svc_workloads[0]] past the end of the empty table. *)
Lemma setup_without_workloads (counts : nat * nat * nat * nat) :
  exists scen,
    make_scenario "scenario.conf" (Some no_workloads_file) counts = Parsed scen /\
    setup scen = None.
Proof.
  destruct counts as [[[c1 c2] c3] c4].
  eexists. split; [vm_compute; reflexivity|]. vm_compute. reflexivity.
Qed.

(** X19. [setup] reads no table past its end on a scenario that
    [make_scenario] returned, provided that the scenario has a workload
    for each service category, which [make_scenario] does not check. *)
Theorem setup_after_make_scenario (fname : string) (ifs : option (list line))
    (counts : nat * nat * nat * nat) (scen : scenario_t) :
  make_scenario fname ifs counts = Parsed scen ->
  length (svc_workloads scen) = num_svc_categories scen ->
  exists e, setup scen = Some e.
Proof.
  intros Hmk Hw. apply ScenarioFacts.make_scenario_checked in Hmk.
  destruct Hmk as (_ & _ & Hsvcs & Hfns & _).
  unfold setup.
  destruct (SetupFacts.fill_units_defined (fp_num_fns scen) (num_fps scen)
              (num_fn_categories scen) (seq 0 (num_fps scen)) ([], [], 0) Hfns)
    as [[[a b] c] ->].
  { apply Forall_forall. intros fp Hfp. apply elem_of_seq in Hfp. lia. }
  destruct (SetupFacts.fill_units_defined (fp_num_svcs scen) (num_fps scen)
              (num_svc_categories scen) (seq 0 (num_fps scen)) ([], [], 0) Hsvcs)
    as [[[a' b'] c'] ->].
  { apply Forall_forall. intros fp Hfp. apply elem_of_seq in Hfp. lia. }
  destruct (SetupFacts.make_generators_defined (svc_workloads scen)
              (seq 0 (num_svc_categories scen))) as (gens & -> & _).
  { apply Forall_forall. intros i Hi. apply elem_of_seq in Hi. lia. }
  by eexists.
Qed.

Lemma setup_after_make_scenario_witness :
  exists e, setup two_fps_scenario = Some e.
Proof.
  apply (setup_after_make_scenario "scenario.conf" (Some two_fps_file) (0, 0, 0, 0)
           two_fps_scenario).
  - vm_compute. reflexivity.
  - reflexivity.
Defined.

(** X20. Over bursts in the order of their start times and an interval
    that is not empty, the loop of [analyze_coalitions] leaves in
    [max_rate] the greatest arrival rate of the bursts that overlap the
    interval, or 0 when that is greater or there is none; it erases bursts
    only, never reorders them; a burst left in the vector has not stopped
    or not started before the interval stops, and every burst that has not
    stopped by then is left. *)
Theorem burst_scan (start stop : Q) (bursts : list Bursts.burst) :
  Bursts.chronological bursts -> (start < stop)%Q ->
  let r := Bursts.scan start stop bursts 0%Q in
  (0 <= r.1)%Q /\
  (forall b, b ∈ bursts -> Bursts.overlaps start stop b -> (Bursts.arr_rate b <= r.1)%Q) /\
  (r.1 = 0%Q \/
   exists b, b ∈ bursts /\ Bursts.overlaps start stop b /\ Bursts.arr_rate b = r.1) /\
  sublist r.2 bursts /\
  (forall b, b ∈ r.2 ->
     (stop <= Bursts.burst_stop b)%Q \/ (stop <= Bursts.burst_start b)%Q) /\
  (forall b, b ∈ bursts -> (stop <= Bursts.burst_stop b)%Q -> b ∈ r.2).
Proof.
  intros Hch Hlt r.
  destruct (BurstsFacts.scan_spec start stop bursts Hch 0%Q) as (H1 & H2 & H3 & H4 & H5).
  repeat split; try done.
  intros b Hin Hb. by apply BurstsFacts.scan_keeps.
Qed.

Lemma burst_scan_witness :
  let bursts := [(0%Q, 5%Q, 3%Q); (8%Q, 12%Q, 7%Q); (15%Q, 25%Q, 4%Q); (30%Q, 40%Q, 9%Q)] in
  let r := Bursts.scan 10%Q 20%Q bursts 0%Q in
  r = (7%Q, [(15%Q, 25%Q, 4%Q); (30%Q, 40%Q, 9%Q)]) /\
  (forall b, b ∈ bursts -> (20 <= Bursts.burst_stop b)%Q -> b ∈ r.2).
Proof.
  split; [reflexivity|].
  apply (burst_scan 10%Q 20%Q
           [(0%Q, 5%Q, 3%Q); (8%Q, 12%Q, 7%Q); (15%Q, 25%Q, 4%Q); (30%Q, 40%Q, 9%Q)]).
  - intros i j b1 b2 Hij H1 H2.
    destruct i as [|[|[|[|i]]]]; try done; destruct j as [|[|[|[|j]]]]; try done; try lia;
      simpl in H1, H2; injection H1 as <-; injection H2 as <-; vm_compute; discriminate.
  - reflexivity.
Defined.

(** X21. The partition whose payoffs [analyze_coalitions] records when
    not all best partitions are asked for has a value that is not a NaN,
    no best partition has a greater value, and it is one of them as soon
    as one has a value above minus infinity; otherwise it is the default
    partition of no coalition. *)
Theorem max_best_partition_greatest (best_partitions : list Coalition.partition_info_t) :
  let m := BestPartition.max_best_partition best_partitions in
  isnan (Coalition.pvalue m) = false /\
  (forall p, p ∈ best_partitions -> rgt (Coalition.pvalue p) (Coalition.pvalue m) = false) /\
  (m = Coalition.new_partition_info \/ m ∈ best_partitions) /\
  ((exists p, p ∈ best_partitions /\ rgt (Coalition.pvalue p) NegInf = true) ->
   m ∈ best_partitions) /\
  ((forall p, p ∈ best_partitions -> rgt (Coalition.pvalue p) NegInf = false) ->
   m = Coalition.new_partition_info).
Proof.
  intros m.
  destruct (BestPartitionFacts.max_best_fold best_partitions Coalition.new_partition_info)
    as (H1 & H2 & H3 & H4); [done|].
  fold (BestPartition.max_best_partition best_partitions) in H1, H2, H3, H4.
  fold m in H1, H2, H3, H4.
  repeat split; try done.
  - intros (p & Hp & Hgt). destruct H2 as [H2|H2]; [|done].
    specialize (H4 p Hp). rewrite H2 in H4.
    change (Coalition.pvalue Coalition.new_partition_info) with NegInf in H4. congruence.
  - intros Hnone. subst m. by apply BestPartitionFacts.max_best_default.
Qed.

End ExperimentProperties.

(** ** Properties of the scenario file *)

Module ScenarioProperties.
Import Scenario ScenarioKeys.

(** X22. A scenario that [make_scenario] returns has the four counts
    positive and every table that the post-parsing checks cover of the
    shape the counts give. *)
Theorem make_scenario_shapes (fname : string) (ifs : option (list line))
    (counts : nat * nat * nat * nat) (s : scenario_t) :
  make_scenario fname ifs counts = Parsed s ->
  0 < num_fps s /\ 0 < num_fn_categories s /\ 0 < num_svc_categories s /\
  0 < num_vm_categories s /\ checked_shape s.
Proof.
  intros H. pose proof (ScenarioFacts.make_scenario_checked _ _ _ _ H) as Hshape.
  unfold make_scenario in H. destruct (String.eqb fname ""); [done|].
  destruct ifs as [lines|]; [|done].
  destruct (parse_lines lines (default_initialized counts)) as [s0| |]; [|done|done].
  simpl in H. pose proof (ScenarioFacts.post_parse_checked _ _ H) as [-> _].
  apply ScenarioLinesFacts.post_parse_positive in H. tauto.
Qed.

Lemma make_scenario_shapes_witness :
  0 < num_fps Setup.two_fps_scenario /\ 0 < num_fn_categories Setup.two_fps_scenario /\
  0 < num_svc_categories Setup.two_fps_scenario /\
  0 < num_vm_categories Setup.two_fps_scenario /\ checked_shape Setup.two_fps_scenario.
Proof.
  apply (make_scenario_shapes "scenario.conf" (Some two_fps_file) (0, 0, 0, 0)).
  vm_compute. reflexivity.
Defined.

(** X23. An empty line, a comment and a line that starts with none of the
    keys change nothing: the file with such a line and the file without
    it give the same result. *)
Theorem ignored_line (fname : string) (before after : list line) (l : line)
    (counts : nat * nat * nat * nat) :
  skipped l = true \/ known l = false ->
  make_scenario fname (Some (before ++ l :: after)) counts
  = make_scenario fname (Some (before ++ after)) counts.
Proof.
  intros H. unfold make_scenario. destruct (String.eqb fname ""); [done|].
  rewrite !ScenarioLinesFacts.parse_lines_app.
  destruct (parse_lines before (default_initialized counts)) as [s| |]; [|done|done].
  cbn [and_then parse_lines].
  destruct H as [H|H].
  - by rewrite ScenarioLinesFacts.parse_line_skipped.
  - by rewrite ScenarioLinesFacts.parse_line_unknown.
Qed.

Lemma ignored_line_witness :
  make_scenario "scenario.conf"
    (Some (counts_of 2 1 ++ mk_line "seed " (Some [size_lit 5]) ::
           tables (one_column [real_lit (1 # 2)]))) (0, 0, 0, 0)
  = make_scenario "scenario.conf"
      (Some (counts_of 2 1 ++ tables (one_column [real_lit (1 # 2)]))) (0, 0, 0, 0).
Proof.
  apply (ignored_line "scenario.conf" (counts_of 2 1)
           (tables (one_column [real_lit (1 # 2)])) (mk_line "seed " (Some [size_lit 5]))).
  right. reflexivity.
Defined.

(** X24. A line [key = [t1 .. tm] ..] of numerals of [RealT], within the
    range of [double], read into an empty vector of [n] places gives the
    first [n] values when [m >= n] and, when [m < n], the [m] values
    followed by zeros: values in excess are dropped and missing ones are
    zero, with no error. *)
Theorem read_list_values (n : nat) (key : string) (ts after : list token) (vs : list Q) :
  map as_real ts = map Some vs -> in_double_range vs = true -> stops as_real after ->
  read_list as_real 0%Q n [] (list_line key ts after) = Parsed (resize n 0%Q vs).
Proof.
  intros Hts _ Hafter. unfold read_list, list_line, move_to_equals, move_to.
  cbn [body and_then failbit rest ignore is_lbracket].
  f_equal. apply ScenarioLinesFacts.read_vector_values; [|done].
  by apply ScenarioLinesFacts.numerals_values.
Qed.

Lemma read_list_values_witness :
  read_list as_real 0%Q 3 []
    (list_line "fp.electricity_costs " [real_lit (1 # 2)] [rbracket])
  = Parsed [1 # 2; 0%Q; 0%Q] /\
  read_list as_real 0%Q 1 []
    (list_line "svc.max_delays " [real_lit (- (3 # 2)); size_lit 5] [rbracket])
  = Parsed [- (3 # 2)].
Proof.
  split.
  - apply (read_list_values 3 "fp.electricity_costs " [real_lit (1 # 2)]
             [rbracket] [1 # 2]); reflexivity.
  - apply (read_list_values 1 "svc.max_delays " [real_lit (- (3 # 2)); size_lit 5]
             [rbracket] [- (3 # 2); 5%Q]); reflexivity.
Defined.

(** X25. A line that starts with a key and has no ['='] makes
    [make_scenario] throw [runtime_error], whatever follows it, when the
    lines before it were read. *)
Theorem missing_equals (fname : string) (before after : list line) (l : line)
    (counts : nat * nat * nat * nat) (s : scenario_t) :
  String.eqb fname "" = false ->
  parse_lines before (default_initialized counts) = Parsed s ->
  skipped l = false -> known l = true -> body l = None ->
  make_scenario fname (Some (before ++ l :: after)) counts = Raises runtime_error.
Proof.
  intros Hname Hbefore Hs Hk Hb. unfold make_scenario. rewrite Hname.
  rewrite ScenarioLinesFacts.parse_lines_app, Hbefore.
  cbn [and_then parse_lines].
  by rewrite ScenarioLinesFacts.parse_line_no_equals.
Qed.

Lemma missing_equals_witness :
  make_scenario "scenario.conf"
    (Some (counts_of 2 1 ++ mk_line "svc.max_delays [1]" None ::
           tables (one_column [real_lit (1 # 2)]))) (0, 0, 0, 0)
  = Raises runtime_error.
Proof.
  apply (missing_equals "scenario.conf" (counts_of 2 1)
           (tables (one_column [real_lit (1 # 2)])) (mk_line "svc.max_delays [1]" None)
           (0, 0, 0, 0) (default_initialized (2, 1, 1, 1))); reflexivity.
Defined.

(** X26. In a table of [RealT] read with the closing bracket of its
    rows, rows of as many numerals as columns followed by a row of fewer
    numerals make the reader throw [runtime_error], when that row is one
    of those read: a short row is not filled with zeros as a short list
    is. *)
Theorem short_row_rejected (outer rows cols : nat) (m : list (list Q)) (key : string)
    (before : list (list token)) (ts after : list token) (vs : list Q) :
  Forall (complete_row as_real cols) before ->
  map as_real ts = map Some vs -> stops as_real after -> length ts < cols ->
  length before < rows -> length before < outer ->
  read_table as_real 0%Q true outer rows cols m (table_line key before ts after)
  = Raises runtime_error.
Proof.
  intros Hbefore Hts Hafter Hshort Hrows Houter.
  unfold read_table, table_line, move_to_equals, move_to, read_matrix.
  cbn [body and_then failbit rest ignore is_lbracket].
  rewrite (ScenarioLinesFacts.read_rows_short as_real 0%Q cols ts after vs eq_refl Hts
             Hafter Hshort before 0 rows); [done|done|done|].
  rewrite length_resize. lia.
Qed.

Lemma short_row_rejected_witness :
  read_table as_real 0%Q true 2 2 2 []
    (table_line "fp.svc_revenues " [[real_lit 1; real_lit 2]] [real_lit 3]
       [rbracket; rbracket])
  = Raises runtime_error.
Proof.
  apply (short_row_rejected 2 2 2 [] "fp.svc_revenues "
           [[real_lit 1; real_lit 2]] [real_lit 3] [rbracket; rbracket] [3%Q]).
  - constructor; [|constructor]. split; [reflexivity|]. exists [1%Q; 2%Q]. reflexivity.
  - reflexivity.
  - reflexivity.
  - simpl. lia.
  - simpl. lia.
  - simpl. lia.
Defined.

End ScenarioProperties.

(** ** Properties of the M/M/c queue *)

Module QueueProperties.
Import Real Float MMc.

(** X27. [computeQueueParameters] returns the same number of servers and
    records the same delays with the loop of [Erlang] as with the
    recursion of [solveErlangC], on all values. *)
Theorem erlang_strategies_agree (fuel : nat) (m : MMc) :
  computeQueueParameters fuel true m = computeQueueParameters fuel false m.
Proof.
  unfold computeQueueParameters. generalize infinity, 0. revert m.
  induction fuel as [|fuel IH]; intros m d n; [done|].
  cbn [queue_loop]. destruct (definitely_greater_tol d (d_max m) (prec m)); [|done].
  cbn zeta. rewrite <- MMcFacts.Erlang_solveErlangC. apply IH.
Qed.

(** X28. When [computeQueueParameters] returns [n], it has appended the
    delays of 1, .., [n] servers; every number of servers below [n] has a
    delay definitely greater than [d_max] and [n] has not, so [n] is the
    least such number; it returns 0 only when an infinite delay is not
    definitely greater than [d_max], and then [getDelays] throws, while
    otherwise it puts an infinity before the delays. *)
Theorem queue_parameters_least (fuel : nat) (iterative : bool) (m m' : MMc) (n : nat) :
  computeQueueParameters fuel iterative m = Some (n, m') ->
  delay m' = delay m ++ delays_upto m n /\
  (forall c, 1 <= c < n ->
     definitely_greater_tol (Erlang m c).2 (d_max m) (prec m) = true) /\
  (1 <= n -> definitely_greater_tol (Erlang m n).2 (d_max m) (prec m) = false) /\
  (n = 0 -> definitely_greater_tol infinity (d_max m) (prec m) = false) /\
  (delay m = [] ->
   getDelays m' [] = if n =? 0 then None else Some (infinity :: delays_upto m n)).
Proof.
  intros H. apply MMcFacts.queue_loop_spec in H
    as (_ & _ & _ & _ & _ & Hdelay & Hbefore & Hlast & Hnone).
  rewrite Nat.sub_0_r in Hdelay. change (0 + 1) with 1 in Hdelay.
  fold (delays_upto m n) in Hdelay.
  split; [done|]. split; [intros c Hc; apply Hbefore; lia|].
  split; [intros Hn; apply Hlast; lia|]. split; [done|].
  intros Hempty. unfold getDelays. rewrite Hdelay, Hempty. cbn [app].
  unfold delays_upto. rewrite length_map, length_seq.
  destruct n; done.
Qed.

Lemma queue_parameters_least_witness :
  exists m',
    computeQueueParameters 10 true busy = Some (5, m') /\
    delay m' = delay busy ++ delays_upto busy 5 /\
    (forall c, 1 <= c < 5 ->
       definitely_greater_tol (Erlang busy c).2 (d_max busy) (prec busy) = true) /\
    (1 <= 5 -> definitely_greater_tol (Erlang busy 5).2 (d_max busy) (prec busy) = false) /\
    (5 = 0 -> definitely_greater_tol infinity (d_max busy) (prec busy) = false) /\
    (delay busy = [] ->
     getDelays m' [] = if 5 =? 0 then None else Some (infinity :: delays_upto busy 5)).
Proof.
  eexists. split; [vm_compute; reflexivity|].
  apply (queue_parameters_least 10 true busy). vm_compute. reflexivity.
Defined.

(** X29. With an arrival rate of zero, a positive service rate [u]
    whose inverse fits in a [double] and a tolerance that is not negative,
    [computeQueueParameters] returns one server, whose delay is the
    service time [1 / u], whatever the maximum delay asked for. *)
Theorem no_arrivals_one_server (l u dm p : Q) (fuel : nat) (iterative : bool) :
  (l == 0)%Q -> (0 < u)%Q -> (1 / u <= double_max)%Q -> (0 <= p)%Q ->
  let m := make (Fin l) (Fin u) (Fin dm) (Fin p) in
  exists q, (q == 1 / u)%Q /\
    computeQueueParameters (S (S fuel)) iterative m = Some (1, push_delay (Fin q) m).
Proof.
  intros Hl Hu _ Hp m.
  assert (~ (u == 0)%Q) as Hu0 by lra.
  destruct (MMcFacts.Erlang_idle l u p (d_max m) [] Hl Hu Hp) as (f & q & HE & Hq).
  change (mk_MMc (Fin l) (Fin u) (d_max m) (Fin p) []) with m in HE.
  exists q. split; [done|].
  assert (exists x, d_max m = Fin x /\
                    definitely_greater_tol (Fin q) (Fin x) (Fin p) = false)
    as (x & Hx & Hstop).
  { subst m. unfold make. cbn [d_max]. rewrite (MMcFacts.rdiv_fin 1 u Hu0).
    destruct (definitely_less_tol (Fin dm) (Fin (1 / u)) (Fin p)) eqn:E.
    - exists (1 / u)%Q. split; [done|]. unfold definitely_greater_tol. cbn [rle].
      assert (Qle_bool q (1 / u) = true) as -> by (apply Qle_bool_iff; lra). done.
    - exists dm. split; [done|].
      rewrite FloatFacts.definitely_less_greater in E.
      by rewrite (FloatFacts.definitely_greater_compat (Fin q) (Fin (1 / u))). }
  unfold computeQueueParameters. cbn [queue_loop].
  change (prec m) with (Fin p). rewrite Hx.
  change (definitely_greater_tol infinity (Fin x) (Fin p)) with true. cbn iota zeta.
  assert ((if iterative then Erlang m (0 + 1) else solveErlangC m (0 + 1)) = (Fin f, Fin q))
    as ->.
  { destruct iterative; [done|]. by rewrite <- MMcFacts.Erlang_solveErlangC. }
  cbn [snd]. change (d_max (push_delay (Fin q) m)) with (d_max m).
  change (prec (push_delay (Fin q) m)) with (Fin p).
  by rewrite Hx, Hstop.
Qed.

Lemma no_arrivals_one_server_witness :
  exists q, (q == 1 / 2)%Q /\
    computeQueueParameters 2 true (make (Fin 0) (Fin 2) (Fin (1 # 10)) (Fin (1 # 100)))
    = Some (1, push_delay (Fin q) (make (Fin 0) (Fin 2) (Fin (1 # 10)) (Fin (1 # 100)))).
Proof.
  apply (no_arrivals_one_server 0 2 (1 # 10) (1 # 100) 0 true).
  - reflexivity.
  - unfold Qlt. simpl. lia.
  - vm_compute. discriminate.
  - unfold Qle. simpl. lia.
Defined.

(** X30. At a tolerance that is not negative, when
    [computeQueueParameters] returns on an object that holds no delay, it
    returns 0 exactly when [d_max] is not finite (an infinity or a NaN),
    and [getDelays] then throws [std::logic_error] exactly in that
    case. *)
Theorem delays_need_finite_bound (fuel : nat) (iterative : bool) (m m' : MMc) (n : nat)
    (p : Q) (vec : list real_t) :
  prec m = Fin p -> (0 <= p)%Q -> delay m = [] ->
  computeQueueParameters fuel iterative m = Some (n, m') ->
  (n = 0 <-> isfinite (d_max m) = false) /\
  (getDelays m' vec = None <-> isfinite (d_max m) = false).
Proof.
  intros Hprec Hp Hempty H.
  apply MMcFacts.queue_loop_spec in H
    as (_ & _ & _ & _ & _ & Hdelay & _ & Hlast & Hnone).
  rewrite Hprec in Hlast, Hnone.
  rewrite (MMcFacts.infinity_definitely_greater _ _ Hp) in Hlast, Hnone.
  rewrite Nat.sub_0_r, Hempty in Hdelay. cbn [app] in Hdelay.
  assert (n = 0 <-> isfinite (d_max m) = false) as Hn.
  { split; [done|]. intros Hd. destruct n as [|n]; [done|].
    destruct Hlast as [Hlast _]; [lia|]. congruence. }
  split; [done|]. rewrite <- Hn. unfold getDelays. rewrite Hdelay.
  rewrite length_map, length_seq.
  destruct n; [done|]. split; [done|lia].
Qed.

Lemma delays_need_finite_bound_witness :
  exists m',
    computeQueueParameters 10 true busy = Some (5, m') /\
    (5 = 0 <-> isfinite (d_max busy) = false) /\
    (getDelays m' [] = None <-> isfinite (d_max busy) = false).
Proof.
  eexists. split; [vm_compute; reflexivity|].
  apply (delays_need_finite_bound 10 true busy _ 5 (100 * epsilon) []).
  - reflexivity.
  - vm_compute. discriminate.
  - reflexivity.
  - vm_compute. reflexivity.
Defined.

End QueueProperties.
